(** * nostr-viewer: key codec and relay manager

    A shallow embedding of [js/crypto-utils.js] (classes [CryptoUtils] and
    [RelayManager]) together with the properties stated about them.

    Conventions of the embedding:
    - a JavaScript string is a [string] (a sequence of code units below 256);
      the functions work on its [list ascii] of code units;
    - a JavaScript number that only ever holds an integer is a [Z]; the 32-bit
      operators [<<], [>>], [>>>], [|], [&], [^] are written out with their
      wrap-around ([ToInt32], [ToUint32]);
    - a function that can [throw] returns a [result], the error carrying the
      message of the [Error] object;
    - [Map] objects are [gmap]s, arrays are lists ([push] appends at the end). *)

From stdpp Require Import gmap strings list fin_maps.
From Stdlib Require Import ZArith Ascii String List Lia Bool Permutation.
Import ListNotations.

Local Open Scope Z_scope.

(** ** JavaScript primitives *)

Module JS.

Inductive result (A : Type) : Type :=
| Ok (a : A)
| Throw (message : string).
Arguments Ok {A} a.
Arguments Throw {A} message.

Definition bind {A B} (r : result A) (k : A -> result B) : result B :=
  match r with
  | Ok a => k a
  | Throw m => Throw m
  end.

(** Code units of a string literal. *)
Definition chars (s : string) : list ascii := list_ascii_of_string s.
Definition str (l : list ascii) : string := string_of_list_ascii l.

(** [ToInt32] and [ToUint32] of an integer-valued number. *)
Definition ToInt32 (z : Z) : Z := (z + 2 ^ 31) mod 2 ^ 32 - 2 ^ 31.
Definition ToUint32 (z : Z) : Z := z mod 2 ^ 32.

(** [a << n], [a >> n], [a >>> n], [a | b], [a & b], [a ^ b]. *)
Definition shl (a n : Z) : Z := ToInt32 (Z.shiftl (ToInt32 a) (ToUint32 n mod 32)).
Definition sar (a n : Z) : Z := Z.shiftr (ToInt32 a) (ToUint32 n mod 32).
Definition shr (a n : Z) : Z := Z.shiftr (ToUint32 a) (ToUint32 n mod 32).
Definition bor (a b : Z) : Z := ToInt32 (Z.lor (ToInt32 a) (ToInt32 b)).
Definition band (a b : Z) : Z := ToInt32 (Z.land (ToInt32 a) (ToInt32 b)).
Definition bxor (a b : Z) : Z := ToInt32 (Z.lxor (ToInt32 a) (ToInt32 b)).

(** A number that may be [NaN] (the result of [parseInt]). *)
Inductive number : Type :=
| NaN
| Num (z : Z).

Definition numToInt32 (v : number) : Z :=
  match v with
  | NaN => 0
  | Num z => ToInt32 z
  end.

(** [s.startsWith(p)] *)
Fixpoint startsWith (s p : list ascii) : bool :=
  match p, s with
  | [], _ => true
  | _ :: _, [] => false
  | c :: p', d :: s' => if Ascii.eqb c d then startsWith s' p' else false
  end.

(** [s.slice(5, -6)]: from index 5 up to, not including, index
    [max (length - 6) 0]; empty when that end is not beyond the start. *)
Definition slice_5_m6 (s : list ascii) : list ascii :=
  firstn (length s - 6 - 5) (skipn 5 s).

(** [a.slice(1)] on an array. *)
Definition slice_1 {A} (a : list A) : list A := skipn 1 a.

(** [s.indexOf(c)] for a one-character [c]; [-1] when absent. *)
Fixpoint indexOf (s : list ascii) (c : ascii) : Z :=
  match s with
  | [] => -1
  | d :: s' =>
      if Ascii.eqb d c then 0
      else let i := indexOf s' c in if i =? -1 then -1 else i + 1
  end.

(** [s.charCodeAt(i)] for the character found at [i]. *)
Definition charCode (c : ascii) : Z := Z.of_N (N_of_ascii c).

(** [s.padStart(n, '0')] *)
Definition padStart0 (n : nat) (s : list ascii) : list ascii :=
  repeat "0"%char (n - length s) ++ s.

(** [s.replace(/^0x/, '')] *)
Definition strip0x (s : list ascii) : list ascii :=
  match s with
  | "0"%char :: "x"%char :: r => r
  | _ => s
  end.

(** The digit value of a character in radix 16, if it is a digit. *)
Definition hexDigitValue (c : ascii) : option Z :=
  let n := charCode c in
  if (48 <=? n) && (n <=? 57) then Some (n - 48)
  else if (97 <=? n) && (n <=? 102) then Some (n - 87)
  else if (65 <=? n) && (n <=? 70) then Some (n - 55)
  else None.

(** White space and line terminators among the code units below 256. *)
Definition isStrWhiteSpace (c : ascii) : bool :=
  let n := charCode c in
  ((9 <=? n) && (n <=? 13)) || (n =? 32) || (n =? 160).

Fixpoint trimStart (s : list ascii) : list ascii :=
  match s with
  | c :: r => if isStrWhiteSpace c then trimStart r else s
  | [] => []
  end.

(** The value of the longest prefix of radix-16 digits, [None] when that
    prefix is empty. *)
Fixpoint hexDigits (s : list ascii) (acc : option Z) : option Z :=
  match s with
  | c :: r =>
      match hexDigitValue c with
      | Some d => hexDigits r (Some (match acc with Some a => a * 16 + d | None => d end))
      | None => acc
      end
  | [] => acc
  end.

(** [parseInt(s, 16)]: leading white space, a sign, a [0x] or [0X] prefix,
    then the digits. *)
Definition parseInt16 (s : list ascii) : number :=
  let s := trimStart s in
  let '(sign, s) :=
    match s with
    | "-"%char :: r => (-1, r)
    | "+"%char :: r => (1, r)
    | _ => (1, s)
    end in
  let s :=
    match s with
    | "0"%char :: "x"%char :: r => r
    | "0"%char :: "X"%char :: r => r
    | _ => s
    end in
  match hexDigits s None with
  | Some v => Num (sign * v)
  | None => NaN
  end.

Definition hexDigitChar (d : Z) : ascii :=
  nth (Z.to_nat d) (chars "0123456789abcdef") "0"%char.

Fixpoint toHexDigits (fuel : nat) (z : Z) (acc : list ascii) : list ascii :=
  match fuel with
  | O => acc
  | S fuel' =>
      if z <? 16 then hexDigitChar z :: acc
      else toHexDigits fuel' (z / 16) (hexDigitChar (z mod 16) :: acc)
  end.

(** [b.toString(16)] for a non-negative integer [b]. *)
Definition toString16 (b : Z) : list ascii :=
  toHexDigits (S (Z.to_nat (Z.log2 b))) b [].

End JS.

Import JS.

(** ** CryptoUtils *)

Module CryptoUtils.

Definition BECH32_CHARSET : list ascii := chars "qpzry9x8gf2tvdw0s3jn54khce6mua7l".

Definition BECH32_GENERATOR : list Z :=
  [0x3b6a57b2; 0x26508e6d; 0x1ea119fa; 0x3d4233dd; 0x2a1462b3].

(** The first loop of [decodeNpub]: every character to its 5-bit value. *)
Fixpoint decodeChars (data : list ascii) : result (list Z) :=
  match data with
  | [] => Ok []
  | char :: rest =>
      let val := indexOf BECH32_CHARSET char in
      if val =? -1 then Throw (str (chars "Invalid character: " ++ [char]))
      else bind (decodeChars rest) (fun decoded => Ok (val :: decoded))
  end.

(** [while (bits >= 8) { bits -= 8; converted.push((acc >>> bits) & 0xff); }]
    Every iteration lowers [bits], so [bits] iterations of fuel suffice. *)
Fixpoint drain8 (fuel : nat) (acc bits : Z) (converted : list Z) : Z * list Z :=
  match fuel with
  | O => (bits, converted)
  | S fuel' =>
      if 8 <=? bits then
        let bits := bits - 8 in
        drain8 fuel' acc bits (converted ++ [band (shr acc bits) 0xff])
      else (bits, converted)
  end.

(** One iteration of [for (const value of decoded)]. *)
Definition step5to8 (st : Z * Z * list Z) (value : Z) : Z * Z * list Z :=
  let '(acc, bits, converted) := st in
  let acc := bor (shl acc 5) value in
  let bits := bits + 5 in
  let '(bits, converted) := drain8 (Z.to_nat bits) acc bits converted in
  (acc, bits, converted).

(** The 5-bit to 8-bit loop shared by [decodeNpub] and [note1ToHex]. *)
Definition convert5to8 (decoded : list Z) : list Z :=
  let '(_, _, converted) := fold_left step5to8 decoded (0, 0, []) in
  converted.

(** [if (converted.length > 0 && converted[0] === 0) return converted.slice(1);] *)
Definition dropVersion (converted : list Z) : list Z :=
  match converted with
  | first :: _ => if first =? 0 then slice_1 converted else converted
  | [] => converted
  end.

Definition decodeNpub (npub : string) : result (list Z) :=
  let npub := chars npub in
  if negb (startsWith npub (chars "npub1")) then Throw "Must start with npub1"%string
  else
    let data := slice_5_m6 npub in
    bind (decodeChars data) (fun decoded =>
    Ok (dropVersion (convert5to8 decoded))).

(** [chk = (chk << 5) ^ (chk >> 27)] followed by
    [for (j = 0; j < 5; j++) if ((chk >> j) & 1) chk ^= BECH32_GENERATOR[j];] *)
Definition mixGenerator (chk j : Z) : Z :=
  if band (sar chk j) 1 =? 0 then chk
  else bxor chk (nth (Z.to_nat j) BECH32_GENERATOR 0).

Definition polymodStep (chk : Z) : Z :=
  let chk := bxor (shl chk 5) (sar chk 27) in
  fold_left mixGenerator [0; 1; 2; 3; 4] chk.

Definition bech32Checksum (hrp : list ascii) (data : list Z) : list Z :=
  let chk := 1 in
  let chk := fold_left (fun chk c => polymodStep (bxor chk (sar (charCode c) 5))) hrp chk in
  let chk := polymodStep chk in
  let chk := fold_left (fun chk c => polymodStep (bxor chk (band (charCode c) 31))) hrp chk in
  let chk := fold_left (fun chk value => polymodStep (bxor chk value)) data chk in
  let chk := fold_left (fun chk _ => polymodStep chk) [0; 1; 2; 3; 4; 5] chk in
  let chk := bxor chk 1 in
  map (fun i => band (sar chk (5 * (5 - i))) 31) [0; 1; 2; 3; 4; 5].

(** [for (i = 0; i < hex.length; i += 2) bytes.push(parseInt(hex.substr(i, 2), 16));] *)
Fixpoint hexBytes (hex : list ascii) : list number :=
  match hex with
  | [] => []
  | [a] => [parseInt16 [a]]
  | a :: b :: rest => parseInt16 [a; b] :: hexBytes rest
  end.

(** [while (bits >= 5) { bits -= 5; converted.push((acc >>> bits) & 31); }] *)
Fixpoint drain5 (fuel : nat) (acc bits : Z) (converted : list Z) : Z * list Z :=
  match fuel with
  | O => (bits, converted)
  | S fuel' =>
      if 5 <=? bits then
        let bits := bits - 5 in
        drain5 fuel' acc bits (converted ++ [band (shr acc bits) 31])
      else (bits, converted)
  end.

(** One iteration of [for (const value of data)] in [hexToNpub]. *)
Definition step8to5 (st : Z * Z * list Z) (value : number) : Z * Z * list Z :=
  let '(acc, bits, converted) := st in
  let acc := bor (shl acc 8) (numToInt32 value) in
  let bits := bits + 8 in
  let '(bits, converted) := drain5 (Z.to_nat bits) acc bits converted in
  (acc, bits, converted).

(** The 8-bit to 5-bit loop with its final padding group. *)
Definition convert8to5 (data : list number) : list Z :=
  let '(acc, bits, converted) := fold_left step8to5 data (0, 0, []) in
  if 0 <? bits then converted ++ [band (shl acc (5 - bits)) 31] else converted.

(** [BECH32_CHARSET[val]] as appended to a string: the character, or the
    text of [undefined] outside the alphabet. *)
Definition charsetAt (val : Z) : list ascii :=
  if val <? 0 then chars "undefined"
  else match nth_error BECH32_CHARSET (Z.to_nat val) with
       | Some c => [c]
       | None => chars "undefined"
       end.

Definition hexToNpub (hex : string) : string :=
  let hex := padStart0 64 (strip0x (chars hex)) in
  let bytes := hexBytes hex in
  let data := Num 0 :: bytes in
  let converted := convert8to5 data in
  let checksum := bech32Checksum (chars "npub") converted in
  let allData := converted ++ checksum in
  str (fold_left (fun result val => result ++ charsetAt val) allData (chars "npub1")).

(** [bytes.map(b => b.toString(16).padStart(2, '0')).join('')] *)
Definition bytesToHex (bytes : list Z) : list ascii :=
  concat (map (fun b => padStart0 2 (toString16 b)) bytes).

Definition npubToHex (npub : string) : result string :=
  if startsWith (chars npub) (chars "npub") then
    match decodeNpub npub with
    | Ok bytes =>
        let hex := bytesToHex bytes in
        Ok (str (padStart0 64 hex))
    | Throw message => Throw ("Invalid npub format: " ++ message)%string
    end
  else Ok npub.

(** [/^[0-9a-fA-F]{64}$/.test(hex)] *)
Definition isHexChar (c : ascii) : bool :=
  let n := charCode c in
  ((48 <=? n) && (n <=? 57)) || ((97 <=? n) && (n <=? 102)) || ((65 <=? n) && (n <=? 70)).

Definition testHex64 (hex : string) : bool :=
  (length (chars hex) =? 64)%nat && forallb isHexChar (chars hex).

Definition validatePubkey (pubkey : string) : bool :=
  match npubToHex pubkey with
  | Ok hex => testHex64 hex
  | Throw _ => false
  end.

Definition normalizeKey (key : string) : result string := npubToHex key.

Definition note1ToHex (note1 : string) : result string :=
  let s := chars note1 in
  if negb (startsWith s (chars "note1")) then Throw "Must start with note1"%string
  else
    let data := slice_5_m6 s in
    match decodeChars data with
    | Ok decoded =>
        let converted := convert5to8 decoded in
        match converted with
        | first :: _ =>
            if first =? 0 then Ok (str (bytesToHex (slice_1 converted)))
            else Ok (str (bytesToHex converted))
        | [] => Ok (str (bytesToHex converted))
        end
    | Throw message => Throw ("Invalid note1 format: " ++ message)%string
    end.

(** The [type] of a decoded reference: ['pubkey'] or ['eventid']. *)
Inductive referenceType := Pubkey | EventId.

Record reference := { ref_type : referenceType; ref_hex : string }.

Definition decodeNostrReference (identifier : string) : result reference :=
  if startsWith (chars identifier) (chars "npub1") then
    bind (npubToHex identifier) (fun hex => Ok {| ref_type := Pubkey; ref_hex := hex |})
  else if startsWith (chars identifier) (chars "note1") then
    bind (note1ToHex identifier) (fun hex => Ok {| ref_type := EventId; ref_hex := hex |})
  else Throw ("Unsupported reference type: " ++ identifier)%string.

End CryptoUtils.

(** ** RelayManager

    The manager's fields are the first three of [state]; the others are the
    part of the browser the code talks to: the sockets it created, the timers
    it armed with [setTimeout], the [Promise.allSettled] joins of its
    [connectToRelays] calls, a clock in milliseconds and a log of what an
    observer sees (callbacks invoked, [console.error] lines, joins resolved).

    Callbacks supplied by callers are opaque here: invoking one is logged,
    and it either returns or throws; the dispatch with callbacks that call
    back into the manager is in [Callers].

    [new WebSocket(url)] throws a [SyntaxError] for a url the browser does
    not take (one its URL parser rejects, one with another scheme than the
    constructor's, one with a fragment). Which urls those are is the
    browser's to say: the functions that construct a socket take it as
    [constructorThrows]. *)

Module RelayManager.

Record Event := {
  ev_id : string;
  ev_pubkey : option string;   (* [None]: no string under [pubkey] *)
  ev_kind : Z }.

(** The third element of a parsed message: falsy or absent, or an object. *)
Inductive payload :=
| Missing
| Data (eventData : Event).

(** [event.data] of a socket message: text that [JSON.parse] rejects or that
    is not an array, or an array [[type, subscriptionId, eventData]]. *)
Inductive frame :=
| Unparsable
| Message (type subscriptionId : string) (eventData : payload).

Record Filters := {
  kinds : list Z;
  authors : list string;
  ids : list string;
  limit : option Z }.

Record callback := { cb_name : string; cb_throws : Event -> bool }.
Record eoseCallback := { eose_name : string; eose_throws : string -> bool }.

(** The event handlers the code registers: a caller's callback, or the
    [oneTimeHandler] closure of [fetchEvent]. *)
Inductive handler :=
| Callback (cb : callback)
| OneTimeHandler (eventId subscriptionId : string) (handler : callback).

(** [options.onEOSE]: a caller's callback, or the closure of [fetchEvent]. *)
Inductive eoseHandler :=
| OnEose (cb : eoseCallback)
| FetchOnEose (eventId subscriptionId : string).

Record subscription := {
  filters : Filters;
  sub_handler : handler;
  onEOSE : option eoseHandler }.

(** [JSON.stringify(['REQ', id, filters])] and [JSON.stringify(['CLOSE', id])]. *)
Inductive outFrame :=
| REQ (subscriptionId : string) (f : Filters)
| CLOSE (subscriptionId : string).

Inductive readyState := CONNECTING | OPEN | CLOSING | CLOSED.
Inductive promiseState := Pending | Fulfilled | Rejected.

(** A socket created by [connectToRelay], with the closure state of that
    call: the [resolved] flag and the promise it returned. *)
Record WebSocket := {
  ws_url : string;
  ws_readyState : readyState;
  ws_onmessage : bool;
  ws_resolved : bool;
  ws_promise : promiseState;
  ws_sent : list outFrame }.

(** The functions handed to [setTimeout]. *)
Inductive timerAction :=
| ConnectTimeout (ws : nat)
| UnsubscribeLater (subscriptionId : string)
| FetchCleanup (eventId subscriptionId : string).

Inductive logEntry :=
| Invoked (h : handler) (e : Event) (relayUrl : string)
| Delivered (cb : callback) (e : Event)
| EoseInvoked (cb : eoseCallback) (relayUrl : string)
| ConsoleError (context : string)
| JoinResolved (join : nat) (results : list (string * bool)).

(** What a [connectToRelay] call left behind: the socket it created, or
    nothing but a rejected promise when [new WebSocket(url)] threw inside
    the promise executor. *)
Inductive attempt :=
| Constructed (ws : nat)
| ConstructorThrew (url : string).

(** A [connectToRelays] call: its attempts in url order and whether the
    promise it returned has resolved. *)
Record join := {
  j_attempts : list attempt;
  j_result : option (list (string * bool)) }.

Record state := {
  activeConnections : list (string * nat);
  eventHandlers : gmap string (list handler);
  subscriptions : gmap string subscription;
  sockets : list WebSocket;
  timers : list (N * timerAction);
  joins : list join;
  now : N;
  log : list logEntry }.

Inductive completion := Normal | Thrown.

Definition constructor : state :=
  {| activeConnections := []; eventHandlers := ∅; subscriptions := ∅;
     sockets := []; timers := []; joins := []; now := 0%N; log := [] |}.

Definition DEFAULT_RELAYS : list string :=
  ["wss://relay.damus.io"; "wss://nostr-pub.wellorder.net"; "wss://eden.nostr.land";
   "wss://nostr.fmt.wiz.biz"; "wss://relay.nostr.info"]%string.

(** *** Field updates *)

Definition withConnections (c : list (string * nat)) (s : state) : state :=
  {| activeConnections := c; eventHandlers := eventHandlers s;
     subscriptions := subscriptions s; sockets := sockets s; timers := timers s;
     joins := joins s; now := now s; log := log s |}.
Definition withHandlers (h : gmap string (list handler)) (s : state) : state :=
  {| activeConnections := activeConnections s; eventHandlers := h;
     subscriptions := subscriptions s; sockets := sockets s; timers := timers s;
     joins := joins s; now := now s; log := log s |}.
Definition withSubscriptions (m : gmap string subscription) (s : state) : state :=
  {| activeConnections := activeConnections s; eventHandlers := eventHandlers s;
     subscriptions := m; sockets := sockets s; timers := timers s;
     joins := joins s; now := now s; log := log s |}.
Definition withSockets (l : list WebSocket) (s : state) : state :=
  {| activeConnections := activeConnections s; eventHandlers := eventHandlers s;
     subscriptions := subscriptions s; sockets := l; timers := timers s;
     joins := joins s; now := now s; log := log s |}.
Definition withTimers (l : list (N * timerAction)) (s : state) : state :=
  {| activeConnections := activeConnections s; eventHandlers := eventHandlers s;
     subscriptions := subscriptions s; sockets := sockets s; timers := l;
     joins := joins s; now := now s; log := log s |}.
Definition withJoins (l : list join) (s : state) : state :=
  {| activeConnections := activeConnections s; eventHandlers := eventHandlers s;
     subscriptions := subscriptions s; sockets := sockets s; timers := timers s;
     joins := l; now := now s; log := log s |}.
Definition withNow (t : N) (s : state) : state :=
  {| activeConnections := activeConnections s; eventHandlers := eventHandlers s;
     subscriptions := subscriptions s; sockets := sockets s; timers := timers s;
     joins := joins s; now := t; log := log s |}.
Definition withLog (l : list logEntry) (s : state) : state :=
  {| activeConnections := activeConnections s; eventHandlers := eventHandlers s;
     subscriptions := subscriptions s; sockets := sockets s; timers := timers s;
     joins := joins s; now := now s; log := l |}.

Definition logged (e : logEntry) (s : state) : state := withLog (log s ++ [e]) s.

(** [setTimeout(action, delay)] *)
Definition setTimeout (action : timerAction) (delay : N) (s : state) : state :=
  withTimers (timers s ++ [((now s + delay)%N, action)]) s.

Definition isConnectTimeout (ws : nat) (t : N * timerAction) : bool :=
  match snd t with
  | ConnectTimeout w => Nat.eqb w ws
  | _ => false
  end.

(** [clearTimeout(timeout)] for the timer of socket [ws]. *)
Definition clearTimeout (ws : nat) (s : state) : state :=
  withTimers (List.filter (fun t => negb (isConnectTimeout ws t)) (timers s)) s.

Definition updateSocket (ws : nat) (f : WebSocket -> WebSocket) (s : state) : state :=
  match sockets s !! ws with
  | Some w => withSockets (<[ws := f w]> (sockets s)) s
  | None => s
  end.

Definition setReadyState (r : readyState) (w : WebSocket) : WebSocket :=
  {| ws_url := ws_url w; ws_readyState := r; ws_onmessage := ws_onmessage w;
     ws_resolved := ws_resolved w; ws_promise := ws_promise w; ws_sent := ws_sent w |}.
Definition setOnmessage (w : WebSocket) : WebSocket :=
  {| ws_url := ws_url w; ws_readyState := ws_readyState w; ws_onmessage := true;
     ws_resolved := ws_resolved w; ws_promise := ws_promise w; ws_sent := ws_sent w |}.
Definition setResolved (w : WebSocket) : WebSocket :=
  {| ws_url := ws_url w; ws_readyState := ws_readyState w; ws_onmessage := ws_onmessage w;
     ws_resolved := true; ws_promise := ws_promise w; ws_sent := ws_sent w |}.
(** [resolve(ws)] and [reject(e)]: a promise settles once. *)
Definition settle (p : promiseState) (w : WebSocket) : WebSocket :=
  {| ws_url := ws_url w; ws_readyState := ws_readyState w; ws_onmessage := ws_onmessage w;
     ws_resolved := ws_resolved w;
     ws_promise := match ws_promise w with Pending => p | q => q end;
     ws_sent := ws_sent w |}.
(** [ws.send(message)] *)
Definition send (m : outFrame) (w : WebSocket) : WebSocket :=
  {| ws_url := ws_url w; ws_readyState := ws_readyState w; ws_onmessage := ws_onmessage w;
     ws_resolved := ws_resolved w; ws_promise := ws_promise w; ws_sent := ws_sent w ++ [m] |}.

Definition isOpen (s : state) (ws : nat) : bool :=
  match sockets s !! ws with
  | Some w => match ws_readyState w with OPEN => true | _ => false end
  | None => false
  end.

(** [this.activeConnections.forEach(({ ws }) => { if (ws.readyState === WebSocket.OPEN) ws.send(m); })] *)
Definition broadcast (m : outFrame) (s : state) : state :=
  fold_left (fun s conn => if isOpen s (snd conn) then updateSocket (snd conn) (send m) s else s)
            (activeConnections s) s.

(** *** Subscription registry *)

(** One handler call of the dispatch loop. For [oneTimeHandler]:
    [if (eventData.id === eventId) { handler(eventData); setTimeout(() => this.unsubscribe(subscriptionId), 1000); }] *)
Definition callHandler (h : handler) (eventData : Event) (relayUrl : string)
    (s : state) : state * completion :=
  let s := logged (Invoked h eventData relayUrl) s in
  match h with
  | Callback cb => (s, if cb_throws cb eventData then Thrown else Normal)
  | OneTimeHandler eventId subscriptionId cb =>
      if String.eqb (ev_id eventData) eventId then
        let s := logged (Delivered cb eventData) s in
        if cb_throws cb eventData then (s, Thrown)
        else (setTimeout (UnsubscribeLater subscriptionId) 1000 s, Normal)
      else (s, Normal)
  end.

(** [try { handler(eventData, relayUrl); } catch (e) { console.error('Error in event handler:', e); }] *)
Definition callCaught (eventData : Event) (relayUrl : string) (s : state) (h : handler) : state :=
  match callHandler h eventData relayUrl s with
  | (s, Normal) => s
  | (s, Thrown) => logged (ConsoleError "Error in event handler:") s
  end.

Definition handleEvent (relayUrl subscriptionId : string) (eventData : Event)
    (s : state) : state * completion :=
  match ev_pubkey eventData with
  | None => (s, Thrown)   (* [eventData.pubkey.slice] on [undefined] *)
  | Some _ =>
      match eventHandlers s !! subscriptionId with
      | Some handlers => (fold_left (callCaught eventData relayUrl) handlers s, Normal)
      | None => (s, Normal)
      end
  end.

Definition handleEndOfStoredEvents (relayUrl subscriptionId : string)
    (s : state) : state * completion :=
  match subscriptions s !! subscriptionId with
  | Some sub =>
      match onEOSE sub with
      | Some (OnEose cb) =>
          (logged (EoseInvoked cb relayUrl) s,
           if eose_throws cb relayUrl then Thrown else Normal)
      | Some (FetchOnEose eventId subscriptionId) =>
          (setTimeout (FetchCleanup eventId subscriptionId) 2000 s, Normal)
      | None => (s, Normal)
      end
  | None => (s, Normal)
  end.

Definition handleRelayMessage (relayUrl : string) (event : frame) (s : state) : state :=
  match event with
  | Unparsable => logged (ConsoleError "Error parsing message:") s
  | Message type subscriptionId eventData =>
      let '(s, c) :=
        match String.eqb type "EVENT", eventData with
        | true, Data e => handleEvent relayUrl subscriptionId e s
        | _, _ =>
            if String.eqb type "EOSE" then handleEndOfStoredEvents relayUrl subscriptionId s
            else (s, Normal)
        end in
      match c with
      | Normal => s
      | Thrown => logged (ConsoleError "Error parsing message:") s
      end
  end.

Definition subscribe (subscriptionId : string) (f : Filters) (eventHandler : handler)
    (options_onEOSE : option eoseHandler) (s : state) : state :=
  let s := withSubscriptions
             (<[subscriptionId := {| filters := f; sub_handler := eventHandler;
                                     onEOSE := options_onEOSE |}]> (subscriptions s)) s in
  let s := match eventHandlers s !! subscriptionId with
           | Some _ => s
           | None => withHandlers (<[subscriptionId := []]> (eventHandlers s)) s
           end in
  let s := withHandlers (alter (fun l => l ++ [eventHandler]) subscriptionId (eventHandlers s)) s in
  broadcast (REQ subscriptionId f) s.

Definition unsubscribe (subscriptionId : string) (s : state) : state :=
  let s := withHandlers (delete subscriptionId (eventHandlers s)) s in
  let s := withSubscriptions (delete subscriptionId (subscriptions s)) s in
  broadcast (CLOSE subscriptionId) s.

(** *** Connection pool *)

Definition removeConnection (ws : nat) (s : state) : state :=
  withConnections (List.filter (fun conn => negb (Nat.eqb (snd conn) ws)) (activeConnections s)) s.

Definition closeAllConnections (s : state) : state :=
  let s := fold_left (fun s conn =>
                        if isOpen s (snd conn) then updateSocket (snd conn) (setReadyState CLOSING) s
                        else s)
                     (activeConnections s) s in
  withSubscriptions ∅ (withHandlers ∅ (withConnections [] s)).

Definition getConnectedCount (s : state) : nat :=
  length (List.filter (fun conn => isOpen s (snd conn)) (activeConnections s)).

Definition subscribeToProfile (pubkey : string) (h : handler) (s : state) : state :=
  subscribe "profile" {| kinds := [0]; authors := [pubkey]; ids := []; limit := Some 1 |} h None s.

Definition subscribeToPosts (pubkey : string) (h : handler) (limit : Z) (s : state) : state :=
  subscribe "posts" {| kinds := [1]; authors := [pubkey]; ids := []; limit := Some limit |} h None s.

(** [`event_${eventId.slice(0, 8)}`] *)
Definition fetchSubscriptionId (eventId : string) : string :=
  ("event_" ++ substring 0 8 eventId)%string.

Definition fetchEvent (eventId : string) (h : callback) (s : state) : state :=
  let subscriptionId := fetchSubscriptionId eventId in
  let eventFilters := {| kinds := []; authors := []; ids := [eventId]; limit := Some 1 |} in
  subscribe subscriptionId eventFilters (OneTimeHandler eventId subscriptionId h)
            (Some (FetchOnEose eventId subscriptionId)) s.

(** The synchronous part of [connectToRelay], the promise executor. When
    the constructor throws, the executor ends there and the promise is
    rejected: no socket, no timeout. Otherwise the socket is created and
    the timeout armed; the index of the new socket stands for [ws]. *)
Definition newWebSocket (url : string) : WebSocket :=
  {| ws_url := url; ws_readyState := CONNECTING; ws_onmessage := false;
     ws_resolved := false; ws_promise := Pending; ws_sent := [] |}.

Definition connectToRelay (constructorThrows : string -> bool) (url : string) (s : state)
    : state * attempt :=
  if constructorThrows url then (s, ConstructorThrew url)
  else
    let ws := length (sockets s) in
    let s := withSockets (sockets s ++ [newWebSocket url]) s in
    (setTimeout (ConnectTimeout ws) 5000 s, Constructed ws).

(** The value of one [connectionPromises] entry once its promise settled. *)
Definition attemptResult (s : state) (a : attempt) : option (string * bool) :=
  match a with
  | Constructed ws =>
      match sockets s !! ws with
      | Some w =>
          match ws_promise w with
          | Pending => None
          | Fulfilled => Some (ws_url w, true)
          | Rejected => Some (ws_url w, false)
          end
      | None => None
      end
  | ConstructorThrew url => Some (url, false)
  end.

(** All results in order, when every attempt has settled. *)
Fixpoint allSettled (s : state) (attempts : list attempt) : option (list (string * bool)) :=
  match attempts with
  | [] => Some []
  | a :: rest =>
      match attemptResult s a, allSettled s rest with
      | Some r, Some rs => Some (r :: rs)
      | _, _ => None
      end
  end.

(** The microtasks after a task: every join whose attempts have all settled
    and that has not resolved yet resolves, once. *)
Fixpoint resolveJoins (s : state) (k : nat) (js : list join) : list join * list logEntry :=
  match js with
  | [] => ([], [])
  | j :: rest =>
      let '(rest', entries) := resolveJoins s (S k) rest in
      match j_result j, allSettled s (j_attempts j) with
      | None, Some rs =>
          ({| j_attempts := j_attempts j; j_result := Some rs |} :: rest',
           JoinResolved k rs :: entries)
      | _, _ => (j :: rest', entries)
      end
  end.

Definition microtasks (s : state) : state :=
  let '(js, entries) := resolveJoins s 0 (joins s) in
  withLog (log s ++ entries) (withJoins js s).

(** The [catch] of a [connectionPromises] entry, for the attempts that are
    rejected when [connectToRelays] returns: one [console.error] each. *)
Definition failedAtOnce (s : state) (a : attempt) : state :=
  match a with
  | ConstructorThrew _ => logged (ConsoleError "connectToRelays: Failed to connect to") s
  | Constructed _ => s
  end.

(** [connectToRelays]: every attempt starts at once; the returned promise
    is the join added last. The microtasks that follow the call run the
    [catch] of the attempts whose constructor threw and resolve the join
    when no attempt is left pending. *)
Definition connectToRelays (constructorThrows : string -> bool) (relayUrls : list string)
    (s : state) : state :=
  let '(s, attempts) :=
    fold_left (fun '(s, attempts) relay =>
                 let '(s, a) := connectToRelay constructorThrows relay s in
                 (s, attempts ++ [a]))
              relayUrls (s, []) in
  let s := fold_left failedAtOnce attempts s in
  microtasks (withJoins (joins s ++ [{| j_attempts := attempts; j_result := None |}]) s).

(** *** Socket and timer callbacks *)

(** [ws.onopen]; the continuation of [await this.connectToRelay(relay)]
    pushes the connection when this call fulfilled the promise. *)
Definition onopen (ws : nat) (s : state) : state :=
  let s := clearTimeout ws s in
  let pending := match sockets s !! ws with
                 | Some w => match ws_promise w with Pending => true | _ => false end
                 | None => false
                 end in
  let s := updateSocket ws (fun w => settle Fulfilled (setOnmessage (setResolved w))) s in
  if pending then
    match sockets s !! ws with
    | Some w => withConnections (activeConnections s ++ [(ws_url w, ws)]) s
    | None => s
    end
  else s.

Definition onerror (ws : nat) (s : state) : state :=
  let s := logged (ConsoleError "onerror: Failed to connect to") (clearTimeout ws s) in
  match sockets s !! ws with
  | Some w =>
      if ws_resolved w then s
      else
        let rejects := match ws_promise w with Pending => true | _ => false end in
        let s := updateSocket ws (fun w => settle Rejected (setResolved w)) s in
        if rejects then logged (ConsoleError "connectToRelays: Failed to connect to") s else s
  | None => s
  end.

Definition onclose (ws : nat) (s : state) : state := removeConnection ws s.

Definition runTimer (action : timerAction) (s : state) : state :=
  match action with
  | ConnectTimeout ws =>
      match sockets s !! ws with
      | Some w =>
          if ws_resolved w then s
          else
            let rejects := match ws_promise w with Pending => true | _ => false end in
            let s := updateSocket ws (settle Rejected) s in
            if rejects then logged (ConsoleError "connectToRelays: Failed to connect to") s else s
      | None => s
      end
  | UnsubscribeLater subscriptionId => unsubscribe subscriptionId s
  | FetchCleanup eventId subscriptionId =>
      match subscriptions s !! subscriptionId with
      | Some _ => unsubscribe subscriptionId s
      | None => s
      end
  end.

(** *** The event loop

    What the browser does to the manager: time passes and due timers fire
    (earliest first, in arming order among equals), a connecting socket
    opens, a socket fails (its [error] event, then its [close] event) or
    closes, an open socket receives a message. Each is a task, followed by
    the microtasks it made runnable. *)

Inductive input :=
| Elapse (ms : N)
| SocketOpen (ws : nat)
| SocketError (ws : nat)
| SocketClose (ws : nat)
| SocketMessage (ws : nat) (data : frame).

Fixpoint minDue (l : list (N * timerAction)) : option N :=
  match l with
  | [] => None
  | (d, _) :: r =>
      match minDue r with
      | None => Some d
      | Some m => Some (N.min d m)
      end
  end.

(** The first timer due at [d], taken out of the list. *)
Fixpoint takeTimer (d : N) (l : list (N * timerAction))
    : option (timerAction * list (N * timerAction)) :=
  match l with
  | [] => None
  | (d', a) :: r =>
      if N.eqb d' d then Some (a, r)
      else match takeTimer d r with
           | Some (a', r') => Some (a', (d', a) :: r')
           | None => None
           end
  end.

Definition nextTimer (target : N) (l : list (N * timerAction))
    : option (N * timerAction * list (N * timerAction)) :=
  match minDue l with
  | Some d =>
      if N.leb d target then
        match takeTimer d l with
        | Some (a, r) => Some (d, a, r)
        | None => None
        end
      else None
  | None => None
  end.

(** A due timer fires: it leaves the list, the clock is at its time (or
    later), its callback runs as a task. *)
Definition fireOne (d : N) (a : timerAction) (rest : list (N * timerAction)) (s : state) : state :=
  microtasks (runTimer a (withNow (N.max (now s) d) (withTimers rest s))).

(** No timer callback of this program arms a timer, so as many rounds as
    there are timers fire all that are due. *)
Fixpoint fireDue (fuel : nat) (target : N) (s : state) : state :=
  match fuel with
  | O => s
  | S fuel' =>
      match nextTimer target (timers s) with
      | Some (d, a, rest) => fireDue fuel' target (fireOne d a rest s)
      | None => s
      end
  end.

Definition elapse (ms : N) (s : state) : state :=
  let target := (now s + ms)%N in
  withNow target (fireDue (length (timers s)) target s).

Definition readyStateOf (s : state) (ws : nat) : option readyState :=
  ws_readyState <$> sockets s !! ws.

Definition task (i : input) (s : state) : state :=
  match i with
  | Elapse ms => elapse ms s
  | SocketOpen ws =>
      match readyStateOf s ws with
      | Some CONNECTING => onopen ws (updateSocket ws (setReadyState OPEN) s)
      | _ => s
      end
  | SocketError ws =>
      match readyStateOf s ws with
      | Some CLOSED | None => s
      | Some _ => onclose ws (onerror ws (updateSocket ws (setReadyState CLOSED) s))
      end
  | SocketClose ws =>
      match readyStateOf s ws with
      | Some CLOSED | None => s
      | Some _ => onclose ws (updateSocket ws (setReadyState CLOSED) s)
      end
  | SocketMessage ws data =>
      match sockets s !! ws with
      | Some w =>
          match ws_readyState w, ws_onmessage w with
          | OPEN, true => handleRelayMessage (ws_url w) data s
          | _, _ => s
          end
      | None => s
      end
  end.

Definition step (s : state) (i : input) : state := microtasks (task i s).

Definition run (tr : list input) (s : state) : state := fold_left step tr s.

End RelayManager.

(** ** Vocabulary of the statements *)

Module Spec.

Import CryptoUtils.

(** The number a list of digits denotes in a base, most significant first. *)
Definition valueOf (base : Z) (digits : list Z) : Z :=
  fold_left (fun a d => a * base + d) digits 0.

Definition isByte (b : Z) : Prop := 0 <= b < 256.
Definition isQuintet (d : Z) : Prop := 0 <= d < 32.

Definition lowerHexChars : list ascii := chars "0123456789abcdef".
Definition hexChars : list ascii := chars "0123456789abcdefABCDEF".

(** A 64-character lowercase-hex string: a well-formed 32-byte key. *)
Definition isLowerHex64 (hex : string) : Prop :=
  length (chars hex) = 64%nat /\ Forall (fun c => In c lowerHexChars) (chars hex).

(** Exactly 64 hex characters, lowercase or uppercase. *)
Definition isHex64 (hex : string) : Prop :=
  length (chars hex) = 64%nat /\ Forall (fun c => In c hexChars) (chars hex).

Definition toLowerCase (c : ascii) : ascii :=
  let n := charCode c in
  if (65 <=? n) && (n <=? 90) then ascii_of_N (Z.to_N (n + 32)) else c.

(** [t] is [s] with exactly one character replaced, and not by the same
    letter in the other case. *)
Definition differInOneCharacter (s t : string) : Prop :=
  exists pre c d post,
    chars s = pre ++ c :: post /\ chars t = pre ++ d :: post /\
    c <> d /\ toLowerCase c <> toLowerCase d.

(** The two decoders of the source; they differ in the prefix they require
    and in the form of their result. *)
Inductive decoder := Npub | Note1.

Definition accepts (v : decoder) (s : string) : Prop :=
  match v with
  | Npub => exists bytes, decodeNpub s = Ok bytes
  | Note1 => exists hex, note1ToHex s = Ok hex
  end.

Definition rejects (v : decoder) (s : string) : Prop :=
  match v with
  | Npub => exists message, decodeNpub s = Throw message
  | Note1 => exists message, note1ToHex s = Throw message
  end.

Definition sameResult (v : decoder) (s t : string) : Prop :=
  match v with
  | Npub => decodeNpub s = decodeNpub t
  | Note1 => note1ToHex s = note1ToHex t
  end.

Import RelayManager.

(** What an observer sees of the callbacks: the handler calls made by the
    dispatch loop, and every callback run (the [fetchEvent] callback and
    the end-of-stored-events callbacks included). *)
Definition dispatches (l : list logEntry) : list (handler * Event * string) :=
  flat_map (fun entry => match entry with
                         | Invoked h e relayUrl => [(h, e, relayUrl)]
                         | _ => []
                         end) l.

Definition isCallback (entry : logEntry) : bool :=
  match entry with
  | Invoked _ _ _ | Delivered _ _ | EoseInvoked _ _ => true
  | ConsoleError _ | JoinResolved _ _ => false
  end.

Definition callbacksRun (s : state) : list logEntry := List.filter isCallback (log s).

(** The registry part of the state. *)
Definition registryOf (s : state) : gmap string (list handler) * gmap string subscription :=
  (eventHandlers s, subscriptions s).

(** Whether a handler call throws on an event. *)
Definition throwsOn (eventData : Event) (h : handler) : bool :=
  match h with
  | Callback cb => cb_throws cb eventData
  | OneTimeHandler eventId _ cb => String.eqb (ev_id eventData) eventId && cb_throws cb eventData
  end.

Definition consoleErrors (l : list logEntry) : list string :=
  flat_map (fun entry => match entry with ConsoleError c => [c] | _ => [] end) l.

(** Every armed timer is due later than now: what [setTimeout] with a
    positive delay and a prompt event loop maintain. *)
Definition timersAhead (s : state) : Prop :=
  Forall (fun t => (now s < fst t)%N) (timers s).

(** From [s] to [s'] every subscription id either kept its handler list
    and record or lost both. *)
Definition registryShrinks (s s' : state) : Prop :=
  forall id : string,
    (eventHandlers s' !! id = None /\ subscriptions s' !! id = None) \/
    (eventHandlers s' !! id = eventHandlers s !! id /\
     subscriptions s' !! id = subscriptions s !! id).

(** A subscription id with no record and no handler list. *)
Definition released (s : state) (id : string) : Prop :=
  subscriptions s !! id = None /\ eventHandlers s !! id = None.

(** For the subscription of a [fetchEvent]: either it is released, or the
    cleanup armed by its end-of-stored-events callback is still to fire,
    at time [D]. *)
Definition cleanupPending (eventId id : string) (D : N) (s : state) : Prop :=
  (subscriptions s !! id = None -> eventHandlers s !! id = None) /\
  (released s id \/ In (D, FetchCleanup eventId id) (timers s)).

(** No frame of the trace carries the event with this id. *)
Definition noMatchingEvent (eventId : string) (tr : list input) : Prop :=
  Forall (fun i => match i with
                   | SocketMessage _ (Message _ _ (Data e)) => ev_id e <> eventId
                   | _ => True
                   end) tr.

(** *** One connection attempt seen on its own

    What the events of one socket and the clock make of the attempt to
    connect it, whatever happens to the other sockets: it is decided by the
    first of its opening, its failing and the 5000 ms timeout; a socket
    that closes without an error while connecting can only time out. *)
Inductive attemptState := Connecting | Dropped | Decided (success : bool).

Definition attemptStep (ws : nat) (st : N * attemptState) (i : input) : N * attemptState :=
  let '(t, a) := st in
  match i with
  | Elapse ms =>
      ((t + ms)%N,
       match a with
       | Decided b => Decided b
       | _ => if (5000 <=? t + ms)%N then Decided false else a
       end)
  | SocketOpen w =>
      (t, if Nat.eqb w ws then match a with Connecting => Decided true | _ => a end else a)
  | SocketError w =>
      (t, if Nat.eqb w ws then match a with Connecting => Decided false | _ => a end else a)
  | SocketClose w =>
      (t, if Nat.eqb w ws then match a with Connecting => Dropped | _ => a end else a)
  | SocketMessage _ _ => (t, a)
  end.

Definition attemptOutcome (ws : nat) (tr : list input) : attemptState :=
  snd (fold_left (attemptStep ws) tr (0%N, Connecting)).

(** The attempts [connectToRelays] makes for a list of urls when [ws]
    sockets exist: a url the constructor throws on gets no socket, the
    others get the next indices in turn. *)
Fixpoint attemptsOf (constructorThrows : string -> bool) (relayUrls : list string) (ws : nat)
    : list attempt :=
  match relayUrls with
  | [] => []
  | url :: rest =>
      if constructorThrows url then ConstructorThrew url :: attemptsOf constructorThrows rest ws
      else Constructed ws :: attemptsOf constructorThrows rest (S ws)
  end.

(** The outcome of an attempt: that of its socket, or a failure from the
    start when the constructor threw. *)
Definition outcomeOf (tr : list input) (a : attempt) : attemptState :=
  match a with
  | Constructed ws => attemptOutcome ws tr
  | ConstructorThrew _ => Decided false
  end.

Definition isSuccess (a : attemptState) : bool :=
  match a with Decided true => true | _ => false end.

(** The report of a join over the attempts: each url with its outcome, in
    url order, once every attempt is decided. *)
Fixpoint reportOf (relayUrls : list string) (outcomes : list attemptState)
    : option (list (string * bool)) :=
  match relayUrls, outcomes with
  | url :: urls, Decided b :: rest =>
      match reportOf urls rest with
      | Some rs => Some ((url, b) :: rs)
      | None => None
      end
  | [], [] => Some []
  | _, _ => None
  end.

(** The reports with which joins resolved, as logged. *)
Definition resolutions (l : list logEntry) : list (list (string * bool)) :=
  flat_map (fun entry => match entry with JoinResolved _ rs => [rs] | _ => [] end) l.

(** The attempt state a socket record stands for. *)
Definition attemptOf (w : WebSocket) : attemptState :=
  match ws_promise w with
  | Pending => match ws_readyState w with CONNECTING => Connecting | _ => Dropped end
  | Fulfilled => Decided true
  | Rejected => Decided false
  end.

(** The join of a single [connectToRelays] call follows its attempts. *)
Definition joinFollows (attempts : list attempt) (s : state) : Prop :=
  joins s = [{| j_attempts := attempts; j_result := allSettled s attempts |}] /\
  resolutions (log s) = match allSettled s attempts with Some rs => [rs] | None => [] end.

(** What holds of a socket between the tasks that follow
    [connectToRelays] on a new manager: while its promise is pending its
    timeout is armed and it has not opened; it is in the pool exactly when
    it opened in time and has not closed. *)
Definition socketOk (s : state) (ws : nat) (w : WebSocket) : Prop :=
  (ws_promise w = Pending ->
     ws_resolved w = false /\ In (5000%N, ConnectTimeout ws) (timers s) /\
     (ws_readyState w = CONNECTING \/ ws_readyState w = CLOSED)) /\
  (ws_promise w = Fulfilled -> ws_readyState w <> CONNECTING) /\
  (forall url, In (url, ws) (activeConnections s) <->
               ws_url w = url /\ ws_promise w = Fulfilled /\ ws_readyState w = OPEN).

(** From [s] to [s'] every socket is as it was, except that pending
    promises may have settled. *)
Definition settledSince (s s' : state) : Prop :=
  forall ws w, sockets s !! ws = Some w ->
    exists w', sockets s' !! ws = Some w' /\ ws_url w' = ws_url w /\
               (ws_promise w' = ws_promise w \/ ws_promise w = Pending).

(** From [s] to [s'] only connect timeouts fired: every socket is as it
    was, except that pending promises may have been rejected. *)
Definition timedOutSince (s s' : state) : Prop :=
  forall ws w, sockets s !! ws = Some w ->
    exists w', sockets s' !! ws = Some w' /\ ws_url w' = ws_url w /\
               ws_readyState w' = ws_readyState w /\
               (ws_promise w' = ws_promise w \/
                ws_promise w = Pending /\ ws_promise w' = Rejected).

Definition connecting (relayUrls : list string) (s : state) : Prop :=
  eventHandlers s = ∅ /\ subscriptions s = ∅ /\
  map ws_url (sockets s) = relayUrls /\
  Forall (fun t => exists ws, t = (5000%N, ConnectTimeout ws)) (timers s) /\
  NoDup (map snd (activeConnections s)) /\
  (forall url ws, In (url, ws) (activeConnections s) -> is_Some (sockets s !! ws)) /\
  (forall ws w, sockets s !! ws = Some w -> socketOk s ws w).

(** An inbound EVENT frame for a subscription id, as [handleRelayMessage]
    receives it from a relay. *)
Definition eventFrame (subscriptionId : string) (eventData : Event) : frame :=
  Message "EVENT" subscriptionId (Data eventData).

(** The same frame arriving from each relay of a list, in turn. *)
Definition deliverFrom (relayUrls : list string) (data : frame) (s : state) : state :=
  fold_left (fun s relayUrl => handleRelayMessage relayUrl data s) relayUrls s.

(** Several [subscribe] calls under one id, in turn. *)
Definition subscribeEach (subscriptionId : string)
    (calls : list (Filters * handler * option eoseHandler)) (s : state) : state :=
  fold_left (fun s '(f, h, o) => subscribe subscriptionId f h o s) calls s.

(** Modelled from the spec: the encoder for the event-id prefix. The source
    has [hexToNpub] only; the spec's [encode(prefix, rawBytes)] "uses the
    identical bit-packing/checksum algorithm with a different prefix", so
    this is [hexToNpub] with [note] for [npub]. *)
Definition hexToNote1 (hex : string) : string :=
  let hex := padStart0 64 (strip0x (chars hex)) in
  let bytes := hexBytes hex in
  let data := Num 0 :: bytes in
  let converted := convert8to5 data in
  let checksum := bech32Checksum (chars "note") converted in
  let allData := converted ++ checksum in
  str (fold_left (fun result val => result ++ charsetAt val) allData (chars "note1")).

End Spec.
(** ** ContentRenderer

    The functions of [js/content-renderer.js] that compute on text and on
    tags; the ones that build DOM nodes are not part of the embedding. A
    regular expression is embedded as the matcher it denotes: a literal is
    compared character by character, an alternation tries its branches in
    order and falls back to the next when what follows fails, a greedy class
    repetition with nothing after it takes the longest run. *)

Module ContentRenderer.

(** *** Matching *)

(** A literal at the start of [s]: what follows it. *)
Fixpoint matchLiteral (literal s : list ascii) : option (list ascii) :=
  match literal, s with
  | [], _ => Some s
  | _ :: _, [] => None
  | c :: literal', d :: s' => if Ascii.eqb c d then matchLiteral literal' s' else None
  end.

(** Comparison under the [i] flag with a pattern character below 128: a
    code unit from 128 on is never canonicalized to one below, so only the
    letters a-z change. *)
Definition canonicalize (c : ascii) : ascii :=
  let n := charCode c in
  if (97 <=? n) && (n <=? 122) then ascii_of_N (Z.to_N (n - 32)) else c.

Fixpoint matchLiteralIgnoreCase (literal s : list ascii) : option (list ascii) :=
  match literal, s with
  | [], _ => Some s
  | _ :: _, [] => None
  | c :: literal', d :: s' =>
      if Ascii.eqb (canonicalize c) (canonicalize d) then matchLiteralIgnoreCase literal' s'
      else None
  end.

(** The line terminators among the code units below 256, which [.] does
    not match. *)
Definition isLineTerminator (c : ascii) : bool :=
  let n := charCode c in (n =? 10) || (n =? 13).

Fixpoint takeWhile (p : ascii -> bool) (s : list ascii) : list ascii :=
  match s with
  | c :: r => if p c then c :: takeWhile p r else []
  | [] => []
  end.

Fixpoint dropWhile (p : ascii -> bool) (s : list ascii) : list ascii :=
  match s with
  | c :: r => if p c then dropWhile p r else s
  | [] => []
  end.

(** The text from every start position, leftmost first. *)
Fixpoint tails (s : list ascii) : list (list ascii) :=
  match s with
  | [] => [[]]
  | _ :: r => s :: tails r
  end.

(** The first branch of an alternation that succeeds. *)
Definition firstMatch {A B} (f : A -> option B) (branches : list A) : option B :=
  fold_right (fun branch other => match f branch with Some m => Some m | None => other end)
             None branches.

(** *** Media URLs *)

(** The end of the pattern, an optional group of [\?] and any characters
    and then [$]: the end of the text, or a [?] and no line terminator up
    to the end. *)
Definition queryToEnd (s : list ascii) : bool :=
  match s with
  | [] => true
  | c :: q => Ascii.eqb c "?" && forallb (fun c => negb (isLineTerminator c)) q
  end.

(** The test of [url] against a dot, one of the extensions, and that end,
    with the [i] flag. *)
Definition hasExtension (extensions : list string) (url : string) : bool :=
  existsb (fun s =>
             match matchLiteral (chars ".") s with
             | Some r =>
                 existsb (fun ext => match matchLiteralIgnoreCase (chars ext) r with
                                     | Some t => queryToEnd t
                                     | None => false
                                     end) extensions
             | None => false
             end) (tails (chars url)).

Definition isImageUrl (url : string) : bool :=
  hasExtension ["jpg"; "jpeg"; "png"; "gif"; "webp"; "bmp"; "svg"]%string url.

Definition isVideoUrl (url : string) : bool :=
  hasExtension ["mp4"; "webm"; "ogg"; "mov"; "avi"; "mkv"; "m4v"]%string url.

(** [[a-zA-Z0-9_-]] *)
Definition isVideoIdChar (c : ascii) : bool :=
  let n := charCode c in
  ((97 <=? n) && (n <=? 122)) || ((65 <=? n) && (n <=? 90)) || ((48 <=? n) && (n <=? 57))
  || (n =? 95) || (n =? 45).

Definition youTubeMarkers : list string :=
  ["youtube.com/watch?v="; "youtu.be/"; "youtube.com/embed/"]%string.

(** [/(?:youtube\.com\/watch\?v=|youtu\.be\/|youtube\.com\/embed\/)([a-zA-Z0-9_-]+)/]
    at the start of [s]: the text of group 1. *)
Definition matchYouTubeAt (s : list ascii) : option (list ascii) :=
  firstMatch (fun marker =>
                match matchLiteral (chars marker) s with
                | Some r => match takeWhile isVideoIdChar r with
                            | [] => None
                            | videoId => Some videoId
                            end
                | None => None
                end) youTubeMarkers.

(** The leftmost match in [s]. *)
Fixpoint searchYouTube (s : list ascii) : option (list ascii) :=
  match matchYouTubeAt s with
  | Some videoId => Some videoId
  | None => match s with
            | [] => None
            | _ :: r => searchYouTube r
            end
  end.

Definition isYouTubeUrl (url : string) : bool :=
  match searchYouTube (chars url) with Some _ => true | None => false end.

(** [match ? match[1] : null], [None] for [null]. *)
Definition getYouTubeVideoId (url : string) : option string :=
  match searchYouTube (chars url) with Some videoId => Some (str videoId) | None => None end.

(** *** Parts of a post *)

(** The objects pushed on [parts], by their [type]: ['text'], ['image'],
    ['video'], ['youtube'], ['link'], ['note_reference'],
    ['profile_reference'], ['event_reference']. *)
Inductive part :=
| Text (content : string)
| Image (url : string)
| Video (url : string)
| YouTube (url : string) (videoId : option string)
| Link (url text : string)
| NoteReference (identifier fullRef : string)
| ProfileReference (identifier fullRef : string)
| EventReference (identifier fullRef : string).

(** [if (match.index > lastIndex) parts.push({ type: 'text', ... })] and
    [if (lastIndex < content.length) parts.push({ type: 'text', ... })]. *)
Definition textPart (between : list ascii) : list part :=
  match between with
  | [] => []
  | _ => [Text (str between)]
  end.

(** [while ((match = regex.exec(content)) !== null) { ... }] followed by
    the remaining text, for a global regular expression whose matches are
    not empty: [between] is the text from [lastIndex] to the position
    tried, [s] the text from that position on. Every round consumes a
    character, so one round more than there are characters suffices. *)
Fixpoint execLoop {M} (matchAt : list ascii -> option (M * list ascii))
    (onMatch : M -> list part) (fuel : nat) (between s : list ascii) : list part :=
  match fuel with
  | O => []
  | S fuel' =>
      match matchAt s with
      | Some (m, rest) => textPart between ++ onMatch m ++ execLoop matchAt onMatch fuel' [] rest
      | None =>
          match s with
          | [] => textPart between
          | c :: r => execLoop matchAt onMatch fuel' (between ++ [c]) r
          end
      end
  end.

(** [[a-z0-9]] *)
Definition isLowerAlnum (c : ascii) : bool :=
  let n := charCode c in
  ((97 <=? n) && (n <=? 122)) || ((48 <=? n) && (n <=? 57)).

Definition referencePrefixes : list string := ["note1"; "npub1"; "nevent1"; "nprofile1"]%string.

(** [/nostr:(note1[a-z0-9]+|npub1[a-z0-9]+|nevent1[a-z0-9]+|nprofile1[a-z0-9]+)/]
    at the start of [s]: [match[0]] and [match[1]], and what follows. *)
Definition matchNostrAt (s : list ascii) : option ((list ascii * list ascii) * list ascii) :=
  match matchLiteral (chars "nostr:") s with
  | Some r =>
      firstMatch (fun prefix =>
                    match matchLiteral (chars prefix) r with
                    | Some body =>
                        match takeWhile isLowerAlnum body with
                        | [] => None
                        | run =>
                            let identifier := chars prefix ++ run in
                            Some ((chars "nostr:" ++ identifier, identifier),
                                  dropWhile isLowerAlnum body)
                        end
                    | None => None
                    end) referencePrefixes
  | None => None
  end.

Definition referencePart (m : list ascii * list ascii) : list part :=
  let '(fullRef, identifier) := m in
  if startsWith identifier (chars "note1") then [NoteReference (str identifier) (str fullRef)]
  else if startsWith identifier (chars "npub1") then [ProfileReference (str identifier) (str fullRef)]
  else if startsWith identifier (chars "nevent1") then [EventReference (str identifier) (str fullRef)]
  else if startsWith identifier (chars "nprofile1") then [ProfileReference (str identifier) (str fullRef)]
  else [].

Definition parseNostrReferences (content : string) : list part :=
  execLoop matchNostrAt referencePart (S (length (chars content))) [] (chars content).

(** [[^\s]]: white space and line terminators are the same code units as
    for [parseInt]. *)
Definition isNonSpace (c : ascii) : bool := negb (isStrWhiteSpace c).

(** [:\/\/[^\s]+] after the scheme [scheme]. *)
Definition matchAfterScheme (scheme r : list ascii) : option (list ascii * list ascii) :=
  match matchLiteral (chars "://") r with
  | Some body =>
      match takeWhile isNonSpace body with
      | [] => None
      | run => Some (scheme ++ chars "://" ++ run, dropWhile isNonSpace body)
      end
  | None => None
  end.

(** [/(https?:\/\/[^\s]+)/] at the start of [s]: the match, and what
    follows. The optional [s] is tried first. *)
Definition matchUrlAt (s : list ascii) : option (list ascii * list ascii) :=
  match matchLiteral (chars "http") s with
  | Some r =>
      match r with
      | "s"%char :: r' =>
          match matchAfterScheme (chars "https") r' with
          | Some m => Some m
          | None => matchAfterScheme (chars "http") r
          end
      | _ => matchAfterScheme (chars "http") r
      end
  | None => None
  end.

Definition urlPart (match0 : list ascii) : list part :=
  let url := str match0 in
  if isImageUrl url then [Image url]
  else if isVideoUrl url then [Video url]
  else if isYouTubeUrl url then [YouTube url (getYouTubeVideoId url)]
  else [Link url url].

Definition parseUrls (content : string) : list part :=
  execLoop matchUrlAt urlPart (S (length (chars content))) [] (chars content).

Definition parsePostContent (content : string) : list part :=
  flat_map (fun part => match part with
                        | Text content => parseUrls content
                        | _ => [part]
                        end) (parseNostrReferences content).

(** *** Replies *)

(** A value that is [null], [undefined] or a string. *)
Inductive value := Null | Undefined | Str (s : string).

Definition truthy (v : value) : bool :=
  match v with
  | Str s => negb (String.eqb s "")
  | _ => false
  end.

(** [tag[0] === 'e'] on an array of strings. *)
Definition isETag (tag : list string) : bool :=
  match tag with
  | t0 :: _ => String.eqb t0 "e"
  | [] => false
  end.

(** [post.tags && post.tags.some(tag => tag[0] === 'e')], as the condition
    it is used for; [None] is a post without [tags]. *)
Definition isReply (tags : option (list (list string))) : bool :=
  match tags with
  | Some tags => existsb isETag tags
  | None => false
  end.

Definition getReplyToEventId (tags : option (list (list string))) : value :=
  match tags with
  | None => Null
  | Some tags =>
      let eTags := List.filter isETag tags in
      match nth_error eTags (length eTags - 1) with
      | None => Null
      | Some tag => match nth_error tag 1 with
                    | Some id => Str id
                    | None => Undefined
                    end
      end
  end.

(** [createPostElement]: the event id the reply indicator is made for,
    [if (isReply && replyToEventId)]. *)
Definition replyIndicator (tags : option (list (list string))) : option string :=
  let isReply := isReply tags in
  let replyToEventId := if isReply then getReplyToEventId tags else Null in
  if isReply && truthy replyToEventId
  then match replyToEventId with Str id => Some id | _ => None end
  else None.

(** *** Timestamps *)

(** The text [formatTimestamp] returns: ['just now'], [`${n}m ago`],
    [`${n}h ago`], [`${n}d ago`], the locale's date for a time value, or
    ['Invalid Date'], which [toLocaleDateString] gives for a date that is
    not valid. *)
Inductive timestampText :=
| just_now
| minutes_ago (diffMins : Z)
| hours_ago (diffHours : Z)
| days_ago (diffDays : Z)
| localeDate (date : Z)
| Invalid_Date.

(** The time values a [Date] holds: at most 8.64e15 ms from the epoch. *)
Definition isTimeValue (t : Z) : bool :=
  (-8640000000000000 <=? t) && (t <=? 8640000000000000).

(** [new Date(value)] for an integer [value]: its time value, [None] for
    the [NaN] of a date that is not valid. *)
Definition TimeClip (value : Z) : option Z :=
  if isTimeValue value then Some value else None.

(** [now] is the time value of [new Date()], in milliseconds; [timestamp]
    is an integer number of seconds. When [timestamp * 1000] is not a time
    value the date is not valid: [diffMs] and the three quotients are
    [NaN], every comparison is false, and the last branch returns the text
    of that date. Otherwise the product is an integer below 2^53 and
    exact; so are the difference and the floors of the quotients while
    the difference is below 2^53, and beyond that the difference, rounded,
    stays on its side of every threshold. *)
Definition formatTimestamp (now timestamp : Z) : timestampText :=
  match TimeClip (timestamp * 1000) with
  | None => Invalid_Date
  | Some date =>
      let diffMs := now - date in
      let diffMins := diffMs / (1000 * 60) in
      let diffHours := diffMs / (1000 * 60 * 60) in
      let diffDays := diffMs / (1000 * 60 * 60 * 24) in
      if diffMins <? 1 then just_now
      else if diffMins <? 60 then minutes_ago diffMins
      else if diffHours <? 24 then hours_ago diffHours
      else if diffDays <? 7 then days_ago diffDays
      else localeDate date
  end.

End ContentRenderer.

(** ** The viewers

    The handlers the pages register with the relay manager, as functions of
    the list they maintain and the event received. *)

Module WallFeed.

Import RelayManager.

(** [[...new Set(l)]]: the first occurrence of every string, in order. *)
Definition newSet (l : list string) : list string :=
  fold_left (fun set x => if existsb (String.eqb x) set then set else set ++ [x]) l [].

(** [tags.filter(tag => tag[0] === 'p').map(tag => tag[1])
         .filter(pubkey => pubkey && pubkey.length === 64)] *)
Definition isPTag (tag : list string) : bool :=
  match tag with
  | t0 :: _ => String.eqb t0 "p"
  | [] => false
  end.

Definition followedPubkeys (tags : list (list string)) : list string :=
  flat_map (fun pubkey => match pubkey with
                          | Some pubkey =>
                              if negb (String.eqb pubkey "") && (String.length pubkey =? 64)%nat
                              then [pubkey] else []
                          | None => []
                          end)
           (map (fun tag => nth_error tag 1) (List.filter isPTag tags)).

(** The handler of [loadFollowingList], on [this.following]; [None] is an
    event without [tags]. *)
Definition onFollowingEvent (following : list string) (tags : option (list (list string)))
    : list string :=
  match tags with
  | Some tags =>
      let pubkeys := followedPubkeys tags in
      if (0 <? length pubkeys)%nat then newSet (following ++ pubkeys) else following
  | None => following
  end.

(** [a.slice(i, j)] for [i <= j]. *)
Definition slice {A} (i j : nat) (a : list A) : list A := firstn (j - i) (skipn i a).

(** [for (let i = 0; i < this.following.length; i += batchSize)
       batches.push(this.following.slice(i, i + batchSize));] *)
Fixpoint batchesFrom (fuel i batchSize : nat) (following : list string) : list (list string) :=
  match fuel with
  | O => []
  | S fuel' =>
      if (i <? length following)%nat
      then slice i (i + batchSize) following :: batchesFrom fuel' (i + batchSize) batchSize following
      else []
  end.

(** The batches of [loadFollowedUsersProfiles]. *)
Definition profileBatches (following : list string) : list (list string) :=
  batchesFrom (length following) 0 20 following.

(** The handler of [loadTimelinePosts], on [this.timelinePosts]. *)
Definition onTimelinePost (timelinePosts : list Event) (postEvent : Event) : list Event :=
  if existsb (fun p => String.eqb (ev_id p) (ev_id postEvent)) timelinePosts
  then timelinePosts
  else timelinePosts ++ [postEvent].

End WallFeed.

Module ThreadViewer.

Import RelayManager.

(** The handler of [fetchReplies], on [this.replies]. *)
Definition onReply (replies : list Event) (replyEvent : Event) : list Event :=
  if existsb (fun r => String.eqb (ev_id r) (ev_id replyEvent)) replies
  then replies
  else replies ++ [replyEvent].

End ThreadViewer.

Module NostrApp.

Import CryptoUtils RelayManager.

(** [handlePostEvent], on [this.postsData]. *)
Definition handlePostEvent (postsData : list Event) (eventData : Event) : list Event :=
  if negb (ev_kind eventData =? 1) then postsData
  else if existsb (fun p => String.eqb (ev_id p) (ev_id eventData)) postsData
  then postsData
  else postsData ++ [eventData].

(** What [fetchProfile] does with the trimmed input before it touches the
    relays: the error it shows, the test conversion, or the key it goes on
    with. *)
Inductive entry :=
| PleaseEnter                                     (* 'Please enter a public key' *)
| TestConversion
| DecodingError (message : string)                (* 'Error decoding public key: ' + e.message *)
| InvalidFormat (pubkey : string) (length : nat)  (* `Invalid public key format. Got: ...` *)
| Load (pubkey : string).

Definition fetchProfile (pubkeyInput : string) : entry :=
  if String.eqb pubkeyInput "" then PleaseEnter
  else if String.eqb pubkeyInput "test" then TestConversion
  else
    match normalizeKey pubkeyInput with
    | Throw message => DecodingError message
    | Ok pubkey =>
        if negb (validatePubkey pubkey) then InvalidFormat pubkey (String.length pubkey)
        else Load pubkey
    end.

End NostrApp.

(** ** Callbacks that call the manager

    [RelayManager] takes a caller's callback as opaque. The code behind a
    callback is the caller's, and it may call the manager before it returns
    or throws, as the handlers of this repository do: the replies handler of
    [thread-viewer.js] renders the post and, through [createPostElement],
    calls [fetchEvent]. Here the dispatch is given with that code: for each
    callback, the calls it makes on an event, in order, up to its return or
    its throw. They may depend on what the callback finds: the state of the
    manager at the call, whose log stands for what the callers have seen so
    far. The calls are those of the methods that change the manager at
    once: [subscribe]
    and its two wrappers, [unsubscribe], [fetchEvent] and
    [closeAllConnections] ([getConnectedCount] changes nothing, and
    [connectToRelays], which the callers of this repository call before
    they subscribe, is not among them). None of these methods runs a
    handler, so the calls are performed one after the other on the
    manager's state. [handlers.forEach] visits the handlers the array held
    when the loop began: [subscribe] only appends to it, and [unsubscribe]
    and [closeAllConnections] take the array out of the map and leave its
    elements. *)

Module Callers.

Import RelayManager.

Inductive call :=
| Subscribe (subscriptionId : string) (f : Filters) (eventHandler : handler)
    (options_onEOSE : option eoseHandler)
| SubscribeToProfile (pubkey : string) (h : handler)
| SubscribeToPosts (pubkey : string) (h : handler) (limit : Z)
| Unsubscribe (subscriptionId : string)
| FetchEvent (eventId : string) (h : callback)
| CloseAllConnections.

Definition perform (s : state) (c : call) : state :=
  match c with
  | Subscribe subscriptionId f eventHandler options_onEOSE =>
      subscribe subscriptionId f eventHandler options_onEOSE s
  | SubscribeToProfile pubkey h => subscribeToProfile pubkey h s
  | SubscribeToPosts pubkey h limit => subscribeToPosts pubkey h limit s
  | Unsubscribe subscriptionId => unsubscribe subscriptionId s
  | FetchEvent eventId h => fetchEvent eventId h s
  | CloseAllConnections => closeAllConnections s
  end.

Section Code.

(** The calls a callback makes when it is run on an event, and the calls
    an end-of-stored-events callback makes when it is run for a relay,
    each in the state it finds. *)
Variable calls : callback -> Event -> state -> list call.
Variable eoseCalls : eoseCallback -> string -> state -> list call.

(** A caller's callback run on an event: its calls, then its return or
    its throw. *)
Definition runCallback (cb : callback) (eventData : Event) (s : state)
    : state * completion :=
  (fold_left perform (calls cb eventData s) s,
   if cb_throws cb eventData then Thrown else Normal).

(** One handler call of the dispatch loop. For [oneTimeHandler]:
    [if (eventData.id === eventId) { handler(eventData); setTimeout(() => this.unsubscribe(subscriptionId), 1000); }] *)
Definition callHandler (h : handler) (eventData : Event) (relayUrl : string)
    (s : state) : state * completion :=
  let s := logged (Invoked h eventData relayUrl) s in
  match h with
  | Callback cb => runCallback cb eventData s
  | OneTimeHandler eventId subscriptionId cb =>
      if String.eqb (ev_id eventData) eventId then
        match runCallback cb eventData (logged (Delivered cb eventData) s) with
        | (s, Thrown) => (s, Thrown)
        | (s, Normal) => (setTimeout (UnsubscribeLater subscriptionId) 1000 s, Normal)
        end
      else (s, Normal)
  end.

(** [try { handler(eventData, relayUrl); } catch (e) { console.error('Error in event handler:', e); }] *)
Definition callCaught (eventData : Event) (relayUrl : string) (s : state) (h : handler)
    : state :=
  match callHandler h eventData relayUrl s with
  | (s, Normal) => s
  | (s, Thrown) => logged (ConsoleError "Error in event handler:") s
  end.

Definition handleEvent (relayUrl subscriptionId : string) (eventData : Event)
    (s : state) : state * completion :=
  match ev_pubkey eventData with
  | None => (s, Thrown)   (* [eventData.pubkey.slice] on [undefined] *)
  | Some _ =>
      match eventHandlers s !! subscriptionId with
      | Some handlers => (fold_left (callCaught eventData relayUrl) handlers s, Normal)
      | None => (s, Normal)
      end
  end.

Definition handleEndOfStoredEvents (relayUrl subscriptionId : string)
    (s : state) : state * completion :=
  match subscriptions s !! subscriptionId with
  | Some sub =>
      match onEOSE sub with
      | Some (OnEose cb) =>
          let s := logged (EoseInvoked cb relayUrl) s in
          (fold_left perform (eoseCalls cb relayUrl s) s,
           if eose_throws cb relayUrl then Thrown else Normal)
      | Some (FetchOnEose eventId subscriptionId) =>
          (setTimeout (FetchCleanup eventId subscriptionId) 2000 s, Normal)
      | None => (s, Normal)
      end
  | None => (s, Normal)
  end.

Definition handleRelayMessage (relayUrl : string) (event : frame) (s : state) : state :=
  match event with
  | Unparsable => logged (ConsoleError "Error parsing message:") s
  | Message type subscriptionId eventData =>
      let '(s, c) :=
        match String.eqb type "EVENT", eventData with
        | true, Data e => handleEvent relayUrl subscriptionId e s
        | _, _ =>
            if String.eqb type "EOSE" then handleEndOfStoredEvents relayUrl subscriptionId s
            else (s, Normal)
        end in
      match c with
      | Normal => s
      | Thrown => logged (ConsoleError "Error parsing message:") s
      end
  end.

End Code.

End Callers.

(** ** Further vocabulary *)

Module Notions.

Import CryptoUtils RelayManager ContentRenderer.

(** *** Codec *)

(** The characters of a list of 5-bit values. *)
Definition encodeQuintets (values : list Z) : list ascii := concat (map charsetAt values).

(** A payload written without a version byte, as other bech32 encoders
    write a key: prefix, the regrouped bytes, six more characters. *)
Definition unversioned (prefix : string) (payload : list Z) (checksum : list ascii) : string :=
  str (chars prefix ++ encodeQuintets (convert8to5 (map Num payload)) ++ checksum).

Definition isHexText (s : list ascii) : Prop := Forall (fun c => In c Spec.hexChars) s.
Definition isLowerHexText (s : list ascii) : Prop := Forall (fun c => In c Spec.lowerHexChars) s.
Definition inAlphabet (s : list ascii) : Prop := Forall (fun c => In c BECH32_CHARSET) s.

(** *** Relay manager *)



(** How many entries of the pool hold socket [ws]. *)
Definition poolEntries (s : state) (ws : nat) : nat :=
  length (List.filter (fun conn => Nat.eqb (snd conn) ws) (activeConnections s)).

(** The end-of-stored-events callbacks run, as logged. *)
Definition eoseCallbacks (l : list logEntry) : list (eoseCallback * string) :=
  flat_map (fun entry => match entry with EoseInvoked cb relayUrl => [(cb, relayUrl)] | _ => [] end) l.

(** The events handed to the callback of a [fetchEvent], as logged. *)
Definition deliveries (l : list logEntry) : list (callback * Event) :=
  flat_map (fun entry => match entry with Delivered cb e => [(cb, e)] | _ => [] end) l.

(** For a subscription id: either it is released, or the unsubscribe armed
    for it is still to fire, at time [D]. *)
Definition unsubscribePending (id : string) (D : N) (s : state) : Prop :=
  (subscriptions s !! id = None -> eventHandlers s !! id = None) /\
  (Spec.released s id \/ In (D, UnsubscribeLater id) (timers s)).

(** The caller's callback a handler runs. *)
Definition callbackOf (h : handler) : callback :=
  match h with
  | Callback cb => cb
  | OneTimeHandler _ _ cb => cb
  end.

(** The state the caller's callback of a handler finds when the dispatch
    loop calls the handler: the call is logged, and for the handler of a
    fetch the delivery. *)
Definition atCall (h : handler) (eventData : Event) (relayUrl : string) (s : state) : state :=
  match h with
  | Callback _ => logged (Invoked h eventData relayUrl) s
  | OneTimeHandler _ _ cb =>
      logged (Delivered cb eventData) (logged (Invoked h eventData relayUrl) s)
  end.

(** Callbacks that make no call. *)
Definition noCalls {A B} : A -> B -> state -> list Callers.call := fun _ _ _ => [].

(** *** Content *)

(** The text a part was cut from. *)
Definition partSource (p : part) : list ascii :=
  match p with
  | Text content => chars content
  | Image url | Video url | YouTube url _ | Link url _ => chars url
  | NoteReference _ fullRef | ProfileReference _ fullRef | EventReference _ fullRef =>
      chars fullRef
  end.

Definition sourceOf (parts : list part) : list ascii := concat (map partSource parts).

(** No URL starts anywhere in the text. *)
Definition urlFree (s : list ascii) : Prop := Forall (fun t => matchUrlAt t = None) (tails s).

(** No nostr reference starts anywhere in the text. *)
Definition referenceFree (s : list ascii) : Prop :=
  Forall (fun t => matchNostrAt t = None) (tails s).

(** A URL as [parseUrls] cuts it: a scheme, [://], and one or more
    characters that are not white space. *)
Definition isUrl (url : list ascii) : Prop :=
  exists scheme run,
    (scheme = chars "http" \/ scheme = chars "https") /\ run <> [] /\
    forallb isNonSpace run = true /\ url = scheme ++ chars "://" ++ run.

(** A reference as [parseNostrReferences] cuts it. *)
Definition isReference (prefix : string) (identifier fullRef : string) : Prop :=
  exists run,
    run <> [] /\ forallb isLowerAlnum run = true /\
    chars identifier = chars prefix ++ run /\
    chars fullRef = chars "nostr:" ++ chars identifier.

(** What [parseUrls] makes of a text: text parts that are not empty and
    hold no URL, and URL parts sorted by the first test that applies. *)
Definition urlPartOk (p : part) : Prop :=
  match p with
  | Text content => chars content <> [] /\ urlFree (chars content)
  | Image url => isUrl (chars url) /\ isImageUrl url = true
  | Video url => isUrl (chars url) /\ isImageUrl url = false /\ isVideoUrl url = true
  | YouTube url videoId =>
      isUrl (chars url) /\ isImageUrl url = false /\ isVideoUrl url = false /\
      isYouTubeUrl url = true /\ videoId = getYouTubeVideoId url /\ videoId <> None
  | Link url text =>
      isUrl (chars url) /\ isImageUrl url = false /\ isVideoUrl url = false /\
      isYouTubeUrl url = false /\ text = url
  | _ => False
  end.

(** What [parseNostrReferences] makes of a text. *)
Definition referencePartOk (p : part) : Prop :=
  match p with
  | Text content => chars content <> [] /\ referenceFree (chars content)
  | NoteReference identifier fullRef => isReference "note1" identifier fullRef
  | ProfileReference identifier fullRef =>
      isReference "npub1" identifier fullRef \/ isReference "nprofile1" identifier fullRef
  | EventReference identifier fullRef => isReference "nevent1" identifier fullRef
  | _ => False
  end.

(** What [parsePostContent] makes of a text. *)
Definition postPartOk (p : part) : Prop :=
  match p with
  | Text content =>
      chars content <> [] /\ urlFree (chars content) /\ referenceFree (chars content)
  | Image url | Video url | YouTube url _ | Link url _ =>
      urlPartOk p /\ referenceFree (chars url)
  | _ => referencePartOk p
  end.

(** *** Feeds *)

(** The first event with each id, in order of arrival. *)
Fixpoint firstById (seen : list string) (events : list Event) : list Event :=
  match events with
  | [] => []
  | e :: rest =>
      if existsb (String.eqb (ev_id e)) seen then firstById seen rest
      else e :: firstById (seen ++ [ev_id e]) rest
  end.

End Notions.

(** * Properties of the codec *)

Module CodecFacts.

Import CryptoUtils Spec.

(** ** 32-bit arithmetic *)

Lemma ToInt32_small z : - 2 ^ 31 <= z < 2 ^ 31 -> ToInt32 z = z.
Proof. unfold ToInt32. intros H. rewrite Z.mod_small; lia. Qed.

Lemma ToInt32_range z : - 2 ^ 31 <= ToInt32 z < 2 ^ 31.
Proof.
  unfold ToInt32. pose proof (Z.mod_pos_bound (z + 2 ^ 31) (2 ^ 32)). lia.
Qed.

Lemma ToInt32_idem z : ToInt32 (ToInt32 z) = ToInt32 z.
Proof. apply ToInt32_small, ToInt32_range. Qed.

Lemma ToInt32_eqm z : exists q, ToInt32 z = z + q * 2 ^ 32.
Proof.
  unfold ToInt32. exists (- ((z + 2 ^ 31) / 2 ^ 32)).
  pose proof (Z.div_mod (z + 2 ^ 31) (2 ^ 32)). lia.
Qed.

(** [x & (2^w - 1)] keeps the low [w] bits. *)
Lemma band_ones x w : 0 <= w <= 31 -> band x (2 ^ w - 1) = x mod 2 ^ w.
Proof.
  intros Hw. unfold band.
  assert (Hp : 0 < 2 ^ w <= 2 ^ 31).
  { split; [apply Z.pow_pos_nonneg; lia | apply Z.pow_le_mono_r; lia]. }
  rewrite (ToInt32_small (2 ^ w - 1)) by lia.
  replace (2 ^ w - 1) with (Z.ones w) by (rewrite Z.ones_equiv; lia).
  rewrite Z.land_ones by lia.
  destruct (ToInt32_eqm x) as [q ->].
  replace (2 ^ 32) with (2 ^ (32 - w) * 2 ^ w) by (rewrite <- Z.pow_add_r by lia; f_equal; lia).
  rewrite Z.mul_assoc, Z_mod_plus_full.
  apply ToInt32_small. pose proof (Z.mod_pos_bound x (2 ^ w)). lia.
Qed.

Lemma band_31 x : band x 31 = x mod 32.
Proof. apply (band_ones x 5). lia. Qed.

Lemma band_255 x : band x 255 = x mod 256.
Proof. apply (band_ones x 8). lia. Qed.

Lemma small_shift n : 0 <= n < 32 -> ToUint32 n mod 32 = n.
Proof.
  intros H. unfold ToUint32. change (2 ^ 32) with 4294967296.
  rewrite (Z.mod_small n 4294967296) by lia. apply Z.mod_small; lia.
Qed.

(** [(a >>> n) mod 2^w] reads bits [n .. n+w-1] of [a] when they lie inside
    the 32-bit word. *)
Lemma shr_mod a n w :
  0 <= n -> 0 < w -> n + w <= 32 -> shr a n mod 2 ^ w = (a / 2 ^ n) mod 2 ^ w.
Proof.
  intros Hn Hw Hnw. unfold shr. rewrite small_shift by lia.
  rewrite Z.shiftr_div_pow2 by lia. unfold ToUint32.
  assert (Hpn : 0 < 2 ^ n) by (apply Z.pow_pos_nonneg; lia).
  assert (E : 2 ^ 32 = 2 ^ (32 - n - w) * 2 ^ w * 2 ^ n).
  { rewrite <- !Z.pow_add_r by lia. f_equal. lia. }
  rewrite (Z.mod_eq a (2 ^ 32)) by lia.
  set (q := a / 2 ^ 32). rewrite E.
  replace (a - 2 ^ (32 - n - w) * 2 ^ w * 2 ^ n * q)
    with (a + (- q * 2 ^ (32 - n - w) * 2 ^ w) * 2 ^ n) by ring.
  rewrite Z.div_add by lia.
  apply Z_mod_plus_full.
Qed.

(** [(acc << w) | v] appends the [w] bits of [v] below those of [acc]. *)
Lemma bor_shl_eqm acc v w :
  0 < w < 32 -> 0 <= v < 2 ^ w -> exists q, bor (shl acc w) v = acc * 2 ^ w + v + q * 2 ^ 32.
Proof.
  intros Hw Hv. unfold bor, shl. rewrite small_shift by lia.
  rewrite ToInt32_idem. rewrite Z.shiftl_mul_pow2 by lia.
  assert (Hp : 0 < 2 ^ w <= 2 ^ 31).
  { split; [apply Z.pow_pos_nonneg; lia | apply Z.pow_le_mono_r; lia]. }
  rewrite (ToInt32_small v) by lia.
  set (X := ToInt32 (ToInt32 acc * 2 ^ w)).
  assert (HX : exists k, X = k * 2 ^ w).
  { subst X. destruct (ToInt32_eqm (ToInt32 acc * 2 ^ w)) as [q ->].
    exists (ToInt32 acc + q * 2 ^ (32 - w)).
    replace (2 ^ 32) with (2 ^ (32 - w) * 2 ^ w)
      by (rewrite <- Z.pow_add_r by lia; f_equal; lia).
    ring. }
  assert (HL : Z.land X v = 0).
  { destruct HX as [k ->].
    rewrite <- (Z.mod_small v (2 ^ w)) by lia.
    rewrite <- Z.land_ones by lia.
    rewrite (Z.land_comm v), Z.land_assoc, Z.land_ones by lia.
    rewrite Z_mod_mult. apply Z.land_0_l. }
  pose proof (Z.add_lor_land X v) as HA. rewrite HL in HA.
  replace (Z.lor X v) with (X + v) by lia.
  subst X.
  destruct (ToInt32_eqm (ToInt32 (ToInt32 acc * 2 ^ w) + v)) as [q1 ->].
  destruct (ToInt32_eqm (ToInt32 acc * 2 ^ w)) as [q2 ->].
  destruct (ToInt32_eqm acc) as [q3 ->].
  exists (q1 + q2 + q3 * 2 ^ w). ring.
Qed.

Lemma bor_shl_mod acc v w m :
  0 < w < 32 -> 0 <= v < 2 ^ w -> 0 <= m <= 32 ->
  bor (shl acc w) v mod 2 ^ m = (acc * 2 ^ w + v) mod 2 ^ m.
Proof.
  intros Hw Hv Hm. destruct (bor_shl_eqm acc v w Hw Hv) as [q ->].
  replace (2 ^ 32) with (2 ^ (32 - m) * 2 ^ m)
    by (rewrite <- Z.pow_add_r by lia; f_equal; lia).
  rewrite Z.mul_assoc. apply Z_mod_plus_full.
Qed.

(** [(acc << n) & 31] *)
Lemma band_shl_31 acc n : 0 <= n < 32 -> band (shl acc n) 31 = (acc * 2 ^ n) mod 32.
Proof.
  intros Hn. rewrite band_31. unfold shl. rewrite small_shift by lia.
  rewrite Z.shiftl_mul_pow2 by lia.
  destruct (ToInt32_eqm (ToInt32 acc * 2 ^ n)) as [q1 ->].
  destruct (ToInt32_eqm acc) as [q2 ->].
  replace ((acc + q2 * 2 ^ 32) * 2 ^ n + q1 * 2 ^ 32)
    with (acc * 2 ^ n + (q2 * 2 ^ n * 134217728 + q1 * 134217728) * 32)
    by (change (2 ^ 32) with 4294967296; ring).
  apply Z_mod_plus_full.
Qed.

(** ** Regrouping bits *)

Lemma valueOf_snoc base l d : valueOf base (l ++ [d]) = valueOf base l * base + d.
Proof. unfold valueOf. rewrite fold_left_app. reflexivity. Qed.

Lemma pow2_pos n : 0 <= n -> 0 < 2 ^ n.
Proof. intros. apply Z.pow_pos_nonneg; lia. Qed.

(** Splitting the low [n + w] bits into the low [n] and the next [w]. *)
Lemma mod_split a n w :
  0 <= n -> 0 <= w ->
  a mod 2 ^ (n + w) = a mod 2 ^ n + 2 ^ n * ((a / 2 ^ n) mod 2 ^ w).
Proof.
  intros Hn Hw. rewrite Z.pow_add_r by lia.
  apply Z.rem_mul_r; [apply Z.pow_nonzero; lia | apply pow2_pos; lia].
Qed.

Lemma drain5_spec fuel : forall acc bits conv bits' conv',
  0 <= bits <= 32 -> (Z.to_nat bits <= fuel)%nat -> Forall isQuintet conv ->
  drain5 fuel acc bits conv = (bits', conv') ->
  0 <= bits' < 5 /\
  5 * Z.of_nat (length conv') + bits' = 5 * Z.of_nat (length conv) + bits /\
  valueOf 32 conv' * 2 ^ bits' + acc mod 2 ^ bits'
    = valueOf 32 conv * 2 ^ bits + acc mod 2 ^ bits /\
  Forall isQuintet conv'.
Proof.
  induction fuel as [|fuel IH]; intros acc bits conv bits' conv' Hb Hf Hc; simpl.
  - intros [= <- <-]. repeat split; auto; lia.
  - destruct (Z.leb_spec 5 bits) as [Hge|Hlt].
    + intros Hd. apply IH in Hd; try lia.
      * destruct Hd as (H1 & H2 & H3 & H4). repeat split; auto; try lia.
        { rewrite H2, length_app. simpl. lia. }
        assert (E : band (shr acc (bits - 5)) 31 = (acc / 2 ^ (bits - 5)) mod 2 ^ 5).
        { rewrite band_31. change 32 with (2 ^ 5). apply shr_mod; lia. }
        rewrite H3, valueOf_snoc, E.
        remember (bits - 5) as n eqn:Hn.
        assert (Hbn : bits = n + 5) by lia. rewrite Hbn.
        rewrite (mod_split acc n 5), Z.pow_add_r by lia.
        change (2 ^ 5) with 32. ring.
      * apply Forall_app; split; auto. constructor; [|constructor].
        rewrite band_31. unfold isQuintet. apply Z.mod_pos_bound. lia.
    + intros [= <- <-]. repeat split; auto; lia.
Qed.

Lemma drain8_spec fuel : forall acc bits conv bits' conv',
  0 <= bits <= 32 -> (Z.to_nat bits <= fuel)%nat -> Forall isByte conv ->
  drain8 fuel acc bits conv = (bits', conv') ->
  0 <= bits' < 8 /\
  8 * Z.of_nat (length conv') + bits' = 8 * Z.of_nat (length conv) + bits /\
  valueOf 256 conv' * 2 ^ bits' + acc mod 2 ^ bits'
    = valueOf 256 conv * 2 ^ bits + acc mod 2 ^ bits /\
  Forall isByte conv'.
Proof.
  induction fuel as [|fuel IH]; intros acc bits conv bits' conv' Hb Hf Hc; simpl.
  - intros [= <- <-]. repeat split; auto; lia.
  - destruct (Z.leb_spec 8 bits) as [Hge|Hlt].
    + intros Hd. apply IH in Hd; try lia.
      * destruct Hd as (H1 & H2 & H3 & H4). repeat split; auto; try lia.
        { rewrite H2, length_app. simpl. lia. }
        assert (E : band (shr acc (bits - 8)) 255 = (acc / 2 ^ (bits - 8)) mod 2 ^ 8).
        { rewrite band_255. change 256 with (2 ^ 8). apply shr_mod; lia. }
        rewrite H3, valueOf_snoc, E.
        remember (bits - 8) as n eqn:Hn.
        assert (Hbn : bits = n + 8) by lia. rewrite Hbn.
        rewrite (mod_split acc n 8), Z.pow_add_r by lia.
        change (2 ^ 8) with 256. ring.
      * apply Forall_app; split; auto. constructor; [|constructor].
        rewrite band_255. unfold isByte. apply Z.mod_pos_bound. lia.
    + intros [= <- <-]. repeat split; auto; lia.
Qed.

(** Appending a group of [w] bits [v] below the pending [bits] bits. *)
Lemma append_low acc v bits w :
  0 <= bits -> 0 <= w -> 0 <= v < 2 ^ w ->
  (acc * 2 ^ w + v) mod 2 ^ (bits + w) = (acc mod 2 ^ bits) * 2 ^ w + v.
Proof.
  intros Hb Hw Hv. rewrite (Z.add_comm bits w), mod_split by lia.
  rewrite (Z.add_comm (acc * 2 ^ w) v).
  rewrite Z_mod_plus_full, Z.div_add by (apply Z.pow_nonzero; lia).
  rewrite (Z.mod_small v), (Z.div_small v), Z.add_0_l by lia. ring.
Qed.

(** The loop invariant of [hexToNpub]'s regrouping: the bytes read so far
    are the quintets written followed by the pending low bits of [acc]. *)
Lemma step8to5_spec acc bits conv b :
  0 <= bits < 5 -> Forall isQuintet conv -> isByte b ->
  exists acc' bits' conv',
    step8to5 (acc, bits, conv) (Num b) = (acc', bits', conv') /\
    0 <= bits' < 5 /\ Forall isQuintet conv' /\
    5 * Z.of_nat (length conv') + bits' = 5 * Z.of_nat (length conv) + bits + 8 /\
    valueOf 32 conv' * 2 ^ bits' + acc' mod 2 ^ bits'
      = (valueOf 32 conv * 2 ^ bits + acc mod 2 ^ bits) * 256 + b.
Proof.
  intros Hb Hc Hv. unfold step8to5. cbn [numToInt32].
  rewrite (ToInt32_small b) by (unfold isByte in Hv; lia).
  set (acc' := bor (shl acc 8) b).
  destruct (drain5 (Z.to_nat (bits + 8)) acc' (bits + 8) conv) as [bits' conv'] eqn:Hd.
  apply drain5_spec in Hd; auto; try lia.
  destruct Hd as (H1 & H2 & H3 & H4).
  exists acc', bits', conv'. repeat split; auto; try lia.
  rewrite H3. subst acc'.
  rewrite (bor_shl_mod acc b 8 (bits + 8)) by (unfold isByte in Hv; simpl; lia).
  rewrite append_low by (unfold isByte in Hv; simpl; lia).
  rewrite Z.pow_add_r by lia. change (2 ^ 8) with 256. ring.
Qed.

Lemma step5to8_spec acc bits conv d :
  0 <= bits < 8 -> Forall isByte conv -> isQuintet d ->
  exists acc' bits' conv',
    step5to8 (acc, bits, conv) d = (acc', bits', conv') /\
    0 <= bits' < 8 /\ Forall isByte conv' /\
    8 * Z.of_nat (length conv') + bits' = 8 * Z.of_nat (length conv) + bits + 5 /\
    valueOf 256 conv' * 2 ^ bits' + acc' mod 2 ^ bits'
      = (valueOf 256 conv * 2 ^ bits + acc mod 2 ^ bits) * 32 + d.
Proof.
  intros Hb Hc Hv. unfold step5to8.
  set (acc' := bor (shl acc 5) d).
  destruct (drain8 (Z.to_nat (bits + 5)) acc' (bits + 5) conv) as [bits' conv'] eqn:Hd.
  apply drain8_spec in Hd; auto; try lia.
  destruct Hd as (H1 & H2 & H3 & H4).
  exists acc', bits', conv'. repeat split; auto; try lia.
  rewrite H3. subst acc'.
  rewrite (bor_shl_mod acc d 5 (bits + 5)) by (unfold isQuintet in Hv; simpl; lia).
  rewrite append_low by (unfold isQuintet in Hv; simpl; lia).
  rewrite Z.pow_add_r by lia. change (2 ^ 5) with 32. ring.
Qed.

Lemma fold_step8to5 bs : forall acc bits conv,
  0 <= bits < 5 -> Forall isQuintet conv -> Forall isByte bs ->
  exists acc' bits' conv',
    fold_left step8to5 (map Num bs) (acc, bits, conv) = (acc', bits', conv') /\
    0 <= bits' < 5 /\ Forall isQuintet conv' /\
    5 * Z.of_nat (length conv') + bits'
      = 5 * Z.of_nat (length conv) + bits + 8 * Z.of_nat (length bs) /\
    valueOf 32 conv' * 2 ^ bits' + acc' mod 2 ^ bits'
      = fold_left (fun a d => a * 256 + d) bs (valueOf 32 conv * 2 ^ bits + acc mod 2 ^ bits).
Proof.
  induction bs as [|b bs IH]; intros acc bits conv Hb Hc Hbs.
  - exists acc, bits, conv. simpl. repeat split; auto; lia.
  - inversion Hbs as [|? ? Hb0 Hbs']; subst.
    destruct (step8to5_spec acc bits conv b Hb Hc Hb0)
      as (acc1 & bits1 & conv1 & E & Hb1 & Hc1 & Hl1 & Hv1).
    destruct (IH acc1 bits1 conv1 Hb1 Hc1 Hbs')
      as (acc2 & bits2 & conv2 & E2 & Hb2 & Hc2 & Hl2 & Hv2).
    exists acc2, bits2, conv2. cbn [map fold_left]. rewrite E, E2.
    repeat split; auto; try lia.
    + rewrite Hl2, Hl1. cbn [length]. lia.
    + rewrite Hv2, Hv1. reflexivity.
Qed.

Lemma fold_step5to8 ds : forall acc bits conv,
  0 <= bits < 8 -> Forall isByte conv -> Forall isQuintet ds ->
  exists acc' bits' conv',
    fold_left step5to8 ds (acc, bits, conv) = (acc', bits', conv') /\
    0 <= bits' < 8 /\ Forall isByte conv' /\
    8 * Z.of_nat (length conv') + bits'
      = 8 * Z.of_nat (length conv) + bits + 5 * Z.of_nat (length ds) /\
    valueOf 256 conv' * 2 ^ bits' + acc' mod 2 ^ bits'
      = fold_left (fun a d => a * 32 + d) ds (valueOf 256 conv * 2 ^ bits + acc mod 2 ^ bits).
Proof.
  induction ds as [|d ds IH]; intros acc bits conv Hb Hc Hds.
  - exists acc, bits, conv. simpl. repeat split; auto; lia.
  - inversion Hds as [|? ? Hd0 Hds']; subst.
    destruct (step5to8_spec acc bits conv d Hb Hc Hd0)
      as (acc1 & bits1 & conv1 & E & Hb1 & Hc1 & Hl1 & Hv1).
    destruct (IH acc1 bits1 conv1 Hb1 Hc1 Hds')
      as (acc2 & bits2 & conv2 & E2 & Hb2 & Hc2 & Hl2 & Hv2).
    exists acc2, bits2, conv2. cbn [fold_left]. rewrite E, E2.
    repeat split; auto; try lia.
    + rewrite Hl2, Hl1. cbn [length]. lia.
    + rewrite Hv2, Hv1. reflexivity.
Qed.

Lemma pad_value X acc bits :
  0 < bits < 5 ->
  X * 32 + (acc * 2 ^ (5 - bits)) mod 32 = (X * 2 ^ bits + acc mod 2 ^ bits) * 2 ^ (5 - bits).
Proof.
  intros H.
  assert (C : bits = 1 \/ bits = 2 \/ bits = 3 \/ bits = 4) by lia.
  destruct C as [-> | [-> | [-> | ->]]]; cbn [Z.sub Z.opp Z.add Z.pos_sub Z.pow Z.pow_pos
    Pos.iter Z.mul Pos.mul Pos.succ Pos.pred_double Z.succ_double Z.pred_double Z.double];
    Z.div_mod_to_equations; lia.
Qed.

(** [convert8to5] writes the bytes as quintets, padded with [pad] zero bits. *)
Lemma convert8to5_spec bs :
  Forall isByte bs ->
  Forall isQuintet (convert8to5 (map Num bs)) /\
  exists pad, 0 <= pad < 5 /\
    5 * Z.of_nat (length (convert8to5 (map Num bs))) = 8 * Z.of_nat (length bs) + pad /\
    valueOf 32 (convert8to5 (map Num bs)) = valueOf 256 bs * 2 ^ pad.
Proof.
  intros Hbs. unfold convert8to5.
  destruct (fold_step8to5 bs 0 0 [] ltac:(lia) ltac:(constructor) Hbs)
    as (acc & bits & conv & E & Hb & Hc & Hl & Hv).
  rewrite E. cbn [length valueOf fold_left] in Hl, Hv.
  rewrite Z.mod_1_r in Hv. change (0 * 2 ^ 0 + 0) with 0 in Hv.
  fold (valueOf 256 bs) in Hv.
  destruct (Z.ltb_spec 0 bits) as [Hpos|Hzero].
  - split.
    + apply Forall_app; split; auto. constructor; [|constructor].
      rewrite band_31. unfold isQuintet. apply Z.mod_pos_bound. lia.
    + exists (5 - bits). rewrite length_app, valueOf_snoc. cbn [length].
      repeat split; try lia.
      rewrite band_shl_31 by lia. rewrite <- Hv. apply pad_value. lia.
  - assert (bits = 0) by lia. subst bits. split; auto.
    exists 0. repeat split; try lia.
    rewrite <- Hv. rewrite Z.mod_1_r. simpl. lia.
Qed.

Lemma convert5to8_spec ds :
  Forall isQuintet ds ->
  Forall isByte (convert5to8 ds) /\
  exists bits r, 0 <= bits < 8 /\ 0 <= r < 2 ^ bits /\
    8 * Z.of_nat (length (convert5to8 ds)) + bits = 5 * Z.of_nat (length ds) /\
    valueOf 32 ds = valueOf 256 (convert5to8 ds) * 2 ^ bits + r.
Proof.
  intros Hds. unfold convert5to8.
  destruct (fold_step5to8 ds 0 0 [] ltac:(lia) ltac:(constructor) Hds)
    as (acc & bits & conv & E & Hb & Hc & Hl & Hv).
  rewrite E. cbn [length valueOf fold_left] in Hl, Hv.
  rewrite Z.mod_1_r in Hv. change (0 * 2 ^ 0 + 0) with 0 in Hv.
  fold (valueOf 32 ds) in Hv.
  split; auto. exists bits, (acc mod 2 ^ bits). repeat split; try lia.
  - apply Z.mod_pos_bound, pow2_pos; lia.
  - apply Z.mod_pos_bound, pow2_pos; lia.
Qed.

(** Digit lists of one length denote distinct numbers. *)
Lemma valueOf_inj base l1 : forall l2,
  0 < base ->
  length l1 = length l2 ->
  Forall (fun d => 0 <= d < base) l1 -> Forall (fun d => 0 <= d < base) l2 ->
  valueOf base l1 = valueOf base l2 -> l1 = l2.
Proof.
  induction l1 as [|d1 l1 IH] using rev_ind; intros l2 Hbase Hlen H1 H2 Hv.
  - destruct l2; [reflexivity | discriminate].
  - destruct l2 as [|d2 l2 _] using rev_ind.
    + rewrite length_app in Hlen. simpl in Hlen. lia.
    + rewrite !length_app in Hlen. simpl in Hlen.
      apply Forall_app in H1 as [H1 H1d]. apply Forall_app in H2 as [H2 H2d].
      inversion H1d as [|? ? Hd1 _]; subst. inversion H2d as [|? ? Hd2 _]; subst.
      rewrite !valueOf_snoc in Hv.
      assert (Hd : d1 = d2).
      { rewrite <- (Z.mod_small d1 base), <- (Z.mod_small d2 base) by lia.
        rewrite <- (Z_mod_plus_full d1 (valueOf base l1) base).
        rewrite <- (Z_mod_plus_full d2 (valueOf base l2) base).
        f_equal. lia. }
      subst d2. f_equal. apply IH; auto; try lia.
      apply (Z.mul_cancel_r _ _ base); lia.
Qed.

(** Regrouping bytes into quintets and back gives the bytes again. *)
Lemma convert5to8_convert8to5 bs :
  Forall isByte bs -> convert5to8 (convert8to5 (map Num bs)) = bs.
Proof.
  intros Hbs.
  destruct (convert8to5_spec bs Hbs) as (Hq & pad & Hpad & Hl & Hv).
  destruct (convert5to8_spec _ Hq) as (Hb & bits & r & Hbits & Hr & Hl' & Hv').
  assert (Hlen : length (convert5to8 (convert8to5 (map Num bs))) = length bs) by lia.
  assert (bits = pad) by lia. subst bits.
  apply (valueOf_inj 256); auto; try lia.
  assert (0 < 2 ^ pad) by (apply pow2_pos; lia). nia.
Qed.

(** ** Strings and the alphabet *)

Lemma chars_str l : chars (str l) = l.
Proof. apply list_ascii_of_string_of_list_ascii. Qed.

Lemma str_chars s : str (chars s) = s.
Proof. apply string_of_list_ascii_of_string. Qed.

Lemma charsetAt_quintet v :
  isQuintet v -> exists c, charsetAt v = [c] /\ indexOf BECH32_CHARSET c = v.
Proof.
  intros [Hlo Hhi].
  assert (Hall : forallb (fun n => match charsetAt (Z.of_nat n) with
                                   | [c] => indexOf BECH32_CHARSET c =? Z.of_nat n
                                   | _ => false
                                   end) (seq 0 32) = true)
    by (vm_compute; reflexivity).
  rewrite forallb_forall in Hall.
  specialize (Hall (Z.to_nat v) ltac:(apply in_seq; lia)).
  rewrite Z2Nat.id in Hall by lia.
  destruct (charsetAt v) as [|c [|? ?]]; try discriminate.
  exists c. split; [reflexivity | lia].
Qed.

Lemma append_charsetAt l : forall init,
  fold_left (fun result val => result ++ charsetAt val) l init
    = init ++ concat (map charsetAt l).
Proof.
  induction l as [|v l IH]; intros init; simpl.
  - now rewrite app_nil_r.
  - rewrite IH. now rewrite <- app_assoc.
Qed.

Lemma encoded_length ds :
  Forall isQuintet ds -> length (concat (map charsetAt ds)) = length ds.
Proof.
  induction 1 as [|d ds Hd _ IH]; simpl; [reflexivity|].
  destruct (charsetAt_quintet d Hd) as (c & -> & _). simpl. now rewrite IH.
Qed.

Lemma decodeChars_encoded ds :
  Forall isQuintet ds -> decodeChars (concat (map charsetAt ds)) = Ok ds.
Proof.
  induction 1 as [|d ds Hd _ IH]; simpl; [reflexivity|].
  destruct (charsetAt_quintet d Hd) as (c & -> & Hc). cbn [app decodeChars].
  rewrite Hc, IH.
  destruct (Z.eqb_spec d (-1)) as [E|_]; [unfold isQuintet in Hd; lia|reflexivity].
Qed.

Lemma bech32Checksum_quintets hrp data :
  Forall isQuintet (bech32Checksum hrp data) /\ length (bech32Checksum hrp data) = 6%nat.
Proof.
  unfold bech32Checksum. cbv zeta. split; [|reflexivity].
  apply Forall_map, Forall_forall. intros i _. rewrite band_31.
  unfold isQuintet. apply Z.mod_pos_bound. lia.
Qed.

(** [slice(5, -6)] of a prefix of five, then data, then six characters. *)
Lemma slice_encoded (prefix data checksum : list ascii) :
  length prefix = 5%nat -> length checksum = 6%nat ->
  slice_5_m6 (prefix ++ data ++ checksum) = data.
Proof.
  intros Hp Hc. unfold slice_5_m6.
  rewrite !length_app, Hp, Hc.
  rewrite skipn_app, Hp, Nat.sub_diag. cbn [skipn].
  rewrite (skipn_all2 prefix) by lia. cbn [app]. rewrite skipn_O.
  replace (5 + (length data + 6) - 6 - 5)%nat with (length data + 0)%nat by lia.
  rewrite firstn_app_2. cbn [firstn]. apply app_nil_r.
Qed.

(** ** Hex text *)

Lemma hex_pair a b :
  In a lowerHexChars -> In b lowerHexChars ->
  exists v, parseInt16 [a; b] = Num v /\ isByte v /\ padStart0 2 (toString16 v) = [a; b].
Proof.
  assert (Hall : forallb (fun a => forallb (fun b =>
                   match parseInt16 [a; b] with
                   | Num v => (0 <=? v) && (v <? 256)
                              && bool_decide (padStart0 2 (toString16 v) = [a; b])
                   | NaN => false
                   end) lowerHexChars) lowerHexChars = true)
    by (vm_compute; reflexivity).
  intros Ha Hb. rewrite forallb_forall in Hall. specialize (Hall a Ha).
  rewrite forallb_forall in Hall. specialize (Hall b Hb).
  destruct (parseInt16 [a; b]) as [|v]; [discriminate|].
  apply andb_prop in Hall as [Hall Hs]. apply andb_prop in Hall as [Hlo Hhi].
  exists v. repeat split; try lia.
  now apply bool_decide_eq_true in Hs.
Qed.

Lemma hexBytes_lower n : forall hex,
  length hex = (2 * n)%nat -> Forall (fun c => In c lowerHexChars) hex ->
  exists bs, hexBytes hex = map Num bs /\ Forall isByte bs /\
             bytesToHex bs = hex /\ length bs = n.
Proof.
  induction n as [|n IH]; intros hex Hlen Hhex.
  - destruct hex; [|discriminate]. exists []. repeat split; constructor.
  - destruct hex as [|a [|b hex]]; try (simpl in Hlen; lia).
    pose proof (Forall_inv Hhex) as Ha.
    pose proof (Forall_inv (Forall_inv_tail Hhex)) as Hb.
    pose proof (Forall_inv_tail (Forall_inv_tail Hhex)) as Hhex''. cbv beta in Ha, Hb.
    destruct (hex_pair a b Ha Hb) as (v & Hv & Hbyte & Hs).
    destruct (IH hex ltac:(simpl in Hlen; lia) Hhex'') as (bs & E & Hbs & Hh & Hl).
    exists (v :: bs). cbn [hexBytes]. rewrite Hv, E. repeat split.
    + constructor; auto.
    + unfold bytesToHex in *. cbn [map concat]. rewrite Hs, Hh. reflexivity.
    + simpl. now rewrite Hl.
Qed.

Lemma strip0x_lower hex :
  Forall (fun c => In c lowerHexChars) hex -> strip0x hex = hex.
Proof.
  intros H. unfold strip0x. destruct hex as [|a [|b hex]].
  - reflexivity.
  - destruct a as [[] [] [] [] [] [] [] []]; reflexivity.
  - pose proof (Forall_inv (Forall_inv_tail H)) as Hb. cbv beta in Hb.
    assert (Hx : b <> "x"%char).
    { intros ->. revert Hb. vm_compute. intuition discriminate. }
    destruct a as [[] [] [] [] [] [] [] []]; try reflexivity.
    destruct b as [[] [] [] [] [] [] [] []]; try reflexivity. congruence.
Qed.

Lemma padStart0_full n s : (n <= length s)%nat -> padStart0 n s = s.
Proof.
  intros H. unfold padStart0. now replace (n - length s)%nat with 0%nat by lia.
Qed.

(** What either encoder writes between a five-character prefix and the
    checksum is read back by the decoders' two loops. *)
Lemma encoded_decodes prefix hrp bs :
  length prefix = 5%nat -> Forall isByte bs ->
  let converted := convert8to5 (map Num bs) in
  let text := fold_left (fun result val => result ++ charsetAt val)
                        (converted ++ bech32Checksum hrp converted) prefix in
  exists rest, text = prefix ++ rest /\
    bind (decodeChars (slice_5_m6 text)) (fun decoded => Ok (convert5to8 decoded)) = Ok bs.
Proof.
  intros Hp Hbs converted text. subst text.
  destruct (convert8to5_spec bs Hbs) as (Hq & _).
  destruct (bech32Checksum_quintets hrp converted) as (Hcq & Hcl).
  rewrite append_charsetAt, map_app, concat_app.
  eexists; split; [reflexivity|].
  rewrite slice_encoded; auto.
  - rewrite decodeChars_encoded by auto. cbn [bind].
    subst converted. now rewrite convert5to8_convert8to5.
  - now rewrite encoded_length.
Qed.

Lemma startsWith_app prefix rest : startsWith (prefix ++ rest) prefix = true.
Proof.
  induction prefix as [|c prefix IH]; simpl; [destruct rest; reflexivity|].
  now rewrite Ascii.eqb_refl.
Qed.

Lemma startsWith_app_l s p q : startsWith s (p ++ q) = true -> startsWith s p = true.
Proof.
  revert s. induction p as [|c p IH]; intros [|d s]; try reflexivity.
  - discriminate.
  - cbn [app startsWith]. destruct (Ascii.eqb c d); [apply IH | intros H; exact H].
Qed.

Lemma hexDigitChar_lower d : In (hexDigitChar d) lowerHexChars.
Proof.
  unfold hexDigitChar.
  destruct (nth_in_or_default (Z.to_nat d) (chars "0123456789abcdef") "0"%char) as [H| ->].
  - exact H.
  - vm_compute. auto.
Qed.

Lemma toHexDigits_lower fuel : forall z acc,
  Forall (fun c => In c lowerHexChars) acc ->
  Forall (fun c => In c lowerHexChars) (toHexDigits fuel z acc).
Proof.
  induction fuel as [|fuel IH]; intros z acc Hacc; simpl; [exact Hacc|].
  destruct (z <? 16).
  - constructor; [apply hexDigitChar_lower | exact Hacc].
  - apply IH. constructor; [apply hexDigitChar_lower | exact Hacc].
Qed.

Lemma padStart0_lower n s :
  Forall (fun c => In c lowerHexChars) s ->
  Forall (fun c => In c lowerHexChars) (padStart0 n s).
Proof.
  intros H. unfold padStart0. apply Forall_app. split; [|exact H].
  apply Forall_forall. intros c Hc. apply repeat_spec in Hc. subst c.
  vm_compute. auto.
Qed.

(** Whatever the bytes, their hex text is made of lowercase hex digits. *)
Lemma bytesToHex_lower bytes : Forall (fun c => In c lowerHexChars) (bytesToHex bytes).
Proof.
  unfold bytesToHex. induction bytes as [|b bytes IH]; cbn [map concat]; [constructor|].
  apply Forall_app. split; [|exact IH].
  apply padStart0_lower, toHexDigits_lower. constructor.
Qed.

Lemma lower_not_npub s :
  Forall (fun c => In c lowerHexChars) s -> startsWith s (chars "npub") = false.
Proof.
  intros H. destruct s as [|c s]; [reflexivity|].
  pose proof (Forall_inv H) as Hc. cbv beta in Hc.
  change (chars "npub") with ("n"%char :: chars "pub"). cbn [startsWith].
  destruct (Ascii.eqb_spec "n"%char c) as [<-|_]; [|reflexivity].
  exfalso. revert Hc. vm_compute. intuition discriminate.
Qed.

Lemma isHexChar_spec c : isHexChar c = true <-> In c hexChars.
Proof.
  assert (E : isHexChar c = existsb (Ascii.eqb c) hexChars)
    by (destruct c as [[] [] [] [] [] [] [] []]; vm_compute; reflexivity).
  rewrite E, existsb_exists. split.
  - intros (x & Hx & Heq). apply Ascii.eqb_eq in Heq. now subst.
  - intros H. exists c. split; [exact H | apply Ascii.eqb_refl].
Qed.

(** The regular expression test against its reading. *)
Lemma testHex64_spec hex : testHex64 hex = true <-> isHex64 hex.
Proof.
  unfold testHex64, isHex64. rewrite andb_true_iff, Nat.eqb_eq, forallb_forall, Forall_forall.
  split; intros [Hl Hc]; (split; [exact Hl|]); intros c Hin; apply isHexChar_spec; auto.
Qed.

Lemma lower_is_hex c : In c lowerHexChars -> In c hexChars.
Proof.
  unfold lowerHexChars, hexChars. cbv [chars list_ascii_of_string]. intros H.
  repeat (destruct H as [<-|H]; [simpl; tauto|]). contradiction.
Qed.

(** The decoded key of an encoded one, for either prefix. *)
Lemma decodeNpub_hexToNpub hex :
  isLowerHex64 hex ->
  exists bs, Forall isByte bs /\ bytesToHex bs = chars hex /\
             decodeNpub (hexToNpub hex) = Ok bs.
Proof.
  intros [Hlen Hhex].
  destruct (hexBytes_lower 32 (chars hex) Hlen Hhex) as (bs & E & Hbs & Hh & Hl).
  exists bs. split; [exact Hbs|]. split; [exact Hh|].
  unfold hexToNpub, decodeNpub.
  rewrite strip0x_lower, padStart0_full, E by (auto; lia).
  change (Num 0 :: map Num bs) with (map Num (0 :: bs)).
  assert (Hbs0 : Forall isByte (0 :: bs)) by (constructor; [unfold isByte; lia | exact Hbs]).
  destruct (encoded_decodes (chars "npub1") (chars "npub") (0 :: bs) eq_refl Hbs0)
    as (rest & Htext & Hdec).
  cbv zeta in Htext, Hdec. rewrite chars_str.
  rewrite Htext at 1. rewrite startsWith_app. cbn [negb].
  destruct (decodeChars _) as [decoded|m]; [|discriminate].
  cbn [bind] in *. injection Hdec as ->. reflexivity.
Qed.

Lemma note1ToHex_hexToNote1 hex : isLowerHex64 hex -> note1ToHex (hexToNote1 hex) = Ok hex.
Proof.
  intros [Hlen Hhex].
  destruct (hexBytes_lower 32 (chars hex) Hlen Hhex) as (bs & E & Hbs & Hh & Hl).
  unfold hexToNote1, note1ToHex.
  rewrite strip0x_lower, padStart0_full, E by (auto; lia).
  change (Num 0 :: map Num bs) with (map Num (0 :: bs)).
  assert (Hbs0 : Forall isByte (0 :: bs)) by (constructor; [unfold isByte; lia | exact Hbs]).
  destruct (encoded_decodes (chars "note1") (chars "note") (0 :: bs) eq_refl Hbs0)
    as (rest & Htext & Hdec).
  cbv zeta in Htext, Hdec. rewrite chars_str.
  rewrite Htext at 1. rewrite startsWith_app. cbn [negb].
  destruct (decodeChars _) as [decoded|m]; [|discriminate].
  cbn [bind] in Hdec. injection Hdec as ->.
  change (0 =? 0) with true. cbv iota. change (slice_1 (0 :: bs)) with bs.
  now rewrite Hh, str_chars.
Qed.

Lemma npubToHex_hexToNpub hex : isLowerHex64 hex -> npubToHex (hexToNpub hex) = Ok hex.
Proof.
  intros Hhex.
  destruct (decodeNpub_hexToNpub hex Hhex) as (bs & Hbs & Hh & Hdec).
  unfold npubToHex. rewrite Hdec, Hh.
  assert (Hstart : startsWith (chars (hexToNpub hex)) (chars "npub") = true).
  { unfold decodeNpub in Hdec.
    destruct (startsWith (chars (hexToNpub hex)) (chars "npub1")) eqn:Hs; [|discriminate].
    apply (startsWith_app_l _ (chars "npub") (chars "1")). exact Hs. }
  rewrite Hstart, padStart0_full by (destruct Hhex as [-> _]; lia).
  now rewrite str_chars.
Qed.

(** ** One changed character *)

Lemma indexOf_spec s c : -1 <= indexOf s c /\ (indexOf s c = -1 <-> ~ In c s).
Proof.
  induction s as [|d s [IHlo IH]]; cbn [indexOf In].
  - split; [lia | tauto].
  - destruct (Ascii.eqb_spec d c) as [->|Hne].
    + split; [lia|]. split; [discriminate | tauto].
    + destruct (Z.eqb_spec (indexOf s c) (-1)) as [E|E].
      * split; [lia|]. split; [|reflexivity]. intros _ [H|H]; [congruence | tauto].
      * split; [lia|]. split; [lia|]. intros H. exfalso. apply E, IH. tauto.
Qed.

(** The first loop accepts exactly the texts over the alphabet. *)
Lemma decodeChars_accepts data :
  (exists decoded, decodeChars data = Ok decoded) <-> Forall (fun c => In c BECH32_CHARSET) data.
Proof.
  induction data as [|c data IH]; cbn [decodeChars].
  - split; [constructor | eauto].
  - destruct (indexOf_spec BECH32_CHARSET c) as [_ Hc].
    destruct (Z.eqb_spec (indexOf BECH32_CHARSET c) (-1)) as [E|E].
    + split; [intros [? [=]] | intros H]. exfalso.
      apply Hc in E. apply E. exact (Forall_inv H).
    + assert (Hin : In c BECH32_CHARSET).
      { destruct (in_dec ascii_dec c BECH32_CHARSET) as [H|H]; [exact H|]. tauto. }
      split.
      * intros [decoded H]. constructor; [exact Hin|]. apply IH.
        destruct (decodeChars data) as [d|m]; [eauto | discriminate].
      * intros H. apply Forall_inv_tail, IH in H as [d ->]. cbn [bind]. eauto.
Qed.

(** A character outside the alphabet, after accepted ones, is reported. *)
Lemma decodeChars_rejects before d after :
  Forall (fun c => In c BECH32_CHARSET) before -> ~ In d BECH32_CHARSET ->
  decodeChars (before ++ d :: after) = Throw (str (chars "Invalid character: " ++ [d])).
Proof.
  intros Hb Hd. induction before as [|c before IH]; cbn [app decodeChars].
  - apply (indexOf_spec BECH32_CHARSET d) in Hd. now rewrite Hd.
  - pose proof (Forall_inv Hb) as Hc. cbv beta in Hc.
    destruct (Z.eqb_spec (indexOf BECH32_CHARSET c) (-1)) as [E|E].
    + apply (indexOf_spec BECH32_CHARSET c) in E. contradiction.
    + rewrite IH by exact (Forall_inv_tail Hb). reflexivity.
Qed.

(** Where the changed character falls: in the data part ... *)
Lemma slice_change_data (pre post : list ascii) x :
  (5 <= length pre)%nat -> (6 <= length post)%nat ->
  slice_5_m6 (pre ++ x :: post) = skipn 5 pre ++ x :: firstn (length post - 6) post.
Proof.
  intros Hp Hq. unfold slice_5_m6.
  rewrite length_app. cbn [length].
  rewrite skipn_app. replace (5 - length pre)%nat with 0%nat by lia. rewrite skipn_O.
  rewrite firstn_app, length_skipn.
  rewrite firstn_all2 by (rewrite length_skipn; lia).
  replace (length pre + S (length post) - 6 - 5 - (length pre - 5))%nat
    with (S (length post - 6)) by lia.
  reflexivity.
Qed.

(** ... or among the last six characters, which [slice] drops. *)
Lemma slice_change_checksum (pre post : list ascii) x :
  (5 <= length pre)%nat -> (length post < 6)%nat ->
  slice_5_m6 (pre ++ x :: post) = firstn (length pre + length post - 10) (skipn 5 pre).
Proof.
  intros Hp Hq. unfold slice_5_m6.
  rewrite length_app. cbn [length].
  rewrite skipn_app. replace (5 - length pre)%nat with 0%nat by lia. rewrite skipn_O.
  rewrite firstn_app, length_skipn.
  replace (length pre + S (length post) - 6 - 5 - (length pre - 5))%nat with 0%nat by lia.
  cbn [firstn]. rewrite app_nil_r. f_equal. lia.
Qed.

(** ... or in the five-character prefix. *)
Lemma startsWith_change (prefix pre post : list ascii) c d :
  (length pre < length prefix)%nat -> c <> d ->
  startsWith (pre ++ c :: post) prefix = true ->
  startsWith (pre ++ d :: post) prefix = false.
Proof.
  revert pre. induction prefix as [|p prefix IH]; intros pre Hl Hne; [simpl in Hl; lia|].
  destruct pre as [|a pre]; cbn [app startsWith].
  - destruct (Ascii.eqb_spec p c) as [->|_]; [|discriminate].
    intros _. destruct (Ascii.eqb_spec c d); [contradiction | reflexivity].
  - destruct (Ascii.eqb p a); [|reflexivity].
    apply IH; [simpl in Hl; lia | exact Hne].
Qed.

(** Both decoders run the same steps on the text: the prefix test, then
    the first loop over [slice(5, -6)]; nothing after that can throw. *)
Lemma accepts_iff v s :
  accepts v s <->
  startsWith (chars s) (chars (match v with Npub => "npub1" | Note1 => "note1" end)) = true /\
  Forall (fun c => In c BECH32_CHARSET) (slice_5_m6 (chars s)).
Proof.
  rewrite <- decodeChars_accepts.
  destruct v; unfold accepts, decodeNpub, note1ToHex.
  - destruct (startsWith (chars s) (chars "npub1")); cbn [negb].
    + destruct (decodeChars (slice_5_m6 (chars s))) as [decoded|m]; cbn [bind].
      * split; eauto.
      * split; [intros [? [=]] | intros [_ [? [=]]]].
    + split; [intros [? [=]] | intros [[=] _]].
  - destruct (startsWith (chars s) (chars "note1")); cbn [negb].
    + destruct (decodeChars (slice_5_m6 (chars s))) as [decoded|m].
      * split; [eauto | intros _].
        destruct (convert5to8 decoded) as [|first rest]; [eauto|].
        destruct (first =? 0); eauto.
      * split; [intros [? [=]] | intros [_ [? [=]]]].
    + split; [intros [? [=]] | intros [[=] _]].
Qed.

Lemma startsWith_keep (prefix pre rest rest' : list ascii) :
  (length prefix <= length pre)%nat ->
  startsWith (pre ++ rest) prefix = startsWith (pre ++ rest') prefix.
Proof.
  revert pre. induction prefix as [|p prefix IH]; intros pre Hl.
  - destruct pre, rest, rest'; reflexivity.
  - destruct pre as [|a pre]; [simpl in Hl; lia|]. cbn [app startsWith].
    destruct (Ascii.eqb p a); [|reflexivity]. apply IH. simpl in Hl. lia.
Qed.

Lemma rejects_iff v s : rejects v s <-> ~ accepts v s.
Proof.
  destruct v; unfold rejects, accepts.
  - destruct (decodeNpub s) as [bytes|m].
    + split; [intros [? [=]] | intros H; exfalso; eauto].
    + split; [intros _ [? [=]] | eauto].
  - destruct (note1ToHex s) as [hex|m].
    + split; [intros [? [=]] | intros H; exfalso; eauto].
    + split; [intros _ [? [=]] | eauto].
Qed.

Lemma sameResult_slice v s t :
  startsWith (chars s) (chars (match v with Npub => "npub1" | Note1 => "note1" end))
    = startsWith (chars t) (chars (match v with Npub => "npub1" | Note1 => "note1" end)) ->
  slice_5_m6 (chars s) = slice_5_m6 (chars t) ->
  sameResult v s t.
Proof.
  intros Hs Hd. destruct v; unfold sameResult, decodeNpub, note1ToHex; now rewrite Hs, Hd.
Qed.

(** ** The claims about the codec *)

(** C2: the round trip hex -> bech32 -> hex is the identity on every
    64-character lowercase-hex string: [npubToHex (hexToNpub hex)] gives
    [hex] back, and so does [note1ToHex] on the event-id encoding (whose
    encoder is modelled from the spec). *)
Theorem roundtrip_hex_bech32_hex (hex : string) :
  isLowerHex64 hex ->
  npubToHex (hexToNpub hex) = Ok hex /\ note1ToHex (hexToNote1 hex) = Ok hex.
Proof.
  intros H. split; [apply npubToHex_hexToNpub | apply note1ToHex_hexToNote1]; exact H.
Qed.

Lemma isLowerHex64_check hex :
  (length (chars hex) =? 64)%nat
    && forallb (fun c => existsb (Ascii.eqb c) lowerHexChars) (chars hex) = true ->
  isLowerHex64 hex.
Proof.
  rewrite andb_true_iff, Nat.eqb_eq, forallb_forall. intros [Hl Hc].
  split; [exact Hl|]. apply Forall_forall. intros c Hin.
  specialize (Hc c Hin). apply existsb_exists in Hc as (x & Hx & Heq).
  apply Ascii.eqb_eq in Heq. now subst.
Qed.

Lemma roundtrip_hex_bech32_hex_witness :
  let hex := "82341f882b6eabcd2ba7f1ef90aad961cf074af15b9ef44a09f9d2a8fbfbe6a2"%string in
  isLowerHex64 hex /\
  (npubToHex (hexToNpub hex) = Ok hex /\ note1ToHex (hexToNote1 hex) = Ok hex).
Proof.
  intros hex.
  assert (H : isLowerHex64 hex) by (apply isLowerHex64_check; vm_compute; reflexivity).
  split; [exact H | apply (roundtrip_hex_bech32_hex hex); exact H].
Defined.

(** C6: [validatePubkey] answers [true] exactly when normalizing the input
    yields a string of exactly 64 hex characters, lowercase or uppercase,
    and answers [false] when normalizing throws. *)
Theorem validatePubkey_iff_normalized_hex64 (input : string) :
  (validatePubkey input = true <-> exists hex, normalizeKey input = Ok hex /\ isHex64 hex) /\
  (forall message, normalizeKey input = Throw message -> validatePubkey input = false).
Proof.
  unfold validatePubkey, normalizeKey. destruct (npubToHex input) as [hex|m].
  - split.
    + rewrite testHex64_spec. split.
      * intros H. exists hex. split; [reflexivity | exact H].
      * intros (hex' & [= <-] & H). exact H.
    + discriminate.
  - split.
    + split; [discriminate|]. intros (hex' & [=] & _).
    + reflexivity.
Qed.

(** C7: [normalizeKey] is idempotent on every input it accepts: its output
    never begins with [npub], so normalizing it again returns it unchanged. *)
Theorem normalizeKey_idempotent (x hex : string) :
  normalizeKey x = Ok hex ->
  startsWith (chars hex) (chars "npub") = false /\ normalizeKey hex = Ok hex.
Proof.
  unfold normalizeKey. intros H.
  assert (Hs : startsWith (chars hex) (chars "npub") = false).
  { unfold npubToHex in H. destruct (startsWith (chars x) (chars "npub")) eqn:Hx.
    - destruct (decodeNpub x) as [bytes|m]; [|discriminate].
      injection H as <-. rewrite chars_str.
      apply lower_not_npub, padStart0_lower, bytesToHex_lower.
    - injection H as <-. exact Hx. }
  split; [exact Hs|]. unfold npubToHex. now rewrite Hs.
Qed.

Lemma normalizeKey_idempotent_witness :
  let x := "npub1qzprg8ug9dh2hnft5lc7ly92m9su7p6279deaaz2p8ua928ml0n2y25khvz"%string in
  let hex := "82341f882b6eabcd2ba7f1ef90aad961cf074af15b9ef44a09f9d2a8fbfbe6a2"%string in
  normalizeKey x = Ok hex /\
  (startsWith (chars hex) (chars "npub") = false /\ normalizeKey hex = Ok hex).
Proof.
  intros x hex.
  assert (H : normalizeKey x = Ok hex) by (vm_compute; reflexivity).
  split; [exact H | apply (normalizeKey_idempotent x hex); exact H].
Defined.

(** C1, as the code has it: in a string a decoder accepts, one replaced
    character makes that decoder fail when it lies in the five-character
    prefix, and when it lies in the data part and the new character is
    outside the alphabet; a replacement in the data part by a character of
    the alphabet is accepted, and a replacement among the last six
    characters, the checksum, leaves the result as it was. *)
Theorem replaced_character_detection (v : decoder) (pre post : list ascii) (c d : ascii) :
  c <> d ->
  accepts v (str (pre ++ c :: post)) ->
  ((length pre < 5)%nat -> rejects v (str (pre ++ d :: post))) /\
  ((5 <= length pre)%nat -> (6 <= length post)%nat ->
     (rejects v (str (pre ++ d :: post)) <-> ~ In d BECH32_CHARSET)) /\
  ((5 <= length pre)%nat -> (length post < 6)%nat ->
     sameResult v (str (pre ++ c :: post)) (str (pre ++ d :: post))).
Proof.
  intros Hne Hacc. apply accepts_iff in Hacc as [Hstart Hdata]. rewrite chars_str in *.
  set (prefix := chars (match v with Npub => "npub1" | Note1 => "note1" end)) in *.
  assert (Hlen : length prefix = 5%nat) by (destruct v; reflexivity).
  repeat split.
  - intros Hpre. apply rejects_iff. rewrite accepts_iff, chars_str. fold prefix.
    rewrite (startsWith_change prefix pre post c d) by (auto; lia). intros [[=] _].
  - intros Hrej Hin. apply rejects_iff in Hrej. apply Hrej.
    rewrite accepts_iff, chars_str. fold prefix.
    rewrite slice_change_data in * by lia.
    apply Forall_app in Hdata as [Hbefore Hafter].
    split.
    + rewrite <- Hstart. apply startsWith_keep. lia.
    + apply Forall_app. split; [exact Hbefore|].
      constructor; [exact Hin | exact (Forall_inv_tail Hafter)].
  - intros Hout. apply rejects_iff. rewrite accepts_iff, chars_str.
    rewrite slice_change_data by lia. intros [_ Hall].
    apply Forall_app in Hall as [_ Hall]. apply Hout. exact (Forall_inv Hall).
  - intros Hpre Hpost. apply sameResult_slice; rewrite !chars_str.
    + apply startsWith_keep. destruct v; simpl; lia.
    + now rewrite !slice_change_checksum by lia.
Qed.

Lemma replaced_character_detection_witness :
  let pre := chars "npub1qqq" in
  let post := chars "qqqqqqqqqqqqqqqqqqqqqqqqqqqqqqqqqqqqqqqqqqqqqqqqqyz0laq" in
  let c := "q"%char in
  let d := "b"%char in
  c <> d /\ accepts Npub (str (pre ++ c :: post)) /\
  (((length pre < 5)%nat -> rejects Npub (str (pre ++ d :: post))) /\
   ((5 <= length pre)%nat -> (6 <= length post)%nat ->
      (rejects Npub (str (pre ++ d :: post)) <-> ~ In d BECH32_CHARSET)) /\
   ((5 <= length pre)%nat -> (length post < 6)%nat ->
      sameResult Npub (str (pre ++ c :: post)) (str (pre ++ d :: post)))).
Proof.
  intros pre post c d.
  assert (Hne : c <> d) by (intros E; discriminate E).
  assert (Hacc : accepts Npub (str (pre ++ c :: post)))
    by (eexists; vm_compute; reflexivity).
  split; [exact Hne|]. split; [exact Hacc|].
  apply (replaced_character_detection Npub pre post c d); [exact Hne | exact Hacc].
Defined.

(** C1 as stated fails: the encoding of the all-zero key with its last
    character, a checksum character, changed from [q] to [p] is accepted
    by [decodeNpub]. *)
Lemma changed_checksum_character_accepted :
  ~ (forall hex t, isLowerHex64 hex -> differInOneCharacter (hexToNpub hex) t ->
                   rejects Npub t).
Proof.
  intros H.
  destruct (H "0000000000000000000000000000000000000000000000000000000000000000"%string
              "npub1qqqqqqqqqqqqqqqqqqqqqqqqqqqqqqqqqqqqqqqqqqqqqqqqqqqqqyz0lap"%string)
    as [message Hm].
  - apply isLowerHex64_check. vm_compute. reflexivity.
  - exists (chars "npub1qqqqqqqqqqqqqqqqqqqqqqqqqqqqqqqqqqqqqqqqqqqqqqqqqqqqqyz0la"),
           "q"%char, "p"%char, [].
    repeat split; try (vm_compute; reflexivity); intros E; vm_compute in E; discriminate E.
  - vm_compute in Hm. discriminate Hm.
Qed.

(** The same string decodes to the same key as the valid one, and a changed
    data character to a different key. *)
Example changed_characters_decode :
  decodeNpub "npub1qqqqqqqqqqqqqqqqqqqqqqqqqqqqqqqqqqqqqqqqqqqqqqqqqqqqqyz0laq" = Ok (repeat 0 32) /\
  decodeNpub "npub1qqqqqqqqqqqqqqqqqqqqqqqqqqqqqqqqqqqqqqqqqqqqqqqqqqqqqyz0lap" = Ok (repeat 0 32) /\
  decodeNpub "npub1qqqqqqqqqqqqqqqqqqqqqqqqqqqqqqqqqqqqqqqqqqqqqqqqqqqqzyz0laq"
    = Ok (repeat 0 31 ++ [1]).
Proof. repeat split; vm_compute; reflexivity. Qed.

(** The examples given with the validity check. *)
Example validatePubkey_examples :
  validatePubkey (hexToNpub "0000000000000000000000000000000000000000000000000000000000000000")
    = true /\
  validatePubkey "npub1invalid" = false.
Proof. split; vm_compute; reflexivity. Qed.

End CodecFacts.

(** * Properties of the relay manager *)

Module RelayFacts.

Import RelayManager Spec.

(** ** What each operation leaves alone *)

Lemma updateSocket_fields ws f s :
  activeConnections (updateSocket ws f s) = activeConnections s /\
  eventHandlers (updateSocket ws f s) = eventHandlers s /\
  subscriptions (updateSocket ws f s) = subscriptions s /\
  timers (updateSocket ws f s) = timers s /\
  joins (updateSocket ws f s) = joins s /\
  now (updateSocket ws f s) = now s /\
  log (updateSocket ws f s) = log s.
Proof. unfold updateSocket. destruct (sockets s !! ws); repeat split; reflexivity. Qed.

Lemma sendEach_fields m (l : list (string * nat)) : forall s,
  let s' := fold_left (fun s conn => if isOpen s (snd conn)
                                     then updateSocket (snd conn) (send m) s else s) l s in
  activeConnections s' = activeConnections s /\
  eventHandlers s' = eventHandlers s /\
  subscriptions s' = subscriptions s /\
  timers s' = timers s /\
  joins s' = joins s /\
  now s' = now s /\
  log s' = log s.
Proof.
  induction l as [|conn l IH]; intros s; cbn [fold_left].
  - repeat split; reflexivity.
  - destruct (IH (if isOpen s (snd conn) then updateSocket (snd conn) (send m) s else s))
      as (H1 & H2 & H3 & H4 & H5 & H6 & H7).
    cbv zeta. rewrite H1, H2, H3, H4, H5, H6, H7.
    destruct (isOpen s (snd conn)); [apply updateSocket_fields | repeat split; reflexivity].
Qed.

Lemma broadcast_fields m s :
  activeConnections (broadcast m s) = activeConnections s /\
  eventHandlers (broadcast m s) = eventHandlers s /\
  subscriptions (broadcast m s) = subscriptions s /\
  timers (broadcast m s) = timers s /\
  joins (broadcast m s) = joins s /\
  now (broadcast m s) = now s /\
  log (broadcast m s) = log s.
Proof. apply (sendEach_fields m (activeConnections s) s). Qed.

Lemma unsubscribe_handlers id s :
  eventHandlers (unsubscribe id s) = delete id (eventHandlers s).
Proof. unfold unsubscribe. now rewrite (proj1 (proj2 (broadcast_fields _ _))). Qed.

Lemma unsubscribe_subscriptions id s :
  subscriptions (unsubscribe id s) = delete id (subscriptions s).
Proof. unfold unsubscribe. now rewrite (proj1 (proj2 (proj2 (broadcast_fields _ _)))). Qed.

Lemma unsubscribe_log id s : log (unsubscribe id s) = log s.
Proof. unfold unsubscribe. now rewrite (proj2 (proj2 (proj2 (proj2 (proj2 (proj2 (broadcast_fields _ _))))))). Qed.

Lemma unsubscribe_timers id s : timers (unsubscribe id s) = timers s.
Proof. unfold unsubscribe. now rewrite (proj1 (proj2 (proj2 (proj2 (broadcast_fields _ _))))). Qed.

Lemma unsubscribe_connections id s : activeConnections (unsubscribe id s) = activeConnections s.
Proof. unfold unsubscribe. now rewrite (proj1 (broadcast_fields _ _)). Qed.

Lemma unsubscribe_now id s : now (unsubscribe id s) = now s.
Proof. unfold unsubscribe. now rewrite (proj1 (proj2 (proj2 (proj2 (proj2 (proj2 (broadcast_fields _ _))))))). Qed.

Lemma unsubscribe_joins id s : joins (unsubscribe id s) = joins s.
Proof. unfold unsubscribe. now rewrite (proj1 (proj2 (proj2 (proj2 (proj2 (broadcast_fields _ _)))))). Qed.

Lemma subscribe_handlers id f h o s :
  eventHandlers (subscribe id f h o s)
    = <[id := default [] (eventHandlers s !! id) ++ [h]]> (eventHandlers s).
Proof.
  unfold subscribe. rewrite (proj1 (proj2 (broadcast_fields _ _))). cbn.
  destruct (eventHandlers s !! id) as [l|] eqn:E; cbn;
    apply map_eq; intros k; destruct (decide (id = k)) as [<-|Hne].
  - now rewrite lookup_alter_eq, lookup_insert_eq, E.
  - now rewrite lookup_alter_ne, lookup_insert_ne.
  - now rewrite lookup_alter_eq, !lookup_insert_eq.
  - now rewrite lookup_alter_ne, !lookup_insert_ne.
Qed.

Lemma subscribe_subscriptions id f h o s :
  subscriptions (subscribe id f h o s)
    = <[id := {| filters := f; sub_handler := h; onEOSE := o |}]> (subscriptions s).
Proof.
  unfold subscribe. rewrite (proj1 (proj2 (proj2 (broadcast_fields _ _)))).
  destruct (eventHandlers _ !! id); reflexivity.
Qed.

Lemma subscribe_log id f h o s : log (subscribe id f h o s) = log s.
Proof.
  unfold subscribe.
  rewrite (proj2 (proj2 (proj2 (proj2 (proj2 (proj2 (broadcast_fields _ _))))))).
  destruct (eventHandlers _ !! id); reflexivity.
Qed.

(** ** Dispatch *)

Lemma dispatches_app l1 l2 : dispatches (l1 ++ l2) = dispatches l1 ++ dispatches l2.
Proof. unfold dispatches. apply flat_map_app. Qed.

Lemma consoleErrors_app l1 l2 : consoleErrors (l1 ++ l2) = consoleErrors l1 ++ consoleErrors l2.
Proof. unfold consoleErrors. apply flat_map_app. Qed.

(** One caught handler call: the call is logged, a throw costs one
    [console.error] line, and only the log and the timers can differ. *)
Lemma callCaught_spec e relayUrl s h :
  let s' := callCaught e relayUrl s h in
  registryOf s' = registryOf s /\
  activeConnections s' = activeConnections s /\
  sockets s' = sockets s /\ joins s' = joins s /\ now s' = now s /\
  dispatches (log s') = dispatches (log s) ++ [(h, e, relayUrl)] /\
  consoleErrors (log s')
    = consoleErrors (log s) ++ (if throwsOn e h then ["Error in event handler:"%string] else []) /\
  (throwsOn e h = true -> timers s' = timers s).
Proof.
  unfold callCaught, callHandler, throwsOn, registryOf.
  destruct h as [cb|eventId subscriptionId cb].
  - destruct (cb_throws cb e); cbn;
      rewrite ?dispatches_app, ?consoleErrors_app; cbn; rewrite ?app_nil_r;
      repeat split; reflexivity.
  - destruct (String.eqb (ev_id e) eventId); [destruct (cb_throws cb e)|]; cbn;
      rewrite ?dispatches_app, ?consoleErrors_app; cbn; rewrite ?app_nil_r;
      repeat split; try reflexivity; discriminate.
Qed.

Lemma dispatchLoop_spec e relayUrl hs : forall s,
  let s' := fold_left (callCaught e relayUrl) hs s in
  registryOf s' = registryOf s /\
  activeConnections s' = activeConnections s /\
  sockets s' = sockets s /\ joins s' = joins s /\ now s' = now s /\
  dispatches (log s') = dispatches (log s) ++ map (fun h => (h, e, relayUrl)) hs /\
  consoleErrors (log s')
    = consoleErrors (log s)
      ++ map (fun _ => "Error in event handler:"%string) (List.filter (throwsOn e) hs).
Proof.
  induction hs as [|h hs IH]; intros s; cbn [fold_left map List.filter].
  - rewrite !app_nil_r. repeat split; reflexivity.
  - destruct (IH (callCaught e relayUrl s h)) as (H1 & H2 & H3 & H4 & H5 & H6 & H7).
    destruct (callCaught_spec e relayUrl s h) as (G1 & G2 & G3 & G4 & G5 & G6 & G7 & _).
    cbv zeta in *. rewrite H1, H2, H3, H4, H5, H6, H7, G1, G2, G3, G4, G5, G6, G7.
    rewrite <- !app_assoc. destruct (throwsOn e h); repeat split; reflexivity.
Qed.

(** An EVENT frame with an event object runs the dispatch loop over the
    handlers registered under its id ... *)
Lemma handleRelayMessage_event relayUrl id e pk hs s :
  ev_pubkey e = Some pk -> eventHandlers s !! id = Some hs ->
  handleEvent relayUrl id e s = (fold_left (callCaught e relayUrl) hs s, Normal) /\
  handleRelayMessage relayUrl (eventFrame id e) s = fold_left (callCaught e relayUrl) hs s.
Proof.
  intros Hpk Hhs. unfold handleRelayMessage, eventFrame, handleEvent. cbn.
  now rewrite Hpk, Hhs.
Qed.

(** ... and does nothing to the manager when none is registered. *)
Lemma handleRelayMessage_unregistered relayUrl id payload s :
  eventHandlers s !! id = None ->
  let s' := handleRelayMessage relayUrl (Message "EVENT" id payload) s in
  withLog (log s) s' = s /\ callbacksRun s' = callbacksRun s.
Proof.
  intros Hnone. unfold handleRelayMessage, handleEvent, callbacksRun. cbn.
  destruct payload as [|e]; cbn.
  - destruct s; split; reflexivity.
  - rewrite Hnone. destruct (ev_pubkey e); cbn.
    + destruct s; split; reflexivity.
    + rewrite List.filter_app. cbn. rewrite app_nil_r. destruct s; split; reflexivity.
Qed.

Lemma deliverFrom_event id e pk hs relayUrls : forall s,
  ev_pubkey e = Some pk -> eventHandlers s !! id = Some hs ->
  let s' := deliverFrom relayUrls (eventFrame id e) s in
  registryOf s' = registryOf s /\
  dispatches (log s')
    = dispatches (log s)
      ++ flat_map (fun relayUrl => map (fun h => (h, e, relayUrl)) hs) relayUrls.
Proof.
  induction relayUrls as [|relayUrl relayUrls IH]; intros s Hpk Hhs;
    cbv zeta; unfold deliverFrom; cbn [fold_left flat_map].
  - now rewrite app_nil_r.
  - destruct (handleRelayMessage_event relayUrl id e pk hs s Hpk Hhs) as [_ E].
    destruct (dispatchLoop_spec e relayUrl hs s) as (H1 & _ & _ & _ & _ & H6 & _).
    cbv zeta in *. unfold deliverFrom in IH. rewrite E.
    assert (Hhs' : eventHandlers (fold_left (callCaught e relayUrl) hs s) !! id = Some hs).
    { unfold registryOf in H1. injection H1 as -> _. exact Hhs. }
    destruct (IH _ Hpk Hhs') as [G1 G2]. rewrite G1, G2, H1, H6.
    now rewrite <- app_assoc.
Qed.

(** Several [subscribe] calls under one id: the record is that of the last
    call, the handler list grows by one entry per call. *)
Lemma subscribeEach_spec id f h o calls : forall s,
  let s' := subscribeEach id (calls ++ [(f, h, o)]) s in
  eventHandlers s' !! id
    = Some (default [] (eventHandlers s !! id)
            ++ map (fun c => snd (fst c)) (calls ++ [(f, h, o)])) /\
  subscriptions s' !! id = Some {| filters := f; sub_handler := h; onEOSE := o |} /\
  log s' = log s.
Proof.
  induction calls as [|[[f1 h1] o1] calls IH]; intros s; cbv zeta;
    unfold subscribeEach; cbn [app fold_left map fst snd].
  - rewrite subscribe_handlers, subscribe_subscriptions, subscribe_log.
    rewrite !lookup_insert_eq. repeat split; reflexivity.
  - fold (subscribeEach id (calls ++ [(f, h, o)]) (subscribe id f1 h1 o1 s)).
    destruct (IH (subscribe id f1 h1 o1 s)) as (H1 & H2 & H3). cbv zeta in *.
    rewrite H1, H2, H3, subscribe_handlers, subscribe_log, lookup_insert_eq.
    simpl. rewrite <- app_assoc. repeat split; reflexivity.
Qed.

(** ** Timers *)

Lemma minDue_spec l :
  match minDue l with
  | Some d => (exists a, In (d, a) l) /\ Forall (fun t => (d <= fst t)%N) l
  | None => l = []
  end.
Proof.
  induction l as [|[d a] l IH]; cbn [minDue]; [reflexivity|].
  destruct (minDue l) as [m|].
  - destruct IH as [[a' Hin] Hmin]. split.
    + destruct (N.min_spec d m) as [[_ ->]|[_ ->]]; [exists a; left; reflexivity|].
      exists a'. right. exact Hin.
    + constructor; [cbn; lia|].
      eapply Forall_impl; [|exact Hmin]. cbn. intros t Ht. lia.
  - subst l. split; [exists a; left; reflexivity|]. constructor; [cbn; lia | constructor].
Qed.

Lemma takeTimer_spec d l :
  match takeTimer d l with
  | Some (a, rest) =>
      length l = S (length rest) /\
      (forall t, In t l <-> t = (d, a) \/ In t rest)
  | None => forall a, ~ In (d, a) l
  end.
Proof.
  induction l as [|[d' a'] l IH]; cbn [takeTimer].
  - intros a [].
  - destruct (N.eqb_spec d' d) as [->|Hne].
    + split; [reflexivity|]. intros t. cbn [In]. split; intros [H|H]; auto.
    + destruct (takeTimer d l) as [[a rest]|].
      * destruct IH as [Hlen Hin]. split; [cbn; now rewrite Hlen|].
        intros t. cbn [In]. rewrite Hin. tauto.
      * intros a [H|H]; [congruence | exact (IH a H)].
Qed.

(** The timer fired next is due, is the earliest, and leaves the others. *)
Lemma nextTimer_spec target l :
  match nextTimer target l with
  | Some (d, a, rest) =>
      (d <= target)%N /\ length l = S (length rest) /\
      (forall t, In t l <-> t = (d, a) \/ In t rest)
  | None => Forall (fun t => (target < fst t)%N) l
  end.
Proof.
  unfold nextTimer. pose proof (minDue_spec l) as Hmin.
  destruct (minDue l) as [d|]; [|subst l; constructor].
  destruct Hmin as [[a Hin] Hmin].
  destruct (N.leb_spec d target) as [Hle|Hgt].
  - pose proof (takeTimer_spec d l) as Htake.
    destruct (takeTimer d l) as [[a' rest]|]; [|exfalso; exact (Htake a Hin)].
    destruct Htake as [Hlen Hiff]. repeat split; auto; apply Hiff.
  - eapply Forall_impl; [|exact Hmin]. cbn. intros t Ht. lia.
Qed.

Lemma microtasks_fields s :
  activeConnections (microtasks s) = activeConnections s /\
  registryOf (microtasks s) = registryOf s /\
  sockets (microtasks s) = sockets s /\
  timers (microtasks s) = timers s /\
  now (microtasks s) = now s /\
  callbacksRun (microtasks s) = callbacksRun s.
Proof.
  unfold microtasks, callbacksRun.
  assert (H : forall js k, List.filter isCallback (snd (resolveJoins s k js)) = []).
  { induction js as [|j js IH]; intros k; cbn [resolveJoins]; [reflexivity|].
    specialize (IH (S k)). destruct (resolveJoins s (S k) js) as [rest' entries].
    destruct (j_result j); [exact IH|].
    destruct (allSettled s (j_attempts j)); exact IH. }
  specialize (H (joins s) 0%nat).
  destruct (resolveJoins s 0 (joins s)) as [js entries]. cbn in *.
  rewrite List.filter_app, H, app_nil_r. repeat split; reflexivity.
Qed.

Lemma microtasks_handlers s : eventHandlers (microtasks s) = eventHandlers s.
Proof. pose proof (proj1 (proj2 (microtasks_fields s))) as H. now injection H. Qed.

Lemma microtasks_subscriptions s : subscriptions (microtasks s) = subscriptions s.
Proof. pose proof (proj1 (proj2 (microtasks_fields s))) as H. now injection H. Qed.

Lemma microtasks_timers s : timers (microtasks s) = timers s.
Proof. apply microtasks_fields. Qed.

Lemma microtasks_now s : now (microtasks s) = now s.
Proof. apply microtasks_fields. Qed.

Lemma microtasks_sockets s : sockets (microtasks s) = sockets s.
Proof. apply microtasks_fields. Qed.

Lemma microtasks_connections s : activeConnections (microtasks s) = activeConnections s.
Proof. apply microtasks_fields. Qed.

Lemma runTimer_timers a s : timers (runTimer a s) = timers s.
Proof.
  destruct a as [ws|id|eventId id]; cbn [runTimer].
  - destruct (sockets s !! ws) as [w|]; [|reflexivity].
    destruct (ws_resolved w); [reflexivity|].
    destruct (ws_promise w); cbn; apply updateSocket_fields.
  - apply unsubscribe_timers.
  - destruct (subscriptions s !! id); [apply unsubscribe_timers | reflexivity].
Qed.

Lemma runTimer_now a s : now (runTimer a s) = now s.
Proof.
  destruct a as [ws|id|eventId id]; cbn [runTimer].
  - destruct (sockets s !! ws) as [w|]; [|reflexivity].
    destruct (ws_resolved w); [reflexivity|].
    destruct (ws_promise w); cbn; apply updateSocket_fields.
  - apply unsubscribe_now.
  - destruct (subscriptions s !! id); [apply unsubscribe_now | reflexivity].
Qed.

Lemma fireOne_timers d a rest s : timers (fireOne d a rest s) = rest.
Proof.
  unfold fireOne. rewrite (proj1 (proj2 (proj2 (proj2 (microtasks_fields _))))).
  now rewrite runTimer_timers.
Qed.

(** An invariant of firing single timers is an invariant of [fireDue]. *)
Lemma fireDue_ind (P : state -> Prop) target :
  (forall s d a rest, P s -> nextTimer target (timers s) = Some (d, a, rest) ->
                      P (fireOne d a rest s)) ->
  forall fuel s, P s -> P (fireDue fuel target s).
Proof.
  intros Hstep. induction fuel as [|fuel IH]; intros s Hs; cbn [fireDue]; [exact Hs|].
  destruct (nextTimer target (timers s)) as [[[d a] rest]|] eqn:E; [|exact Hs].
  apply IH. apply (Hstep s d a rest Hs E).
Qed.

(** With a round for every armed timer, nothing due is left. *)
Lemma fireDue_complete target fuel : forall s,
  (length (timers s) <= fuel)%nat ->
  Forall (fun t => (target < fst t)%N) (timers (fireDue fuel target s)).
Proof.
  induction fuel as [|fuel IH]; intros s Hlen; cbn [fireDue].
  - destruct (timers s); [constructor | simpl in Hlen; lia].
  - pose proof (nextTimer_spec target (timers s)) as Hnext.
    destruct (nextTimer target (timers s)) as [[[d a] rest]|]; [|exact Hnext].
    destruct Hnext as (_ & Hl & _). apply IH.
    rewrite fireOne_timers. lia.
Qed.

Lemma elapse_timersAhead ms s : timersAhead (elapse ms s).
Proof. unfold timersAhead, elapse. cbn. apply fireDue_complete. lia. Qed.

(** ** The registry under the event loop *)

Lemma registryShrinks_refl s : registryShrinks s s.
Proof. intros id. right. split; reflexivity. Qed.

Lemma registryShrinks_eq s s' : registryOf s' = registryOf s -> registryShrinks s s'.
Proof. unfold registryOf. intros [= H1 H2] id. right. now rewrite H1, H2. Qed.

Lemma registryShrinks_trans s1 s2 s3 :
  registryShrinks s1 s2 -> registryShrinks s2 s3 -> registryShrinks s1 s3.
Proof.
  intros H12 H23 id. destruct (H23 id) as [H|[E1 E2]]; [left; exact H|].
  rewrite E1, E2. apply H12.
Qed.

Lemma unsubscribe_shrinks id s : registryShrinks s (unsubscribe id s).
Proof.
  intros k. rewrite unsubscribe_handlers, unsubscribe_subscriptions.
  destruct (decide (id = k)) as [<-|Hne].
  - left. now rewrite !lookup_delete_eq.
  - right. now rewrite !lookup_delete_ne.
Qed.

Lemma updateSocket_registry ws f s : registryOf (updateSocket ws f s) = registryOf s.
Proof. unfold updateSocket, registryOf. destruct (sockets s !! ws); reflexivity. Qed.

Lemma runTimer_shrinks a s : registryShrinks s (runTimer a s).
Proof.
  destruct a as [ws|id|eventId id]; cbn [runTimer].
  - apply registryShrinks_eq.
    destruct (sockets s !! ws) as [w|]; [|reflexivity].
    destruct (ws_resolved w); [reflexivity|].
    destruct (ws_promise w); cbn; apply updateSocket_registry.
  - apply unsubscribe_shrinks.
  - destruct (subscriptions s !! id); [apply unsubscribe_shrinks | apply registryShrinks_refl].
Qed.

Lemma fireOne_shrinks d a rest s : registryShrinks s (fireOne d a rest s).
Proof.
  unfold fireOne.
  eapply registryShrinks_trans; [|apply registryShrinks_eq, microtasks_fields].
  eapply registryShrinks_trans; [|apply runTimer_shrinks].
  apply registryShrinks_eq. reflexivity.
Qed.

Lemma elapse_shrinks ms s : registryShrinks s (elapse ms s).
Proof.
  unfold elapse.
  eapply registryShrinks_trans; [|apply registryShrinks_eq; reflexivity].
  apply (fireDue_ind (registryShrinks s)); [|apply registryShrinks_refl].
  intros s' d a rest Hs' _. eapply registryShrinks_trans; [exact Hs'|apply fireOne_shrinks].
Qed.

Lemma updateSocket_handlers ws f s : eventHandlers (updateSocket ws f s) = eventHandlers s.
Proof. apply updateSocket_fields. Qed.

Lemma updateSocket_subscriptions ws f s : subscriptions (updateSocket ws f s) = subscriptions s.
Proof. apply updateSocket_fields. Qed.

Ltac registry_same :=
  unfold registryOf; cbv zeta; repeat case_match; cbn;
  rewrite ?updateSocket_handlers, ?updateSocket_subscriptions; reflexivity.

Lemma onopen_registry ws s : registryOf (onopen ws s) = registryOf s.
Proof. unfold onopen. registry_same. Qed.

Lemma onerror_registry ws s : registryOf (onerror ws s) = registryOf s.
Proof. unfold onerror. registry_same. Qed.

(** A relay message calls handlers and may arm timers; the registry, the
    pool and the sockets are as before. *)
Lemma handleRelayMessage_fields relayUrl data s :
  let s' := handleRelayMessage relayUrl data s in
  registryOf s' = registryOf s /\
  activeConnections s' = activeConnections s /\
  sockets s' = sockets s /\ joins s' = joins s /\ now s' = now s /\
  exists new, timers s' = timers s ++ new /\ Forall (fun t => (now s < fst t)%N) new.
Proof.
  assert (Hloop : forall e hs s0,
            let s' := fold_left (callCaught e relayUrl) hs s0 in
            exists new, timers s' = timers s0 ++ new /\ Forall (fun t => (now s0 < fst t)%N) new).
  { intros e hs. induction hs as [|h hs IH]; intros s0; cbn [fold_left].
    - exists []. now rewrite app_nil_r.
    - destruct (IH (callCaught e relayUrl s0 h)) as (new & E & Hnew). cbv zeta in *.
      rewrite E.
      destruct (callCaught_spec e relayUrl s0 h) as (_ & _ & _ & _ & Hnow & _).
      cbv zeta in Hnow. rewrite Hnow in Hnew.
      unfold callCaught, callHandler.
      destruct h as [cb|eventId subscriptionId cb].
      + exists new. destruct (cb_throws cb e); cbn; now rewrite ?app_nil_r.
      + destruct (String.eqb (ev_id e) eventId); [destruct (cb_throws cb e)|]; cbn.
        * exists new. split; [reflexivity | exact Hnew].
        * exists (((now s0 + 1000)%N, UnsubscribeLater subscriptionId) :: new).
          rewrite <- app_assoc. split; [reflexivity|].
          constructor; [cbn; lia | exact Hnew].
        * exists new. split; [reflexivity | exact Hnew]. }
  assert (Hnil : exists new : list (N * timerAction),
            timers s = timers s ++ new /\ Forall (fun t => (now s < fst t)%N) new)
    by (exists []; now rewrite app_nil_r).
  unfold handleRelayMessage. destruct data as [|type id payload].
  - cbn. refine (conj eq_refl (conj eq_refl (conj eq_refl (conj eq_refl (conj eq_refl _))))).
    exact Hnil.
  - assert (Heose : let s' := match handleEndOfStoredEvents relayUrl id s with
                              | (s1, Normal) => s1
                              | (s1, Thrown) => logged (ConsoleError "Error parsing message:") s1
                              end in
                    registryOf s' = registryOf s /\
                    activeConnections s' = activeConnections s /\
                    sockets s' = sockets s /\ joins s' = joins s /\ now s' = now s /\
                    exists new, timers s' = timers s ++ new /\
                                Forall (fun t => (now s < fst t)%N) new).
    { unfold handleEndOfStoredEvents.
      destruct (subscriptions s !! id) as [sub|];
        [|exact (conj eq_refl (conj eq_refl (conj eq_refl (conj eq_refl (conj eq_refl Hnil)))))].
      destruct (onEOSE sub) as [[cb|eventId id']|];
        [destruct (eose_throws cb relayUrl)| |]; cbn;
        refine (conj eq_refl (conj eq_refl (conj eq_refl (conj eq_refl (conj eq_refl _)))));
        try exact Hnil.
      exists [((now s + 2000)%N, FetchCleanup eventId id')]. split; [reflexivity|].
      constructor; [cbn; lia | constructor]. }
    assert (Hsame : registryOf s = registryOf s /\
                    activeConnections s = activeConnections s /\
                    sockets s = sockets s /\ joins s = joins s /\ now s = now s /\
                    exists new, timers s = timers s ++ new /\
                                Forall (fun t => (now s < fst t)%N) new)
      by exact (conj eq_refl (conj eq_refl (conj eq_refl (conj eq_refl (conj eq_refl Hnil))))).
    destruct (String.eqb type "EVENT"); [destruct payload as [|e]|].
    + destruct (String.eqb type "EOSE"); [exact Heose | exact Hsame].
    + unfold handleEvent. destruct (ev_pubkey e).
      * destruct (eventHandlers s !! id) as [hs|].
        -- destruct (dispatchLoop_spec e relayUrl hs s) as (H1 & H2 & H3 & H4 & H5 & _).
           cbv zeta in *.
           refine (conj H1 (conj H2 (conj H3 (conj H4 (conj H5 _))))). apply Hloop.
        -- exact Hsame.
      * exact Hsame.
    + destruct (String.eqb type "EOSE"); [exact Heose | exact Hsame].
Qed.

Lemma updateSocket_timers ws f s : timers (updateSocket ws f s) = timers s.
Proof. apply updateSocket_fields. Qed.

Lemma updateSocket_now ws f s : now (updateSocket ws f s) = now s.
Proof. apply updateSocket_fields. Qed.

Lemma onopen_timers ws s :
  timers (onopen ws s) = List.filter (fun t => negb (isConnectTimeout ws t)) (timers s) /\
  now (onopen ws s) = now s.
Proof.
  unfold onopen. cbv zeta. repeat case_match; cbn;
    rewrite ?updateSocket_timers, ?updateSocket_now; split; reflexivity.
Qed.

Lemma onerror_timers ws s :
  timers (onerror ws s) = List.filter (fun t => negb (isConnectTimeout ws t)) (timers s) /\
  now (onerror ws s) = now s.
Proof.
  unfold onerror. cbv zeta. repeat case_match; cbn;
    rewrite ?updateSocket_timers, ?updateSocket_now; split; reflexivity.
Qed.

(** Outside [Elapse] the clock stands still and a task only disarms
    timers or arms some for later. *)
Lemma task_timers i s :
  (forall ms, i <> Elapse ms) ->
  now (task i s) = now s /\
  forall t, In t (timers (task i s)) -> In t (timers s) \/ (now s < fst t)%N.
Proof.
  intros Hi. destruct i as [ms|ws|ws|ws|ws data]; cbn [task].
  - exfalso. exact (Hi ms eq_refl).
  - destruct (readyStateOf s ws) as [[]|]; try (split; [reflexivity | auto]).
    destruct (onopen_timers ws (updateSocket ws (setReadyState OPEN) s)) as [-> ->].
    rewrite updateSocket_timers, updateSocket_now. split; [reflexivity|].
    intros t Ht. apply filter_In in Ht. tauto.
  - assert (H : now (onclose ws (onerror ws (updateSocket ws (setReadyState CLOSED) s))) = now s /\
                forall t, In t (timers (onclose ws (onerror ws (updateSocket ws (setReadyState CLOSED) s))))
                          -> In t (timers s) \/ (now s < fst t)%N).
    { unfold onclose, removeConnection. cbn.
      destruct (onerror_timers ws (updateSocket ws (setReadyState CLOSED) s)) as [-> ->].
      rewrite updateSocket_timers, updateSocket_now. split; [reflexivity|].
      intros t Ht. apply filter_In in Ht. tauto. }
    destruct (readyStateOf s ws) as [[]|]; try exact H; split; [reflexivity | auto | reflexivity | auto].
  - assert (H : now (onclose ws (updateSocket ws (setReadyState CLOSED) s)) = now s /\
                forall t, In t (timers (onclose ws (updateSocket ws (setReadyState CLOSED) s)))
                          -> In t (timers s) \/ (now s < fst t)%N).
    { unfold onclose, removeConnection. cbn.
      rewrite updateSocket_timers, updateSocket_now. split; [reflexivity | auto]. }
    destruct (readyStateOf s ws) as [[]|]; try exact H; split; [reflexivity | auto | reflexivity | auto].
  - destruct (sockets s !! ws) as [w|]; [|split; [reflexivity | auto]].
    destruct (ws_readyState w); try (split; [reflexivity | auto]).
    destruct (ws_onmessage w); [|split; [reflexivity | auto]].
    destruct (handleRelayMessage_fields (ws_url w) data s) as (_ & _ & _ & _ & Hnow & new & Ht & Hnew).
    cbv zeta in *. rewrite Hnow, Ht. split; [reflexivity|].
    intros t Hin. apply in_app_or in Hin as [Hin|Hin]; [left; exact Hin|].
    right. rewrite Forall_forall in Hnew. exact (Hnew t Hin).
Qed.

Lemma task_shrinks i s : registryShrinks s (task i s).
Proof.
  destruct i as [ms|ws|ws|ws|ws data]; cbn [task].
  - apply elapse_shrinks.
  - apply registryShrinks_eq.
    destruct (readyStateOf s ws) as [[]|]; try reflexivity.
    now rewrite onopen_registry, updateSocket_registry.
  - apply registryShrinks_eq.
    destruct (readyStateOf s ws) as [[]|]; try reflexivity;
      unfold onclose, removeConnection;
      change (registryOf (withConnections ?c ?x)) with (registryOf x);
      now rewrite onerror_registry, updateSocket_registry.
  - apply registryShrinks_eq.
    destruct (readyStateOf s ws) as [[]|]; try reflexivity;
      unfold onclose, removeConnection;
      change (registryOf (withConnections ?c ?x)) with (registryOf x);
      now rewrite updateSocket_registry.
  - apply registryShrinks_eq.
    destruct (sockets s !! ws) as [w|]; [|reflexivity].
    destruct (ws_readyState w); try reflexivity.
    destruct (ws_onmessage w); [|reflexivity].
    apply handleRelayMessage_fields.
Qed.

Lemma step_shrinks s i : registryShrinks s (step s i).
Proof.
  unfold step. eapply registryShrinks_trans; [apply task_shrinks|].
  apply registryShrinks_eq, microtasks_fields.
Qed.

Lemma run_shrinks tr : forall s, registryShrinks s (run tr s).
Proof.
  induction tr as [|i tr IH]; intros s; cbn [run fold_left].
  - apply registryShrinks_refl.
  - eapply registryShrinks_trans; [apply step_shrinks | apply IH].
Qed.

Lemma step_timersAhead s i : timersAhead s -> timersAhead (step s i).
Proof.
  intros Hs. unfold step, timersAhead.
  destruct (microtasks_fields (task i s)) as (_ & _ & _ & -> & -> & _).
  destruct i as [ms|ws|ws|ws|ws data]; try apply elapse_timersAhead.
  all: match goal with |- context [task ?i ?s0] =>
         destruct (task_timers i s0 ltac:(discriminate)) as [-> Ht] end;
    apply Forall_forall; intros t Hin; destruct (Ht t Hin) as [Hold|Hnew];
    [exact (proj1 (Forall_forall _ _) Hs t Hold) | exact Hnew].
Qed.

Lemma run_timersAhead tr : forall s, timersAhead s -> timersAhead (run tr s).
Proof.
  induction tr as [|i tr IH]; intros s Hs; cbn [run fold_left]; [exact Hs|].
  apply IH, step_timersAhead, Hs.
Qed.

Lemma subscribe_timers id f h o s :
  timers (subscribe id f h o s) = timers s /\ now (subscribe id f h o s) = now s.
Proof.
  unfold subscribe.
  rewrite (proj1 (proj2 (proj2 (proj2 (broadcast_fields _ _))))).
  rewrite (proj1 (proj2 (proj2 (proj2 (proj2 (proj2 (broadcast_fields _ _))))))).
  destruct (eventHandlers _ !! id); split; reflexivity.
Qed.

(** Outside [Elapse] a timer other than a connect timeout stays armed. *)
Lemma task_keeps_timer i s t :
  (forall ms, i <> Elapse ms) -> (forall ws, snd t <> ConnectTimeout ws) ->
  In t (timers s) -> In t (timers (task i s)).
Proof.
  intros Hi Ht Hin.
  assert (Hf : forall ws, In t (List.filter (fun t => negb (isConnectTimeout ws t)) (timers s))).
  { intros ws. apply filter_In. split; [exact Hin|].
    unfold isConnectTimeout. destruct (snd t) as [w| |] eqn:E; try reflexivity.
    exfalso. exact (Ht w eq_refl). }
  destruct i as [ms|ws|ws|ws|ws data]; cbn [task].
  - exfalso. exact (Hi ms eq_refl).
  - destruct (readyStateOf s ws) as [[]|]; try exact Hin.
    rewrite (proj1 (onopen_timers _ _)), updateSocket_timers. apply Hf.
  - destruct (readyStateOf s ws) as [[]|]; try exact Hin;
      unfold onclose, removeConnection; cbn;
      rewrite (proj1 (onerror_timers _ _)), updateSocket_timers; apply Hf.
  - destruct (readyStateOf s ws) as [[]|]; try exact Hin;
      unfold onclose, removeConnection; cbn; rewrite updateSocket_timers; exact Hin.
  - destruct (sockets s !! ws) as [w|]; [|exact Hin].
    destruct (ws_readyState w); try exact Hin.
    destruct (ws_onmessage w); [|exact Hin].
    destruct (handleRelayMessage_fields (ws_url w) data s) as (_ & _ & _ & _ & _ & new & E & _).
    cbv zeta in E. rewrite E. apply in_or_app. left. exact Hin.
Qed.

(** ** Fetch-by-id *)

Section Fetch.

Variables (eventId id : string) (D : N).

Abbreviation cleanupPending := (cleanupPending eventId id D).

Lemma shrinks_released s s' : registryShrinks s s' -> released s id -> released s' id.
Proof.
  intros Hsh [H1 H2]. destruct (Hsh id) as [[E1 E2]|[E1 E2]]; split; congruence.
Qed.

Lemma shrinks_sync s s' :
  registryShrinks s s' ->
  (subscriptions s !! id = None -> eventHandlers s !! id = None) ->
  (subscriptions s' !! id = None -> eventHandlers s' !! id = None).
Proof.
  intros Hsh Hsync. destruct (Hsh id) as [[E1 E2]|[E1 E2]]; [auto|].
  rewrite E1, E2. exact Hsync.
Qed.

Lemma fireOne_cleanupPending target s d a rest :
  cleanupPending s -> nextTimer target (timers s) = Some (d, a, rest) ->
  cleanupPending (fireOne d a rest s).
Proof.
  intros [Hsync Hp] Hnext. split.
  - exact (shrinks_sync _ _ (fireOne_shrinks d a rest s) Hsync).
  - destruct Hp as [Hrel|Hin].
    + left. exact (shrinks_released _ _ (fireOne_shrinks d a rest s) Hrel).
    + pose proof (nextTimer_spec target (timers s)) as Hspec. rewrite Hnext in Hspec.
      destruct Hspec as (_ & _ & Hiff). apply Hiff in Hin as [[= <- <-]|Hin].
      * left. unfold fireOne, released.
        rewrite microtasks_handlers, microtasks_subscriptions.
        cbn [runTimer].
        change (subscriptions (withNow (N.max (now s) D) (withTimers rest s)))
          with (subscriptions s).
        destruct (subscriptions s !! id) eqn:E.
        -- rewrite unsubscribe_handlers, unsubscribe_subscriptions.
           now rewrite !lookup_delete_eq.
        -- split; [exact E | exact (Hsync eq_refl)].
      * right. now rewrite fireOne_timers.
Qed.

Lemma step_cleanupPending s i : cleanupPending s -> cleanupPending (step s i).
Proof.
  intros Hp. destruct (Hp) as [Hsync Hor]. split.
  - exact (shrinks_sync _ _ (step_shrinks s i) Hsync).
  - destruct Hor as [Hrel|Hin].
    + left. exact (shrinks_released _ _ (step_shrinks s i) Hrel).
    + unfold step.
      assert (Ht : released (task i s) id \/ In (D, FetchCleanup eventId id) (timers (task i s))).
      { destruct i as [ms|ws|ws|ws|ws data].
        - cbn [task]. unfold elapse.
          apply (fireDue_ind cleanupPending (now s + ms)%N); [|exact Hp].
          intros s' d a rest. apply fireOne_cleanupPending.
        - right. apply task_keeps_timer; [discriminate | discriminate | exact Hin].
        - right. apply task_keeps_timer; [discriminate | discriminate | exact Hin].
        - right. apply task_keeps_timer; [discriminate | discriminate | exact Hin].
        - right. apply task_keeps_timer; [discriminate | discriminate | exact Hin]. }
      unfold released.
      rewrite microtasks_handlers, microtasks_subscriptions, microtasks_timers.
      exact Ht.
Qed.

Lemma run_cleanupPending tr : forall s, cleanupPending s -> cleanupPending (run tr s).
Proof.
  induction tr as [|i tr IH]; intros s Hs; cbn [run fold_left]; [exact Hs|].
  apply IH, step_cleanupPending, Hs.
Qed.

(** Once the clock has reached [D] the cleanup has fired. *)
Lemma cleanup_fired s :
  cleanupPending s -> timersAhead s -> (D <= now s)%N -> released s id.
Proof.
  intros [_ [Hrel|Hin]] Hahead Hnow; [exact Hrel|].
  unfold timersAhead in Hahead. rewrite Forall_forall in Hahead.
  specialize (Hahead _ Hin). cbn in Hahead. lia.
Qed.

End Fetch.

(** ** The claims about the registry *)

Lemma unsubscribed_stays s id tr :
  eventHandlers (run tr (unsubscribe id s)) !! id = None /\
  subscriptions (run tr (unsubscribe id s)) !! id = None.
Proof.
  destruct (run_shrinks tr (unsubscribe id s) id) as [H|[-> ->]]; [exact H|].
  now rewrite unsubscribe_handlers, unsubscribe_subscriptions, !lookup_delete_eq.
Qed.

(** C5: once [unsubscribe id] has completed, no EVENT frame for [id] runs
    any callback, whatever the sockets and timers do in between: handling
    such a frame changes nothing but the log, and adds no callback to it.
    Unsubscribing an id that is not registered leaves the registry as it is. *)
Theorem no_callback_after_unsubscribe (s : state) (id : string) :
  (forall tr relayUrl payload,
      let s1 := run tr (unsubscribe id s) in
      let s2 := handleRelayMessage relayUrl (Message "EVENT" id payload) s1 in
      callbacksRun s2 = callbacksRun s1 /\ withLog (log s1) s2 = s1) /\
  (forall tr ws payload,
      let s1 := run tr (unsubscribe id s) in
      callbacksRun (step s1 (SocketMessage ws (Message "EVENT" id payload))) = callbacksRun s1) /\
  (eventHandlers s !! id = None -> subscriptions s !! id = None ->
      registryOf (unsubscribe id s) = registryOf s).
Proof.
  split; [|split].
  - intros tr relayUrl payload s1 s2.
    destruct (unsubscribed_stays s id tr) as [Hh _].
    destruct (handleRelayMessage_unregistered relayUrl id payload s1 Hh) as [H1 H2].
    split; [exact H2 | exact H1].
  - intros tr ws payload s1.
    destruct (unsubscribed_stays s id tr) as [Hh _].
    unfold step. rewrite (proj2 (proj2 (proj2 (proj2 (proj2 (microtasks_fields _)))))).
    cbn [task]. destruct (sockets s1 !! ws) as [w|]; [|reflexivity].
    destruct (ws_readyState w); try reflexivity.
    destruct (ws_onmessage w); [|reflexivity].
    apply (handleRelayMessage_unregistered (ws_url w) id payload s1 Hh).
  - intros Hh Hs. unfold registryOf.
    rewrite unsubscribe_handlers, unsubscribe_subscriptions.
    now rewrite !delete_id.
Qed.

(** C8: the registry does not deduplicate. After one [subscribe] under a
    fresh id, the same event arriving in an EVENT frame from each of [k]
    relays is handed to the subscription's handler [k] times, once per
    frame, in the order of arrival. *)
Theorem no_deduplication_across_relays (s0 : state) (id : string) (f : Filters)
    (h : handler) (o : option eoseHandler) (e : Event) (pk : string)
    (relayUrls : list string) :
  eventHandlers s0 !! id = None ->
  ev_pubkey e = Some pk ->
  let s := subscribe id f h o s0 in
  let s' := deliverFrom relayUrls (eventFrame id e) s in
  dispatches (log s') = dispatches (log s) ++ map (fun relayUrl => (h, e, relayUrl)) relayUrls /\
  length (dispatches (log s')) = (length (dispatches (log s)) + length relayUrls)%nat.
Proof.
  intros Hfresh Hpk s s'.
  assert (Hhs : eventHandlers s !! id = Some [h]).
  { subst s. rewrite subscribe_handlers, lookup_insert_eq, Hfresh. reflexivity. }
  destruct (deliverFrom_event id e pk [h] relayUrls s Hpk Hhs) as [_ Hd].
  cbv zeta in Hd. subst s'. rewrite Hd.
  assert (E : flat_map (fun relayUrl => map (fun h0 => (h0, e, relayUrl)) [h]) relayUrls
              = map (fun relayUrl => (h, e, relayUrl)) relayUrls).
  { clear. induction relayUrls as [|u us IH]; [reflexivity|].
    cbn [flat_map map app]. now f_equal. }
  rewrite E. split; [reflexivity|]. now rewrite length_app, length_map.
Qed.

Lemma no_deduplication_across_relays_witness :
  let s0 := constructor in
  let id := "timeline"%string in
  let f := {| kinds := [1]; authors := ["82341f882b6eabcd2ba7f1ef90aad961cf074af15b9ef44a09f9d2a8fbfbe6a2"%string];
              ids := []; limit := Some 20 |} in
  let h := Callback {| cb_name := "addPost"; cb_throws := fun _ => false |} in
  let pk := "82341f882b6eabcd2ba7f1ef90aad961cf074af15b9ef44a09f9d2a8fbfbe6a2"%string in
  let e := {| ev_id := "5c83da77af1dec6d7289834998ad7aafbd9e2191396d75ec3cc27f5a77226f36";
              ev_pubkey := Some pk; ev_kind := 1 |} in
  let relayUrls := ["wss://relay.damus.io"; "wss://nostr-pub.wellorder.net";
                    "wss://eden.nostr.land"]%string in
  eventHandlers s0 !! id = None /\ ev_pubkey e = Some pk /\
  (let s := subscribe id f h None s0 in
   let s' := deliverFrom relayUrls (eventFrame id e) s in
   dispatches (log s') = dispatches (log s) ++ map (fun relayUrl => (h, e, relayUrl)) relayUrls /\
   length (dispatches (log s')) = (length (dispatches (log s)) + length relayUrls)%nat).
Proof.
  intros s0 id f h pk e relayUrls.
  assert (H1 : eventHandlers s0 !! id = None) by reflexivity.
  assert (H2 : ev_pubkey e = Some pk) by reflexivity.
  split; [exact H1|]. split; [exact H2|].
  apply (no_deduplication_across_relays s0 id f h None e pk relayUrls H1 H2).
Defined.

(** C9: [subscribe] calls under an id that is already registered overwrite
    the subscription record and append to the handler list: after the
    calls the record is that of the last one, the list holds one handler
    per call, and an EVENT frame for the id calls each of them. *)
Theorem resubscribe_appends_handler (s0 : state) (id : string)
    (calls : list (Filters * handler * option eoseHandler))
    (f : Filters) (h : handler) (o : option eoseHandler)
    (e : Event) (pk relayUrl : string) :
  eventHandlers s0 !! id = None ->
  ev_pubkey e = Some pk ->
  let handlers := map (fun c => snd (fst c)) (calls ++ [(f, h, o)]) in
  let s := subscribeEach id (calls ++ [(f, h, o)]) s0 in
  let s' := handleRelayMessage relayUrl (eventFrame id e) s in
  subscriptions s !! id = Some {| filters := f; sub_handler := h; onEOSE := o |} /\
  eventHandlers s !! id = Some handlers /\
  length handlers = S (length calls) /\
  dispatches (log s') = dispatches (log s) ++ map (fun h => (h, e, relayUrl)) handlers.
Proof.
  intros Hfresh Hpk handlers s s'.
  destruct (subscribeEach_spec id f h o calls s0) as (Hh & Hs & _). cbv zeta in *.
  rewrite Hfresh in Hh. cbn [default app] in Hh. fold handlers in Hh. fold s in Hh, Hs.
  split; [exact Hs|]. split; [exact Hh|]. split.
  - subst handlers. rewrite length_map, length_app. cbn. lia.
  - subst s'. rewrite (proj2 (handleRelayMessage_event relayUrl id e pk handlers s Hpk Hh)).
    apply dispatchLoop_spec.
Qed.

Lemma resubscribe_appends_handler_witness :
  let s0 := constructor in
  let id := "reactions"%string in
  let f1 := {| kinds := [7]; authors := []; ids := []; limit := Some 50 |} in
  let h1 := Callback {| cb_name := "countReaction"; cb_throws := fun _ => false |} in
  let f := {| kinds := [7]; authors := []; ids := []; limit := Some 100 |} in
  let h := Callback {| cb_name := "countReactionAgain"; cb_throws := fun _ => false |} in
  let pk := "82341f882b6eabcd2ba7f1ef90aad961cf074af15b9ef44a09f9d2a8fbfbe6a2"%string in
  let e := {| ev_id := "5c83da77af1dec6d7289834998ad7aafbd9e2191396d75ec3cc27f5a77226f36";
              ev_pubkey := Some pk; ev_kind := 7 |} in
  let relayUrl := "wss://relay.damus.io"%string in
  let calls : list (Filters * handler * option eoseHandler) := [(f1, h1, None)] in
  eventHandlers s0 !! id = None /\ ev_pubkey e = Some pk /\
  (let handlers := map (fun c => snd (fst c)) (calls ++ [(f, h, None)]) in
   let s := subscribeEach id (calls ++ [(f, h, None)]) s0 in
   let s' := handleRelayMessage relayUrl (eventFrame id e) s in
   subscriptions s !! id = Some {| filters := f; sub_handler := h; onEOSE := None |} /\
   eventHandlers s !! id = Some handlers /\
   length handlers = S (length calls) /\
   dispatches (log s') = dispatches (log s) ++ map (fun h => (h, e, relayUrl)) handlers).
Proof.
  intros s0 id f1 h1 f h pk e relayUrl calls.
  assert (H1 : eventHandlers s0 !! id = None) by reflexivity.
  assert (H2 : ev_pubkey e = Some pk) by reflexivity.
  split; [exact H1|]. split; [exact H2|].
  apply (resubscribe_appends_handler s0 id calls f h None e pk relayUrl H1 H2).
Defined.

(** ** The claim about fetch-by-id *)

(** C3, as the code has it: once an end-of-stored-events frame for the
    subscription id of a [fetchEvent] has been handled, the subscription is
    released (no record, no handler list) by the time the 2000 ms grace
    period has elapsed, whatever else the sockets and timers do. *)
Theorem fetch_released_after_eose (s : state) (eventId : string) (cb : callback)
    (tr1 : list input) (relayUrl : string) (p : payload) (tr2 : list input) :
  timersAhead s ->
  let id := fetchSubscriptionId eventId in
  let s1 := run tr1 (fetchEvent eventId cb s) in
  let s2 := handleRelayMessage relayUrl (Message "EOSE" id p) s1 in
  let s3 := run tr2 s2 in
  (now s2 + 2000 <= now s3)%N ->
  subscriptions s3 !! id = None /\ eventHandlers s3 !! id = None.
Proof.
  intros Hahead id s1 s2 s3 Hnow.
  set (F := fetchEvent eventId cb s) in *.
  assert (HF : timersAhead F).
  { unfold timersAhead, F, fetchEvent. cbv zeta. fold id.
    destruct (subscribe_timers id
                {| kinds := []; authors := []; ids := [eventId]; limit := Some 1 |}
                (OneTimeHandler eventId id cb) (Some (FetchOnEose eventId id)) s) as [-> ->].
    exact Hahead. }
  assert (Hsub : subscriptions F !! id
                 = Some {| filters := {| kinds := []; authors := []; ids := [eventId];
                                         limit := Some 1 |};
                           sub_handler := OneTimeHandler eventId id cb;
                           onEOSE := Some (FetchOnEose eventId id) |}).
  { unfold F, fetchEvent. cbv zeta. fold id.
    now rewrite subscribe_subscriptions, lookup_insert_eq. }
  assert (H1 : timersAhead s1) by (apply run_timersAhead, HF).
  destruct (handleRelayMessage_fields relayUrl (Message "EOSE" id p) s1)
    as (Hreg & _ & _ & _ & Hnow2 & new & Htm & Hnew).
  fold s2 in Hreg, Hnow2, Htm. unfold registryOf in Hreg. injection Hreg as Hh2 Hs2.
  assert (H2 : timersAhead s2).
  { unfold timersAhead. rewrite Htm, Hnow2. apply Forall_app. split; [exact H1 | exact Hnew]. }
  assert (Hsync1 : subscriptions s1 !! id = None -> eventHandlers s1 !! id = None).
  { apply (shrinks_sync id F s1 (run_shrinks tr1 F)). rewrite Hsub. discriminate. }
  assert (Hp : cleanupPending eventId id (now s2 + 2000)%N s2).
  { split; [now rewrite Hh2, Hs2|].
    destruct (run_shrinks tr1 F id) as [[E1 E2]|[_ E2]].
    - left. split; [now rewrite Hs2 | now rewrite Hh2].
    - right. rewrite Hsub in E2. fold s1 in E2.
      subst s2. unfold handleRelayMessage, handleEndOfStoredEvents.
      assert (Et : String.eqb "EOSE" "EVENT" = false) by reflexivity.
      rewrite Et. cbn [String.eqb Ascii.eqb Bool.eqb]. rewrite E2. cbn.
      apply in_or_app. right. left. reflexivity. }
  apply (run_cleanupPending eventId id _ tr2) in Hp. fold s3 in Hp.
  assert (H3 : timersAhead s3) by (apply run_timersAhead, H2).
  destruct (cleanup_fired eventId id _ s3 Hp H3 Hnow) as [E1 E2]. split; assumption.
Qed.

Lemma fetch_released_after_eose_witness :
  let s := run [SocketOpen 0] (connectToRelays (fun _ => false) ["wss://relay.damus.io"%string] constructor) in
  let eventId := "5c83da77af1dec6d7289834998ad7aafbd9e2191396d75ec3cc27f5a77226f36"%string in
  let cb := {| cb_name := "render"; cb_throws := fun _ => false |} in
  let relayUrl := "wss://relay.damus.io"%string in
  let tr2 := [Elapse 2000] in
  timersAhead s /\
  (let id := fetchSubscriptionId eventId in
   let s1 := run [] (fetchEvent eventId cb s) in
   let s2 := handleRelayMessage relayUrl (Message "EOSE" id Missing) s1 in
   let s3 := run tr2 s2 in
   (now s2 + 2000 <= now s3)%N /\
   (subscriptions s3 !! id = None /\ eventHandlers s3 !! id = None)).
Proof.
  intros s eventId cb relayUrl tr2.
  assert (Hahead : timersAhead s) by (vm_compute; constructor).
  assert (Hnow : (now (handleRelayMessage relayUrl
                         (Message "EOSE" (fetchSubscriptionId eventId) Missing)
                         (run [] (fetchEvent eventId cb s))) + 2000
                  <= now (run tr2 (handleRelayMessage relayUrl
                         (Message "EOSE" (fetchSubscriptionId eventId) Missing)
                         (run [] (fetchEvent eventId cb s)))))%N)
    by (vm_compute; discriminate).
  split; [exact Hahead|]. split; [exact Hnow|].
  apply (fetch_released_after_eose s eventId cb [] relayUrl Missing tr2 Hahead Hnow).
Defined.

(** C3 as stated fails: with a relay connected that never sends an
    end-of-stored-events frame (and no event), the subscription of a
    [fetchEvent] is still registered a minute later. *)
Lemma fetch_without_eose_keeps_subscription :
  ~ (forall (s : state) (eventId : string) (cb : callback) (tr : list input),
       timersAhead s -> noMatchingEvent eventId tr ->
       (now (fetchEvent eventId cb s) + 2000 <= now (run tr (fetchEvent eventId cb s)))%N ->
       subscriptions (run tr (fetchEvent eventId cb s)) !! fetchSubscriptionId eventId = None).
Proof.
  intros H.
  specialize (H (run [SocketOpen 0] (connectToRelays (fun _ => false) ["wss://relay.damus.io"%string] constructor))
                "5c83da77af1dec6d7289834998ad7aafbd9e2191396d75ec3cc27f5a77226f36"%string
                {| cb_name := "render"; cb_throws := fun _ => false |}
                [Elapse 60000]).
  assert (Hahead : timersAhead (run [SocketOpen 0]
                     (connectToRelays (fun _ => false) ["wss://relay.damus.io"%string] constructor)))
    by (vm_compute; constructor).
  specialize (H Hahead ltac:(repeat constructor) ltac:(vm_compute; discriminate)).
  vm_compute in H. discriminate H.
Qed.

End RelayFacts.

(** * Properties of the connection pool *)

Module PoolFacts.

Import RelayManager Spec RelayFacts.

(** ** What a socket event does *)

Lemma updateSocket_sockets ws f s w :
  sockets s !! ws = Some w -> sockets (updateSocket ws f s) = <[ws := f w]> (sockets s).
Proof. intros H. unfold updateSocket. now rewrite H. Qed.

Lemma updateSocket_missing ws f s : sockets s !! ws = None -> updateSocket ws f s = s.
Proof. intros H. unfold updateSocket. now rewrite H. Qed.

Lemma lookup_updated (l : list WebSocket) ws w w' :
  l !! ws = Some w -> <[ws := w']> l !! ws = Some w'.
Proof. intros H. apply list_lookup_insert_eq. eapply lookup_lt_Some, H. Qed.

Lemma task_SocketOpen s ws w :
  sockets s !! ws = Some w -> ws_readyState w = CONNECTING ->
  let w' := settle Fulfilled (setOnmessage (setResolved (setReadyState OPEN w))) in
  let s' := task (SocketOpen ws) s in
  sockets s' = <[ws := w']> (sockets s) /\
  timers s' = List.filter (fun t => negb (isConnectTimeout ws t)) (timers s) /\
  activeConnections s'
    = activeConnections s
      ++ match ws_promise w with Pending => [(ws_url w, ws)] | _ => [] end /\
  registryOf s' = registryOf s /\ joins s' = joins s /\ now s' = now s /\ log s' = log s.
Proof.
  intros Hw Hr w' s'. subst s'. cbn [task]. unfold readyStateOf. rewrite Hw. cbn. rewrite Hr.
  unfold onopen. cbv zeta.
  set (s1 := clearTimeout ws (updateSocket ws (setReadyState OPEN) s)).
  assert (H1 : sockets s1 = <[ws := setReadyState OPEN w]> (sockets s)).
  { unfold s1. cbn. now apply updateSocket_sockets. }
  assert (L1 : sockets s1 !! ws = Some (setReadyState OPEN w)).
  { rewrite H1. eapply lookup_updated, Hw. }
  rewrite L1.
  assert (H2 : sockets (updateSocket ws (fun w0 => settle Fulfilled (setOnmessage (setResolved w0))) s1)
               = <[ws := w']> (sockets s)).
  { rewrite (updateSocket_sockets _ _ _ _ L1), H1. now rewrite list_insert_insert_eq. }
  assert (L2 : sockets (updateSocket ws (fun w0 => settle Fulfilled (setOnmessage (setResolved w0))) s1) !! ws
               = Some w').
  { rewrite H2. eapply lookup_updated, Hw. }
  destruct (updateSocket_fields ws (fun w0 => settle Fulfilled (setOnmessage (setResolved w0))) s1)
    as (F1 & F2 & F3 & F4 & F5 & F6 & F7).
  destruct (updateSocket_fields ws (setReadyState OPEN) s)
    as (G1 & G2 & G3 & G4 & G5 & G6 & G7).
  change (ws_promise (setReadyState OPEN w)) with (ws_promise w).
  unfold registryOf.
  destruct (ws_promise w); [rewrite L2|..]; cbn;
    rewrite ?H2, ?F1, ?F2, ?F3, ?F4, ?F5, ?F6, ?F7; unfold s1; cbn;
    rewrite ?G1, ?G2, ?G3, ?G4, ?G5, ?G6, ?G7, ?app_nil_r; repeat split; reflexivity.
Qed.

Lemma resolutions_app l1 l2 : resolutions (l1 ++ l2) = resolutions l1 ++ resolutions l2.
Proof. unfold resolutions. apply flat_map_app. Qed.

Lemma task_SocketError s ws w :
  sockets s !! ws = Some w -> ws_readyState w <> CLOSED ->
  let w' := if ws_resolved w then setReadyState CLOSED w
            else settle Rejected (setResolved (setReadyState CLOSED w)) in
  let s' := task (SocketError ws) s in
  sockets s' = <[ws := w']> (sockets s) /\
  timers s' = List.filter (fun t => negb (isConnectTimeout ws t)) (timers s) /\
  activeConnections s'
    = List.filter (fun conn => negb (Nat.eqb (snd conn) ws)) (activeConnections s) /\
  registryOf s' = registryOf s /\ joins s' = joins s /\ now s' = now s /\
  resolutions (log s') = resolutions (log s).
Proof.
  intros Hw Hr w' s'.
  assert (E : s' = onclose ws (onerror ws (updateSocket ws (setReadyState CLOSED) s))).
  { subst s'. cbn [task]. unfold readyStateOf. rewrite Hw. cbn.
    destruct (ws_readyState w); try reflexivity. congruence. }
  rewrite E. clear E s'. unfold onclose, removeConnection, onerror.
  set (s2 := logged (ConsoleError "onerror: Failed to connect to")
                    (clearTimeout ws (updateSocket ws (setReadyState CLOSED) s))).
  destruct (updateSocket_fields ws (setReadyState CLOSED) s)
    as (G1 & G2 & G3 & G4 & G5 & G6 & G7).
  assert (H1 : sockets s2 = <[ws := setReadyState CLOSED w]> (sockets s)).
  { unfold s2. cbn. now apply updateSocket_sockets. }
  assert (H2 : timers s2 = List.filter (fun t => negb (isConnectTimeout ws t)) (timers s)).
  { unfold s2. cbn. now rewrite G4. }
  assert (H3 : activeConnections s2 = activeConnections s) by (unfold s2; cbn; exact G1).
  assert (H4 : eventHandlers s2 = eventHandlers s) by (unfold s2; cbn; exact G2).
  assert (H5 : subscriptions s2 = subscriptions s) by (unfold s2; cbn; exact G3).
  assert (H6 : joins s2 = joins s) by (unfold s2; cbn; exact G5).
  assert (H7 : now s2 = now s) by (unfold s2; cbn; exact G6).
  assert (H8 : resolutions (log s2) = resolutions (log s)).
  { unfold s2. cbn. rewrite resolutions_app, G7. cbn. apply app_nil_r. }
  assert (L1 : sockets s2 !! ws = Some (setReadyState CLOSED w)).
  { rewrite H1. eapply lookup_updated, Hw. }
  clearbody s2. rewrite L1.
  change (ws_resolved (setReadyState CLOSED w)) with (ws_resolved w).
  change (ws_promise (setReadyState CLOSED w)) with (ws_promise w).
  unfold registryOf. subst w'.
  destruct (ws_resolved w).
  - cbn [sockets timers activeConnections eventHandlers subscriptions joins now log
         withConnections logged withLog].
    rewrite H1, H2, H3, H4, H5, H6, H7, H8. repeat split; reflexivity.
  - destruct (updateSocket_fields ws (fun w0 => settle Rejected (setResolved w0)) s2)
      as (F1 & F2 & F3 & F4 & F5 & F6 & F7).
    assert (E2 : sockets (updateSocket ws (fun w0 => settle Rejected (setResolved w0)) s2)
                 = <[ws := settle Rejected (setResolved (setReadyState CLOSED w))]> (sockets s)).
    { rewrite (updateSocket_sockets _ _ _ _ L1), H1. now rewrite list_insert_insert_eq. }
    destruct (ws_promise w);
      cbn [sockets timers activeConnections eventHandlers subscriptions joins now log
           withConnections logged withLog];
      rewrite ?E2, ?F1, ?F2, ?F3, ?F4, ?F5, ?F6, ?F7, ?resolutions_app;
      rewrite ?H2, ?H3, ?H4, ?H5, ?H6, ?H7, ?H8; cbn [resolutions flat_map];
      rewrite ?app_nil_r; repeat split; reflexivity.
Qed.

Lemma task_SocketClose s ws w :
  sockets s !! ws = Some w -> ws_readyState w <> CLOSED ->
  let s' := task (SocketClose ws) s in
  sockets s' = <[ws := setReadyState CLOSED w]> (sockets s) /\
  timers s' = timers s /\
  activeConnections s'
    = List.filter (fun conn => negb (Nat.eqb (snd conn) ws)) (activeConnections s) /\
  registryOf s' = registryOf s /\ joins s' = joins s /\ now s' = now s /\ log s' = log s.
Proof.
  intros Hw Hr s'.
  assert (E : s' = onclose ws (updateSocket ws (setReadyState CLOSED) s)).
  { subst s'. cbn [task]. unfold readyStateOf. rewrite Hw. cbn.
    destruct (ws_readyState w); try reflexivity. congruence. }
  rewrite E. clear E s'. unfold onclose, removeConnection, registryOf. cbn.
  destruct (updateSocket_fields ws (setReadyState CLOSED) s)
    as (G1 & G2 & G3 & G4 & G5 & G6 & G7).
  rewrite (updateSocket_sockets _ _ _ _ Hw), G1, G2, G3, G4, G5, G6, G7.
  repeat split; reflexivity.
Qed.

(** A socket event for a socket that is absent, or in a state in which
    the browser does not deliver it, is no task at all. *)
Lemma task_ignored s i :
  match i with
  | Elapse _ | SocketMessage _ _ => False
  | SocketOpen ws => readyStateOf s ws <> Some CONNECTING
  | SocketError ws | SocketClose ws =>
      readyStateOf s ws = None \/ readyStateOf s ws = Some CLOSED
  end ->
  task i s = s.
Proof.
  destruct i as [ms|ws|ws|ws|ws data]; cbn [task]; try contradiction.
  - destruct (readyStateOf s ws) as [[]|]; try reflexivity. congruence.
  - intros [-> | ->]; reflexivity.
  - intros [-> | ->]; reflexivity.
Qed.

(** With an empty registry a message changes the log only, and resolves
    no join. *)
Lemma task_SocketMessage_empty s ws data :
  eventHandlers s = ∅ -> subscriptions s = ∅ ->
  let s' := task (SocketMessage ws data) s in
  withLog (log s) s' = s /\ resolutions (log s') = resolutions (log s).
Proof.
  intros Hh Hs. cbn [task].
  assert (Hsame : withLog (log s) s = s /\ resolutions (log s) = resolutions (log s))
    by (destruct s; split; reflexivity).
  destruct (sockets s !! ws) as [w|]; [|exact Hsame].
  destruct (ws_readyState w); try exact Hsame.
  destruct (ws_onmessage w); [|exact Hsame].
  unfold handleRelayMessage, handleEvent, handleEndOfStoredEvents.
  rewrite Hh, Hs.
  assert (Herr : withLog (log s) (logged (ConsoleError "Error parsing message:") s) = s /\
                 resolutions (log (logged (ConsoleError "Error parsing message:") s))
                 = resolutions (log s)).
  { cbn. rewrite resolutions_app. cbn. rewrite app_nil_r. destruct s; split; reflexivity. }
  destruct data as [|type id p]; [exact Herr|].
  rewrite !lookup_empty.
  destruct (String.eqb type "EVENT"); [destruct p as [|e]|].
  - destruct (String.eqb type "EOSE"); exact Hsame.
  - destruct (ev_pubkey e); [exact Hsame | exact Herr].
  - destruct (String.eqb type "EOSE"); exact Hsame.
Qed.

(** ** Lists of sockets, timers and connections *)

Lemma updated_lookup (l : list WebSocket) ws w' k wk :
  <[ws := w']> l !! k = Some wk ->
  (k = ws /\ wk = w') \/ (k <> ws /\ l !! k = Some wk).
Proof.
  intros H. destruct (decide (k = ws)) as [->|Hne].
  - left. split; [reflexivity|].
    assert (Hlt : (ws < length l)%nat).
    { apply lookup_lt_Some in H. now rewrite length_insert in H. }
    rewrite list_lookup_insert_eq in H by exact Hlt. congruence.
  - right. split; [exact Hne|]. now rewrite list_lookup_insert_ne in H by congruence.
Qed.

Lemma updated_urls (l : list WebSocket) ws w w' :
  l !! ws = Some w -> ws_url w' = ws_url w ->
  map ws_url (<[ws := w']> l) = map ws_url l.
Proof.
  intros Hw Hurl. change (map ws_url) with (fmap (M := list) ws_url).
  rewrite list_fmap_insert, Hurl. apply list_insert_id.
  now rewrite list_lookup_fmap, Hw.
Qed.

Lemma timeout_kept ws k (l : list (N * timerAction)) :
  In (5000%N, ConnectTimeout k) (List.filter (fun t => negb (isConnectTimeout ws t)) l)
  <-> In (5000%N, ConnectTimeout k) l /\ k <> ws.
Proof.
  rewrite filter_In. unfold isConnectTimeout. cbn.
  destruct (Nat.eqb_spec k ws); cbn; intuition congruence.
Qed.

Lemma others_kept ws url k (l : list (string * nat)) :
  In (url, k) (List.filter (fun conn => negb (Nat.eqb (snd conn) ws)) l)
  <-> In (url, k) l /\ k <> ws.
Proof.
  rewrite filter_In. cbn. destruct (Nat.eqb_spec k ws); cbn; intuition congruence.
Qed.

Lemma NoDup_filter_snd (p : string * nat -> bool) (l : list (string * nat)) :
  NoDup (map snd l) -> NoDup (map snd (List.filter p l)).
Proof.
  induction l as [|c l IH]; cbn [map List.filter]; [auto|].
  intros H. inversion H as [|? ? Hnotin Hnd]; subst.
  destruct (p c); [|auto]. cbn [map]. constructor; [|auto].
  intros Hin. apply Hnotin. apply in_map_iff in Hin as (c' & E & Hc').
  apply filter_In in Hc' as [Hc' _]. apply in_map_iff. eauto.
Qed.

Lemma NoDup_snoc {A} (l : list A) x : NoDup l -> ~ In x l -> NoDup (l ++ [x]).
Proof.
  induction l as [|a l IH]; cbn [app]; intros Hnd Hx.
  - constructor; [intros [] | constructor].
  - inversion Hnd as [|? ? Ha Hl]; subst. constructor.
    + rewrite in_app_iff. cbn. intros [H|[H|[]]]; [auto | subst; apply Hx; now left].
    + apply IH; [exact Hl | intros H; apply Hx; now right].
Qed.

Lemma timers_shape_filter (p : N * timerAction -> bool) (l : list (N * timerAction)) :
  Forall (fun t => exists ws, t = (5000%N, ConnectTimeout ws)) l ->
  Forall (fun t => exists ws, t = (5000%N, ConnectTimeout ws)) (List.filter p l).
Proof.
  rewrite !Forall_forall. intros H t Ht. apply filter_In in Ht as [Ht _]. auto.
Qed.

(** ** The invariant of connecting *)

(** One socket changes, the others keep their timers and their place in
    the pool: the invariant carries over once it holds of the changed one. *)
Lemma connecting_one_socket relayUrls s s' ws w w' :
  connecting relayUrls s ->
  sockets s !! ws = Some w -> ws_url w' = ws_url w ->
  sockets s' = <[ws := w']> (sockets s) ->
  registryOf s' = registryOf s ->
  Forall (fun t => exists ws, t = (5000%N, ConnectTimeout ws)) (timers s') ->
  (forall k, k <> ws -> In (5000%N, ConnectTimeout k) (timers s) ->
             In (5000%N, ConnectTimeout k) (timers s')) ->
  NoDup (map snd (activeConnections s')) ->
  (forall url k, k <> ws -> In (url, k) (activeConnections s') <-> In (url, k) (activeConnections s)) ->
  socketOk s' ws w' ->
  connecting relayUrls s'.
Proof.
  intros (Hh & Hs & Hurls & Hshape & Hnd & Hrange & Hok) Hw Hurl Hsock Hreg Hshape' Hkeep Hnd'
         Hconn Hok'.
  unfold registryOf in Hreg. injection Hreg as Hh' Hs'.
  split; [congruence|]. split; [congruence|].
  split; [rewrite Hsock; now rewrite (updated_urls _ _ _ _ Hw Hurl)|].
  split; [exact Hshape'|]. split; [exact Hnd'|]. split.
  - intros url k Hin. rewrite Hsock. destruct (decide (k = ws)) as [->|Hne].
    + rewrite (lookup_updated _ _ _ w' Hw). eauto.
    + rewrite list_lookup_insert_ne by congruence. apply (Hrange url). now apply Hconn.
  - intros k wk Hk. rewrite Hsock in Hk.
    apply updated_lookup in Hk as [[-> ->]|[Hne Hk]]; [exact Hok'|].
    destruct (Hok k wk Hk) as (Hp & Hf & Hc). split; [|split; [exact Hf|]].
    + intros Hpend. destruct (Hp Hpend) as (H1 & H2 & H3). auto.
    + intros url. rewrite (Hconn url k Hne). apply Hc.
Qed.

Lemma connecting_SocketOpen relayUrls s ws w :
  connecting relayUrls s -> sockets s !! ws = Some w -> ws_readyState w = CONNECTING ->
  connecting relayUrls (task (SocketOpen ws) s).
Proof.
  intros Hc Hw Hr.
  destruct (task_SocketOpen s ws w Hw Hr) as (E1 & E2 & E3 & E4 & _).
  cbv zeta in *. set (s' := task (SocketOpen ws) s) in *.
  pose proof Hc as (Hh & Hs & Hurls & Hshape & Hnd & Hrange & Hok).
  destruct (Hok ws w Hw) as (Hp & Hf & Hcw).
  assert (Hnotin : ws_promise w <> Fulfilled -> ~ In ws (map snd (activeConnections s))).
  { intros Hnf Hin. apply in_map_iff in Hin as ([url k] & Ek & Hin). cbn in Ek. subst k.
    apply Hcw in Hin. tauto. }
  apply (connecting_one_socket relayUrls s s' ws w
           (settle Fulfilled (setOnmessage (setResolved (setReadyState OPEN w)))) Hc Hw);
    [reflexivity | exact E1 | exact E4 | ..].
  - rewrite E2. now apply timers_shape_filter.
  - intros k Hne Hin. rewrite E2. apply timeout_kept. auto.
  - rewrite E3, map_app. destruct (ws_promise w) eqn:Ep; cbn [map]; rewrite ?app_nil_r; auto.
    apply NoDup_snoc; [exact Hnd|]. cbn. apply Hnotin. discriminate.
  - intros url k Hne. rewrite E3, in_app_iff. split; [|auto].
    intros [H|H]; [exact H|]. destruct (ws_promise w); cbn in H; intuition congruence.
  - unfold socketOk. rewrite E2, E3.
    destruct w as [url0 rs om res pr sent]. cbn in *. subst rs.
    destruct pr; cbn; (split; [|split]); try discriminate; try congruence.
    + intros url. rewrite in_app_iff. cbn. split.
      * intros [H|[[= <-]|[]]]; [apply Hcw in H; destruct H as (_ & [=] & _) | auto].
      * intros (-> & _ & _). auto.
    + exfalso. now apply Hf.
    + intros url. rewrite app_nil_r, Hcw. intuition discriminate.
Qed.

Lemma connecting_SocketError relayUrls s ws w :
  connecting relayUrls s -> sockets s !! ws = Some w -> ws_readyState w <> CLOSED ->
  connecting relayUrls (task (SocketError ws) s).
Proof.
  intros Hc Hw Hr.
  destruct (task_SocketError s ws w Hw Hr) as (E1 & E2 & E3 & E4 & _).
  cbv zeta in *. set (s' := task (SocketError ws) s) in *.
  pose proof Hc as (Hh & Hs & Hurls & Hshape & Hnd & Hrange & Hok).
  destruct (Hok ws w Hw) as (Hp & Hf & Hcw).
  apply (connecting_one_socket relayUrls s s' ws w
           (if ws_resolved w then setReadyState CLOSED w
            else settle Rejected (setResolved (setReadyState CLOSED w))) Hc Hw);
    [destruct (ws_resolved w); reflexivity | exact E1 | exact E4 | ..].
  - rewrite E2. now apply timers_shape_filter.
  - intros k Hne Hin. rewrite E2. apply timeout_kept. auto.
  - rewrite E3. now apply NoDup_filter_snd.
  - intros url k Hne. rewrite E3, others_kept. tauto.
  - unfold socketOk. rewrite E3.
    destruct w as [url0 rs om res pr sent]. cbn in *.
    destruct res; cbn; (split; [|split]).
    + intros Hpend. destruct (Hp Hpend) as ([=] & _).
    + discriminate.
    + intros url. rewrite others_kept. intuition discriminate.
    + destruct pr; discriminate.
    + discriminate.
    + intros url. rewrite others_kept. intuition discriminate.
Qed.

Lemma connecting_SocketClose relayUrls s ws w :
  connecting relayUrls s -> sockets s !! ws = Some w -> ws_readyState w <> CLOSED ->
  connecting relayUrls (task (SocketClose ws) s).
Proof.
  intros Hc Hw Hr.
  destruct (task_SocketClose s ws w Hw Hr) as (E1 & E2 & E3 & E4 & _).
  cbv zeta in *. set (s' := task (SocketClose ws) s) in *.
  pose proof Hc as (Hh & Hs & Hurls & Hshape & Hnd & Hrange & Hok).
  destruct (Hok ws w Hw) as (Hp & Hf & Hcw).
  apply (connecting_one_socket relayUrls s s' ws w (setReadyState CLOSED w) Hc Hw);
    [reflexivity | exact E1 | exact E4 | ..].
  - now rewrite E2.
  - intros k Hne Hin. now rewrite E2.
  - rewrite E3. now apply NoDup_filter_snd.
  - intros url k Hne. rewrite E3, others_kept. tauto.
  - unfold socketOk. rewrite E2, E3.
    destruct w as [url0 rs om res pr sent]. cbn in *. split; [|split].
    + intros Hpend. destruct (Hp Hpend) as (H1 & H2 & _). auto.
    + discriminate.
    + intros url. rewrite others_kept. intuition discriminate.
Qed.

(** The invariant does not look at the clock, the joins or the log. *)
Lemma connecting_same relayUrls s s' :
  connecting relayUrls s ->
  registryOf s' = registryOf s -> sockets s' = sockets s -> timers s' = timers s ->
  activeConnections s' = activeConnections s ->
  connecting relayUrls s'.
Proof.
  unfold connecting, socketOk, registryOf. intros H [= -> ->] -> -> ->. exact H.
Qed.

Lemma connecting_microtasks relayUrls s :
  connecting relayUrls s -> connecting relayUrls (microtasks s).
Proof.
  intros H. destruct (microtasks_fields s) as (H1 & H2 & H3 & H4 & _).
  now apply (connecting_same relayUrls s).
Qed.

(** Timers leave the list; the invariant carries over when those of the
    pending sockets stay. *)
Lemma connecting_timers relayUrls s s' :
  connecting relayUrls s ->
  registryOf s' = registryOf s -> sockets s' = sockets s ->
  activeConnections s' = activeConnections s ->
  Forall (fun t => exists ws, t = (5000%N, ConnectTimeout ws)) (timers s') ->
  (forall ws w, sockets s !! ws = Some w -> ws_promise w = Pending ->
                In (5000%N, ConnectTimeout ws) (timers s')) ->
  connecting relayUrls s'.
Proof.
  intros (Hh & Hs & Hurls & Hshape & Hnd & Hrange & Hok) Hreg Hsock Hconn Hshape' Hkeep.
  unfold registryOf in Hreg. injection Hreg as Hh' Hs'.
  unfold connecting. rewrite Hh', Hs', Hsock, Hconn.
  repeat (split; [assumption|]).
  intros ws w Hw. destruct (Hok ws w Hw) as (Hp & Hf & Hc).
  unfold socketOk. rewrite Hconn. split; [|split; assumption].
  intros Hpend. destruct (Hp Hpend) as (H1 & _ & H3). eauto.
Qed.

(** A connect timeout that fires rejects a promise that is still pending
    and changes nothing else. *)
Lemma fireOne_connecting relayUrls target s d a rest :
  connecting relayUrls s -> nextTimer target (timers s) = Some (d, a, rest) ->
  let s' := fireOne d a rest s in
  connecting relayUrls s' /\
  joins (runTimer a (withNow (N.max (now s) d) (withTimers rest s))) = joins s /\
  resolutions (log (runTimer a (withNow (N.max (now s) d) (withTimers rest s))))
    = resolutions (log s) /\
  (forall ws w, sockets s !! ws = Some w ->
     exists w', sockets s' !! ws = Some w' /\ ws_url w' = ws_url w /\
                ws_readyState w' = ws_readyState w /\
                (ws_promise w' = ws_promise w \/
                 ws_promise w = Pending /\ ws_promise w' = Rejected)).
Proof.
  intros Hc Hnext s'.
  pose proof Hc as (Hh & Hs & Hurls & Hshape & Hnd & Hrange & Hok).
  pose proof (nextTimer_spec target (timers s)) as Hspec. rewrite Hnext in Hspec.
  destruct Hspec as (Hd & _ & Hiff).
  assert (Hin : In (d, a) (timers s)) by (apply Hiff; now left).
  rewrite Forall_forall in Hshape. destruct (Hshape _ Hin) as [k [= -> ->]].
  assert (Hshape' : Forall (fun t => exists ws, t = (5000%N, ConnectTimeout ws)) rest).
  { apply Forall_forall. intros t Ht. apply Hshape, Hiff. now right. }
  assert (Hkeep : forall j, j <> k -> In (5000%N, ConnectTimeout j) (timers s) ->
                            In (5000%N, ConnectTimeout j) rest).
  { intros j Hne Hj. apply Hiff in Hj as [[=]|Hj]; [congruence | exact Hj]. }
  set (s0 := withNow (N.max (now s) 5000) (withTimers rest s)) in *.
  assert (Hsame : forall ws w, sockets s !! ws = Some w ->
            exists w', sockets s !! ws = Some w' /\ ws_url w' = ws_url w /\
                       ws_readyState w' = ws_readyState w /\
                       (ws_promise w' = ws_promise w \/
                        ws_promise w = Pending /\ ws_promise w' = Rejected))
    by (intros ws w Hw; exists w; auto).
  subst s'. unfold fireOne. fold s0. rewrite microtasks_sockets. cbn [runTimer].
  change (sockets s0) with (sockets s).
  destruct (sockets s !! k) as [wk|] eqn:Hk.
  - destruct (Hok k wk Hk) as (Hp & Hf & Hcw).
    destruct (ws_resolved wk) eqn:Hres.
    + split; [|split; [reflexivity | split; [reflexivity | exact Hsame]]].
      apply connecting_microtasks, (connecting_timers relayUrls s); auto.
      intros j wj Hj Hpend. destruct (Hok j wj Hj) as (Hpj & _).
      apply Hkeep; [|now apply Hpj]. intros ->.
      rewrite Hk in Hj. injection Hj as ->. destruct (Hp Hpend) as [E _]. congruence.
    + assert (Hs1 : sockets (updateSocket k (settle Rejected) s0)
                    = <[k := settle Rejected wk]> (sockets s))
        by (now apply (updateSocket_sockets k (settle Rejected) s0 wk)).
      destruct (updateSocket_fields k (settle Rejected) s0) as (F1 & F2 & F3 & F4 & F5 & F6 & F7).
      assert (Hcs : connecting relayUrls (updateSocket k (settle Rejected) s0)).
      { apply (connecting_one_socket relayUrls s _ k wk (settle Rejected wk) Hc Hk);
          [reflexivity | exact Hs1 | unfold registryOf; now rewrite F2, F3 | ..].
        - now rewrite F4.
        - intros j Hne Hj. rewrite F4. now apply Hkeep.
        - now rewrite F1.
        - intros url j Hne. now rewrite F1.
        - unfold socketOk. rewrite F1. change (activeConnections s0) with (activeConnections s).
          destruct wk as [url0 rs om res pr sent]. cbn in *.
          destruct pr; cbn; (split; [|split]); try discriminate; try assumption.
          intros url. rewrite Hcw. intuition discriminate. }
      assert (Hev : forall ws w, sockets s !! ws = Some w ->
                exists w', sockets (updateSocket k (settle Rejected) s0) !! ws = Some w' /\
                           ws_url w' = ws_url w /\ ws_readyState w' = ws_readyState w /\
                           (ws_promise w' = ws_promise w \/
                            ws_promise w = Pending /\ ws_promise w' = Rejected)).
      { intros ws w Hw. rewrite Hs1. destruct (decide (ws = k)) as [->|Hne].
        - rewrite (lookup_updated _ _ _ (settle Rejected wk) Hk).
          rewrite Hk in Hw. injection Hw as <-. eexists. split; [reflexivity|].
          destruct wk as [url0 rs om res pr sent]. cbn. destruct pr; auto.
        - rewrite list_lookup_insert_ne by congruence. exists w. auto. }
      set (s1 := updateSocket k (settle Rejected) s0) in *.
      assert (Hfin : forall X, X = s1 \/ X = logged (ConsoleError "connectToRelays: Failed to connect to") s1 ->
                connecting relayUrls (microtasks X) /\ joins X = joins s /\
                resolutions (log X) = resolutions (log s) /\
                (forall ws w, sockets s !! ws = Some w ->
                   exists w', sockets X !! ws = Some w' /\ ws_url w' = ws_url w /\
                              ws_readyState w' = ws_readyState w /\
                              (ws_promise w' = ws_promise w \/
                               ws_promise w = Pending /\ ws_promise w' = Rejected))).
      { intros X [-> | ->].
        - split; [now apply connecting_microtasks|]. split; [exact F5|].
          split; [now rewrite F7 | exact Hev].
        - split; [apply connecting_microtasks; now apply (connecting_same relayUrls s1)|].
          split; [exact F5|]. split; [|exact Hev].
          cbn [logged log withLog]. rewrite resolutions_app, F7. cbn. apply app_nil_r. }
      clearbody s1. destruct (ws_promise wk); apply Hfin; auto.
  - split; [|split; [reflexivity | split; [reflexivity | exact Hsame]]].
    apply connecting_microtasks, (connecting_timers relayUrls s); auto.
    intros j wj Hj Hpend. destruct (Hok j wj Hj) as (Hpj & _).
    apply Hkeep; [|now apply Hpj]. intros ->. congruence.
Qed.

(** ** The join *)

Lemma settledSince_attemptResult s s' :
  settledSince s s' ->
  forall a r, attemptResult s a = Some r -> attemptResult s' a = Some r.
Proof.
  intros Hadv [ws|url] r; unfold attemptResult; [|auto].
  destruct (sockets s !! ws) as [w|] eqn:Hw; [|discriminate].
  destruct (Hadv ws w Hw) as (w' & -> & Hurl & Hp). rewrite Hurl.
  destruct Hp as [-> | ->]; [auto | discriminate].
Qed.

Lemma allSettled_mono s s' attempts :
  settledSince s s' ->
  forall rs, allSettled s attempts = Some rs -> allSettled s' attempts = Some rs.
Proof.
  intros Hadv. induction attempts as [|ws attempts IH]; intros rs; cbn [allSettled]; [auto|].
  destruct (attemptResult s ws) as [r|] eqn:Er; [|discriminate].
  rewrite (settledSince_attemptResult s s' Hadv ws r Er).
  destruct (allSettled s attempts) as [rs'|]; [|discriminate].
  now rewrite (IH rs' eq_refl).
Qed.

Lemma allSettled_sockets s s' attempts :
  sockets s' = sockets s -> allSettled s' attempts = allSettled s attempts.
Proof.
  intros E. induction attempts as [|ws attempts IH]; cbn [allSettled]; [reflexivity|].
  unfold attemptResult. now rewrite E, IH.
Qed.

(** The microtasks resolve a join that is due and leave a resolved one. *)
Lemma microtasks_join attempts s r :
  joins s = [{| j_attempts := attempts; j_result := r |}] ->
  (r = None \/ r = allSettled s attempts) ->
  resolutions (log s) = match r with Some rs => [rs] | None => [] end ->
  joinFollows attempts (microtasks s).
Proof.
  intros Hj Hr Hl. unfold joinFollows.
  rewrite (allSettled_sockets s (microtasks s)) by apply microtasks_sockets.
  unfold microtasks. rewrite Hj. cbn [resolveJoins j_result j_attempts].
  destruct r as [rs|].
  - destruct Hr as [[=]|Hr]. cbn. rewrite <- Hr, app_nil_r. split; [reflexivity | exact Hl].
  - destruct (allSettled s attempts) as [rs|]; cbn.
    + rewrite resolutions_app, Hl. split; reflexivity.
    + rewrite app_nil_r. split; [reflexivity | exact Hl].
Qed.

Lemma joinFollows_microtasks attempts s s1 :
  joinFollows attempts s ->
  joins s1 = joins s -> resolutions (log s1) = resolutions (log s) -> settledSince s s1 ->
  joinFollows attempts (microtasks s1).
Proof.
  intros [Hj Hl] Hj1 Hl1 Hadv.
  apply (microtasks_join attempts s1 (allSettled s attempts)).
  - now rewrite Hj1.
  - destruct (allSettled s attempts) as [rs|] eqn:E; [right | now left].
    symmetry. now apply (allSettled_mono s s1).
  - now rewrite Hl1.
Qed.

Lemma joinFollows_same attempts s s' :
  joinFollows attempts s -> joins s' = joins s -> log s' = log s -> sockets s' = sockets s ->
  joinFollows attempts s'.
Proof.
  intros [Hj Hl] Ej El Es. unfold joinFollows.
  now rewrite Ej, El, (allSettled_sockets s s' attempts Es).
Qed.

Lemma settledSince_refl s : settledSince s s.
Proof. intros ws w Hw. exists w. auto. Qed.

Lemma settledSince_updated s s' ws w w' :
  sockets s !! ws = Some w -> sockets s' = <[ws := w']> (sockets s) ->
  ws_url w' = ws_url w -> (ws_promise w' = ws_promise w \/ ws_promise w = Pending) ->
  settledSince s s'.
Proof.
  intros Hw Hs Hurl Hp k wk Hk. rewrite Hs. destruct (decide (k = ws)) as [->|Hne].
  - rewrite (lookup_updated _ _ _ w' Hw). rewrite Hw in Hk. injection Hk as <-. eauto.
  - rewrite list_lookup_insert_ne by congruence. exists wk. auto.
Qed.

(** ** Time passing while connecting *)

Lemma timedOutSince_refl s : timedOutSince s s.
Proof. intros ws w Hw. exists w. auto. Qed.

Lemma timedOutSince_trans s1 s2 s3 :
  timedOutSince s1 s2 -> timedOutSince s2 s3 -> timedOutSince s1 s3.
Proof.
  intros H12 H23 ws w Hw.
  destruct (H12 ws w Hw) as (w2 & Hw2 & Hu2 & Hr2 & Hp2).
  destruct (H23 ws w2 Hw2) as (w3 & Hw3 & Hu3 & Hr3 & Hp3).
  exists w3. repeat split; try congruence.
  destruct Hp2 as [E2|[E2 E2']], Hp3 as [E3|[E3 E3']]; try (left; congruence);
    right; split; congruence.
Qed.

Lemma timedOutSince_settled s s' : timedOutSince s s' -> settledSince s s'.
Proof.
  intros H ws w Hw. destruct (H ws w Hw) as (w' & Hw' & Hu & _ & Hp).
  exists w'. repeat split; auto. tauto.
Qed.

Lemma timedOutSince_sockets s s' s'' :
  timedOutSince s s' -> sockets s'' = sockets s' -> timedOutSince s s''.
Proof. intros H E ws w Hw. rewrite E. exact (H ws w Hw). Qed.

Lemma fireDue_none fuel target s :
  nextTimer target (timers s) = None -> fireDue fuel target s = s.
Proof. intros H. destruct fuel; cbn [fireDue]; [reflexivity | now rewrite H]. Qed.

Lemma elapse_connecting relayUrls attempts s ms :
  connecting relayUrls s -> joinFollows attempts s ->
  let s' := elapse ms s in
  connecting relayUrls s' /\ joinFollows attempts s' /\ now s' = (now s + ms)%N /\
  forall ws w, sockets s !! ws = Some w ->
    exists w', sockets s' !! ws = Some w' /\ ws_url w' = ws_url w /\
               ws_readyState w' = ws_readyState w /\
               ws_promise w' = match ws_promise w with
                               | Pending => if (5000 <=? now s + ms)%N then Rejected else Pending
                               | q => q
                               end.
Proof.
  intros Hc Hj s'. subst s'. unfold elapse.
  set (target := (now s + ms)%N).
  set (sf := fireDue (length (timers s)) target s).
  assert (HP : connecting relayUrls sf /\ joinFollows attempts sf /\ timedOutSince s sf).
  { apply (fireDue_ind (fun x => connecting relayUrls x /\ joinFollows attempts x
                                 /\ timedOutSince s x) target);
      [|split; [exact Hc | split; [exact Hj | apply timedOutSince_refl]]].
    intros x d a rest (Hcx & Hjx & Htx) Hnext.
    destruct (fireOne_connecting relayUrls target x d a rest Hcx Hnext) as (H1 & H2 & H3 & H4).
    cbv zeta in *. split; [exact H1|]. split.
    - unfold fireOne. apply (joinFollows_microtasks attempts x); auto.
      apply timedOutSince_settled. unfold fireOne in H4.
      eapply timedOutSince_sockets; [exact H4 | now rewrite microtasks_sockets].
    - eapply timedOutSince_trans; [exact Htx | exact H4]. }
  destruct HP as (Hcf & Hjf & Htf).
  split; [now apply (connecting_same relayUrls sf)|].
  split; [now apply (joinFollows_same attempts sf)|]. split; [reflexivity|].
  intros ws w Hw. cbn [sockets withNow].
  destruct (Htf ws w Hw) as (w' & Hw' & Hu & Hr & Hp).
  exists w'. repeat split; auto.
  destruct (N.leb_spec 5000 target) as [Hge|Hlt].
  - (* every timeout has fired *)
    assert (Hnone : timers sf = []).
    { pose proof (fireDue_complete target (length (timers s)) s (Nat.le_refl _)) as Hdone.
      fold sf in Hdone. destruct Hcf as (_ & _ & _ & Hshape & _).
      destruct (timers sf) as [|t l]; [reflexivity|].
      pose proof (Forall_inv Hdone) as H1. pose proof (Forall_inv Hshape) as [k ->].
      cbn in H1. lia. }
    destruct (ws_promise w) eqn:Ep.
    + destruct Hp as [Hp|[_ Hp]]; [|exact Hp].
      destruct Hcf as (_ & _ & _ & _ & _ & _ & Hok).
      destruct (Hok ws w' Hw') as (Hpend & _). destruct (Hpend Hp) as (_ & Hin & _).
      rewrite Hnone in Hin. destruct Hin.
    + destruct Hp as [Hp|[[=] _]]; exact Hp.
    + destruct Hp as [Hp|[[=] _]]; exact Hp.
  - (* no timeout is due *)
    assert (Hnext : nextTimer target (timers s) = None).
    { pose proof (nextTimer_spec target (timers s)) as Hspec.
      destruct (nextTimer target (timers s)) as [[[d a] rest]|]; [|reflexivity].
      destruct Hspec as (Hd & _ & Hiff).
      destruct Hc as (_ & _ & _ & Hshape & _). rewrite Forall_forall in Hshape.
      destruct (Hshape (d, a)) as [k [= -> _]]; [apply Hiff; now left | lia]. }
    unfold sf in Hw'. rewrite (fireDue_none _ _ _ Hnext) in Hw'.
    rewrite Hw in Hw'. injection Hw' as <-. now destruct (ws_promise w).
Qed.

(** ** Every task, while connecting *)

(** A task that changes no socket. *)
Lemma quiet_task relayUrls attempts s s1 :
  connecting relayUrls s -> joinFollows attempts s ->
  registryOf s1 = registryOf s -> sockets s1 = sockets s -> timers s1 = timers s ->
  activeConnections s1 = activeConnections s -> joins s1 = joins s ->
  resolutions (log s1) = resolutions (log s) ->
  connecting relayUrls (microtasks s1) /\ joinFollows attempts (microtasks s1).
Proof.
  intros Hc Hj E1 E2 E3 E4 E5 E6. split.
  - apply connecting_microtasks. now apply (connecting_same relayUrls s).
  - apply (joinFollows_microtasks attempts s); auto.
    intros ws w Hw. rewrite E2. exists w. auto.
Qed.

Lemma closed_or_not (r : readyState) : r = CLOSED \/ r <> CLOSED.
Proof. destruct r; auto; right; discriminate. Qed.

Lemma step_connecting relayUrls attempts s i :
  connecting relayUrls s -> joinFollows attempts s ->
  connecting relayUrls (step s i) /\ joinFollows attempts (step s i) /\
  forall ws w, sockets s !! ws = Some w ->
    exists w', sockets (step s i) !! ws = Some w' /\
               (now (step s i), attemptOf w') = attemptStep ws (now s, attemptOf w) i.
Proof.
  intros Hc Hj. unfold step. rewrite microtasks_sockets, microtasks_now.
  pose proof Hc as (_ & _ & _ & _ & _ & _ & Hok).
  assert (Hquiet : task i s = s ->
            (forall ws w, sockets s !! ws = Some w ->
               (now s, attemptOf w) = attemptStep ws (now s, attemptOf w) i) ->
            connecting relayUrls (microtasks (task i s)) /\
            joinFollows attempts (microtasks (task i s)) /\
            forall ws w, sockets s !! ws = Some w ->
              exists w', sockets (task i s) !! ws = Some w' /\
                         (now (task i s), attemptOf w') = attemptStep ws (now s, attemptOf w) i).
  { intros -> Hsim.
    destruct (quiet_task relayUrls attempts s s Hc Hj) as [H1 H2]; try reflexivity.
    split; [exact H1|]. split; [exact H2|]. intros ws w Hw. exists w. auto. }
  destruct i as [ms|ws0|ws0|ws0|ws0 data].
  - (* time passes *)
    destruct (elapse_connecting relayUrls attempts s ms Hc Hj) as (H1 & H2 & H3 & H4).
    cbv zeta in *. cbn [task]. split; [now apply connecting_microtasks|]. split.
    + apply (joinFollows_microtasks attempts (elapse ms s)); auto. apply settledSince_refl.
    + intros ws w Hw. destruct (H4 ws w Hw) as (w' & Hw' & _ & Hr & Hp).
      exists w'. split; [exact Hw'|]. rewrite H3. cbn [attemptStep]. f_equal.
      unfold attemptOf. rewrite Hp, Hr.
      destruct (ws_promise w); try reflexivity.
      destruct (5000 <=? now s + ms)%N; destruct (ws_readyState w); reflexivity.
  - (* a socket opens *)
    destruct (sockets s !! ws0) as [w0|] eqn:Hw0.
    + destruct (ws_readyState w0) eqn:Hr0.
      * destruct (task_SocketOpen s ws0 w0 Hw0 Hr0) as (E1 & E2 & E3 & E4 & E5 & E6 & E7).
        cbv zeta in *. split; [apply connecting_microtasks; eapply connecting_SocketOpen; eauto|].
        split.
        -- apply (joinFollows_microtasks attempts s); auto; [now rewrite E7|].
           eapply (settledSince_updated s _ ws0 w0); [exact Hw0 | exact E1 | reflexivity|].
           destruct w0 as [u rs om res pr st]; destruct pr; cbn; auto.
        -- intros ws w Hw. rewrite E1, E6. cbn [attemptStep].
           destruct (Nat.eqb_spec ws0 ws) as [->|Hne].
           ++ rewrite (lookup_updated _ _ _ _ Hw0). eexists. split; [reflexivity|].
              rewrite Hw0 in Hw. injection Hw as <-.
              destruct w0 as [u rs om res pr st]. cbn in Hr0. subst rs.
              destruct pr; reflexivity.
           ++ rewrite list_lookup_insert_ne by congruence. exists w. auto.
      * apply Hquiet; [apply task_ignored; unfold readyStateOf; rewrite Hw0; cbn; congruence|].
        intros ws w Hw. cbn [attemptStep]. destruct (Nat.eqb_spec ws0 ws) as [->|]; [|reflexivity].
        rewrite Hw0 in Hw. injection Hw as <-. unfold attemptOf. rewrite Hr0.
        now destruct (ws_promise w0).
      * apply Hquiet; [apply task_ignored; unfold readyStateOf; rewrite Hw0; cbn; congruence|].
        intros ws w Hw. cbn [attemptStep]. destruct (Nat.eqb_spec ws0 ws) as [->|]; [|reflexivity].
        rewrite Hw0 in Hw. injection Hw as <-. unfold attemptOf. rewrite Hr0.
        now destruct (ws_promise w0).
      * apply Hquiet; [apply task_ignored; unfold readyStateOf; rewrite Hw0; cbn; congruence|].
        intros ws w Hw. cbn [attemptStep]. destruct (Nat.eqb_spec ws0 ws) as [->|]; [|reflexivity].
        rewrite Hw0 in Hw. injection Hw as <-. unfold attemptOf. rewrite Hr0.
        now destruct (ws_promise w0).
    + apply Hquiet; [apply task_ignored; unfold readyStateOf; rewrite Hw0; cbn; congruence|].
      intros ws w Hw. cbn [attemptStep]. destruct (Nat.eqb_spec ws0 ws) as [->|]; [|reflexivity].
      congruence.
  - (* a socket fails *)
    destruct (sockets s !! ws0) as [w0|] eqn:Hw0.
    + destruct (closed_or_not (ws_readyState w0)) as [Hr0|Hr0].
      * apply Hquiet; [apply task_ignored; unfold readyStateOf; rewrite Hw0; cbn; rewrite ?Hr0; auto|].
        intros ws w Hw. cbn [attemptStep]. destruct (Nat.eqb_spec ws0 ws) as [->|]; [|reflexivity].
        rewrite Hw0 in Hw. injection Hw as <-. unfold attemptOf. rewrite Hr0.
        now destruct (ws_promise w0).
      * destruct (task_SocketError s ws0 w0 Hw0 Hr0) as (E1 & E2 & E3 & E4 & E5 & E6 & E7).
        cbv zeta in *. split; [apply connecting_microtasks; eapply connecting_SocketError; eauto|].
        split.
        -- apply (joinFollows_microtasks attempts s); auto.
           eapply (settledSince_updated s _ ws0 w0); [exact Hw0 | exact E1 | |];
             destruct w0 as [u rs om res pr st]; destruct res, pr; cbn; auto.
        -- intros ws w Hw. rewrite E1, E6. cbn [attemptStep].
           destruct (Nat.eqb_spec ws0 ws) as [->|Hne].
           ++ rewrite (lookup_updated _ _ _ _ Hw0). eexists. split; [reflexivity|].
              rewrite Hw0 in Hw. injection Hw as <-.
              destruct (Hok ws w0 Hw0) as (Hp & _).
              destruct w0 as [u rs om res pr st]. cbn in *.
              destruct pr.
              ** destruct (Hp eq_refl) as (-> & _ & [-> | ->]); [reflexivity | congruence].
              ** destruct res; reflexivity.
              ** destruct res; reflexivity.
           ++ rewrite list_lookup_insert_ne by congruence. exists w. auto.
    + apply Hquiet; [apply task_ignored; unfold readyStateOf; rewrite Hw0; cbn; rewrite ?Hr0; auto|].
      intros ws w Hw. cbn [attemptStep]. destruct (Nat.eqb_spec ws0 ws) as [->|]; [|reflexivity].
      congruence.
  - (* a socket closes *)
    destruct (sockets s !! ws0) as [w0|] eqn:Hw0.
    + destruct (closed_or_not (ws_readyState w0)) as [Hr0|Hr0].
      * apply Hquiet; [apply task_ignored; unfold readyStateOf; rewrite Hw0; cbn; rewrite ?Hr0; auto|].
        intros ws w Hw. cbn [attemptStep]. destruct (Nat.eqb_spec ws0 ws) as [->|]; [|reflexivity].
        rewrite Hw0 in Hw. injection Hw as <-. unfold attemptOf. rewrite Hr0.
        now destruct (ws_promise w0).
      * destruct (task_SocketClose s ws0 w0 Hw0 Hr0) as (E1 & E2 & E3 & E4 & E5 & E6 & E7).
        cbv zeta in *. split; [apply connecting_microtasks; eapply connecting_SocketClose; eauto|].
        split.
        -- apply (joinFollows_microtasks attempts s); auto; [now rewrite E7|].
           eapply (settledSince_updated s _ ws0 w0); [exact Hw0 | exact E1 | reflexivity|].
           now left.
        -- intros ws w Hw. rewrite E1, E6. cbn [attemptStep].
           destruct (Nat.eqb_spec ws0 ws) as [->|Hne].
           ++ rewrite (lookup_updated _ _ _ _ Hw0). eexists. split; [reflexivity|].
              rewrite Hw0 in Hw. injection Hw as <-.
              destruct (Hok ws w0 Hw0) as (Hp & _).
              destruct w0 as [u rs om res pr st]. cbn in *.
              destruct pr; try reflexivity.
              destruct (Hp eq_refl) as (_ & _ & [-> | ->]); [reflexivity | congruence].
           ++ rewrite list_lookup_insert_ne by congruence. exists w. auto.
    + apply Hquiet; [apply task_ignored; unfold readyStateOf; rewrite Hw0; cbn; rewrite ?Hr0; auto|].
      intros ws w Hw. cbn [attemptStep]. destruct (Nat.eqb_spec ws0 ws) as [->|]; [|reflexivity].
      congruence.
  - (* a message arrives *)
    pose proof Hc as (Hh & Hs & _).
    destruct (task_SocketMessage_empty s ws0 data Hh Hs) as [E1 E2]. cbv zeta in *.
    set (s1 := task (SocketMessage ws0 data) s) in *.
    assert (F : registryOf s1 = registryOf s /\ sockets s1 = sockets s /\ timers s1 = timers s /\
                activeConnections s1 = activeConnections s /\ joins s1 = joins s /\
                now s1 = now s).
    { clearbody s1. rewrite <- E1. repeat split; reflexivity. }
    destruct F as (F1 & F2 & F3 & F4 & F5 & F6).
    destruct (quiet_task relayUrls attempts s s1 Hc Hj F1 F2 F3 F4 F5 E2) as [H1 H2].
    split; [exact H1|]. split; [exact H2|].
    intros ws w Hw. rewrite F2, F6. exists w. auto.
Qed.

(** ** The state after [connectToRelays] *)

(** The urls the constructor takes: the ones that get a socket. *)
Lemma attemptsOf_length throws relayUrls : forall k,
  length (attemptsOf throws relayUrls k) = length relayUrls.
Proof.
  induction relayUrls as [|url urls IH]; intros k; cbn [attemptsOf]; [reflexivity|].
  destruct (throws url); cbn [length]; now rewrite IH.
Qed.

Lemma connect_attempts throws relayUrls : forall s attempts,
  fold_left (fun '(s, attempts) relay =>
               let '(s, a) := connectToRelay throws relay s in (s, attempts ++ [a]))
            relayUrls (s, attempts)
  = (withTimers (timers s ++ map (fun ws => ((now s + 5000)%N, ConnectTimeout ws))
                                 (seq (length (sockets s))
                                      (length (List.filter (fun url => negb (throws url))
                                                           relayUrls))))
                (withSockets (sockets s
                              ++ map newWebSocket
                                     (List.filter (fun url => negb (throws url)) relayUrls)) s),
     attempts ++ attemptsOf throws relayUrls (length (sockets s))).
Proof.
  induction relayUrls as [|url urls IH]; intros s attempts;
    cbn [fold_left List.filter attemptsOf].
  - cbn. rewrite !app_nil_r. destruct s; reflexivity.
  - unfold connectToRelay at 2. destruct (throws url); cbn [negb].
    + rewrite IH, <- app_assoc. reflexivity.
    + cbv zeta. rewrite IH. cbn [length seq map].
      unfold setTimeout, withTimers, withSockets. cbn.
      rewrite length_app. cbn [length]. rewrite Nat.add_1_r.
      rewrite <- !app_assoc. reflexivity.
Qed.

Lemma failedAtOnce_attempts throws relayUrls : forall k s,
  fold_left failedAtOnce (attemptsOf throws relayUrls k) s
  = withLog (log s ++ map (fun _ => ConsoleError "connectToRelays: Failed to connect to")
                          (List.filter throws relayUrls)) s.
Proof.
  induction relayUrls as [|url urls IH]; intros k s; cbn [attemptsOf List.filter].
  - cbn. rewrite app_nil_r. destruct s; reflexivity.
  - destruct (throws url); cbn [fold_left failedAtOnce map].
    + rewrite IH. unfold logged, withLog. cbn. now rewrite <- app_assoc.
    + apply IH.
Qed.

Lemma resolutions_errors {A} (l : list A) c :
  resolutions (map (fun _ => ConsoleError c) l) = [].
Proof. induction l as [|a l IH]; [reflexivity | exact IH]. Qed.

Lemma connectToRelays_new throws relayUrls :
  let accepted := List.filter (fun url => negb (throws url)) relayUrls in
  connectToRelays throws relayUrls constructor
  = microtasks
      {| activeConnections := []; eventHandlers := ∅; subscriptions := ∅;
         sockets := map newWebSocket accepted;
         timers := map (fun ws => (5000%N, ConnectTimeout ws)) (seq 0 (length accepted));
         joins := [{| j_attempts := attemptsOf throws relayUrls 0; j_result := None |}];
         now := 0%N;
         log := map (fun _ => ConsoleError "connectToRelays: Failed to connect to")
                    (List.filter throws relayUrls) |}.
Proof.
  cbv zeta. unfold connectToRelays. rewrite connect_attempts. cbn [app].
  rewrite failedAtOnce_attempts. reflexivity.
Qed.

Lemma connectToRelays_connecting throws relayUrls :
  let accepted := List.filter (fun url => negb (throws url)) relayUrls in
  let s := connectToRelays throws relayUrls constructor in
  connecting accepted s /\ joinFollows (attemptsOf throws relayUrls 0) s /\ timersAhead s /\
  forall ws w, sockets s !! ws = Some w -> (now s, attemptOf w) = (0%N, Connecting).
Proof.
  cbv zeta. rewrite connectToRelays_new.
  set (accepted := List.filter (fun url => negb (throws url)) relayUrls).
  set (s1 := {| activeConnections := []; eventHandlers := ∅; subscriptions := ∅;
                sockets := map newWebSocket accepted;
                timers := map (fun ws => (5000%N, ConnectTimeout ws)) (seq 0 (length accepted));
                joins := [{| j_attempts := attemptsOf throws relayUrls 0; j_result := None |}];
                now := 0%N;
                log := map (fun _ => ConsoleError "connectToRelays: Failed to connect to")
                           (List.filter throws relayUrls) |}).
  assert (Hsock : forall ws w, sockets s1 !! ws = Some w ->
            (ws < length accepted)%nat /\ exists url, w = newWebSocket url).
  { intros ws w Hw. cbn in Hw. split.
    - apply lookup_lt_Some in Hw. now rewrite length_map in Hw.
    - change (map newWebSocket accepted) with (newWebSocket <$> accepted) in Hw.
      apply list_lookup_fmap_Some in Hw as (url & -> & _). eauto. }
  split; [|split; [|split]].
  - apply connecting_microtasks. unfold connecting. cbn.
    split; [reflexivity|]. split; [reflexivity|]. split.
    { rewrite map_map. cbn. apply map_id. }
    split.
    { apply Forall_forall. intros t Ht. apply in_map_iff in Ht as (ws & <- & _). eauto. }
    split; [constructor|]. split; [intros url ws []|].
    intros ws w Hw. destruct (Hsock ws w Hw) as [Hlt [url ->]].
    unfold socketOk. cbn. split; [|split].
    + intros _. split; [reflexivity|]. split; [|now left].
      apply in_map_iff. exists ws. split; [reflexivity|]. apply in_seq. lia.
    + discriminate.
    + intros u. split; [intros [] | intros (_ & [=] & _)].
  - apply (microtasks_join _ s1 None); [reflexivity | now left | apply resolutions_errors].
  - unfold timersAhead. rewrite microtasks_timers, microtasks_now. cbn.
    apply Forall_forall. intros t Ht. apply in_map_iff in Ht as (ws & <- & _). cbn. lia.
  - intros ws w. rewrite microtasks_sockets, microtasks_now. intros Hw.
    destruct (Hsock ws w Hw) as [_ [url ->]]. reflexivity.
Qed.

(** Every state the event loop reaches from there. *)
Lemma run_connecting throws relayUrls tr :
  let accepted := List.filter (fun url => negb (throws url)) relayUrls in
  let s := run tr (connectToRelays throws relayUrls constructor) in
  connecting accepted s /\ joinFollows (attemptsOf throws relayUrls 0) s /\ timersAhead s /\
  forall ws w, sockets s !! ws = Some w ->
    (now s, attemptOf w) = fold_left (attemptStep ws) tr (0%N, Connecting).
Proof.
  induction tr as [|i tr IH] using rev_ind; cbv zeta.
  - apply connectToRelays_connecting.
  - unfold run in *. rewrite fold_left_app. cbn [fold_left].
    set (s := fold_left step tr (connectToRelays throws relayUrls constructor)) in *.
    cbv zeta in IH. destruct IH as (Hc & Hj & Ha & Hsim).
    destruct (step_connecting _ _ s i Hc Hj) as (Hc' & Hj' & Hsim').
    split; [exact Hc'|]. split; [exact Hj'|]. split; [now apply step_timersAhead|].
    intros ws w' Hw'. rewrite fold_left_app. cbn [fold_left].
    assert (Hex : exists w, sockets s !! ws = Some w).
    { destruct Hc as (_ & _ & Hu & _). destruct Hc' as (_ & _ & Hu' & _).
      assert (Hlen : length (sockets (step s i)) = length (sockets s)).
      { rewrite <- (length_map ws_url), Hu', <- Hu. apply length_map. }
      apply lookup_lt_is_Some. rewrite <- Hlen. eapply lookup_lt_Some, Hw'. }
    destruct Hex as [w Hw]. destruct (Hsim' ws w Hw) as (w2 & Hw2 & E).
    rewrite Hw' in Hw2. injection Hw2 as <-. rewrite E, (Hsim ws w Hw). reflexivity.
Qed.

(** ** Reports and counts *)

Lemma report_matches throws s tr : forall urls k,
  (forall i url, List.filter (fun url => negb (throws url)) urls !! i = Some url ->
     exists w, sockets s !! (k + i)%nat = Some w /\ ws_url w = url /\
               attemptOf w = attemptOutcome (k + i) tr) ->
  allSettled s (attemptsOf throws urls k)
  = reportOf urls (map (outcomeOf tr) (attemptsOf throws urls k)).
Proof.
  induction urls as [|url urls IH]; intros k H;
    cbn [attemptsOf List.filter] in *; [reflexivity|].
  destruct (throws url); cbn [negb] in H; cbn [map allSettled reportOf outcomeOf attemptResult].
  - rewrite (IH k H). reflexivity.
  - destruct (H 0%nat url eq_refl) as (w & Hw & Hu & Ha). rewrite Nat.add_0_r in Hw, Ha.
    rewrite (IH (S k)).
    + rewrite Hw, Hu, <- Ha. unfold attemptOf.
      destruct (ws_promise w); [destruct (ws_readyState w)| |]; try reflexivity.
    + intros i u Hi. destruct (H (S i) u Hi) as (w' & Hw' & Hu' & Ha').
      exists w'. replace (S k + i)%nat with (k + S i)%nat by lia. auto.
Qed.

Lemma reportOf_spec urls : forall outcomes rs,
  reportOf urls outcomes = Some rs ->
  map fst rs = urls /\ map snd rs = map isSuccess outcomes.
Proof.
  induction urls as [|url urls IH]; intros [|[| |b] outcomes] rs; cbn [reportOf];
    try discriminate.
  - intros [= <-]. split; reflexivity.
  - destruct (reportOf urls outcomes) as [rs'|] eqn:E; [|discriminate].
    intros [= <-]. destruct (IH outcomes rs' E) as [H1 H2]. cbn [map fst snd isSuccess].
    rewrite H1, H2. now destruct b.
Qed.

Lemma reportOf_decided urls : forall outcomes,
  length outcomes = length urls ->
  Forall (fun a => exists b, a = Decided b) outcomes ->
  exists rs, reportOf urls outcomes = Some rs.
Proof.
  induction urls as [|url urls IH]; intros [|a outcomes] Hlen Hall; try discriminate.
  - exists []. reflexivity.
  - pose proof (Forall_inv Hall) as [b ->]. cbn [reportOf].
    destruct (IH outcomes ltac:(simpl in Hlen; lia) (Forall_inv_tail Hall)) as [rs ->]. eauto.
Qed.

(** When the constructor throws on every url, the report is complete from
    the start. *)
Lemma reportOf_all_thrown throws tr urls : forall k,
  Forall (fun url => throws url = true) urls ->
  reportOf urls (map (outcomeOf tr) (attemptsOf throws urls k))
  = Some (map (fun url => (url, false)) urls).
Proof.
  induction urls as [|url urls IH]; intros k Hall; cbn [attemptsOf map reportOf];
    [reflexivity|].
  rewrite (Forall_inv Hall). cbn [map outcomeOf reportOf].
  now rewrite (IH k (Forall_inv_tail Hall)).
Qed.

(** The sockets of the attempts, and the attempts that have one. *)
Lemma attemptsOf_sockets throws urls : forall k ws,
  In (Constructed ws) (attemptsOf throws urls k) <->
  (k <= ws < k + length (List.filter (fun url => negb (throws url)) urls))%nat.
Proof.
  induction urls as [|url urls IH]; intros k ws; cbn [attemptsOf List.filter].
  - cbn. lia.
  - destruct (throws url); cbn [negb In length].
    + rewrite IH. split; [intros [[=]|H]; exact H | auto].
    + rewrite IH. split.
      * intros [[= <-]|H]; lia.
      * intros H. destruct (Nat.eq_dec k ws) as [->|Hne]; [now left | right; lia].
Qed.

Lemma successes_of_attempts throws tr urls : forall k,
  length (List.filter isSuccess (map (outcomeOf tr) (attemptsOf throws urls k)))
  = length (List.filter (fun ws => isSuccess (attemptOutcome ws tr))
                        (seq k (length (List.filter (fun url => negb (throws url)) urls)))).
Proof.
  induction urls as [|url urls IH]; intros k; cbn [attemptsOf List.filter]; [reflexivity|].
  destruct (throws url); cbn [negb map outcomeOf List.filter isSuccess length seq].
  - apply IH.
  - destruct (isSuccess (attemptOutcome k tr)); cbn [length]; now rewrite IH.
Qed.

(** When 5000 ms have passed the attempt is decided. *)
Lemma attempt_decided_in_time ws tr : forall st,
  ((exists b, snd st = Decided b) \/ (fst st < 5000)%N) ->
  (exists b, snd (fold_left (attemptStep ws) tr st) = Decided b) \/
  (fst (fold_left (attemptStep ws) tr st) < 5000)%N.
Proof.
  induction tr as [|i tr IH]; intros st Hst; cbn [fold_left]; [exact Hst|].
  apply IH. destruct st as [t a]. cbn [fst snd] in Hst.
  destruct i as [ms|w|w|w|w data]; cbn [attemptStep fst snd].
  - destruct a as [| |b]; try (left; eauto; fail);
      destruct (N.leb_spec 5000 (t + ms)); [left; eauto | right; lia | left; eauto | right; lia].
  - destruct (Nat.eqb w ws); [|exact Hst]. destruct a; [left; eauto | exact Hst | exact Hst].
  - destruct (Nat.eqb w ws); [|exact Hst]. destruct a; [left; eauto | exact Hst | exact Hst].
  - destruct (Nat.eqb w ws); [|exact Hst].
    destruct a; [|exact Hst | exact Hst]. destruct Hst as [[b [=]]|Hst]. right. exact Hst.
  - exact Hst.
Qed.

Lemma filter_all {A} (p : A -> bool) (l : list A) :
  (forall x, In x l -> p x = true) -> List.filter p l = l.
Proof.
  induction l as [|a l IH]; intros H; cbn [List.filter]; [reflexivity|].
  rewrite (H a (or_introl eq_refl)), IH; [reflexivity|]. intros x Hx. apply H. now right.
Qed.

Lemma filter_map_length {A B} (f : B -> bool) (g : A -> B) (l : list A) :
  length (List.filter f (map g l)) = length (List.filter (fun x => f (g x)) l).
Proof.
  induction l as [|a l IH]; cbn [map List.filter]; [reflexivity|].
  destruct (f (g a)); cbn [length]; now rewrite IH.
Qed.

Lemma filter_split_length {A} (p : A -> bool) (l : list A) :
  (length (List.filter p l) + length (List.filter (fun x => negb (p x)) l) = length l)%nat.
Proof.
  induction l as [|a l IH]; cbn [List.filter]; [reflexivity|].
  destruct (p a); cbn [negb length]; lia.
Qed.

(** The pool holds exactly the sockets that opened in time and have not
    closed, each once. *)
Lemma connected_count relayUrls s (success : nat -> bool) :
  connecting relayUrls s ->
  (forall ws w, sockets s !! ws = Some w -> (success ws = true <-> ws_promise w = Fulfilled)) ->
  getConnectedCount s
  = length (List.filter (fun ws => success ws && isOpen s ws) (seq 0 (length relayUrls))).
Proof.
  intros (_ & _ & Hurls & _ & Hnd & Hrange & Hok) Hsucc.
  assert (Hlen : length (sockets s) = length relayUrls).
  { rewrite <- Hurls. symmetry. apply length_map. }
  unfold getConnectedCount. rewrite filter_all.
  - rewrite <- (length_map snd). apply Permutation_length.
    apply NoDup_Permutation; [exact Hnd | apply NoDup_filter, seq_NoDup|].
    intros k. rewrite in_map_iff, filter_In, in_seq, andb_true_iff. split.
    + intros ([url k'] & E & Hin). cbn in E. subst k'.
      destruct (Hrange url k Hin) as [w Hw].
      destruct (Hok k w Hw) as (_ & _ & Hc). destruct (proj1 (Hc url) Hin) as (Hu & Hf & Ho).
      split; [apply lookup_lt_Some in Hw; lia|].
      split; [now apply (Hsucc k w Hw) | unfold isOpen; now rewrite Hw, Ho].
    + intros (Hk & Hs & Ho). unfold isOpen in Ho.
      destruct (sockets s !! k) as [w|] eqn:Hw; [|discriminate].
      destruct (Hok k w Hw) as (_ & _ & Hc).
      exists (ws_url w, k). split; [reflexivity|]. apply Hc.
      split; [reflexivity|]. split; [now apply (Hsucc k w Hw)|].
      destruct (ws_readyState w); try discriminate. reflexivity.
  - intros [url k] Hin. cbn. destruct (Hrange url k Hin) as [w Hw].
    destruct (Hok k w Hw) as (_ & _ & Hc). destruct (proj1 (Hc url) Hin) as (Hu & Hf & Ho).
    unfold isOpen. now rewrite Hw, Ho.
Qed.

(** ** The claim about the pool *)

(** C4, as the code has it. After [connectToRelays relayUrls] on a new
    manager, whatever urls the [WebSocket] constructor throws on and
    whatever the sockets and the clock do: an attempt whose constructor
    threw has no socket and no timeout and is a failure from the start;
    the returned promise is resolved exactly when every attempt is
    decided, it resolves once, and its report lists each url with the
    outcome of its own attempt (decided by the constructor, that socket's
    events and the 5000 ms timeout alone), so [M] successes and [N - M]
    failures; when the constructor throws on every url it has resolved
    when the call returns, and in every case 5000 ms after the call; and
    the connected count is the number of successful attempts whose socket
    is still open: [M] when none of them has closed. *)
Theorem connectToRelays_waits_for_all (constructorThrows : string -> bool)
    (relayUrls : list string) (tr : list input) :
  let N := length relayUrls in
  let s := run tr (connectToRelays constructorThrows relayUrls constructor) in
  let attempts := attemptsOf constructorThrows relayUrls 0 in
  let outcomes := map (outcomeOf tr) attempts in
  let M := length (List.filter isSuccess outcomes) in
  (let accepted := List.filter (fun url => negb (constructorThrows url)) relayUrls in
   map ws_url (sockets s) = accepted /\
   timers (connectToRelays constructorThrows relayUrls constructor)
     = map (fun ws => (5000%N, ConnectTimeout ws)) (seq 0 (length accepted))) /\
  joins s = [{| j_attempts := attempts; j_result := reportOf relayUrls outcomes |}] /\
  resolutions (log s) = match reportOf relayUrls outcomes with
                        | Some rs => [rs]
                        | None => []
                        end /\
  (forall rs, reportOf relayUrls outcomes = Some rs ->
     map fst rs = relayUrls /\
     length (List.filter snd rs) = M /\
     length (List.filter (fun r => negb (snd r)) rs) = (N - M)%nat) /\
  (Forall (fun url => constructorThrows url = true) relayUrls ->
     reportOf relayUrls outcomes = Some (map (fun url => (url, false)) relayUrls)) /\
  ((5000 <= now s)%N -> exists rs, reportOf relayUrls outcomes = Some rs) /\
  getConnectedCount s
    = length (List.filter (fun ws => isSuccess (attemptOutcome ws tr) && isOpen s ws)
                          (seq 0 (length (sockets s)))) /\
  ((forall ws, (ws < length (sockets s))%nat -> isSuccess (attemptOutcome ws tr) = true ->
               isOpen s ws = true) ->
   getConnectedCount s = M).
Proof.
  intros N s attempts outcomes M. subst N.
  set (accepted := List.filter (fun url => negb (constructorThrows url)) relayUrls).
  destruct (run_connecting constructorThrows relayUrls tr) as (Hc & [Hj Hl] & Ha & Hsim).
  cbv zeta in Hc, Hj, Hl, Ha, Hsim. fold s accepted attempts in Hc, Hj, Hl, Ha, Hsim.
  pose proof Hc as (_ & _ & Hurls & Hshape & _ & _ & Hok).
  assert (Hlen : length (sockets s) = length accepted).
  { rewrite <- Hurls. symmetry. apply length_map. }
  assert (Hsock : forall i url, accepted !! i = Some url ->
            exists w, sockets s !! (0 + i)%nat = Some w /\ ws_url w = url /\
                      attemptOf w = attemptOutcome (0 + i) tr).
  { intros i url Hi. rewrite <- Hurls in Hi.
    change (map ws_url (sockets s)) with (ws_url <$> sockets s) in Hi.
    apply list_lookup_fmap_Some in Hi as (w & -> & Hw).
    exists w. split; [exact Hw|]. split; [reflexivity|].
    cbn [Nat.add]. unfold attemptOutcome. now rewrite <- (Hsim i w Hw). }
  assert (Hrep : allSettled s attempts = reportOf relayUrls outcomes).
  { apply (report_matches constructorThrows s tr relayUrls 0). exact Hsock. }
  assert (Hcount : getConnectedCount s
            = length (List.filter (fun ws => isSuccess (attemptOutcome ws tr) && isOpen s ws)
                                  (seq 0 (length (sockets s))))).
  { rewrite Hlen.
    apply (connected_count accepted s (fun ws => isSuccess (attemptOutcome ws tr)) Hc).
    intros ws w Hw. unfold attemptOutcome. rewrite <- (Hsim ws w Hw). cbn [snd].
    unfold attemptOf. destruct (ws_promise w); [destruct (ws_readyState w)| |]; cbn;
      split; intros; congruence. }
  split; [split; [exact Hurls|]|].
  { pose proof (connectToRelays_new constructorThrows relayUrls) as Hnew.
    cbv zeta in Hnew. rewrite Hnew, microtasks_timers. reflexivity. }
  split; [now rewrite Hj, Hrep|]. split; [now rewrite Hl, Hrep|].
  split; [|split; [|split; [|split]]].
  - intros rs Hrs. destruct (reportOf_spec relayUrls outcomes rs Hrs) as [H1 H2].
    split; [exact H1|].
    assert (HM : length (List.filter snd rs) = M).
    { unfold M. transitivity (length (List.filter (fun b : bool => b) (map snd rs))).
      - rewrite filter_map_length. reflexivity.
      - rewrite H2, filter_map_length. reflexivity. }
    split; [exact HM|].
    pose proof (filter_split_length snd rs) as Hsplit.
    assert (length rs = length relayUrls) by (rewrite <- H1; symmetry; apply length_map). lia.
  - intros Hall. apply reportOf_all_thrown, Hall.
  - intros Hnow. apply reportOf_decided.
    + unfold outcomes, attempts. now rewrite length_map, attemptsOf_length.
    + apply Forall_forall. intros a Hin. unfold outcomes in Hin.
      apply in_map_iff in Hin as ([ws|url] & <- & Hws); cbn [outcomeOf]; [|eauto].
      apply attemptsOf_sockets in Hws. fold accepted in Hws.
      destruct (lookup_lt_is_Some_2 (sockets s) ws ltac:(lia)) as [w Hw].
      pose proof (Hsim ws w Hw) as E.
      destruct (attempt_decided_in_time ws tr (0%N, Connecting) ltac:(right; cbn; lia))
        as [Hd|Hlt]; [exact Hd|].
      rewrite <- E in Hlt. cbn in Hlt. lia.
  - exact Hcount.
  - intros Hopen. rewrite Hcount. unfold M, outcomes, attempts.
    rewrite successes_of_attempts. fold accepted. rewrite <- Hlen.
    f_equal. apply filter_ext_in. intros ws Hws. apply in_seq in Hws.
    destruct (isSuccess (attemptOutcome ws tr)) eqn:E; [|reflexivity].
    now rewrite (Hopen ws ltac:(lia) E).
Qed.

(** C4 as stated fails in its last part: of two relays the first connects
    and then drops, the second never answers; when the join resolves, at
    the timeout of the second, it reports one success, and the connected
    count is zero. *)
Lemma connected_count_after_drop :
  ~ (forall (constructorThrows : string -> bool) (relayUrls : list string)
            (tr : list input) (i : input) (rs : list (string * bool)),
       let s := run tr (connectToRelays constructorThrows relayUrls constructor) in
       resolutions (log s) = [] -> resolutions (log (step s i)) = [rs] ->
       getConnectedCount (step s i) = length (List.filter snd rs)).
Proof.
  intros H.
  specialize (H (fun _ => false) ["wss://relay.damus.io"; "wss://eden.nostr.land"]%string
                [SocketOpen 0; SocketClose 0] (Elapse 5000)
                [("wss://relay.damus.io", true); ("wss://eden.nostr.land", false)]%string).
  cbv zeta in H. specialize (H ltac:(vm_compute; reflexivity) ltac:(vm_compute; reflexivity)).
  vm_compute in H. discriminate H.
Qed.

(** The same execution without the drop: the count is the one success. *)
Example connected_count_without_drop :
  let s := run [SocketOpen 0; Elapse 5000]
               (connectToRelays (fun _ => false)
                                ["wss://relay.damus.io"; "wss://eden.nostr.land"]%string
                                constructor) in
  resolutions (log s) = [[("wss://relay.damus.io", true); ("wss://eden.nostr.land", false)]%string]
  /\ getConnectedCount s = 1%nat.
Proof. vm_compute. split; reflexivity. Qed.

(** A url the constructor throws on: the join of that url alone has
    resolved when the call returns, with a failure, one [console.error],
    no socket and no timer; beside a relay that answers, the join waits
    for that relay only. *)
Example constructor_throw_settles_at_once :
  let throws := String.eqb "not a url" in
  let s := connectToRelays throws ["not a url"%string] constructor in
  let s' := run [SocketOpen 0]
                (connectToRelays throws ["not a url"; "wss://relay.damus.io"]%string
                                 constructor) in
  resolutions (log s) = [[("not a url", false)]%string] /\
  consoleErrors (log s) = ["connectToRelays: Failed to connect to"%string] /\
  sockets s = [] /\ timers s = [] /\
  resolutions (log s')
    = [[("not a url", false); ("wss://relay.damus.io", true)]%string] /\
  getConnectedCount s' = 1%nat.
Proof. vm_compute. repeat split; reflexivity. Qed.

End PoolFacts.

(** * Properties of the dispatch with callbacks that call the manager *)

Module DispatchFacts.

Import RelayManager Spec Notions RelayFacts.

(** ** The methods a callback calls do not touch the log *)

Lemma updateSocket_withLog ws f l s :
  updateSocket ws f (withLog l s) = withLog l (updateSocket ws f s).
Proof. unfold updateSocket. cbn. destruct (sockets s !! ws); reflexivity. Qed.

Lemma forEachConnection_withLog (g : WebSocket -> WebSocket) l
    (conns : list (string * nat)) : forall s,
  fold_left (fun s conn => if isOpen s (snd conn) then updateSocket (snd conn) g s else s)
            conns (withLog l s)
  = withLog l (fold_left (fun s conn => if isOpen s (snd conn)
                                        then updateSocket (snd conn) g s else s) conns s).
Proof.
  induction conns as [|conn conns IH]; intros s; cbn [fold_left]; [reflexivity|].
  change (isOpen (withLog l s) (snd conn)) with (isOpen s (snd conn)).
  destruct (isOpen s (snd conn)); [|apply IH].
  rewrite updateSocket_withLog. apply IH.
Qed.

Lemma broadcast_withLog m l s : broadcast m (withLog l s) = withLog l (broadcast m s).
Proof. unfold broadcast. apply (forEachConnection_withLog (send m)). Qed.

Lemma subscribe_withLog id f h o l s :
  subscribe id f h o (withLog l s) = withLog l (subscribe id f h o s).
Proof.
  unfold subscribe. cbv zeta.
  set (subs := <[id := {| filters := f; sub_handler := h; onEOSE := o |}]> (subscriptions s)).
  change (subscriptions (withLog l s)) with (subscriptions s). fold subs.
  change (eventHandlers (withSubscriptions subs (withLog l s)) !! id)
    with (eventHandlers s !! id).
  change (eventHandlers (withSubscriptions subs s) !! id) with (eventHandlers s !! id).
  destruct (eventHandlers s !! id).
  - exact (broadcast_withLog (REQ id f) l
             (withHandlers (alter (fun hs => hs ++ [h]) id (eventHandlers s))
                           (withSubscriptions subs s))).
  - exact (broadcast_withLog (REQ id f) l
             (withHandlers (alter (fun hs => hs ++ [h]) id (<[id := []]> (eventHandlers s)))
                           (withHandlers (<[id := []]> (eventHandlers s))
                                         (withSubscriptions subs s)))).
Qed.

Lemma unsubscribe_withLog id l s : unsubscribe id (withLog l s) = withLog l (unsubscribe id s).
Proof.
  unfold unsubscribe. cbv zeta.
  exact (broadcast_withLog (CLOSE id) l
           (withSubscriptions (delete id (subscriptions s))
                              (withHandlers (delete id (eventHandlers s)) s))).
Qed.

Lemma closeAllConnections_withLog l s :
  closeAllConnections (withLog l s) = withLog l (closeAllConnections s).
Proof.
  unfold closeAllConnections.
  change (activeConnections (withLog l s)) with (activeConnections s).
  rewrite (forEachConnection_withLog (setReadyState CLOSING)). reflexivity.
Qed.

Lemma perform_withLog c l s : Callers.perform (withLog l s) c = withLog l (Callers.perform s c).
Proof.
  destruct c as [id f h o|pubkey h|pubkey h limit|id|eventId h|]; cbn [Callers.perform].
  - apply subscribe_withLog.
  - unfold subscribeToProfile. apply subscribe_withLog.
  - unfold subscribeToPosts. apply subscribe_withLog.
  - apply unsubscribe_withLog.
  - unfold fetchEvent. apply subscribe_withLog.
  - apply closeAllConnections_withLog.
Qed.

Lemma performAll_withLog cs : forall l s,
  fold_left Callers.perform cs (withLog l s) = withLog l (fold_left Callers.perform cs s).
Proof.
  induction cs as [|c cs IH]; intros l s; cbn [fold_left]; [reflexivity|].
  now rewrite perform_withLog, IH.
Qed.

Lemma performAll_logged cs entry s :
  fold_left Callers.perform cs (logged entry s)
  = withLog (log s ++ [entry]) (fold_left Callers.perform cs s).
Proof. unfold logged. apply performAll_withLog. Qed.

Lemma performAll_log cs s : log (fold_left Callers.perform cs s) = log s.
Proof.
  replace s with (withLog (log s) s) at 1 by (destruct s; reflexivity).
  now rewrite performAll_withLog.
Qed.

(** ** One caught call, and the loop *)

Section Code.

Variable calls : callback -> Event -> state -> list Callers.call.
Variable eoseCalls : eoseCallback -> string -> state -> list Callers.call.

Lemma callCaught_log e relayUrl s h :
  let s' := Callers.callCaught calls e relayUrl s h in
  dispatches (log s') = dispatches (log s) ++ [(h, e, relayUrl)] /\
  consoleErrors (log s')
    = consoleErrors (log s)
      ++ (if throwsOn e h then ["Error in event handler:"%string] else []).
Proof.
  unfold Callers.callCaught, Callers.callHandler, Callers.runCallback, throwsOn.
  destruct h as [cb|eventId subscriptionId cb].
  - rewrite performAll_logged. destruct (cb_throws cb e); cbn;
      rewrite ?dispatches_app, ?consoleErrors_app; cbn; rewrite ?app_nil_r; auto.
  - destruct (String.eqb (ev_id e) eventId); cbn [andb].
    + rewrite !performAll_logged. destruct (cb_throws cb e); cbn;
        rewrite ?dispatches_app, ?consoleErrors_app; cbn;
        rewrite ?dispatches_app, ?consoleErrors_app; cbn; rewrite ?app_nil_r; auto.
    + cbn. rewrite dispatches_app, consoleErrors_app. cbn. rewrite app_nil_r. auto.
Qed.

Lemma dispatchLoop_log e relayUrl hs : forall s,
  let s' := fold_left (Callers.callCaught calls e relayUrl) hs s in
  dispatches (log s') = dispatches (log s) ++ map (fun h => (h, e, relayUrl)) hs /\
  consoleErrors (log s')
    = consoleErrors (log s)
      ++ map (fun _ => "Error in event handler:"%string) (List.filter (throwsOn e) hs).
Proof.
  induction hs as [|h hs IH]; intros s; cbn [fold_left map List.filter].
  - rewrite !app_nil_r. split; reflexivity.
  - destruct (IH (Callers.callCaught calls e relayUrl s h)) as [H1 H2].
    destruct (callCaught_log e relayUrl s h) as [G1 G2]. cbv zeta in *.
    rewrite H1, H2, G1, G2, <- !app_assoc. split; [reflexivity|].
    destruct (throwsOn e h); reflexivity.
Qed.

Lemma handleRelayMessage_dispatch relayUrl id e pk hs s :
  ev_pubkey e = Some pk -> eventHandlers s !! id = Some hs ->
  Callers.handleEvent calls relayUrl id e s
    = (fold_left (Callers.callCaught calls e relayUrl) hs s, Normal) /\
  Callers.handleRelayMessage calls eoseCalls relayUrl (eventFrame id e) s
    = fold_left (Callers.callCaught calls e relayUrl) hs s.
Proof.
  intros Hpk Hhs. unfold Callers.handleRelayMessage, eventFrame, Callers.handleEvent. cbn.
  now rewrite Hpk, Hhs.
Qed.

(** What a caught throw leaves: the state the callback's own calls made,
    and the log. *)
Lemma callCaught_thrown e relayUrl s h :
  throwsOn e h = true ->
  withLog (log s) (Callers.callCaught calls e relayUrl s h)
  = withLog (log s)
            (fold_left Callers.perform (calls (callbackOf h) e (atCall h e relayUrl s)) s).
Proof.
  unfold Callers.callCaught, Callers.callHandler, Callers.runCallback, throwsOn, callbackOf,
    atCall.
  destruct h as [cb|eventId subscriptionId cb].
  - intros ->. rewrite performAll_logged. reflexivity.
  - intros H. apply andb_prop in H as [-> ->]. rewrite !performAll_logged. reflexivity.
Qed.

End Code.

(** With callbacks that make no call this is the dispatch of
    [RelayManager]. *)
Lemma callHandler_noCalls h e relayUrl s :
  Callers.callHandler noCalls h e relayUrl s = callHandler h e relayUrl s.
Proof.
  unfold Callers.callHandler, callHandler, Callers.runCallback, noCalls.
  destruct h as [cb|eventId subscriptionId cb]; cbn [fold_left]; [reflexivity|].
  destruct (String.eqb (ev_id e) eventId); [|reflexivity].
  destruct (cb_throws cb e); reflexivity.
Qed.

Lemma dispatchLoop_noCalls e relayUrl hs : forall s,
  fold_left (Callers.callCaught noCalls e relayUrl) hs s
  = fold_left (callCaught e relayUrl) hs s.
Proof.
  induction hs as [|h hs IH]; intros s; cbn [fold_left]; [reflexivity|].
  rewrite IH. unfold Callers.callCaught, callCaught. now rewrite callHandler_noCalls.
Qed.

Lemma handleEndOfStoredEvents_noCalls relayUrl id s :
  Callers.handleEndOfStoredEvents noCalls relayUrl id s
  = handleEndOfStoredEvents relayUrl id s.
Proof.
  unfold Callers.handleEndOfStoredEvents, handleEndOfStoredEvents.
  destruct (subscriptions s !! id) as [sub|]; [|reflexivity].
  destruct (onEOSE sub) as [[cb|eventId subscriptionId]|]; reflexivity.
Qed.

Lemma handleEvent_noCalls relayUrl id e s :
  Callers.handleEvent noCalls relayUrl id e s = handleEvent relayUrl id e s.
Proof.
  unfold Callers.handleEvent, handleEvent. destruct (ev_pubkey e); [|reflexivity].
  destruct (eventHandlers s !! id) as [hs|]; [|reflexivity].
  now rewrite dispatchLoop_noCalls.
Qed.

Lemma handleRelayMessage_noCalls relayUrl event s :
  Callers.handleRelayMessage noCalls noCalls relayUrl event s
  = handleRelayMessage relayUrl event s.
Proof.
  destruct event as [|type id eventData];
    cbn [Callers.handleRelayMessage handleRelayMessage]; [reflexivity|].
  rewrite handleEndOfStoredEvents_noCalls.
  destruct (String.eqb type "EVENT"); [|reflexivity].
  destruct eventData as [|e]; [reflexivity|].
  now rewrite handleEvent_noCalls.
Qed.

(** ** The claim about a throwing handler *)

(** C10, as the code has it. Whatever the callbacks call on the manager:
    a handler that throws during the dispatch of an EVENT frame is caught
    in the loop and the throw goes no further ([handleEvent] completes
    normally and [handleRelayMessage] logs no parsing error); every
    handler that was registered under the id when the frame arrived is
    called, once, in order, also after a throw and also when a handler
    called before it unsubscribed or subscribed; each throw costs one
    [console.error] line; and the catch changes nothing but the log: after
    the caught call the manager is as the handler's own calls left it
    before the throw, so as before the call when it made none. *)
Theorem throw_is_caught_in_dispatch (calls : callback -> Event -> state -> list Callers.call)
    (eoseCalls : eoseCallback -> string -> state -> list Callers.call)
    (s : state) (relayUrl id : string) (e : Event) (pk : string) (hs : list handler) :
  eventHandlers s !! id = Some hs ->
  ev_pubkey e = Some pk ->
  exists s',
    Callers.handleEvent calls relayUrl id e s = (s', Normal) /\
    Callers.handleRelayMessage calls eoseCalls relayUrl (eventFrame id e) s = s' /\
    dispatches (log s') = dispatches (log s) ++ map (fun h => (h, e, relayUrl)) hs /\
    consoleErrors (log s')
      = consoleErrors (log s)
        ++ map (fun _ => "Error in event handler:"%string) (List.filter (throwsOn e) hs) /\
    (forall s0 h, throwsOn e h = true ->
       let made := calls (callbackOf h) e (atCall h e relayUrl s0) in
       withLog (log s0) (Callers.callCaught calls e relayUrl s0 h)
       = withLog (log s0) (fold_left Callers.perform made s0) /\
       (made = [] -> withLog (log s0) (Callers.callCaught calls e relayUrl s0 h) = s0)).
Proof.
  intros Hhs Hpk. exists (fold_left (Callers.callCaught calls e relayUrl) hs s).
  destruct (handleRelayMessage_dispatch calls eoseCalls relayUrl id e pk hs s Hpk Hhs)
    as [E1 E2].
  destruct (dispatchLoop_log calls e relayUrl hs s) as [H1 H2]. cbv zeta in H1, H2.
  split; [exact E1|]. split; [exact E2|]. split; [exact H1|]. split; [exact H2|].
  intros s0 h Hthrow made.
  pose proof (callCaught_thrown calls e relayUrl s0 h Hthrow) as Hc. fold made in Hc.
  split; [exact Hc|]. intros Hnone. rewrite Hc, Hnone. destruct s0; reflexivity.
Qed.

Lemma throw_is_caught_in_dispatch_witness :
  let render := {| cb_name := "renderEmbeddedPost"; cb_throws := fun _ => false |} in
  let note := "5c83da77af1dec6d7289834998ad7aafbd9e2191396d75ec3cc27f5a77226f36"%string in
  let h1 := Callback {| cb_name := "first"; cb_throws := fun _ => false |} in
  let h2 := Callback {| cb_name := "displayReplies"; cb_throws := fun _ => true |} in
  let h3 := Callback {| cb_name := "last"; cb_throws := fun _ => false |} in
  let calls := fun (cb : callback) (_ : Event) (_ : state) =>
                 if String.eqb (cb_name cb) "displayReplies"
                 then [Callers.Unsubscribe "replies"; Callers.FetchEvent note render]
                 else [] in
  let f := {| kinds := [1]; authors := []; ids := []; limit := None |} in
  let id := "replies"%string in
  let s := subscribeEach id [(f, h1, None); (f, h2, None); (f, h3, None)] constructor in
  let pk := "82341f882b6eabcd2ba7f1ef90aad961cf074af15b9ef44a09f9d2a8fbfbe6a2"%string in
  let e := {| ev_id := "0a1f4e2c9b7d3f5a6c8e0b2d4f6a8c0e1b3d5f7a9c1e3b5d7f9a1c3e5b7d9f1a";
              ev_pubkey := Some pk; ev_kind := 1 |} in
  let relayUrl := "wss://relay.damus.io"%string in
  let hs := [h1; h2; h3] in
  eventHandlers s !! id = Some hs /\ ev_pubkey e = Some pk /\
  exists s',
    Callers.handleEvent calls relayUrl id e s = (s', Normal) /\
    Callers.handleRelayMessage calls noCalls relayUrl (eventFrame id e) s = s' /\
    dispatches (log s') = dispatches (log s) ++ map (fun h => (h, e, relayUrl)) hs /\
    consoleErrors (log s')
      = consoleErrors (log s)
        ++ map (fun _ => "Error in event handler:"%string) (List.filter (throwsOn e) hs) /\
    (forall s0 h, throwsOn e h = true ->
       let made := calls (callbackOf h) e (atCall h e relayUrl s0) in
       withLog (log s0) (Callers.callCaught calls e relayUrl s0 h)
       = withLog (log s0) (fold_left Callers.perform made s0) /\
       (made = [] -> withLog (log s0) (Callers.callCaught calls e relayUrl s0 h) = s0)).
Proof.
  intros render note h1 h2 h3 calls f id s pk e relayUrl hs.
  assert (H1 : eventHandlers s !! id = Some hs) by (vm_compute; reflexivity).
  assert (H2 : ev_pubkey e = Some pk) by reflexivity.
  split; [exact H1|]. split; [exact H2|].
  apply (throw_is_caught_in_dispatch calls noCalls s relayUrl id e pk hs H1 H2).
Defined.

(** C10 as stated fails in its last part: a handler that calls
    [fetchEvent] and then throws, as the replies handler of the thread
    viewer can ([createPostElement] renders the content of the reply,
    which fetches the notes it refers to, before it reads [post.id]),
    leaves a subscription and a handler list under the id of the fetch,
    and a request sent on the open socket. *)
Lemma throwing_handler_changes_registry :
  ~ (forall (calls : callback -> Event -> state -> list Callers.call)
            (eoseCalls : eoseCallback -> string -> state -> list Callers.call)
            (s : state) (relayUrl id : string) (e : Event) (pk : string) (h : handler),
       eventHandlers s !! id = Some [h] -> ev_pubkey e = Some pk -> throwsOn e h = true ->
       let s' := Callers.handleRelayMessage calls eoseCalls relayUrl (eventFrame id e) s in
       registryOf s' = registryOf s /\
       activeConnections s' = activeConnections s /\
       sockets s' = sockets s).
Proof.
  intros H.
  pose (render := {| cb_name := "renderEmbeddedPost"; cb_throws := fun _ => false |}).
  pose (note := "5c83da77af1dec6d7289834998ad7aafbd9e2191396d75ec3cc27f5a77226f36"%string).
  pose (h := Callback {| cb_name := "displayReplies"; cb_throws := fun _ => true |}).
  pose (pk := "82341f882b6eabcd2ba7f1ef90aad961cf074af15b9ef44a09f9d2a8fbfbe6a2"%string).
  pose (e := {| ev_id := "0a1f4e2c9b7d3f5a6c8e0b2d4f6a8c0e1b3d5f7a9c1e3b5d7f9a1c3e5b7d9f1a";
                ev_pubkey := Some pk; ev_kind := 1 |}).
  specialize (H (fun cb _ _ => if String.eqb (cb_name cb) "displayReplies"
                               then [Callers.FetchEvent note render] else [])
                noCalls
                (subscribe "replies" {| kinds := [1]; authors := []; ids := []; limit := Some 100 |}
                           h None
                           (run [SocketOpen 0]
                                (connectToRelays (fun _ => false)
                                                 ["wss://relay.damus.io"%string] constructor)))
                "wss://relay.damus.io"%string "replies"%string e pk h).
  specialize (H ltac:(vm_compute; reflexivity) ltac:(reflexivity) ltac:(reflexivity)).
  destruct H as (Hreg & _ & Hsock).
  apply (f_equal (fun r => snd r !! "event_5c83da77"%string)) in Hreg.
  vm_compute in Hreg. discriminate Hreg.
Qed.

(** The same dispatch, observed: the registry gains the fetch, the open
    socket is sent its request, and the throw costs one line. *)
Example throwing_handler_has_fetched :
  let render := {| cb_name := "renderEmbeddedPost"; cb_throws := fun _ => false |} in
  let note := "5c83da77af1dec6d7289834998ad7aafbd9e2191396d75ec3cc27f5a77226f36"%string in
  let h := Callback {| cb_name := "displayReplies"; cb_throws := fun _ => true |} in
  let calls := fun (cb : callback) (_ : Event) (_ : state) =>
                 if String.eqb (cb_name cb) "displayReplies"
                 then [Callers.FetchEvent note render] else [] in
  let f := {| kinds := [1]; authors := []; ids := []; limit := Some 100 |} in
  let s := subscribe "replies" f h None
             (run [SocketOpen 0]
                  (connectToRelays (fun _ => false) ["wss://relay.damus.io"%string]
                                   constructor)) in
  let pk := "82341f882b6eabcd2ba7f1ef90aad961cf074af15b9ef44a09f9d2a8fbfbe6a2"%string in
  let e := {| ev_id := "0a1f4e2c9b7d3f5a6c8e0b2d4f6a8c0e1b3d5f7a9c1e3b5d7f9a1c3e5b7d9f1a";
              ev_pubkey := Some pk; ev_kind := 1 |} in
  let s' := Callers.handleRelayMessage calls noCalls "wss://relay.damus.io"
                                       (eventFrame "replies" e) s in
  eventHandlers s !! "event_5c83da77"%string = None /\
  eventHandlers s' !! "event_5c83da77"%string
    = Some [OneTimeHandler note "event_5c83da77" render] /\
  (ws_sent <$> sockets s !! 0%nat) = Some [REQ "replies" f] /\
  (ws_sent <$> sockets s' !! 0%nat)
    = Some [REQ "replies" f;
            REQ "event_5c83da77" {| kinds := []; authors := []; ids := [note];
                                    limit := Some 1 |}] /\
  consoleErrors (log s') = consoleErrors (log s) ++ ["Error in event handler:"%string].
Proof. vm_compute. repeat split; reflexivity. Qed.

End DispatchFacts.

(** * Further properties of the codec *)

Module KeyFacts.

Import CryptoUtils Spec Notions CodecFacts.

(** ** The regrouping loops on any input *)

Lemma step8to5_any acc bits conv (value : number) :
  0 <= bits < 5 -> Forall isQuintet conv ->
  exists acc' bits' conv',
    step8to5 (acc, bits, conv) value = (acc', bits', conv') /\
    0 <= bits' < 5 /\ Forall isQuintet conv' /\
    5 * Z.of_nat (length conv') + bits' = 5 * Z.of_nat (length conv) + bits + 8.
Proof.
  intros Hb Hc. unfold step8to5.
  set (acc' := bor (shl acc 8) (numToInt32 value)).
  destruct (drain5 (Z.to_nat (bits + 8)) acc' (bits + 8) conv) as [bits' conv'] eqn:Hd.
  apply drain5_spec in Hd; auto; try lia.
  destruct Hd as (H1 & H2 & _ & H4).
  exists acc', bits', conv'. repeat split; auto; lia.
Qed.

Lemma fold_step8to5_any (data : list number) : forall acc bits conv,
  0 <= bits < 5 -> Forall isQuintet conv ->
  exists acc' bits' conv',
    fold_left step8to5 data (acc, bits, conv) = (acc', bits', conv') /\
    0 <= bits' < 5 /\ Forall isQuintet conv' /\
    5 * Z.of_nat (length conv') + bits'
      = 5 * Z.of_nat (length conv) + bits + 8 * Z.of_nat (length data).
Proof.
  induction data as [|v data IH]; intros acc bits conv Hb Hc.
  - exists acc, bits, conv. simpl. repeat split; auto; lia.
  - destruct (step8to5_any acc bits conv v Hb Hc) as (acc1 & bits1 & conv1 & E & Hb1 & Hc1 & Hl1).
    destruct (IH acc1 bits1 conv1 Hb1 Hc1) as (acc2 & bits2 & conv2 & E2 & Hb2 & Hc2 & Hl2).
    exists acc2, bits2, conv2. cbn [fold_left]. rewrite E, E2.
    repeat split; auto; try lia. rewrite Hl2, Hl1. cbn [length]. lia.
Qed.

(** Whatever the numbers are, [NaN] and negative ones included, the
    quintets are in range and as many as the bits need. *)
Lemma convert8to5_any (data : list number) :
  Forall isQuintet (convert8to5 data) /\
  Z.of_nat (length (convert8to5 data)) = (8 * Z.of_nat (length data) + 4) / 5.
Proof.
  unfold convert8to5.
  destruct (fold_step8to5_any data 0 0 [] ltac:(lia) ltac:(constructor))
    as (acc & bits & conv & E & Hb & Hc & Hl).
  rewrite E. cbn [length] in Hl.
  destruct (Z.ltb_spec 0 bits) as [Hpos|Hzero].
  - split.
    + apply Forall_app; split; auto. constructor; [|constructor].
      rewrite band_31. unfold isQuintet. apply Z.mod_pos_bound. lia.
    + rewrite length_app. cbn [length].
      apply Z.div_unique with (r := bits - 1); lia.
  - split; auto. apply Z.div_unique with (r := 4); lia.
Qed.

Lemma hexBytes_length (hex : list ascii) :
  forall n, (length hex <= n)%nat -> length (hexBytes hex) = ((length hex + 1) / 2)%nat.
Proof.
  intros n. revert hex. induction n as [|n IH]; intros hex Hn.
  - destruct hex; [reflexivity | simpl in Hn; lia].
  - destruct hex as [|a [|b hex]]; try reflexivity.
    cbn [hexBytes length]. rewrite IH by (simpl in Hn; lia).
    replace (S (S (length hex)) + 1)%nat with (length hex + 1 + 1 * 2)%nat by lia.
    rewrite Nat.div_add by lia. lia.
Qed.

Lemma inAlphabet_encoded ds :
  Forall isQuintet ds -> inAlphabet (encodeQuintets ds).
Proof.
  unfold inAlphabet, encodeQuintets.
  induction 1 as [|d ds Hd _ IH]; cbn [map concat]; [constructor|].
  destruct (charsetAt_quintet d Hd) as (c & -> & Hc). cbn [app]. constructor; [|exact IH].
  destruct (in_dec ascii_dec c BECH32_CHARSET) as [H|H]; [exact H|].
  apply (indexOf_spec BECH32_CHARSET c) in H. unfold isQuintet in Hd. lia.
Qed.

Lemma indexOf_range c :
  let i := indexOf BECH32_CHARSET c in i = -1 \/ 0 <= i < 32.
Proof.
  assert (Hall : forallb (fun x => let i := indexOf BECH32_CHARSET x in
                                   (i =? -1) || ((0 <=? i) && (i <? 32)))
                         (map ascii_of_nat (seq 0 256)) = true)
    by (vm_compute; reflexivity).
  rewrite forallb_forall in Hall.
  assert (Hin : In c (map ascii_of_nat (seq 0 256))).
  { apply in_map_iff. exists (nat_of_ascii c). split; [apply ascii_nat_embedding|].
    apply in_seq. pose proof (nat_ascii_bounded c). lia. }
  specialize (Hall c Hin). cbv zeta in *.
  remember (indexOf BECH32_CHARSET c) as i eqn:Hi. clear Hi.
  apply orb_true_iff in Hall as [Hall|Hall]; [lia|].
  apply andb_true_iff in Hall. lia.
Qed.

Lemma decodeChars_quintets data : forall decoded,
  decodeChars data = Ok decoded ->
  Forall isQuintet decoded /\ length decoded = length data.
Proof.
  induction data as [|c data IH]; cbn [decodeChars]; intros decoded.
  - intros [= <-]. split; [constructor | reflexivity].
  - pose proof (indexOf_range c) as Hr. cbv zeta in *.
    remember (indexOf BECH32_CHARSET c) as i eqn:Hi. clear Hi.
    destruct (Z.eqb_spec i (-1)) as [E|E]; [discriminate|].
    destruct (decodeChars data) as [d|m]; cbn [bind]; [|discriminate].
    intros [= <-]. destruct (IH d eq_refl) as [Hq Hl]. split.
    + constructor; [|exact Hq]. unfold isQuintet. lia.
    + simpl. now rewrite Hl.
Qed.

Lemma dropVersion_bytes converted :
  Forall isByte converted -> Forall isByte (dropVersion converted).
Proof.
  intros H. unfold dropVersion. destruct converted as [|first rest]; [exact H|].
  destruct (first =? 0); [exact (Forall_inv_tail H) | exact H].
Qed.

Lemma decodeNpub_bytes s bytes : decodeNpub s = Ok bytes -> Forall isByte bytes.
Proof.
  unfold decodeNpub. destruct (negb _); [discriminate|].
  destruct (decodeChars _) as [decoded|m] eqn:E; cbn [bind]; [|discriminate].
  intros [= <-]. apply dropVersion_bytes.
  apply decodeChars_quintets in E as [Hq _]. now apply convert5to8_spec.
Qed.

(** ** Hex text of bytes *)

Lemma byte_hex_length b : isByte b -> length (padStart0 2 (toString16 b)) = 2%nat.
Proof.
  intros [Hlo Hhi].
  assert (Hall : forallb (fun n => (length (padStart0 2 (toString16 (Z.of_nat n))) =? 2)%nat)
                         (seq 0 256) = true) by (vm_compute; reflexivity).
  rewrite forallb_forall in Hall.
  specialize (Hall (Z.to_nat b) ltac:(apply in_seq; lia)).
  rewrite Z2Nat.id in Hall by lia. now apply Nat.eqb_eq.
Qed.

Lemma bytesToHex_length bytes :
  Forall isByte bytes -> length (bytesToHex bytes) = (2 * length bytes)%nat.
Proof.
  unfold bytesToHex. induction 1 as [|b bytes Hb _ IH]; cbn [map concat]; [reflexivity|].
  rewrite length_app, IH, byte_hex_length by exact Hb. simpl. lia.
Qed.

Lemma padStart0_length n s : length (padStart0 n s) = Nat.max n (length s).
Proof. unfold padStart0. rewrite length_app, repeat_length. lia. Qed.

Lemma lowerHexText_hex s : isLowerHexText s -> isHexText s.
Proof. apply Forall_impl. intros c. apply lower_is_hex. Qed.

Lemma hex_pair_any a b :
  In a hexChars -> In b hexChars ->
  exists v, parseInt16 [a; b] = Num v /\ isByte v /\
            padStart0 2 (toString16 v) = [toLowerCase a; toLowerCase b].
Proof.
  assert (Hall : forallb (fun a => forallb (fun b =>
                   match parseInt16 [a; b] with
                   | Num v => (0 <=? v) && (v <? 256)
                              && bool_decide (padStart0 2 (toString16 v)
                                              = [toLowerCase a; toLowerCase b])
                   | NaN => false
                   end) hexChars) hexChars = true)
    by (vm_compute; reflexivity).
  intros Ha Hb. rewrite forallb_forall in Hall. specialize (Hall a Ha).
  rewrite forallb_forall in Hall. specialize (Hall b Hb).
  destruct (parseInt16 [a; b]) as [|v]; [discriminate|].
  apply andb_prop in Hall as [Hall Hs]. apply andb_prop in Hall as [Hlo Hhi].
  exists v. repeat split; try lia.
  now apply bool_decide_eq_true in Hs.
Qed.

Lemma hexBytes_any n : forall hex,
  length hex = (2 * n)%nat -> isHexText hex ->
  exists bs, hexBytes hex = map Num bs /\ Forall isByte bs /\
             bytesToHex bs = map toLowerCase hex /\ length bs = n.
Proof.
  induction n as [|n IH]; intros hex Hlen Hhex.
  - destruct hex; [|discriminate]. exists []. repeat split; constructor.
  - destruct hex as [|a [|b hex]]; try (simpl in Hlen; lia).
    pose proof (Forall_inv Hhex) as Ha.
    pose proof (Forall_inv (Forall_inv_tail Hhex)) as Hb.
    pose proof (Forall_inv_tail (Forall_inv_tail Hhex)) as Hhex''. cbv beta in Ha, Hb.
    destruct (hex_pair_any a b Ha Hb) as (v & Hv & Hbyte & Hs).
    destruct (IH hex ltac:(simpl in Hlen; lia) Hhex'') as (bs & E & Hbs & Hh & Hl).
    exists (v :: bs). cbn [hexBytes]. rewrite Hv, E. repeat split.
    + constructor; auto.
    + unfold bytesToHex in *. cbn [map concat]. rewrite Hs, Hh. reflexivity.
    + simpl. now rewrite Hl.
Qed.

Lemma strip0x_hex hex : isHexText hex -> strip0x hex = hex.
Proof.
  intros H. unfold strip0x. destruct hex as [|a [|b hex]].
  - reflexivity.
  - destruct a as [[] [] [] [] [] [] [] []]; reflexivity.
  - pose proof (Forall_inv (Forall_inv_tail H)) as Hb. cbv beta in Hb.
    assert (Hx : b <> "x"%char).
    { intros ->. revert Hb. vm_compute. intuition discriminate. }
    destruct a as [[] [] [] [] [] [] [] []]; try reflexivity.
    destruct b as [[] [] [] [] [] [] [] []]; try reflexivity. congruence.
Qed.

Lemma padStart0_hex n s : isHexText s -> isHexText (padStart0 n s).
Proof.
  intros H. unfold padStart0. apply Forall_app. split; [|exact H].
  apply Forall_forall. intros c Hc. apply repeat_spec in Hc. subst c.
  vm_compute. auto.
Qed.

Lemma map_toLowerCase_padStart0 n s :
  map toLowerCase (padStart0 n s) = padStart0 n (map toLowerCase s).
Proof.
  unfold padStart0. rewrite map_app, length_map. f_equal.
  induction (n - length s)%nat as [|k IH]; [reflexivity|]. cbn [repeat map]. now rewrite IH.
Qed.

Lemma startsWith_npub1_npub s :
  startsWith s (chars "npub1") = true -> startsWith s (chars "npub") = true.
Proof. apply (startsWith_app_l s (chars "npub") (chars "1")). Qed.

(** What [hexToNpub] makes of hex text of up to 64 characters. *)
Lemma decodeNpub_hexToNpub_any hex :
  isHexText (chars hex) -> (length (chars hex) <= 64)%nat ->
  exists bs, Forall isByte bs /\ length bs = 32%nat /\
             bytesToHex bs = padStart0 64 (map toLowerCase (chars hex)) /\
             startsWith (chars (hexToNpub hex)) (chars "npub1") = true /\
             decodeNpub (hexToNpub hex) = Ok bs.
Proof.
  intros Hhex Hlen.
  assert (Hpad : isHexText (padStart0 64 (chars hex))) by now apply padStart0_hex.
  assert (Hpl : length (padStart0 64 (chars hex)) = (2 * 32)%nat)
    by (rewrite padStart0_length; lia).
  destruct (hexBytes_any 32 _ Hpl Hpad) as (bs & E & Hbs & Hh & Hl).
  exists bs. split; [exact Hbs|]. split; [exact Hl|].
  split; [now rewrite Hh, map_toLowerCase_padStart0|].
  unfold hexToNpub, decodeNpub.
  rewrite strip0x_hex, E by exact Hhex.
  change (Num 0 :: map Num bs) with (map Num (0 :: bs)).
  assert (Hbs0 : Forall isByte (0 :: bs)) by (constructor; [unfold isByte; lia | exact Hbs]).
  destruct (encoded_decodes (chars "npub1") (chars "npub") (0 :: bs) eq_refl Hbs0)
    as (rest & Htext & Hdec).
  cbv zeta in Htext, Hdec. rewrite chars_str.
  rewrite Htext at 1 2. rewrite startsWith_app. split; [reflexivity|]. cbn [negb].
  destruct (decodeChars _) as [decoded|m]; [|discriminate].
  cbn [bind] in *. injection Hdec as ->. reflexivity.
Qed.

Lemma npubToHex_fixed x hex : npubToHex x = Ok hex -> npubToHex hex = Ok hex.
Proof.
  intros H.
  assert (Hs : startsWith (chars hex) (chars "npub") = false).
  { unfold npubToHex in H. destruct (startsWith (chars x) (chars "npub")) eqn:Hx.
    - destruct (decodeNpub x) as [bytes|m]; [|discriminate].
      injection H as <-. rewrite chars_str.
      apply lower_not_npub, padStart0_lower, bytesToHex_lower.
    - injection H as <-. exact Hx. }
  unfold npubToHex. now rewrite Hs.
Qed.

Lemma lowerHexText_test s :
  isLowerHexText s -> forallb isHexChar s = true.
Proof.
  intros H. apply forallb_forall. intros c Hc. apply isHexChar_spec, lower_is_hex.
  unfold isLowerHexText in H. rewrite Forall_forall in H. auto.
Qed.

(** ** Reading an encoding written without a version byte *)

Lemma chars_unversioned prefix payload checksum :
  chars (unversioned prefix payload checksum)
  = chars prefix ++ encodeQuintets (convert8to5 (map Num payload)) ++ checksum.
Proof. unfold unversioned. apply chars_str. Qed.

Lemma decode_unversioned prefix payload checksum :
  length (chars prefix) = 5%nat -> Forall isByte payload -> length checksum = 6%nat ->
  decodeChars (slice_5_m6 (chars (unversioned prefix payload checksum)))
  = Ok (convert8to5 (map Num payload)).
Proof.
  intros Hp Hb Hc. rewrite chars_unversioned, slice_encoded by assumption.
  apply decodeChars_encoded. now apply convert8to5_spec.
Qed.

Lemma note1ToHex_dropVersion s :
  startsWith (chars s) (chars "note1") = true ->
  note1ToHex s
  = match decodeChars (slice_5_m6 (chars s)) with
    | Ok decoded => Ok (str (bytesToHex (dropVersion (convert5to8 decoded))))
    | Throw message => Throw ("Invalid note1 format: " ++ message)%string
    end.
Proof.
  intros Hs. unfold note1ToHex. rewrite Hs. cbn [negb].
  destruct (decodeChars _) as [decoded|m]; [|reflexivity].
  unfold dropVersion. destruct (convert5to8 decoded) as [|first rest]; [reflexivity|].
  destruct (first =? 0); reflexivity.
Qed.

Lemma bytesToHex_zero rest : bytesToHex (0 :: rest) = chars "00" ++ bytesToHex rest.
Proof. reflexivity. Qed.

(** ** Errors of the first loop *)

Lemma decodeChars_error data message :
  decodeChars data = Throw message <->
  exists before d after,
    data = before ++ d :: after /\ inAlphabet before /\ ~ In d BECH32_CHARSET /\
    message = str (chars "Invalid character: " ++ [d]).
Proof.
  split.
  - revert message. induction data as [|c data IH]; cbn [decodeChars]; intros message.
    + discriminate.
    + destruct (Z.eqb_spec (indexOf BECH32_CHARSET c) (-1)) as [E|E].
      * intros [= <-]. exists [], c, data. repeat split; [constructor|].
        now apply (indexOf_spec BECH32_CHARSET c).
      * destruct (decodeChars data) as [d|m] eqn:Hd; cbn [bind]; [discriminate|].
        intros [= <-]. destruct (IH m eq_refl) as (before & d & after & -> & Hb & Hd' & ->).
        exists (c :: before), d, after. repeat split; auto.
        constructor; [|exact Hb].
        destruct (in_dec ascii_dec c BECH32_CHARSET) as [H|H]; [exact H|].
        apply (indexOf_spec BECH32_CHARSET c) in H. contradiction.
  - intros (before & d & after & -> & Hb & Hd & ->). now apply decodeChars_rejects.
Qed.

Lemma encoded_shape prefix converted checksum :
  length prefix = 5%nat -> Forall isQuintet converted ->
  Forall isQuintet checksum -> length checksum = 6%nat ->
  let text := fold_left (fun result val => result ++ charsetAt val)
                        (converted ++ checksum) prefix in
  exists body,
    text = prefix ++ body /\ inAlphabet body /\
    length body = (length converted + 6)%nat /\
    slice_5_m6 text = encodeQuintets converted.
Proof.
  intros Hp Hq Hcq Hcl text. subst text.
  rewrite append_charsetAt, map_app, concat_app.
  exists (encodeQuintets converted ++ encodeQuintets checksum).
  split; [reflexivity|]. split; [|split].
  - apply Forall_app. split; apply inAlphabet_encoded; assumption.
  - unfold encodeQuintets. rewrite length_app, !encoded_length by assumption. lia.
  - apply slice_encoded; [exact Hp|]. now rewrite encoded_length.
Qed.

(** ** The properties *)

(** X1: regrouping bytes into 5-bit values and back is the identity for a
    byte list of any length, whatever the 32-bit accumulator wraps to: [n]
    bytes give the least number of quintets that hold [8 n] bits, each in
    range, and the decoders' loop gives the bytes back. *)
Theorem regrouping_roundtrip (bytes : list Z) :
  Forall isByte bytes ->
  let quintets := convert8to5 (map Num bytes) in
  Forall isQuintet quintets /\
  Z.of_nat (length quintets) = (8 * Z.of_nat (length bytes) + 4) / 5 /\
  convert5to8 quintets = bytes.
Proof.
  intros Hb quintets. subst quintets.
  destruct (convert8to5_any (map Num bytes)) as [Hq Hl].
  rewrite length_map in Hl.
  repeat split; [exact Hq | exact Hl | now apply convert5to8_convert8to5].
Qed.

Lemma regrouping_roundtrip_witness :
  let bytes := [0; 130; 52; 31; 136; 255] in
  Forall isByte bytes /\
  (let quintets := convert8to5 (map Num bytes) in
   Forall isQuintet quintets /\
   Z.of_nat (length quintets) = (8 * Z.of_nat (length bytes) + 4) / 5 /\
   convert5to8 quintets = bytes).
Proof.
  intros bytes.
  assert (H : Forall isByte bytes) by (repeat constructor; unfold isByte; lia).
  split; [exact H | apply (regrouping_roundtrip bytes); exact H].
Defined.

(** X2: the 5-bit to 8-bit loop of the decoders keeps the complete bytes
    and drops the bits left over, without looking at them: [n] quintets
    give [5 n / 8] bytes, whose value is the value of the quintets shifted
    right by the [5 n mod 8] spare bits. *)
Theorem convert5to8_drops_spare_bits (values : list Z) :
  Forall isQuintet values ->
  let bytes := convert5to8 values in
  let spare := (5 * Z.of_nat (length values)) mod 8 in
  Forall isByte bytes /\
  Z.of_nat (length bytes) = 5 * Z.of_nat (length values) / 8 /\
  valueOf 256 bytes = valueOf 32 values / 2 ^ spare.
Proof.
  intros Hq bytes spare. subst bytes spare.
  destruct (convert5to8_spec values Hq) as (Hb & bits & r & Hbits & Hr & Hl & Hv).
  assert (Hs : (5 * Z.of_nat (length values)) mod 8 = bits).
  { symmetry. apply Z.mod_unique with (q := Z.of_nat (length (convert5to8 values))); lia. }
  repeat split; [exact Hb | |].
  - apply Z.div_unique with (r := bits); lia.
  - rewrite Hs, Hv. apply Z.div_unique with (r := r); lia.
Qed.

Lemma convert5to8_drops_spare_bits_witness :
  let values := [0; 2; 1; 3; 8; 7; 28] in
  Forall isQuintet values /\
  (let bytes := convert5to8 values in
   let spare := (5 * Z.of_nat (length values)) mod 8 in
   Forall isByte bytes /\
   Z.of_nat (length bytes) = 5 * Z.of_nat (length values) / 8 /\
   valueOf 256 bytes = valueOf 32 values / 2 ^ spare).
Proof.
  intros values.
  assert (H : Forall isQuintet values) by (repeat constructor; unfold isQuintet; lia).
  split; [exact H | apply (convert5to8_drops_spare_bits values); exact H].
Defined.

(** X3: [hexToNpub] is total and always writes a well-formed text: for
    every input string, hex or not, the result is [npub1] followed by
    characters of the bech32 alphabet only (never the text of
    [undefined]), as many as the padded input needs plus six, and
    [decodeNpub] accepts it; an input of at most 64 characters after its
    [0x] gives exactly 64 characters. *)
Theorem hexToNpub_always_decodable (hex : string) :
  exists body,
    chars (hexToNpub hex) = chars "npub1" ++ body /\
    inAlphabet body /\
    (let digits := Nat.max 64 (length (strip0x (chars hex))) in
     Z.of_nat (length body) = (8 * Z.of_nat (1 + (digits + 1) / 2) + 4) / 5 + 6) /\
    ((length (strip0x (chars hex)) <= 64)%nat -> length (chars (hexToNpub hex)) = 64%nat) /\
    accepts Npub (hexToNpub hex).
Proof.
  unfold hexToNpub. cbv zeta.
  remember (padStart0 64 (strip0x (chars hex))) as padded eqn:Hpadded.
  assert (Hpl : length padded = Nat.max 64 (length (strip0x (chars hex))))
    by (subst padded; apply padStart0_length).
  clear Hpadded.
  remember (Num 0 :: hexBytes padded) as data eqn:Hdata.
  assert (Hdl : length data = S ((length padded + 1) / 2))
    by (subst data; cbn [length]; now rewrite (hexBytes_length padded (length padded))).
  clear Hdata.
  destruct (convert8to5_any data) as [Hq Hl].
  remember (convert8to5 data) as converted eqn:Hconv. clear Hconv.
  destruct (bech32Checksum_quintets (chars "npub") converted) as [Hcq Hcl].
  remember (bech32Checksum (chars "npub") converted) as checksum eqn:Hck. clear Hck.
  destruct (encoded_shape (chars "npub1") converted checksum eq_refl Hq Hcq Hcl)
    as (body & Htext & Hbody & Hlen & Hslice).
  cbv zeta in Htext, Hslice.
  remember (fold_left (fun result val => result ++ charsetAt val)
                      (converted ++ checksum) (chars "npub1")) as text eqn:Ht. clear Ht.
  rewrite chars_str.
  assert (Hbl : Z.of_nat (length body)
                = (8 * Z.of_nat (1 + (Nat.max 64 (length (strip0x (chars hex))) + 1) / 2) + 4) / 5 + 6).
  { rewrite Hlen, Nat2Z.inj_add, Hl, Hdl, Hpl.
    remember ((Nat.max 64 (length (strip0x (chars hex))) + 1) / 2)%nat as k eqn:Hk. clear Hk.
    replace (S k) with (1 + k)%nat by lia. lia. }
  exists body. split; [exact Htext|]. split; [exact Hbody|]. split; [exact Hbl|]. split.
  - intros Hshort. rewrite Htext, length_app.
    replace (Nat.max 64 (length (strip0x (chars hex)))) with 64%nat in Hbl by lia.
    assert (E : (8 * Z.of_nat (1 + (64 + 1) / 2) + 4) / 5 + 6 = 59) by (vm_compute; reflexivity).
    rewrite E in Hbl.
    assert (E5 : length (chars "npub1") = 5%nat) by reflexivity.
    rewrite E5. lia.
  - apply accepts_iff. rewrite chars_str, Hslice. split.
    + rewrite Htext. apply startsWith_app.
    + apply inAlphabet_encoded. exact Hq.
Qed.

(** X4: encoding then decoding normalizes a key: for hex text of at most
    64 characters, in either case, [npubToHex (hexToNpub hex)] is [hex] in
    lower case, padded on the left with zeros to 64 characters, and
    [validatePubkey] accepts the encoding. *)
Theorem roundtrip_lowers_and_pads (hex : string) :
  isHexText (chars hex) -> (length (chars hex) <= 64)%nat ->
  npubToHex (hexToNpub hex) = Ok (str (padStart0 64 (map toLowerCase (chars hex)))) /\
  validatePubkey (hexToNpub hex) = true.
Proof.
  intros Hhex Hlen.
  destruct (decodeNpub_hexToNpub_any hex Hhex Hlen) as (bs & Hbs & Hl & Hh & Hs & Hdec).
  assert (E : npubToHex (hexToNpub hex)
              = Ok (str (padStart0 64 (map toLowerCase (chars hex))))).
  { unfold npubToHex. rewrite (startsWith_npub1_npub _ Hs), Hdec, Hh.
    rewrite (padStart0_full 64 (padStart0 64 _))
      by (rewrite padStart0_length; lia).
    reflexivity. }
  split; [exact E|]. unfold validatePubkey. rewrite E. unfold testHex64.
  rewrite chars_str, padStart0_length, length_map, <- Hh.
  rewrite lowerHexText_test by apply bytesToHex_lower.
  replace (Nat.max 64 (length (chars hex))) with 64%nat by lia. reflexivity.
Qed.

Lemma isHexText_check s :
  forallb (fun c => existsb (Ascii.eqb c) hexChars) s = true -> isHexText s.
Proof.
  rewrite forallb_forall. intros Hc. apply Forall_forall. intros c Hin.
  specialize (Hc c Hin). apply existsb_exists in Hc as (x & Hx & Heq).
  apply Ascii.eqb_eq in Heq. now subst.
Qed.

Lemma roundtrip_lowers_and_pads_witness :
  let hex := "82341F882B6EABCD2BA7F1EF90AAD961CF074AF15B9EF44A09F9D2A8FBFBE6"%string in
  isHexText (chars hex) /\ (length (chars hex) <= 64)%nat /\
  (npubToHex (hexToNpub hex) = Ok (str (padStart0 64 (map toLowerCase (chars hex)))) /\
   validatePubkey (hexToNpub hex) = true).
Proof.
  intros hex.
  assert (H : isHexText (chars hex)) by (apply isHexText_check; vm_compute; reflexivity).
  assert (L : (length (chars hex) <= 64)%nat) by (vm_compute; lia).
  split; [exact H|]. split; [exact L|]. apply (roundtrip_lowers_and_pads hex); assumption.
Defined.

(** X5: [hexToNpub] is injective on keys: two 64-character lowercase-hex
    strings with the same encoding are the same string. *)
Theorem hexToNpub_injective (hex1 hex2 : string) :
  isLowerHex64 hex1 -> isLowerHex64 hex2 ->
  hexToNpub hex1 = hexToNpub hex2 -> hex1 = hex2.
Proof.
  intros H1 H2 E.
  pose proof (npubToHex_hexToNpub hex1 H1) as E1.
  pose proof (npubToHex_hexToNpub hex2 H2) as E2.
  rewrite E, E2 in E1. now injection E1.
Qed.

Lemma hexToNpub_injective_witness :
  let hex := "82341f882b6eabcd2ba7f1ef90aad961cf074af15b9ef44a09f9d2a8fbfbe6a2"%string in
  isLowerHex64 hex /\ isLowerHex64 hex /\ hexToNpub hex = hexToNpub hex /\ hex = hex.
Proof.
  intros hex.
  assert (H : isLowerHex64 hex) by (apply isLowerHex64_check; vm_compute; reflexivity).
  split; [exact H|]. split; [exact H|]. split; [reflexivity|].
  apply (hexToNpub_injective hex hex H H). reflexivity.
Defined.

(** X6: on an input that starts with [npub], [validatePubkey] answers
    [true] exactly when [decodeNpub] succeeds with at most 32 bytes: a
    decoding shorter than a key is padded with zeros and accepted, the
    bare prefix [npub1] included. *)
Theorem validatePubkey_npub_at_most_32_bytes (s : string) :
  startsWith (chars s) (chars "npub") = true ->
  (validatePubkey s = true <->
   exists bytes, decodeNpub s = Ok bytes /\ (length bytes <= 32)%nat).
Proof.
  intros Hs. unfold validatePubkey, npubToHex. rewrite Hs.
  destruct (decodeNpub s) as [bytes|m] eqn:Hd.
  - pose proof (decodeNpub_bytes s bytes Hd) as Hb.
    unfold testHex64. rewrite chars_str, padStart0_length, bytesToHex_length by exact Hb.
    rewrite lowerHexText_test by apply padStart0_lower, bytesToHex_lower.
    rewrite andb_true_r, Nat.eqb_eq. split.
    + intros H. exists bytes. split; [reflexivity | lia].
    + intros (bytes' & [= <-] & H). lia.
  - split; [discriminate | intros (bytes' & [=] & _)].
Qed.

Lemma validatePubkey_npub_at_most_32_bytes_witness :
  let s := "npub1"%string in
  startsWith (chars s) (chars "npub") = true /\
  (validatePubkey s = true <->
   exists bytes, decodeNpub s = Ok bytes /\ (length bytes <= 32)%nat).
Proof.
  intros s.
  assert (H : startsWith (chars s) (chars "npub") = true) by reflexivity.
  split; [exact H | apply (validatePubkey_npub_at_most_32_bytes s); exact H].
Defined.

(** X7: the decoders also read a payload written without the version
    byte, whatever the six checksum characters are. For every 32-byte
    payload [npubToHex] returns its 64 hex characters, a leading zero byte
    included (the zero byte [decodeNpub] strips is put back by the
    padding); [note1ToHex] does not pad, and returns the 62 characters of
    the remaining bytes when the payload starts with a zero byte. *)
Theorem unversioned_payload_decoding (payload : list Z) (checksum : list ascii) :
  Forall isByte payload -> length payload = 32%nat -> length checksum = 6%nat ->
  npubToHex (unversioned "npub1" payload checksum) = Ok (str (bytesToHex payload)) /\
  note1ToHex (unversioned "note1" payload checksum)
    = Ok (str (bytesToHex (dropVersion payload))) /\
  (forall rest, payload = 0 :: rest ->
     note1ToHex (unversioned "note1" payload checksum) = Ok (str (bytesToHex rest)) /\
     length (bytesToHex rest) = 62%nat).
Proof.
  intros Hb Hl Hc.
  assert (Hnote : note1ToHex (unversioned "note1" payload checksum)
                  = Ok (str (bytesToHex (dropVersion payload)))).
  { rewrite note1ToHex_dropVersion
      by (rewrite chars_unversioned; apply startsWith_app).
    rewrite decode_unversioned by (auto; reflexivity).
    now rewrite convert5to8_convert8to5. }
  split; [|split; [exact Hnote|]].
  - unfold npubToHex, decodeNpub.
    rewrite decode_unversioned by (auto; reflexivity).
    rewrite chars_unversioned.
    rewrite (startsWith_npub1_npub _ (startsWith_app (chars "npub1") _)).
    rewrite (startsWith_app (chars "npub1")). cbn [negb bind].
    rewrite convert5to8_convert8to5 by exact Hb.
    f_equal. f_equal. unfold dropVersion.
    destruct payload as [|first rest]; [discriminate|].
    destruct (Z.eqb_spec first 0) as [->|Hne].
    + pose proof (Forall_inv_tail Hb) as Hrest.
      unfold slice_1. change (skipn 1 (0 :: rest)) with rest.
      unfold padStart0. rewrite bytesToHex_length by exact Hrest.
      simpl in Hl. replace (64 - 2 * length rest)%nat with 2%nat by lia.
      reflexivity.
    + apply padStart0_full. rewrite bytesToHex_length by exact Hb. lia.
  - intros rest ->. split.
    + rewrite Hnote. reflexivity.
    + rewrite bytesToHex_length by exact (Forall_inv_tail Hb). simpl in Hl. lia.
Qed.

Lemma unversioned_payload_decoding_witness :
  let payload := 0 :: repeat 255 31 in
  let checksum := chars "qqqqqq" in
  Forall isByte payload /\ length payload = 32%nat /\ length checksum = 6%nat /\
  (npubToHex (unversioned "npub1" payload checksum) = Ok (str (bytesToHex payload)) /\
   note1ToHex (unversioned "note1" payload checksum)
     = Ok (str (bytesToHex (dropVersion payload))) /\
   (forall rest, payload = 0 :: rest ->
      note1ToHex (unversioned "note1" payload checksum) = Ok (str (bytesToHex rest)) /\
      length (bytesToHex rest) = 62%nat)).
Proof.
  intros payload checksum.
  assert (H : Forall isByte payload).
  { constructor; [unfold isByte; lia|]. apply Forall_forall. intros b Hin.
    apply repeat_spec in Hin. subst b. unfold isByte. lia. }
  assert (L : length payload = 32%nat) by reflexivity.
  assert (C : length checksum = 6%nat) by reflexivity.
  split; [exact H|]. split; [exact L|]. split; [exact C|].
  apply (unversioned_payload_decoding payload checksum); assumption.
Defined.

(** X8: the errors of [npubToHex] are exactly these two: on an input that
    starts with [npub] but not with [npub1], 'Invalid npub format: Must
    start with npub1'; on an input that starts with [npub1], 'Invalid npub
    format: Invalid character: c' for the first character [c] of the data
    part that is outside the alphabet. An input that does not start with
    [npub] never throws. *)
Theorem npubToHex_errors (s message : string) :
  npubToHex s = Throw message <->
  startsWith (chars s) (chars "npub") = true /\
  ((startsWith (chars s) (chars "npub1") = false /\
    message = "Invalid npub format: Must start with npub1"%string) \/
   (startsWith (chars s) (chars "npub1") = true /\
    exists before c after,
      slice_5_m6 (chars s) = before ++ c :: after /\
      inAlphabet before /\ ~ In c BECH32_CHARSET /\
      message = ("Invalid npub format: " ++ str (chars "Invalid character: " ++ [c]))%string)).
Proof.
  unfold npubToHex, decodeNpub.
  destruct (startsWith (chars s) (chars "npub")) eqn:Hs.
  - destruct (startsWith (chars s) (chars "npub1")) eqn:Hs1; cbn [negb].
    + destruct (decodeChars (slice_5_m6 (chars s))) as [decoded|m] eqn:Hd; cbn [bind].
      * split; [discriminate|]. intros [_ [[[=] _]|[_ (before & c & after & E & Hb & Hc & _)]]].
        assert (Hthrow : decodeChars (slice_5_m6 (chars s))
                         = Throw (str (chars "Invalid character: " ++ [c])))
          by (rewrite E; now apply decodeChars_rejects).
        congruence.
      * apply decodeChars_error in Hd as (before & c & after & E & Hb & Hc & ->). split.
        -- intros [= <-]. split; [reflexivity|]. right. split; [reflexivity|].
           exists before, c, after. auto.
        -- intros [_ [[[=] _]|[_ (before' & c' & after' & E' & Hb' & Hc' & ->)]]].
           assert (Hthrow : decodeChars (slice_5_m6 (chars s))
                            = Throw (str (chars "Invalid character: " ++ [c'])))
             by (rewrite E'; now apply decodeChars_rejects).
           rewrite E in Hthrow. rewrite decodeChars_rejects in Hthrow by assumption.
           congruence.
    + split.
      * intros [= <-]. split; [reflexivity|]. left. auto.
      * intros [_ [[_ ->]|[[=] _]]]. reflexivity.
  - split; [discriminate | intros [[=] _]].
Qed.

(** X9: [decodeNostrReference] decides by the prefix and nothing else: it
    succeeds exactly on the identifiers that start with [npub1] or [note1]
    and whose data part is over the alphabet; the result is of type
    'pubkey' with the value of [npubToHex] for the first prefix, of type
    'eventid' with the value of [note1ToHex] for the second; and it gives
    back the key of every encoded key. *)
Theorem decodeNostrReference_by_prefix (identifier : string) :
  (forall r, decodeNostrReference identifier = Ok r ->
     (ref_type r = Pubkey /\ startsWith (chars identifier) (chars "npub1") = true /\
      npubToHex identifier = Ok (ref_hex r)) \/
     (ref_type r = EventId /\ startsWith (chars identifier) (chars "note1") = true /\
      note1ToHex identifier = Ok (ref_hex r))) /\
  ((exists r, decodeNostrReference identifier = Ok r) <->
   (startsWith (chars identifier) (chars "npub1") = true \/
    startsWith (chars identifier) (chars "note1") = true) /\
   inAlphabet (slice_5_m6 (chars identifier))) /\
  (forall hex, isLowerHex64 hex ->
     decodeNostrReference (hexToNpub hex) = Ok {| ref_type := Pubkey; ref_hex := hex |}).
Proof.
  split; [|split].
  - intros r. unfold decodeNostrReference.
    destruct (startsWith (chars identifier) (chars "npub1")) eqn:Hn.
    + destruct (npubToHex identifier) as [hex|m]; cbn [bind]; [|discriminate].
      intros [= <-]. left. auto.
    + destruct (startsWith (chars identifier) (chars "note1")) eqn:Ht; [|discriminate].
      destruct (note1ToHex identifier) as [hex|m]; cbn [bind]; [|discriminate].
      intros [= <-]. right. auto.
  - unfold decodeNostrReference.
    destruct (startsWith (chars identifier) (chars "npub1")) eqn:Hn.
    + pose proof (accepts_iff Npub identifier) as Hacc. cbn [accepts] in Hacc.
      rewrite Hn in Hacc. unfold npubToHex.
      rewrite (startsWith_npub1_npub _ Hn). split.
      * intros [r Hr]. split; [auto|]. apply Hacc.
        destruct (decodeNpub identifier) as [bytes|m]; [eauto | discriminate].
      * intros [_ Hall]. destruct (proj2 Hacc (conj eq_refl Hall)) as [bytes ->].
        cbn [bind]. eauto.
    + destruct (startsWith (chars identifier) (chars "note1")) eqn:Ht.
      * pose proof (accepts_iff Note1 identifier) as Hacc. cbn [accepts] in Hacc.
        rewrite Ht in Hacc. split.
        -- intros [r Hr]. split; [auto|]. apply Hacc.
           destruct (note1ToHex identifier) as [hex|m]; [eauto | discriminate].
        -- intros [_ Hall]. destruct (proj2 Hacc (conj eq_refl Hall)) as [hex ->].
           cbn [bind]. eauto.
      * split; [intros [r [=]] | intros [[[=]|[=]] _]].
  - intros hex Hhex. unfold decodeNostrReference.
    destruct (decodeNpub_hexToNpub_any hex) as (bs & _ & _ & _ & Hs & _).
    + apply lowerHexText_hex. exact (proj2 Hhex).
    + destruct Hhex as [-> _]. lia.
    + rewrite Hs, (npubToHex_hexToNpub hex Hhex). reflexivity.
Qed.

(** X10: the two decoders run the same steps on what follows the prefix:
    for every text [rest], [note1ToHex] on [note1 ++ rest] gives the hex
    text, not padded, of the bytes [decodeNpub] gives on [npub1 ++ rest],
    and fails, with its own prefix on the message, when [decodeNpub]
    fails. *)
Theorem decoders_agree (rest : list ascii) :
  match decodeNpub (str (chars "npub1" ++ rest)) with
  | Ok bytes => note1ToHex (str (chars "note1" ++ rest)) = Ok (str (bytesToHex bytes))
  | Throw message =>
      note1ToHex (str (chars "note1" ++ rest)) = Throw ("Invalid note1 format: " ++ message)%string
  end.
Proof.
  rewrite note1ToHex_dropVersion by (rewrite chars_str; apply startsWith_app).
  unfold decodeNpub. rewrite !chars_str, startsWith_app. cbn [negb].
  assert (E : slice_5_m6 (chars "note1" ++ rest) = slice_5_m6 (chars "npub1" ++ rest)).
  { unfold slice_5_m6. rewrite !length_app. reflexivity. }
  rewrite E. destruct (decodeChars _) as [decoded|m]; reflexivity.
Qed.

(** X11: [NostrApp.fetchProfile] goes on to the relays with a key exactly
    when the input is neither empty nor [test], normalizes to that key,
    and is valid as [validatePubkey] judges the input itself; the key is
    then 64 hex characters. Validating the normalized key, as the code
    does, is the same as validating the input. *)
Theorem fetchProfile_loads_valid_keys (pubkeyInput pubkey : string) :
  (NostrApp.fetchProfile pubkeyInput = NostrApp.Load pubkey <->
   pubkeyInput <> ""%string /\ pubkeyInput <> "test"%string /\
   normalizeKey pubkeyInput = Ok pubkey /\ validatePubkey pubkeyInput = true) /\
  (NostrApp.fetchProfile pubkeyInput = NostrApp.Load pubkey -> isHex64 pubkey) /\
  (normalizeKey pubkeyInput = Ok pubkey -> validatePubkey pubkey = validatePubkey pubkeyInput).
Proof.
  assert (Hsame : normalizeKey pubkeyInput = Ok pubkey ->
                  validatePubkey pubkey = validatePubkey pubkeyInput).
  { unfold normalizeKey, validatePubkey. intros H.
    now rewrite H, (npubToHex_fixed _ _ H). }
  assert (Hiff : NostrApp.fetchProfile pubkeyInput = NostrApp.Load pubkey <->
                 pubkeyInput <> ""%string /\ pubkeyInput <> "test"%string /\
                 normalizeKey pubkeyInput = Ok pubkey /\ validatePubkey pubkeyInput = true).
  { unfold NostrApp.fetchProfile.
    destruct (String.eqb_spec pubkeyInput "") as [->|Hne].
    { split; [discriminate | intros [H _]; congruence]. }
    destruct (String.eqb_spec pubkeyInput "test") as [->|Hnt].
    { split; [discriminate | intros (_ & H & _); congruence]. }
    destruct (normalizeKey pubkeyInput) as [k|m] eqn:Hk.
    - destruct (validatePubkey k) eqn:Hv; cbn [negb].
      + split.
        * intros [= <-]. repeat split; auto.
          unfold normalizeKey, validatePubkey in *. rewrite Hk.
          unfold validatePubkey in Hv. now rewrite (npubToHex_fixed _ _ Hk) in Hv.
        * intros (_ & _ & [= <-] & _). reflexivity.
      + split; [discriminate|]. intros (_ & _ & [= <-] & Hvi).
        unfold normalizeKey, validatePubkey in *. rewrite Hk in Hvi.
        rewrite (npubToHex_fixed _ _ Hk) in Hv. congruence.
    - split; [discriminate | intros (_ & _ & [=] & _)]. }
  split; [exact Hiff|]. split; [|exact Hsame].
  intros H. apply Hiff in H as (_ & _ & Hk & Hv).
  unfold normalizeKey, validatePubkey in *. rewrite Hk in Hv. now apply testHex64_spec.
Qed.

End KeyFacts.

(** * Further properties of the relay manager *)

Module ManagerFacts.

Import RelayManager Spec Notions RelayFacts PoolFacts.

(** ** What runs callbacks *)

Lemma callbacksRun_logged e s :
  callbacksRun (logged e s) = callbacksRun s ++ (if isCallback e then [e] else []).
Proof.
  unfold callbacksRun, logged. cbn. rewrite List.filter_app. cbn.
  destruct (isCallback e); reflexivity.
Qed.

Lemma updateSocket_log ws f s : log (updateSocket ws f s) = log s.
Proof. apply updateSocket_fields. Qed.

Lemma updateSocket_connections ws f s :
  activeConnections (updateSocket ws f s) = activeConnections s.
Proof. apply updateSocket_fields. Qed.

Lemma runTimer_callbacks a s : callbacksRun (runTimer a s) = callbacksRun s.
Proof.
  unfold callbacksRun. destruct a as [ws|id|eventId id]; cbn [runTimer].
  - destruct (sockets s !! ws) as [w|]; [|reflexivity].
    destruct (ws_resolved w); [reflexivity|].
    destruct (ws_promise w); cbn; rewrite ?updateSocket_log, ?List.filter_app; cbn;
      rewrite ?app_nil_r; reflexivity.
  - now rewrite unsubscribe_log.
  - destruct (subscriptions s !! id); [now rewrite unsubscribe_log | reflexivity].
Qed.

Lemma fireOne_callbacks d a rest s : callbacksRun (fireOne d a rest s) = callbacksRun s.
Proof.
  unfold fireOne.
  destruct (microtasks_fields (runTimer a (withNow (N.max (now s) d) (withTimers rest s))))
    as (_ & _ & _ & _ & _ & ->).
  now rewrite runTimer_callbacks.
Qed.

Lemma elapse_callbacks ms s : callbacksRun (elapse ms s) = callbacksRun s.
Proof.
  unfold elapse.
  change (callbacksRun (fireDue (length (timers s)) (now s + ms)%N s) = callbacksRun s).
  apply (fireDue_ind (fun s' => callbacksRun s' = callbacksRun s)); [|reflexivity].
  intros s' d a rest IH _. now rewrite fireOne_callbacks.
Qed.

Lemma onopen_log ws s : log (onopen ws s) = log s.
Proof.
  unfold onopen. cbv zeta. repeat case_match; cbn; now rewrite ?updateSocket_log.
Qed.

Lemma onerror_callbacks ws s : callbacksRun (onerror ws s) = callbacksRun s.
Proof.
  unfold onerror, callbacksRun. cbv zeta.
  repeat case_match; cbn; rewrite ?updateSocket_log; cbn;
    rewrite ?List.filter_app; cbn; rewrite ?app_nil_r; reflexivity.
Qed.

Lemma handleRelayMessage_quiet relayUrl data s :
  eventHandlers s = ∅ -> subscriptions s = ∅ ->
  callbacksRun (handleRelayMessage relayUrl data s) = callbacksRun s.
Proof.
  intros Hh Hs. unfold handleRelayMessage, handleEvent, handleEndOfStoredEvents.
  rewrite Hh, Hs. destruct data as [|type id payload].
  - now rewrite callbacksRun_logged, app_nil_r.
  - rewrite !lookup_empty.
    destruct (String.eqb type "EVENT"); [destruct payload as [|e]|].
    + destruct (String.eqb type "EOSE"); reflexivity.
    + destruct (ev_pubkey e); [reflexivity|]. now rewrite callbacksRun_logged, app_nil_r.
    + destruct (String.eqb type "EOSE"); reflexivity.
Qed.

Lemma task_callbacks_quiet i s :
  eventHandlers s = ∅ -> subscriptions s = ∅ -> callbacksRun (task i s) = callbacksRun s.
Proof.
  intros Hh Hs. destruct i as [ms|ws|ws|ws|ws data]; cbn [task].
  - apply elapse_callbacks.
  - destruct (readyStateOf s ws) as [[]|]; try reflexivity.
    unfold callbacksRun. now rewrite onopen_log, updateSocket_log.
  - destruct (readyStateOf s ws) as [[]|]; try reflexivity;
      unfold onclose, removeConnection;
      change (callbacksRun (withConnections ?c ?x)) with (callbacksRun x);
      rewrite onerror_callbacks; unfold callbacksRun; now rewrite updateSocket_log.
  - destruct (readyStateOf s ws) as [[]|]; try reflexivity;
      unfold onclose, removeConnection;
      change (callbacksRun (withConnections ?c ?x)) with (callbacksRun x);
      unfold callbacksRun; now rewrite updateSocket_log.
  - destruct (sockets s !! ws) as [w|]; [|reflexivity].
    destruct (ws_readyState w); try reflexivity.
    destruct (ws_onmessage w); [|reflexivity].
    now apply handleRelayMessage_quiet.
Qed.

Lemma shrinks_empty s s' :
  registryShrinks s s' -> eventHandlers s = ∅ -> subscriptions s = ∅ ->
  eventHandlers s' = ∅ /\ subscriptions s' = ∅.
Proof.
  intros Hsh Hh Hs. split; apply map_empty; intros id;
    destruct (Hsh id) as [[E1 E2]|[E1 E2]]; try assumption.
  - now rewrite E1, Hh, lookup_empty.
  - now rewrite E2, Hs, lookup_empty.
Qed.

Lemma step_quiet s i :
  eventHandlers s = ∅ -> subscriptions s = ∅ ->
  eventHandlers (step s i) = ∅ /\ subscriptions (step s i) = ∅ /\
  callbacksRun (step s i) = callbacksRun s.
Proof.
  intros Hh Hs. destruct (shrinks_empty s (step s i) (step_shrinks s i) Hh Hs) as [E1 E2].
  split; [exact E1|]. split; [exact E2|]. unfold step.
  destruct (microtasks_fields (task i s)) as (_ & _ & _ & _ & _ & ->).
  now apply task_callbacks_quiet.
Qed.

Lemma run_quiet tr : forall s,
  eventHandlers s = ∅ -> subscriptions s = ∅ ->
  eventHandlers (run tr s) = ∅ /\ subscriptions (run tr s) = ∅ /\
  callbacksRun (run tr s) = callbacksRun s.
Proof.
  induction tr as [|i tr IH]; intros s Hh Hs; cbn [run fold_left]; [auto|].
  destruct (step_quiet s i Hh Hs) as (E1 & E2 & E3).
  destruct (IH (step s i) E1 E2) as (F1 & F2 & F3).
  split; [exact F1|]. split; [exact F2|]. unfold run in F3. now rewrite F3.
Qed.

(** ** Loops over the pool *)

Lemma forEachOpen_fields (f : WebSocket -> WebSocket) (l : list (string * nat)) : forall s,
  let s' := fold_left (fun s conn => if isOpen s (snd conn)
                                     then updateSocket (snd conn) f s else s) l s in
  activeConnections s' = activeConnections s /\
  eventHandlers s' = eventHandlers s /\
  subscriptions s' = subscriptions s /\
  timers s' = timers s /\
  joins s' = joins s /\
  now s' = now s /\
  log s' = log s.
Proof.
  induction l as [|conn l IH]; intros s; cbn [fold_left]; [repeat split|].
  cbv zeta in *. destruct (isOpen s (snd conn)); [|apply IH].
  destruct (IH (updateSocket (snd conn) f s)) as (H1 & H2 & H3 & H4 & H5 & H6 & H7).
  destruct (updateSocket_fields (snd conn) f s) as (G1 & G2 & G3 & G4 & G5 & G6 & G7).
  repeat split; congruence.
Qed.

Lemma isOpen_updated ws f s k :
  (forall w, ws_readyState (f w) = ws_readyState w) ->
  isOpen (updateSocket ws f s) k = isOpen s k.
Proof.
  intros Hf. unfold isOpen, updateSocket.
  destruct (sockets s !! ws) as [w|] eqn:E; [|reflexivity]. cbn.
  destruct (decide (k = ws)) as [->|Hne].
  - rewrite list_lookup_insert_eq by (apply lookup_lt_Some in E; exact E).
    now rewrite E, Hf.
  - now rewrite list_lookup_insert_ne by congruence.
Qed.

Lemma lookup_updateSocket ws f s k w :
  sockets s !! k = Some w ->
  sockets (updateSocket ws f s) !! k = Some (if Nat.eqb k ws then f w else w).
Proof.
  intros Hk. unfold updateSocket.
  destruct (Nat.eqb_spec k ws) as [->|Hne].
  - rewrite Hk. cbn. apply list_lookup_insert_eq. now apply lookup_lt_Some in Hk.
  - destruct (sockets s !! ws) as [w0|]; [|exact Hk]. cbn.
    now rewrite list_lookup_insert_ne by congruence.
Qed.

(** A message sent through the pool reaches a socket once for every entry
    of the pool that holds it, when it is open. *)
Lemma sendEach_sockets m (l : list (string * nat)) : forall s ws w,
  sockets s !! ws = Some w ->
  sockets (fold_left (fun s conn => if isOpen s (snd conn)
                                    then updateSocket (snd conn) (send m) s else s) l s) !! ws
  = Some (Nat.iter (if isOpen s ws
                    then length (List.filter (fun conn => Nat.eqb (snd conn) ws) l)
                    else 0%nat) (send m) w).
Proof.
  induction l as [|conn l IH]; intros s ws w Hw; cbn [fold_left].
  - destruct (isOpen s ws); exact Hw.
  - cbn [List.filter]. destruct (isOpen s (snd conn)) eqn:Hc.
    + rewrite (IH _ ws _ (lookup_updateSocket (snd conn) (send m) s ws w Hw)).
      rewrite isOpen_updated by reflexivity.
      destruct (Nat.eqb_spec (snd conn) ws) as [E|Hne].
      * rewrite E in *. rewrite Nat.eqb_refl, Hc. cbn [length]. now rewrite Nat.iter_succ_r.
      * destruct (Nat.eqb_spec ws (snd conn)) as [E|_]; [congruence|]. reflexivity.
    + rewrite (IH s ws w Hw).
      destruct (Nat.eqb_spec (snd conn) ws) as [E|Hne]; [|reflexivity].
      rewrite E in Hc. now rewrite Hc.
Qed.

Lemma broadcast_sockets m s ws w :
  sockets s !! ws = Some w ->
  sockets (broadcast m s) !! ws
  = Some (Nat.iter (if isOpen s ws then poolEntries s ws else 0%nat) (send m) w).
Proof. intros Hw. unfold broadcast, poolEntries. now apply sendEach_sockets. Qed.

Lemma iter_send_sent m k w : ws_sent (Nat.iter k (send m) w) = ws_sent w ++ repeat m k.
Proof.
  induction k as [|k IH]; [cbn; now rewrite app_nil_r|].
  rewrite Nat.iter_succ. cbn [send ws_sent repeat]. rewrite IH, <- app_assoc. f_equal.
  symmetry. apply repeat_cons.
Qed.

Lemma iter_send_state m k w :
  ws_url (Nat.iter k (send m) w) = ws_url w /\
  ws_readyState (Nat.iter k (send m) w) = ws_readyState w /\
  ws_onmessage (Nat.iter k (send m) w) = ws_onmessage w /\
  ws_resolved (Nat.iter k (send m) w) = ws_resolved w /\
  ws_promise (Nat.iter k (send m) w) = ws_promise w.
Proof.
  induction k as [|k IH]; [repeat split|]. rewrite Nat.iter_succ. exact IH.
Qed.

(** What [closeAllConnections] does to the sockets: the open ones of the
    pool are closing, the others are as they were. *)
Lemma closeEach_sockets (l : list (string * nat)) : forall s ws w,
  sockets s !! ws = Some w ->
  sockets (fold_left (fun s conn => if isOpen s (snd conn)
                                    then updateSocket (snd conn) (setReadyState CLOSING) s
                                    else s) l s) !! ws
  = Some (if isOpen s ws && existsb (fun conn => Nat.eqb (snd conn) ws) l
          then setReadyState CLOSING w else w).
Proof.
  induction l as [|conn l IH]; intros s ws w Hw; cbn [fold_left existsb].
  - now rewrite andb_false_r.
  - destruct (isOpen s (snd conn)) eqn:Hc.
    + rewrite (IH _ ws _ (lookup_updateSocket (snd conn) (setReadyState CLOSING) s ws w Hw)).
      destruct (Nat.eqb_spec (snd conn) ws) as [E|Hne].
      * rewrite E in *. rewrite Nat.eqb_refl, Hc. cbn [orb andb].
        assert (Hclosed : isOpen (updateSocket ws (setReadyState CLOSING) s) ws = false).
        { unfold isOpen.
          rewrite (lookup_updateSocket ws (setReadyState CLOSING) s ws w Hw), Nat.eqb_refl.
          reflexivity. }
        now rewrite Hclosed.
      * destruct (Nat.eqb_spec ws (snd conn)) as [E|_]; [congruence|]. cbn [orb].
        assert (Hsame : isOpen (updateSocket (snd conn) (setReadyState CLOSING) s) ws
                        = isOpen s ws).
        { unfold isOpen.
          rewrite (lookup_updateSocket (snd conn) (setReadyState CLOSING) s ws w Hw).
          destruct (Nat.eqb_spec ws (snd conn)) as [E|_]; [congruence|]. now rewrite Hw. }
        now rewrite Hsame.
    + rewrite (IH s ws w Hw).
      destruct (Nat.eqb_spec (snd conn) ws) as [E|Hne]; [|reflexivity].
      rewrite E in Hc. now rewrite Hc.
Qed.

Lemma closeAllConnections_fields s :
  let s' := closeAllConnections s in
  activeConnections s' = [] /\ eventHandlers s' = ∅ /\ subscriptions s' = ∅ /\
  timers s' = timers s /\ joins s' = joins s /\ now s' = now s /\ log s' = log s /\
  forall ws w, sockets s !! ws = Some w ->
    sockets s' !! ws
    = Some (if isOpen s ws && existsb (fun conn => Nat.eqb (snd conn) ws) (activeConnections s)
            then setReadyState CLOSING w else w).
Proof.
  unfold closeAllConnections. cbv zeta.
  destruct (forEachOpen_fields (setReadyState CLOSING) (activeConnections s) s)
    as (_ & _ & _ & H4 & H5 & H6 & H7).
  cbv zeta in *. cbn.
  refine (conj eq_refl (conj eq_refl (conj eq_refl (conj H4 (conj H5 (conj H6 (conj H7 _))))))).
  intros ws w Hw. now apply closeEach_sockets.
Qed.

(** ** Requests sent *)









(** ** The subscription of a delivered fetch *)

Lemma eoseCallbacks_app l1 l2 : eoseCallbacks (l1 ++ l2) = eoseCallbacks l1 ++ eoseCallbacks l2.
Proof. unfold eoseCallbacks. apply flat_map_app. Qed.

Lemma deliveries_app l1 l2 : deliveries (l1 ++ l2) = deliveries l1 ++ deliveries l2.
Proof. unfold deliveries. apply flat_map_app. Qed.

Lemma callCaught_grows e relayUrl s h :
  exists newTimers newLog,
    timers (callCaught e relayUrl s h) = timers s ++ newTimers /\
    log (callCaught e relayUrl s h) = log s ++ newLog.
Proof.
  unfold callCaught, callHandler. destruct h as [cb|eventId subscriptionId cb].
  - destruct (cb_throws cb e); cbn; eexists [], _; rewrite app_nil_r, <- ?app_assoc;
      split; reflexivity.
  - destruct (String.eqb (ev_id e) eventId); [destruct (cb_throws cb e)|]; cbn.
    + eexists [], _. rewrite app_nil_r, <- !app_assoc. split; reflexivity.
    + eexists _, _. rewrite <- !app_assoc. split; reflexivity.
    + eexists [], _. rewrite app_nil_r. split; reflexivity.
Qed.

Lemma dispatch_grows e relayUrl hs : forall s,
  exists newTimers newLog,
    timers (fold_left (callCaught e relayUrl) hs s) = timers s ++ newTimers /\
    log (fold_left (callCaught e relayUrl) hs s) = log s ++ newLog.
Proof.
  induction hs as [|h hs IH]; intros s; cbn [fold_left].
  - exists [], []. now rewrite !app_nil_r.
  - destruct (IH (callCaught e relayUrl s h)) as (t2 & l2 & -> & ->).
    destruct (callCaught_grows e relayUrl s h) as (t1 & l1 & -> & ->).
    exists (t1 ++ t2), (l1 ++ l2). now rewrite !app_assoc.
Qed.

Lemma callCaught_delivers e relayUrl s eventId id cb :
  ev_id e = eventId -> cb_throws cb e = false ->
  let s' := callCaught e relayUrl s (OneTimeHandler eventId id cb) in
  In ((now s + 1000)%N, UnsubscribeLater id) (timers s') /\
  In (cb, e) (deliveries (log s')).
Proof.
  intros Hid Hthrow. unfold callCaught, callHandler.
  rewrite Hid, String.eqb_refl, Hthrow. cbn. split.
  - apply in_or_app. right. left. reflexivity.
  - rewrite !deliveries_app. apply in_or_app. right. left. reflexivity.
Qed.

Lemma dispatch_delivers e relayUrl eventId id cb hs : forall s,
  In (OneTimeHandler eventId id cb) hs ->
  ev_id e = eventId -> cb_throws cb e = false ->
  let s' := fold_left (callCaught e relayUrl) hs s in
  In ((now s + 1000)%N, UnsubscribeLater id) (timers s') /\
  In (cb, e) (deliveries (log s')).
Proof.
  induction hs as [|h hs IH]; intros s Hin Hid Hthrow; [contradiction|].
  cbn [fold_left]. destruct Hin as [->|Hin].
  - destruct (callCaught_delivers e relayUrl s eventId id cb Hid Hthrow) as [Ht Hl].
    cbv zeta in *.
    destruct (dispatch_grows e relayUrl hs
                (callCaught e relayUrl s (OneTimeHandler eventId id cb)))
      as (t2 & l2 & -> & ->).
    split; [apply in_or_app; left; exact Ht|].
    rewrite deliveries_app. apply in_or_app. left. exact Hl.
  - destruct (callCaught_spec e relayUrl s h) as (_ & _ & _ & _ & Hnow & _).
    cbv zeta in Hnow. rewrite <- Hnow. now apply IH.
Qed.

Section Delivered.

Variables (id : string) (D : N).

Lemma fireOne_unsubscribePending target s d a rest :
  unsubscribePending id D s -> nextTimer target (timers s) = Some (d, a, rest) ->
  unsubscribePending id D (fireOne d a rest s).
Proof.
  intros [Hsync Hp] Hnext. split.
  - exact (shrinks_sync id _ _ (fireOne_shrinks d a rest s) Hsync).
  - destruct Hp as [Hrel|Hin].
    + left. exact (shrinks_released id _ _ (fireOne_shrinks d a rest s) Hrel).
    + pose proof (nextTimer_spec target (timers s)) as Hspec. rewrite Hnext in Hspec.
      destruct Hspec as (_ & _ & Hiff). apply Hiff in Hin as [[= <- <-]|Hin].
      * left. unfold fireOne, released.
        rewrite microtasks_handlers, microtasks_subscriptions.
        cbn [runTimer].
        rewrite unsubscribe_handlers, unsubscribe_subscriptions.
        now rewrite !lookup_delete_eq.
      * right. now rewrite fireOne_timers.
Qed.

Lemma step_unsubscribePending s i :
  unsubscribePending id D s -> unsubscribePending id D (step s i).
Proof.
  intros Hp. destruct (Hp) as [Hsync Hor]. split.
  - exact (shrinks_sync id _ _ (step_shrinks s i) Hsync).
  - destruct Hor as [Hrel|Hin].
    + left. exact (shrinks_released id _ _ (step_shrinks s i) Hrel).
    + unfold step.
      assert (Ht : released (task i s) id \/ In (D, UnsubscribeLater id) (timers (task i s))).
      { destruct i as [ms|ws|ws|ws|ws data].
        - cbn [task]. unfold elapse.
          apply (fireDue_ind (unsubscribePending id D) (now s + ms)%N); [|exact Hp].
          intros s' d a rest. apply fireOne_unsubscribePending.
        - right. apply task_keeps_timer; [discriminate | discriminate | exact Hin].
        - right. apply task_keeps_timer; [discriminate | discriminate | exact Hin].
        - right. apply task_keeps_timer; [discriminate | discriminate | exact Hin].
        - right. apply task_keeps_timer; [discriminate | discriminate | exact Hin]. }
      unfold released.
      rewrite microtasks_handlers, microtasks_subscriptions, microtasks_timers.
      exact Ht.
Qed.

Lemma run_unsubscribePending tr : forall s,
  unsubscribePending id D s -> unsubscribePending id D (run tr s).
Proof.
  induction tr as [|i tr IH]; intros s Hs; cbn [run fold_left]; [exact Hs|].
  apply IH, step_unsubscribePending, Hs.
Qed.

Lemma unsubscribe_fired s :
  unsubscribePending id D s -> timersAhead s -> (D <= now s)%N -> released s id.
Proof.
  intros [_ [Hrel|Hin]] Hahead Hnow; [exact Hrel|].
  unfold timersAhead in Hahead. rewrite Forall_forall in Hahead.
  specialize (Hahead _ Hin). cbn in Hahead. lia.
Qed.

End Delivered.

Lemma subscribe_pool id f h o s :
  exists s0,
    subscribe id f h o s = broadcast (REQ id f) s0 /\
    sockets s0 = sockets s /\ activeConnections s0 = activeConnections s.
Proof.
  unfold subscribe. cbv zeta. eexists. split; [reflexivity|].
  destruct (eventHandlers _ !! id); split; reflexivity.
Qed.

(** ** The properties *)

(** X12: [closeAllConnections] empties the pool and the registry and
    closes the open sockets of the pool, and only those; afterwards the
    connected count is 0, and whatever the sockets and the timers do next,
    the registry stays empty and no callback is run. *)
Theorem closeAllConnections_silences (s : state) (tr : list input) :
  let s0 := closeAllConnections s in
  activeConnections s0 = [] /\ eventHandlers s0 = ∅ /\ subscriptions s0 = ∅ /\
  getConnectedCount s0 = 0%nat /\
  (forall ws w, sockets s !! ws = Some w ->
     sockets s0 !! ws
     = Some (if isOpen s ws && existsb (fun conn => Nat.eqb (snd conn) ws) (activeConnections s)
             then setReadyState CLOSING w else w)) /\
  eventHandlers (run tr s0) = ∅ /\ subscriptions (run tr s0) = ∅ /\
  callbacksRun (run tr s0) = callbacksRun s.
Proof.
  intros s0.
  destruct (closeAllConnections_fields s) as (Hc & Hh & Hs & _ & _ & _ & Hl & Hsock).
  fold s0 in Hc, Hh, Hs, Hl, Hsock.
  destruct (run_quiet tr s0 Hh Hs) as (E1 & E2 & E3).
  split; [exact Hc|]. split; [exact Hh|]. split; [exact Hs|].
  split; [unfold getConnectedCount; now rewrite Hc|].
  split; [exact Hsock|]. split; [exact E1|]. split; [exact E2|].
  rewrite E3. unfold callbacksRun. now rewrite Hl.
Qed.

(** X13: [closeAllConnections] does not abort an attempt that is still
    connecting: the socket is left as it is, and when it opens afterwards
    it is put in the pool that was just emptied and counted as
    connected. *)
Theorem closeAllConnections_keeps_pending_attempts (s : state) (ws : nat) (w : WebSocket) :
  sockets s !! ws = Some w -> ws_readyState w = CONNECTING -> ws_promise w = Pending ->
  let s1 := closeAllConnections s in
  let s2 := step s1 (SocketOpen ws) in
  sockets s1 !! ws = Some w /\
  activeConnections s2 = [(ws_url w, ws)] /\
  getConnectedCount s2 = 1%nat.
Proof.
  intros Hw Hr Hp s1 s2.
  destruct (closeAllConnections_fields s) as (Hc & _ & _ & _ & _ & _ & _ & Hsock).
  fold s1 in Hc, Hsock.
  assert (Hw1 : sockets s1 !! ws = Some w).
  { rewrite (Hsock ws w Hw). unfold isOpen. now rewrite Hw, Hr. }
  destruct (task_SocketOpen s1 ws w Hw1 Hr) as (Hs & _ & Ha & _). cbv zeta in Hs, Ha.
  rewrite Hc, Hp in Ha. cbn [app] in Ha.
  assert (Ha2 : activeConnections s2 = [(ws_url w, ws)])
    by (unfold s2, step; now rewrite microtasks_connections).
  split; [exact Hw1|]. split; [exact Ha2|].
  unfold getConnectedCount. rewrite Ha2. cbn [List.filter snd].
  unfold isOpen, s2, step. rewrite microtasks_sockets, Hs.
  rewrite list_lookup_insert_eq by (apply lookup_lt_Some in Hw1; exact Hw1).
  reflexivity.
Qed.

Lemma closeAllConnections_keeps_pending_attempts_witness :
  let s := connectToRelays (fun _ => false) ["wss://relay.damus.io"%string] constructor in
  let ws := 0%nat in
  let w := newWebSocket "wss://relay.damus.io" in
  sockets s !! ws = Some w /\ ws_readyState w = CONNECTING /\ ws_promise w = Pending /\
  (let s1 := closeAllConnections s in
   let s2 := step s1 (SocketOpen ws) in
   sockets s1 !! ws = Some w /\
   activeConnections s2 = [(ws_url w, ws)] /\
   getConnectedCount s2 = 1%nat).
Proof.
  intros s ws w.
  assert (H1 : sockets s !! ws = Some w) by reflexivity.
  assert (H2 : ws_readyState w = CONNECTING) by reflexivity.
  assert (H3 : ws_promise w = Pending) by reflexivity.
  split; [exact H1|]. split; [exact H2|]. split; [exact H3|].
  apply (closeAllConnections_keeps_pending_attempts s ws w); assumption.
Defined.



(** X15: [subscribe] and [unsubscribe] send their frame to the sockets of
    the pool that are open at that moment, once for each entry of the pool
    that holds the socket, and to no other socket; the state of the
    sockets is left as it is. *)
Theorem frames_reach_open_connections (s : state) (id : string) (f : Filters)
    (h : handler) (o : option eoseHandler) (ws : nat) (w : WebSocket) :
  sockets s !! ws = Some w ->
  let sent := if isOpen s ws then poolEntries s ws else 0%nat in
  exists w' w'',
    sockets (subscribe id f h o s) !! ws = Some w' /\
    ws_sent w' = ws_sent w ++ repeat (REQ id f) sent /\
    ws_readyState w' = ws_readyState w /\
    sockets (unsubscribe id s) !! ws = Some w'' /\
    ws_sent w'' = ws_sent w ++ repeat (CLOSE id) sent /\
    ws_readyState w'' = ws_readyState w.
Proof.
  intros Hw sent.
  destruct (subscribe_pool id f h o s) as (s0 & -> & Hs0 & Ha0).
  assert (Hw0 : sockets s0 !! ws = Some w) by now rewrite Hs0.
  assert (Hsent0 : (if isOpen s0 ws then poolEntries s0 ws else 0%nat) = sent).
  { unfold sent, isOpen, poolEntries. now rewrite Hs0, Ha0. }
  eexists _, _. split; [apply (broadcast_sockets _ s0 ws w Hw0)|].
  rewrite Hsent0. split; [apply iter_send_sent|]. split; [apply iter_send_state|].
  unfold unsubscribe. cbv zeta.
  pose proof (broadcast_sockets (CLOSE id)
                (withSubscriptions (delete id (subscriptions s))
                   (withHandlers (delete id (eventHandlers s)) s)) ws w Hw) as Hb.
  split; [exact Hb|].
  split; [apply iter_send_sent | apply iter_send_state].
Qed.

Lemma frames_reach_open_connections_witness :
  let s := run [SocketOpen 0]
               (connectToRelays (fun _ => false) ["wss://relay.damus.io"; "wss://eden.nostr.land"]%string
                                constructor) in
  let id := "posts"%string in
  let f := {| kinds := [1]; authors := []; ids := []; limit := Some 20 |} in
  let h := Callback {| cb_name := "addPost"; cb_throws := fun _ => false |} in
  let ws := 0%nat in
  let w := settle Fulfilled (setOnmessage (setResolved (setReadyState OPEN
             (newWebSocket "wss://relay.damus.io")))) in
  sockets s !! ws = Some w /\
  (let sent := if isOpen s ws then poolEntries s ws else 0%nat in
   exists w' w'',
     sockets (subscribe id f h None s) !! ws = Some w' /\
     ws_sent w' = ws_sent w ++ repeat (REQ id f) sent /\
     ws_readyState w' = ws_readyState w /\
     sockets (unsubscribe id s) !! ws = Some w'' /\
     ws_sent w'' = ws_sent w ++ repeat (CLOSE id) sent /\
     ws_readyState w'' = ws_readyState w).
Proof.
  intros s id f h ws w.
  assert (H : sockets s !! ws = Some w) by reflexivity.
  split; [exact H | apply (frames_reach_open_connections s id f h None ws w); exact H].
Defined.

(** X16: [unsubscribe] undoes [subscribe] on the registry: after both,
    the id has no record and no handlers, whatever was registered under it
    before, any other id is as it was, and for an id that was not
    registered the registry is the one before the [subscribe]. *)
Theorem unsubscribe_undoes_subscribe (s : state) (id : string) (f : Filters)
    (h : handler) (o : option eoseHandler) :
  let s' := unsubscribe id (subscribe id f h o s) in
  released s' id /\
  registryOf s' = registryOf (unsubscribe id s) /\
  (forall other, other <> id ->
     eventHandlers s' !! other = eventHandlers s !! other /\
     subscriptions s' !! other = subscriptions s !! other) /\
  (eventHandlers s !! id = None -> subscriptions s !! id = None ->
     registryOf s' = registryOf s).
Proof.
  intros s'. subst s'. unfold released, registryOf.
  rewrite !unsubscribe_handlers, !unsubscribe_subscriptions,
    subscribe_handlers, subscribe_subscriptions, !delete_insert_eq.
  split; [now rewrite !lookup_delete_eq|]. split; [reflexivity|]. split.
  - intros other Hne. now rewrite !lookup_delete_ne by congruence.
  - intros Hh Hs. now rewrite !delete_id by assumption.
Qed.

(** X17: the end-of-stored-events callback of a subscription id is the one
    of the last [subscribe] under that id, whatever was registered before:
    an EOSE frame runs that callback once, or arms the cleanup of a fetch,
    or does nothing when the last [subscribe] gave none; it runs no event
    handler. *)
Theorem resubscribe_replaces_onEOSE (s : state) (id : string) (f : Filters) (h : handler)
    (o : option eoseHandler) (relayUrl : string) (p : payload) :
  let s1 := subscribe id f h o s in
  let s2 := handleRelayMessage relayUrl (Message "EOSE" id p) s1 in
  eoseCallbacks (log s2)
    = eoseCallbacks (log s1)
      ++ match o with Some (OnEose cb) => [(cb, relayUrl)] | _ => [] end /\
  dispatches (log s2) = dispatches (log s1) /\
  timers s2
    = timers s1
      ++ match o with
         | Some (FetchOnEose eventId subscriptionId) =>
             [((now s1 + 2000)%N, FetchCleanup eventId subscriptionId)]
         | _ => []
         end.
Proof.
  intros s1 s2. subst s2. unfold handleRelayMessage, handleEndOfStoredEvents.
  assert (Et : String.eqb "EOSE" "EVENT" = false) by reflexivity.
  assert (Ee : String.eqb "EOSE" "EOSE" = true) by reflexivity.
  rewrite Et, Ee.
  assert (Hsub : subscriptions s1 !! id
                 = Some {| filters := f; sub_handler := h; onEOSE := o |})
    by (unfold s1; now rewrite subscribe_subscriptions, lookup_insert_eq).
  rewrite Hsub. cbn [onEOSE].
  destruct o as [[cb|eventId subscriptionId]|]; [destruct (eose_throws cb relayUrl)| |]; cbn;
    rewrite ?eoseCallbacks_app, ?dispatches_app; cbn; rewrite ?app_nil_r; auto.
Qed.

(** X18: a fetch whose event arrives is released a second later: when an
    EVENT frame carrying the event with the fetched id reaches a fetch
    that is still subscribed, and the caller's callback returns, that
    callback is handed the event, and whatever the sockets and the timers
    do next, the subscription id has no record and no handlers once 1000
    ms have passed. *)
Theorem fetch_released_after_delivery (s : state) (eventId : string) (cb : callback)
    (tr1 : list input) (relayUrl : string) (e : Event) (pk : string) (tr2 : list input) :
  timersAhead s ->
  ev_id e = eventId -> ev_pubkey e = Some pk -> cb_throws cb e = false ->
  let id := fetchSubscriptionId eventId in
  let s1 := run tr1 (fetchEvent eventId cb s) in
  eventHandlers s1 !! id <> None ->
  let s2 := handleRelayMessage relayUrl (eventFrame id e) s1 in
  let s3 := run tr2 s2 in
  In (cb, e) (deliveries (log s2)) /\
  ((now s2 + 1000 <= now s3)%N -> released s3 id).
Proof.
  intros Hahead Hid Hpk Hthrow id s1 Hstill s2 s3.
  set (F := fetchEvent eventId cb s) in *.
  assert (HF : timersAhead F).
  { unfold timersAhead, F, fetchEvent. cbv zeta. fold id.
    destruct (subscribe_timers id
                {| kinds := []; authors := []; ids := [eventId]; limit := Some 1 |}
                (OneTimeHandler eventId id cb) (Some (FetchOnEose eventId id)) s) as [-> ->].
    exact Hahead. }
  assert (Hh : eventHandlers F !! id
               = Some (default [] (eventHandlers s !! id) ++ [OneTimeHandler eventId id cb])).
  { unfold F, fetchEvent. cbv zeta. fold id.
    now rewrite subscribe_handlers, lookup_insert_eq. }
  assert (Hsub : subscriptions F !! id <> None).
  { unfold F, fetchEvent. cbv zeta. fold id.
    rewrite subscribe_subscriptions, lookup_insert_eq. discriminate. }
  assert (H1 : timersAhead s1) by (apply run_timersAhead, HF).
  destruct (run_shrinks tr1 F id) as [[E1 _]|[E1 E2]]; fold s1 in E1; [contradiction|].
  fold s1 in E2. rewrite Hh in E1.
  destruct (handleRelayMessage_event relayUrl id e pk _ s1 Hpk E1) as [_ Hmsg].
  fold s2 in Hmsg.
  destruct (handleRelayMessage_fields relayUrl (eventFrame id e) s1)
    as (Hreg & _ & _ & _ & Hnow2 & new & Htm & Hnew).
  fold s2 in Hreg, Hnow2, Htm. unfold registryOf in Hreg. injection Hreg as Hh2 Hs2.
  assert (H2 : timersAhead s2).
  { unfold timersAhead. rewrite Htm, Hnow2. apply Forall_app. split; [exact H1 | exact Hnew]. }
  destruct (dispatch_delivers e relayUrl eventId id cb
              (default [] (eventHandlers s !! id) ++ [OneTimeHandler eventId id cb]) s1)
    as [Htimer Hdel]; auto.
  { apply in_or_app. right. left. reflexivity. }
  cbv zeta in Htimer, Hdel. rewrite <- Hmsg in Htimer, Hdel.
  split; [exact Hdel|]. intros Hnow.
  assert (Hp : unsubscribePending id (now s2 + 1000)%N s2).
  { split.
    - rewrite Hs2, E2. intros Hnone. contradiction.
    - right. rewrite Hnow2. exact Htimer. }
  apply (run_unsubscribePending id _ tr2) in Hp. fold s3 in Hp.
  assert (H3 : timersAhead s3) by (apply run_timersAhead, H2).
  exact (unsubscribe_fired id _ s3 Hp H3 Hnow).
Qed.

Lemma fetch_released_after_delivery_witness :
  let s := run [SocketOpen 0] (connectToRelays (fun _ => false) ["wss://relay.damus.io"%string] constructor) in
  let eventId := "5c83da77af1dec6d7289834998ad7aafbd9e2191396d75ec3cc27f5a77226f36"%string in
  let cb := {| cb_name := "render"; cb_throws := fun _ => false |} in
  let relayUrl := "wss://relay.damus.io"%string in
  let pk := "82341f882b6eabcd2ba7f1ef90aad961cf074af15b9ef44a09f9d2a8fbfbe6a2"%string in
  let e := {| ev_id := eventId; ev_pubkey := Some pk; ev_kind := 1 |} in
  let tr2 := [Elapse 1000] in
  timersAhead s /\ ev_id e = eventId /\ ev_pubkey e = Some pk /\ cb_throws cb e = false /\
  (let id := fetchSubscriptionId eventId in
   let s1 := run [] (fetchEvent eventId cb s) in
   eventHandlers s1 !! id <> None /\
   (let s2 := handleRelayMessage relayUrl (eventFrame id e) s1 in
    let s3 := run tr2 s2 in
    In (cb, e) (deliveries (log s2)) /\
    ((now s2 + 1000 <= now s3)%N -> released s3 id))).
Proof.
  intros s eventId cb relayUrl pk e tr2.
  assert (H0 : timersAhead s) by (apply run_timersAhead, connectToRelays_connecting).
  assert (H1 : ev_id e = eventId) by reflexivity.
  assert (H2 : ev_pubkey e = Some pk) by reflexivity.
  assert (H3 : cb_throws cb e = false) by reflexivity.
  assert (H4 : eventHandlers (run [] (fetchEvent eventId cb s)) !! fetchSubscriptionId eventId
               <> None).
  { cbn [run fold_left]. unfold fetchEvent. cbv zeta.
    rewrite subscribe_handlers, lookup_insert_eq. discriminate. }
  split; [exact H0|]. split; [exact H1|]. split; [exact H2|]. split; [exact H3|].
  split; [exact H4|].
  apply (fetch_released_after_delivery s eventId cb [] relayUrl e pk tr2); assumption.
Defined.

End ManagerFacts.

(** * Properties of the content renderer and of the viewers *)

Module ContentFacts.

Import CryptoUtils RelayManager ContentRenderer Spec Notions CodecFacts KeyFacts.

(** ** Matching *)

Lemma matchLiteral_spec literal : forall s r,
  matchLiteral literal s = Some r <-> s = literal ++ r.
Proof.
  induction literal as [|c literal IH]; intros s r.
  - destruct s; cbn; split; congruence.
  - destruct s as [|d s]; cbn [matchLiteral app]; [split; discriminate|].
    destruct (Ascii.eqb_spec c d) as [->|Hne].
    + rewrite IH. split; [intros ->; reflexivity | intros [= ->]; reflexivity].
    + split; [discriminate | intros [= E _]; congruence].
Qed.

Lemma matchLiteral_app literal s r t :
  matchLiteral literal s = Some r -> matchLiteral literal (s ++ t) = Some (r ++ t).
Proof.
  rewrite !matchLiteral_spec. intros ->. now rewrite app_assoc.
Qed.

Lemma takeWhile_dropWhile p s : takeWhile p s ++ dropWhile p s = s.
Proof.
  induction s as [|c s IH]; cbn; [reflexivity|].
  destruct (p c); cbn; [now rewrite IH | reflexivity].
Qed.

Lemma takeWhile_all p s : forallb p (takeWhile p s) = true.
Proof.
  induction s as [|c s IH]; cbn; [reflexivity|].
  destruct (p c) eqn:E; cbn; [now rewrite E, IH | reflexivity].
Qed.

Lemma dropWhile_head p s :
  match dropWhile p s with [] => True | c :: _ => p c = false end.
Proof.
  induction s as [|c s IH]; cbn; [exact I|].
  destruct (p c) eqn:E; [exact IH | exact E].
Qed.

Lemma takeWhile_app p s t : takeWhile p s <> [] -> takeWhile p (s ++ t) <> [].
Proof.
  destruct s as [|c s]; cbn; [congruence|]. destruct (p c); [discriminate | congruence].
Qed.

Lemma firstMatch_Some {A B} (f : A -> option B) l m :
  firstMatch f l = Some m -> exists x, In x l /\ f x = Some m.
Proof.
  unfold firstMatch. induction l as [|x l IH]; cbn; [discriminate|].
  destruct (f x) as [y|] eqn:E.
  - intros [= <-]. exists x. auto.
  - intros H. destruct (IH H) as (x' & Hin & Hx). exists x'. auto.
Qed.

Lemma firstMatch_found {A B} (f : A -> option B) l x m :
  In x l -> f x = Some m -> exists m', firstMatch f l = Some m'.
Proof.
  unfold firstMatch. induction l as [|y l IH]; cbn; [contradiction|].
  intros [->|Hin] Hx.
  - rewrite Hx. eauto.
  - destruct (f y); [eauto | now apply IH].
Qed.

Lemma tails_In s : forall t, In t (tails s) <-> exists pre, s = pre ++ t.
Proof.
  induction s as [|c s IH]; intros t; cbn [tails In].
  - split.
    + intros [<-|[]]. exists []. reflexivity.
    + intros (pre & E). left. symmetry in E. apply app_eq_nil in E. symmetry. tauto.
  - rewrite IH. split.
    + intros [<-|(pre & ->)]; [exists []; reflexivity | exists (c :: pre); reflexivity].
    + intros ([|d pre] & E); cbn in E.
      * left. exact E.
      * right. injection E as _ ->. eauto.
Qed.

Lemma tails_snoc s c : tails (s ++ [c]) = map (fun t => t ++ [c]) (tails s) ++ [[]].
Proof.
  induction s as [|d s IH]; cbn [tails app map]; [reflexivity|]. now rewrite IH.
Qed.

(** ** Sources *)

Lemma sourceOf_app a b : sourceOf (a ++ b) = sourceOf a ++ sourceOf b.
Proof. unfold sourceOf. now rewrite map_app, concat_app. Qed.

Lemma sourceOf_textPart between : sourceOf (textPart between) = between.
Proof.
  destruct between as [|c between]; [reflexivity|].
  unfold textPart, sourceOf. cbn [map concat partSource]. now rewrite chars_str, app_nil_r.
Qed.

Lemma sourceOf_In parts p :
  In p parts -> exists a b, sourceOf parts = a ++ partSource p ++ b.
Proof.
  induction parts as [|q parts IH]; [contradiction|].
  intros [->|Hin]; unfold sourceOf in *; cbn [map concat].
  - exists [], (concat (map partSource parts)). reflexivity.
  - destruct (IH Hin) as (a & b & ->). exists (partSource q ++ a), b.
    now rewrite <- app_assoc.
Qed.

(** ** The loop of [exec] *)

Section Loop.

Context {M : Type}.
Variables (matchAt : list ascii -> option (M * list ascii)) (onMatch : M -> list part)
          (Q : part -> Prop).

Hypothesis Hsrc : forall s m rest,
  matchAt s = Some (m, rest) ->
  sourceOf (onMatch m) ++ rest = s /\ (length rest < length s)%nat /\ Forall Q (onMatch m).
Hypothesis Hmono : forall t s, matchAt (t ++ s) = None -> matchAt t = None.
Hypothesis Htext : forall between,
  between <> [] -> Forall (fun t => matchAt t = None) (tails between) ->
  Q (Text (str between)).

Lemma matchAt_nil : matchAt [] = None.
Proof.
  destruct (matchAt []) as [[m rest]|] eqn:E; [|reflexivity].
  apply Hsrc in E as (_ & Hl & _). simpl in Hl. lia.
Qed.

Lemma textPart_ok between s :
  Forall (fun t => t = [] \/ matchAt (t ++ s) = None) (tails between) ->
  Forall Q (textPart between).
Proof.
  intros Hinv.
  assert (Hcase : between = [] \/ textPart between = [Text (str between)])
    by (destruct between; [left | right]; reflexivity).
  destruct Hcase as [->|Hcase]; [constructor|]. rewrite Hcase.
  constructor; [|constructor]. apply Htext; [intros ->; discriminate Hcase|].
  eapply Forall_impl; [|exact Hinv]. intros t [->|Ht]; [apply matchAt_nil|].
  now apply (Hmono t s).
Qed.

Lemma execLoop_spec fuel : forall between s,
  (length s < fuel)%nat ->
  Forall (fun t => t = [] \/ matchAt (t ++ s) = None) (tails between) ->
  sourceOf (execLoop matchAt onMatch fuel between s) = between ++ s /\
  Forall Q (execLoop matchAt onMatch fuel between s).
Proof.
  induction fuel as [|fuel IH]; intros between s Hfuel Hinv; [lia|].
  cbn [execLoop]. destruct (matchAt s) as [[m rest]|] eqn:E.
  - destruct (Hsrc s m rest E) as (Hs & Hl & Hq).
    destruct (IH [] rest ltac:(lia)) as [IHs IHq].
    { cbn [tails]. constructor; [left; reflexivity | constructor]. }
    split.
    + rewrite !sourceOf_app, sourceOf_textPart, IHs. cbn [app]. now rewrite Hs.
    + apply Forall_app. split; [exact (textPart_ok between s Hinv)|].
      apply Forall_app. split; assumption.
  - destruct s as [|c r].
    + split; [now rewrite sourceOf_textPart, app_nil_r|].
      exact (textPart_ok between [] Hinv).
    + destruct (IH (between ++ [c]) r ltac:(simpl in Hfuel; lia)) as [IHs IHq].
      { rewrite tails_snoc. apply Forall_app. split.
        - apply Forall_map. eapply Forall_impl; [|exact Hinv].
          intros t [->|Ht]; right; cbn [app]; [exact E|].
          now rewrite <- app_assoc.
        - constructor; [left; reflexivity | constructor]. }
      split; [|exact IHq]. rewrite IHs. now rewrite <- app_assoc.
Qed.

End Loop.

(** ** URLs *)

Lemma matchAfterScheme_spec scheme r url rest :
  matchAfterScheme scheme r = Some (url, rest) ->
  exists run, run <> [] /\ forallb isNonSpace run = true /\
              url = scheme ++ chars "://" ++ run /\ r = chars "://" ++ run ++ rest.
Proof.
  unfold matchAfterScheme.
  destruct (matchLiteral (chars "://") r) as [body|] eqn:E; [|discriminate].
  apply matchLiteral_spec in E.
  destruct (takeWhile isNonSpace body) as [|c run] eqn:Hrun; [discriminate|].
  intros [= <- <-]. exists (c :: run). split; [discriminate|]. split.
  - rewrite <- Hrun. apply takeWhile_all.
  - split; [reflexivity|]. rewrite E, <- Hrun. now rewrite takeWhile_dropWhile.
Qed.

Lemma matchAfterScheme_app scheme r t m :
  matchAfterScheme scheme r = Some m -> exists m', matchAfterScheme scheme (r ++ t) = Some m'.
Proof.
  unfold matchAfterScheme.
  destruct (matchLiteral (chars "://") r) as [body|] eqn:E; [|discriminate].
  rewrite (matchLiteral_app _ _ _ t E).
  destruct (takeWhile isNonSpace body) as [|c run] eqn:Hrun; [discriminate|]. intros _.
  assert (Hne : takeWhile isNonSpace (body ++ t) <> [])
    by (apply takeWhile_app; congruence).
  destruct (takeWhile isNonSpace (body ++ t)); [congruence | eauto].
Qed.

Lemma matchUrlAt_unfold s :
  matchUrlAt s
  = match matchLiteral (chars "http") s with
    | Some r =>
        match matchLiteral (chars "s") r with
        | Some r' =>
            match matchAfterScheme (chars "https") r' with
            | Some m => Some m
            | None => matchAfterScheme (chars "http") r
            end
        | None => matchAfterScheme (chars "http") r
        end
    | None => None
    end.
Proof.
  unfold matchUrlAt. destruct (matchLiteral (chars "http") s) as [r|]; [|reflexivity].
  destruct r as [|c r']; [reflexivity|].
  destruct c as [[] [] [] [] [] [] [] []]; reflexivity.
Qed.

Lemma matchUrlAt_spec s url rest :
  matchUrlAt s = Some (url, rest) ->
  isUrl url /\ s = url ++ rest /\ (length rest < length s)%nat.
Proof.
  rewrite matchUrlAt_unfold.
  destruct (matchLiteral (chars "http") s) as [r|] eqn:E; [|discriminate].
  apply matchLiteral_spec in E.
  assert (Hhttp : matchAfterScheme (chars "http") r = Some (url, rest) ->
                  isUrl url /\ s = url ++ rest /\ (length rest < length s)%nat).
  { intros H. apply matchAfterScheme_spec in H as (run & Hne & Hall & -> & ->).
    split; [exists (chars "http"), run; auto|].
    split; [rewrite E; now rewrite <- !app_assoc|].
    rewrite E, !length_app. destruct run; [congruence | simpl; lia]. }
  destruct (matchLiteral (chars "s") r) as [r'|] eqn:Es; [|exact Hhttp].
  apply matchLiteral_spec in Es.
  destruct (matchAfterScheme (chars "https") r') as [m|] eqn:Em; [|exact Hhttp].
  intros [= ->]. apply matchAfterScheme_spec in Em as (run & Hne & Hall & -> & ->).
  split; [exists (chars "https"), run; auto|].
  split; [rewrite E, Es; reflexivity|].
  rewrite E, Es, !length_app. destruct run; [congruence | simpl; lia].
Qed.

Lemma matchUrlAt_mono t s : matchUrlAt (t ++ s) = None -> matchUrlAt t = None.
Proof.
  rewrite !matchUrlAt_unfold.
  destruct (matchLiteral (chars "http") t) as [r|] eqn:E; [|reflexivity].
  rewrite (matchLiteral_app _ _ _ s E).
  assert (Hhttp : match matchAfterScheme (chars "http") (r ++ s) with
                  | Some _ => False | None => True end ->
                  matchAfterScheme (chars "http") r = None).
  { destruct (matchAfterScheme (chars "http") r) as [m|] eqn:Em; [|reflexivity].
    destruct (matchAfterScheme_app _ _ s _ Em) as (m' & ->). contradiction. }
  destruct (matchLiteral (chars "s") r) as [r'|] eqn:Es.
  - rewrite (matchLiteral_app _ _ _ s Es).
    destruct (matchAfterScheme (chars "https") r') as [m|] eqn:Em.
    + destruct (matchAfterScheme_app _ _ s _ Em) as (m' & ->). discriminate.
    + destruct (matchAfterScheme (chars "https") (r' ++ s)); [discriminate|].
      intros H. apply Hhttp. now rewrite H.
  - destruct (matchLiteral (chars "s") (r ++ s)) as [x|] eqn:Ex.
    + destruct (matchAfterScheme (chars "https") x); [discriminate|].
      intros H. apply Hhttp. now rewrite H.
    + intros H. apply Hhttp. now rewrite H.
Qed.

Lemma urlPart_ok url : isUrl url -> Forall urlPartOk (urlPart url) /\ sourceOf (urlPart url) = url.
Proof.
  intros Hurl. unfold urlPart. cbv zeta.
  assert (Hu : isUrl (chars (str url))) by now rewrite chars_str.
  destruct (isImageUrl (str url)) eqn:Hi;
    [|destruct (isVideoUrl (str url)) eqn:Hv;
      [|destruct (isYouTubeUrl (str url)) eqn:Hy]];
    (split; [constructor; [|constructor]
            | unfold sourceOf; cbn [map concat partSource]; now rewrite chars_str, app_nil_r]);
    cbn [urlPartOk]; auto.
  repeat split; auto.
  unfold isYouTubeUrl, getYouTubeVideoId in *.
  destruct (searchYouTube (chars (str url))); [discriminate | discriminate].
Qed.

Lemma parseUrls_spec content :
  sourceOf (parseUrls content) = chars content /\ Forall urlPartOk (parseUrls content).
Proof.
  unfold parseUrls.
  apply (execLoop_spec matchUrlAt urlPart urlPartOk).
  - intros s url rest H. apply matchUrlAt_spec in H as (Hurl & -> & Hl).
    destruct (urlPart_ok url Hurl) as [Hq ->]. auto.
  - exact matchUrlAt_mono.
  - intros between Hne Hfree. cbn [urlPartOk]. rewrite chars_str. auto.
  - lia.
  - cbn [tails]. constructor; [left; reflexivity | constructor].
Qed.

(** ** References *)

Lemma matchNostrAt_spec s fullRef identifier rest :
  matchNostrAt s = Some ((fullRef, identifier), rest) ->
  exists prefix run,
    In prefix referencePrefixes /\ run <> [] /\ forallb isLowerAlnum run = true /\
    identifier = chars prefix ++ run /\ fullRef = chars "nostr:" ++ identifier /\
    s = fullRef ++ rest.
Proof.
  unfold matchNostrAt.
  destruct (matchLiteral (chars "nostr:") s) as [r|] eqn:E; [|discriminate].
  apply matchLiteral_spec in E. intros H.
  apply firstMatch_Some in H as (prefix & Hin & H).
  destruct (matchLiteral (chars prefix) r) as [body|] eqn:Ep; [|discriminate].
  apply matchLiteral_spec in Ep.
  destruct (takeWhile isLowerAlnum body) as [|c run] eqn:Hrun; [discriminate|].
  injection H as <- <- <-.
  exists prefix, (c :: run). split; [exact Hin|]. split; [discriminate|]. split.
  - rewrite <- Hrun. apply takeWhile_all.
  - split; [reflexivity|]. split; [reflexivity|].
    assert (Hb : body = (c :: run) ++ dropWhile isLowerAlnum body)
      by (rewrite <- Hrun; symmetry; apply takeWhile_dropWhile).
    rewrite E, Ep. rewrite Hb at 1.
    cbn [chars list_ascii_of_string app]. rewrite <- app_assoc. reflexivity.
Qed.

Lemma matchNostrAt_mono t s : matchNostrAt (t ++ s) = None -> matchNostrAt t = None.
Proof.
  unfold matchNostrAt.
  destruct (matchLiteral (chars "nostr:") t) as [r|] eqn:E; [|reflexivity].
  rewrite (matchLiteral_app _ _ _ s E).
  set (f := fun (r : list ascii) (prefix : string) =>
              match matchLiteral (chars prefix) r with
              | Some body =>
                  match takeWhile isLowerAlnum body with
                  | [] => None
                  | run => let identifier := chars prefix ++ run in
                           Some ((chars "nostr:" ++ identifier, identifier),
                                 dropWhile isLowerAlnum body)
                  end
              | None => None
              end).
  change (firstMatch (f (r ++ s)) referencePrefixes = None ->
          firstMatch (f r) referencePrefixes = None).
  destruct (firstMatch (f r) referencePrefixes) as [m|] eqn:Hm; [|reflexivity].
  apply firstMatch_Some in Hm as (prefix & Hin & Hp).
  assert (Hs : exists m', f (r ++ s) prefix = Some m').
  { unfold f in *. destruct (matchLiteral (chars prefix) r) as [body|] eqn:Ep; [|discriminate].
    rewrite (matchLiteral_app _ _ _ s Ep).
    destruct (takeWhile isLowerAlnum body) as [|c run] eqn:Hrun; [discriminate|].
    assert (Hne : takeWhile isLowerAlnum (body ++ s) <> [])
      by (apply takeWhile_app; congruence).
    destruct (takeWhile isLowerAlnum (body ++ s)); [congruence | eauto]. }
  destruct Hs as (m' & Hs).
  destruct (firstMatch_found _ _ _ _ Hin Hs) as (m'' & ->). discriminate.
Qed.

Lemma startsWith_nil s : startsWith s [] = true.
Proof. destruct s; reflexivity. Qed.

Lemma referencePart_ok prefix run :
  In prefix referencePrefixes -> run <> [] -> forallb isLowerAlnum run = true ->
  let identifier := chars prefix ++ run in
  let fullRef := chars "nostr:" ++ identifier in
  Forall referencePartOk (referencePart (fullRef, identifier)) /\
  sourceOf (referencePart (fullRef, identifier)) = fullRef.
Proof.
  intros Hin Hne Hall identifier fullRef.
  assert (Href : forall p, p = prefix ->
            isReference p (str identifier) (str fullRef)).
  { intros p ->. exists run. rewrite !chars_str. auto. }
  unfold referencePart.
  destruct Hin as [<-|[<-|[<-|[<-|[]]]]]; subst identifier fullRef;
    cbn [startsWith chars list_ascii_of_string app Ascii.eqb Bool.eqb];
    rewrite ?startsWith_nil;
    (split; [constructor; [|constructor]
            | unfold sourceOf; cbn [map concat partSource]; now rewrite chars_str, app_nil_r]);
    cbn [referencePartOk]; auto.
Qed.

Lemma parseNostrReferences_spec content :
  sourceOf (parseNostrReferences content) = chars content /\
  Forall referencePartOk (parseNostrReferences content).
Proof.
  unfold parseNostrReferences.
  apply (execLoop_spec matchNostrAt referencePart referencePartOk).
  - intros s [fullRef identifier] rest H.
    apply matchNostrAt_spec in H as (prefix & run & Hin & Hne & Hall & -> & -> & ->).
    destruct (referencePart_ok prefix run Hin Hne Hall) as [Hq Hs]. cbv zeta in Hq, Hs.
    rewrite Hs. split; [reflexivity|]. split; [|exact Hq].
    rewrite !length_app. simpl. lia.
  - exact matchNostrAt_mono.
  - intros between Hne Hfree. cbn [referencePartOk]. rewrite chars_str. auto.
  - lia.
  - cbn [tails]. constructor; [left; reflexivity | constructor].
Qed.

Lemma referenceFree_infix a x b : referenceFree (a ++ x ++ b) -> referenceFree x.
Proof.
  unfold referenceFree. rewrite !Forall_forall. intros H t Ht.
  apply tails_In in Ht as (pre & ->).
  apply (matchNostrAt_mono t b), H, tails_In.
  exists (a ++ pre). now rewrite <- !app_assoc.
Qed.

Lemma parseUrls_referenceFree content :
  referenceFree (chars content) -> Forall postPartOk (parseUrls content).
Proof.
  intros Hfree. destruct (parseUrls_spec content) as [Hsrc Hok].
  rewrite Forall_forall in *. intros p Hin.
  destruct (sourceOf_In _ p Hin) as (a & b & E). rewrite Hsrc in E. rewrite E in Hfree.
  apply referenceFree_infix in Hfree. specialize (Hok p Hin).
  destruct p; cbn [postPartOk partSource urlPartOk] in *; tauto.
Qed.

Lemma parsePostContent_spec content :
  sourceOf (parsePostContent content) = chars content /\
  Forall postPartOk (parsePostContent content).
Proof.
  unfold parsePostContent.
  destruct (parseNostrReferences_spec content) as [Hsrc Hok]. rewrite <- Hsrc. clear Hsrc.
  induction Hok as [|p parts Hp _ [IHs IHq]]; [split; [reflexivity | constructor]|].
  cbn [flat_map]. rewrite sourceOf_app, IHs.
  change (sourceOf (p :: parts)) with (partSource p ++ sourceOf parts).
  destruct p; cbn [referencePartOk] in Hp; try contradiction.
  - destruct Hp as [_ Hfree]. destruct (parseUrls_spec content0) as [-> _].
    split; [reflexivity|]. apply Forall_app. split; [|exact IHq].
    now apply parseUrls_referenceFree.
  - split; [unfold sourceOf; cbn; now rewrite app_nil_r|].
    constructor; [exact Hp | exact IHq].
  - split; [unfold sourceOf; cbn; now rewrite app_nil_r|].
    constructor; [exact Hp | exact IHq].
  - split; [unfold sourceOf; cbn; now rewrite app_nil_r|].
    constructor; [exact Hp | exact IHq].
Qed.

Lemma In_slice_5_m6 (s : list ascii) c : In c (slice_5_m6 s) -> In c s.
Proof.
  unfold slice_5_m6. intros H.
  rewrite <- (firstn_skipn 5 s). apply in_or_app. right.
  rewrite <- (firstn_skipn (length s - 6 - 5) (skipn 5 s)). apply in_or_app. now left.
Qed.

(** ** YouTube *)

Lemma matchYouTubeAt_spec s videoId :
  matchYouTubeAt s = Some videoId ->
  exists marker after,
    In marker youTubeMarkers /\ s = chars marker ++ videoId ++ after /\
    videoId <> [] /\ forallb isVideoIdChar videoId = true /\
    match after with [] => True | c :: _ => isVideoIdChar c = false end.
Proof.
  unfold matchYouTubeAt. intros H. apply firstMatch_Some in H as (marker & Hin & H).
  destruct (matchLiteral (chars marker) s) as [r|] eqn:E; [|discriminate].
  apply matchLiteral_spec in E.
  destruct (takeWhile isVideoIdChar r) as [|c run] eqn:Hrun; [discriminate|].
  injection H as <-. exists marker, (dropWhile isVideoIdChar r).
  split; [exact Hin|]. rewrite <- Hrun. split; [now rewrite takeWhile_dropWhile|].
  split; [rewrite Hrun; discriminate|]. split; [apply takeWhile_all | apply dropWhile_head].
Qed.

Lemma searchYouTube_spec s : forall videoId,
  searchYouTube s = Some videoId ->
  exists before marker after,
    In marker youTubeMarkers /\ s = before ++ chars marker ++ videoId ++ after /\
    videoId <> [] /\ forallb isVideoIdChar videoId = true /\
    match after with [] => True | c :: _ => isVideoIdChar c = false end.
Proof.
  induction s as [|c s IH]; intros videoId; cbn [searchYouTube].
  - destruct (matchYouTubeAt []) as [v|] eqn:E; [|discriminate].
    intros [= <-]. apply matchYouTubeAt_spec in E as (marker & after & H).
    exists [], marker, after. exact H.
  - destruct (matchYouTubeAt (c :: s)) as [v|] eqn:E.
    + intros [= <-]. apply matchYouTubeAt_spec in E as (marker & after & H).
      exists [], marker, after. exact H.
    + intros H. destruct (IH videoId H) as (before & marker & after & Hin & -> & Hrest).
      exists (c :: before), marker, after. auto.
Qed.

(** ** Replies *)

Lemma filter_nil_existsb {A} (p : A -> bool) l : List.filter p l = [] <-> existsb p l = false.
Proof.
  induction l as [|x l IH]; cbn; [tauto|].
  destruct (p x); cbn; [split; discriminate | exact IH].
Qed.

Lemma nth_error_last {A} (l : list A) x : nth_error (l ++ [x]) (length (l ++ [x]) - 1) = Some x.
Proof.
  rewrite length_app. cbn [length].
  replace (length l + 1 - 1)%nat with (length l) by lia.
  rewrite nth_error_app2 by lia. now rewrite Nat.sub_diag.
Qed.

(** ** Feeds *)

Lemma existsb_id_In (id : string) (l : list string) :
  existsb (String.eqb id) l = true <-> In id l.
Proof.
  rewrite existsb_exists. split.
  - intros (x & Hx & E). apply String.eqb_eq in E. now subst.
  - intros H. exists id. split; [exact H | apply String.eqb_refl].
Qed.

Lemma existsb_event_In (e : Event) (l : list Event) :
  existsb (fun r => String.eqb (ev_id r) (ev_id e)) l = existsb (String.eqb (ev_id e)) (map ev_id l).
Proof.
  induction l as [|r l IH]; cbn; [reflexivity|]. now rewrite IH, String.eqb_sym.
Qed.

Lemma onReply_fold events : forall replies,
  fold_left ThreadViewer.onReply events replies
  = replies ++ firstById (map ev_id replies) events.
Proof.
  induction events as [|e events IH]; intros replies; cbn [fold_left firstById].
  - now rewrite app_nil_r.
  - rewrite IH. unfold ThreadViewer.onReply. rewrite existsb_event_In.
    destruct (existsb (String.eqb (ev_id e)) (map ev_id replies)); [reflexivity|].
    rewrite map_app, <- app_assoc. reflexivity.
Qed.

Lemma firstById_spec events : forall seen,
  NoDup (map ev_id (firstById seen events)) /\
  (forall id, In id (map ev_id (firstById seen events))
              <-> In id (map ev_id events) /\ ~ In id seen).
Proof.
  induction events as [|e events IH]; intros seen; cbn [firstById map].
  - split; [constructor | intros id; cbn; tauto].
  - destruct (existsb (String.eqb (ev_id e)) seen) eqn:E.
    + apply existsb_id_In in E. destruct (IH seen) as [Hnd Hin]. split; [exact Hnd|].
      intros id. rewrite Hin. cbn [In]. split; [tauto|].
      intros [[<-|H] Hs]; [contradiction | tauto].
    + assert (Hnot : ~ In (ev_id e) seen)
        by (intros H; apply existsb_id_In in H; congruence).
      destruct (IH (seen ++ [ev_id e])) as [Hnd Hin]. cbn [map]. split.
      * constructor; [|exact Hnd]. rewrite Hin, in_app_iff. cbn. tauto.
      * intros id. cbn [In]. rewrite Hin, in_app_iff. cbn [In]. split.
        -- intros [<-|[H Hs]]; [tauto|]. tauto.
        -- intros [[<-|H] Hs]; [tauto|].
           destruct (String.eqb_spec (ev_id e) id) as [->|Hne]; [tauto|]. right. tauto.
Qed.

Lemma onReply_known events : forall replies,
  (forall e, In e events -> In (ev_id e) (map ev_id replies)) ->
  fold_left ThreadViewer.onReply events replies = replies.
Proof.
  induction events as [|e events IH]; intros replies Hall; cbn [fold_left]; [reflexivity|].
  assert (E : ThreadViewer.onReply replies e = replies).
  { unfold ThreadViewer.onReply. rewrite existsb_event_In.
    replace (existsb (String.eqb (ev_id e)) (map ev_id replies)) with true; [reflexivity|].
    symmetry. apply existsb_id_In, Hall. now left. }
  rewrite E. apply IH. intros e' He'. apply Hall. now right.
Qed.

Lemma handlePostEvent_fold events : forall postsData,
  fold_left NostrApp.handlePostEvent events postsData
  = fold_left ThreadViewer.onReply (List.filter (fun e => ev_kind e =? 1) events) postsData.
Proof.
  induction events as [|e events IH]; intros postsData; cbn [fold_left List.filter];
    [reflexivity|].
  rewrite IH. unfold NostrApp.handlePostEvent.
  destruct (ev_kind e =? 1); cbn [negb fold_left]; reflexivity.
Qed.

(** *** Sets of followed keys *)

Lemma addAll_spec (l : list string) : forall set,
  NoDup set ->
  let set' := fold_left (fun set x => if existsb (String.eqb x) set then set else set ++ [x])
                        l set in
  NoDup set' /\ (forall x, In x set' <-> In x set \/ In x l) /\
  (exists added, set' = set ++ added) /\
  ((forall x, In x l -> In x set) -> set' = set).
Proof.
  induction l as [|x l IH]; intros set Hnd; cbn [fold_left].
  - split; [exact Hnd|]. split; [intros x; cbn; tauto|].
    split; [exists []; now rewrite app_nil_r | reflexivity].
  - cbv zeta in *. destruct (existsb (String.eqb x) set) eqn:E.
    + apply existsb_id_In in E. destruct (IH set Hnd) as (H1 & H2 & H3 & H4).
      split; [exact H1|]. split.
      * intros y. rewrite H2. cbn [In]. split; [tauto|].
        intros [H|[<-|H]]; tauto.
      * split; [exact H3|]. intros Hall. apply H4. intros y Hy. apply Hall. now right.
    + assert (Hnot : ~ In x set) by (intros H; apply existsb_id_In in H; congruence).
      destruct (IH (set ++ [x])) as (H1 & H2 & (added & H3) & H4).
      { apply NoDup_app; [exact Hnd | constructor; [intros [] | constructor] |].
        intros y Hy [<-|[]]. contradiction. }
      split; [exact H1|]. split.
      * intros y. rewrite H2, in_app_iff. cbn [In]. tauto.
      * split; [exists ([x] ++ added); now rewrite H3, <- app_assoc|].
        intros Hall. exfalso. apply Hnot, Hall. now left.
Qed.

Lemma newSet_spec l :
  NoDup (WallFeed.newSet l) /\ (forall x, In x (WallFeed.newSet l) <-> In x l).
Proof.
  unfold WallFeed.newSet.
  destruct (addAll_spec l [] (NoDup_nil string)) as (H1 & H2 & _). cbv zeta in *.
  split; [exact H1|]. intros x. rewrite H2. cbn. tauto.
Qed.

Lemma newSet_app a b :
  WallFeed.newSet (a ++ b)
  = fold_left (fun set x => if existsb (String.eqb x) set then set else set ++ [x])
              b (WallFeed.newSet a).
Proof. unfold WallFeed.newSet. apply fold_left_app. Qed.

Lemma newSet_NoDup l : NoDup l -> WallFeed.newSet l = l.
Proof.
  unfold WallFeed.newSet.
  assert (G : forall l set, NoDup (set ++ l) ->
            fold_left (fun set x => if existsb (String.eqb x) set then set else set ++ [x])
                      l set = set ++ l).
  { clear l. induction l as [|x l IH]; intros set Hnd; cbn [fold_left];
      [now rewrite app_nil_r|].
    assert (Hnot : ~ In x set).
    { intros H. apply (NoDup_remove_2 _ _ _ Hnd). apply in_or_app. now left. }
    destruct (existsb (String.eqb x) set) eqn:E;
      [apply existsb_id_In in E; contradiction|].
    rewrite IH; rewrite <- app_assoc; [reflexivity | exact Hnd]. }
  intros Hnd. apply (G l []). exact Hnd.
Qed.

Lemma followedPubkeys_length tags :
  Forall (fun p => String.length p = 64%nat) (WallFeed.followedPubkeys tags).
Proof.
  unfold WallFeed.followedPubkeys.
  induction (map (fun tag => nth_error tag 1) (List.filter WallFeed.isPTag tags))
    as [|[p|] l IH]; cbn [flat_map]; [constructor| |exact IH].
  destruct (negb (String.eqb p "")); cbn [andb]; [|exact IH].
  destruct (Nat.eqb_spec (String.length p) 64); [|exact IH].
  constructor; assumption.
Qed.

(** *** Batches *)

Lemma batchesFrom_spec (following : list string) fuel : forall i,
  (length following - i <= 20 * fuel)%nat ->
  let batches := WallFeed.batchesFrom fuel i 20 following in
  concat batches = skipn i following /\
  Forall (fun batch => (1 <= length batch <= 20)%nat) batches /\
  length batches = ((length following - i + 19) / 20)%nat.
Proof.
  induction fuel as [|fuel IH]; intros i Hfuel; cbn [WallFeed.batchesFrom].
  - assert (Hi : (length following <= i)%nat) by lia.
    split; [symmetry; now apply skipn_all2|]. split; [constructor|].
    replace (length following - i)%nat with 0%nat by lia. reflexivity.
  - destruct (Nat.ltb_spec i (length following)) as [Hlt|Hge].
    + destruct (IH (i + 20)%nat ltac:(lia)) as (Hc & Hf & Hl). cbv zeta in *.
      assert (Hslice : WallFeed.slice i (i + 20) following = firstn 20 (skipn i following)).
      { unfold WallFeed.slice. f_equal. lia. }
      rewrite Hslice. split; [|split].
      * cbn [concat]. rewrite Hc.
        replace (i + 20)%nat with (20 + i)%nat by lia.
        rewrite <- skipn_skipn. apply firstn_skipn.
      * constructor; [|exact Hf].
        rewrite length_firstn, length_skipn. lia.
      * cbn [length]. rewrite Hl.
        destruct (Nat.le_gt_cases 20 (length following - i)) as [Hbig|Hsmall].
        -- replace (length following - i + 19)%nat
             with (length following - (i + 20) + 19 + 1 * 20)%nat by lia.
           rewrite Nat.div_add by lia. lia.
        -- replace (length following - (i + 20))%nat with 0%nat by lia.
           change ((0 + 19) / 20)%nat with 0%nat.
           apply Nat.div_unique with (r := (length following - i - 1)%nat); lia.
    + split; [symmetry; now apply skipn_all2|]. split; [constructor|].
      replace (length following - i)%nat with 0%nat by lia. reflexivity.
Qed.

(** ** The properties *)

(** X19: [parseUrls] cuts a text without losing or changing a character:
    the parts, put back together, are the text. A text part is never empty
    and holds no URL; every other part is a URL (a scheme [http] or
    [https], [://], and one or more characters that are not white space)
    sorted by the first test that applies: image, then video, then
    YouTube, whose video id is then never [null], then plain link. *)
Theorem parseUrls_cuts_text_at_urls (content : string) :
  sourceOf (parseUrls content) = chars content /\
  Forall urlPartOk (parseUrls content).
Proof. apply parseUrls_spec. Qed.

(** X20: [parseNostrReferences] cuts a text without losing or changing a
    character. A text part is never empty and holds no reference; a
    reference part has the identifier made of its prefix and one or more
    characters a-z, 0-9, and the full reference [nostr:] and that
    identifier: [note1] gives a note reference, [npub1] and [nprofile1] a
    profile reference, [nevent1] an event reference. *)
Theorem parseNostrReferences_cuts_text_at_references (content : string) :
  sourceOf (parseNostrReferences content) = chars content /\
  Forall referencePartOk (parseNostrReferences content).
Proof. apply parseNostrReferences_spec. Qed.

(** X21: [parsePostContent], references first and URLs in what is left,
    cuts a text without losing or changing a character; its text parts are
    never empty and hold neither a URL nor a reference, and no reference
    is left inside a URL part. *)
Theorem parsePostContent_cuts_text (content : string) :
  sourceOf (parsePostContent content) = chars content /\
  Forall postPartOk (parsePostContent content).
Proof. apply parsePostContent_spec. Qed.

(** X22: a note reference found in a post is always read as an event id
    or refused for a character: for every note-reference part of
    [parsePostContent], [decodeNostrReference] on its identifier either
    returns type 'eventid', or throws 'Invalid note1 format: Invalid
    character: c' for a character [c] of the identifier outside the bech32
    alphabet (the parser lets all of a-z, 0-9 through); it never answers
    'pubkey' or 'Unsupported reference type'. *)
Theorem note_references_decode_as_event_ids (content identifier fullRef : string) :
  In (NoteReference identifier fullRef) (parsePostContent content) ->
  startsWith (chars identifier) (chars "note1") = true /\
  ((exists hex, decodeNostrReference identifier
                = Ok {| ref_type := EventId; ref_hex := hex |}) \/
   (exists c, In c (chars identifier) /\ ~ In c BECH32_CHARSET /\
              decodeNostrReference identifier
              = Throw ("Invalid note1 format: "
                       ++ str (chars "Invalid character: " ++ [c]))%string)).
Proof.
  intros Hin. destruct (parsePostContent_spec content) as [_ Hok].
  rewrite Forall_forall in Hok. specialize (Hok _ Hin).
  cbn [postPartOk referencePartOk] in Hok.
  destruct Hok as (run & Hne & Hall & Hid & _).
  assert (Hnote : startsWith (chars identifier) (chars "note1") = true)
    by (rewrite Hid; apply startsWith_app).
  assert (Hnpub : startsWith (chars identifier) (chars "npub1") = false)
    by (rewrite Hid; reflexivity).
  split; [exact Hnote|]. unfold decodeNostrReference. rewrite Hnpub, Hnote.
  rewrite note1ToHex_dropVersion by exact Hnote.
  destruct (decodeChars (slice_5_m6 (chars identifier))) as [decoded|m] eqn:Hd; cbn [bind].
  - left. eauto.
  - right. apply decodeChars_error in Hd as (before & c & after & E & _ & Hc & ->).
    exists c. split; [|split; [exact Hc | reflexivity]].
    apply In_slice_5_m6. rewrite E. apply in_or_app. right. now left.
Qed.

Lemma note_references_decode_as_event_ids_witness :
  let content := "see nostr:note1qqqsyq and https://example.com/a.png"%string in
  let identifier := "note1qqqsyq"%string in
  let fullRef := "nostr:note1qqqsyq"%string in
  In (NoteReference identifier fullRef) (parsePostContent content) /\
  (startsWith (chars identifier) (chars "note1") = true /\
   ((exists hex, decodeNostrReference identifier
                 = Ok {| ref_type := EventId; ref_hex := hex |}) \/
    (exists c, In c (chars identifier) /\ ~ In c BECH32_CHARSET /\
               decodeNostrReference identifier
               = Throw ("Invalid note1 format: "
                        ++ str (chars "Invalid character: " ++ [c]))%string))).
Proof.
  intros content identifier fullRef.
  assert (H : In (NoteReference identifier fullRef) (parsePostContent content))
    by (vm_compute; tauto).
  split; [exact H | apply (note_references_decode_as_event_ids content identifier fullRef H)].
Defined.

(** X23: [getYouTubeVideoId] and [isYouTubeUrl] agree, and the id is what
    the pattern says: when it is not [null] it is the longest run of
    characters a-z, A-Z, 0-9, [_], [-], not empty, that follows a marker
    ([youtube.com/watch?v=], [youtu.be/] or [youtube.com/embed/]) in the
    URL. *)
Theorem youTubeVideoId_follows_marker (url : string) :
  (isYouTubeUrl url = true <-> getYouTubeVideoId url <> None) /\
  (forall videoId, getYouTubeVideoId url = Some videoId ->
     exists before marker after,
       In marker youTubeMarkers /\
       chars url = before ++ chars marker ++ chars videoId ++ after /\
       chars videoId <> [] /\ forallb isVideoIdChar (chars videoId) = true /\
       match after with [] => True | c :: _ => isVideoIdChar c = false end).
Proof.
  unfold isYouTubeUrl, getYouTubeVideoId. split.
  - destruct (searchYouTube (chars url)); split; congruence.
  - intros videoId. destruct (searchYouTube (chars url)) as [v|] eqn:E; [|discriminate].
    intros [= <-]. rewrite chars_str. now apply searchYouTube_spec.
Qed.

(** X24: a post is a reply exactly when it has an event id to reply to
    that is not [null], and that id is the second element of the last tag
    whose first element is [e] ([undefined] when that tag has one element
    only); the reply indicator is made exactly for an id that is a
    string and not empty. *)
Theorem reply_is_to_last_e_tag (tags : option (list (list string))) :
  (isReply tags = true <-> getReplyToEventId tags <> Null) /\
  (forall before tag after,
     tags = Some (before ++ tag :: after) ->
     isETag tag = true -> existsb isETag after = false ->
     getReplyToEventId tags
     = match nth_error tag 1 with Some id => Str id | None => Undefined end) /\
  (forall id, replyIndicator tags = Some id <->
              getReplyToEventId tags = Str id /\ id <> ""%string).
Proof.
  split; [|split].
  - destruct tags as [tags|]; cbn [isReply getReplyToEventId]; [|split; congruence].
    cbv zeta. destruct (List.filter isETag tags) as [|t l] eqn:E using rev_ind.
    + apply filter_nil_existsb in E. rewrite E. cbn. split; congruence.
    + clear IHl. rewrite nth_error_last.
      assert (Hex : existsb isETag tags = true).
      { destruct (existsb isETag tags) eqn:Hex; [reflexivity|].
        apply filter_nil_existsb in Hex. rewrite Hex in E. now destruct l. }
      rewrite Hex. split; [|reflexivity]. intros _. destruct (nth_error t 1); discriminate.
  - intros before tag after -> Htag Hafter. cbn [getReplyToEventId]. cbv zeta.
    rewrite List.filter_app. cbn [List.filter]. rewrite Htag.
    apply filter_nil_existsb in Hafter. rewrite Hafter.
    now rewrite nth_error_last.
  - intros id. unfold replyIndicator. cbv zeta.
    destruct (isReply tags) eqn:Hr; cbn [andb].
    + destruct (getReplyToEventId tags) as [| |s]; cbn [truthy];
        try (split; [discriminate | intros [[=] _]]).
      destruct (String.eqb_spec s "") as [->|Hne]; cbn [negb].
      * split; [discriminate | intros [[= <-] H]; congruence].
      * split; [intros [= <-]; auto | intros [[= <-] _]; reflexivity].
    + split; [discriminate|]. intros [H _].
      destruct tags as [tags|]; cbn [isReply getReplyToEventId] in *; [|discriminate].
      apply filter_nil_existsb in Hr. cbv zeta in H. rewrite Hr in H. discriminate.
Qed.

(** X25: the text of [formatTimestamp], for a clock inside the range of
    time values. A timestamp whose date is outside that range (more than
    8.64e15 ms from the epoch) gives 'Invalid Date'. Otherwise, by the age
    of the timestamp: 'just now' below one minute, a timestamp in the
    future included; then whole minutes from 1 to 59, whole hours from 1
    to 23, whole days from 1 to 6, each rounded down; from seven days on
    the date itself. *)
Theorem formatTimestamp_buckets (now timestamp : Z) :
  isTimeValue now = true ->
  let date := timestamp * 1000 in
  let age := now - date in
  match formatTimestamp now timestamp with
  | Invalid_Date => isTimeValue date = false
  | just_now => isTimeValue date = true /\ age < 60000
  | minutes_ago n =>
      isTimeValue date = true /\ 1 <= n <= 59 /\ n * 60000 <= age < (n + 1) * 60000
  | hours_ago n =>
      isTimeValue date = true /\ 1 <= n <= 23 /\ n * 3600000 <= age < (n + 1) * 3600000
  | days_ago n =>
      isTimeValue date = true /\ 1 <= n <= 6 /\ n * 86400000 <= age < (n + 1) * 86400000
  | localeDate d => isTimeValue date = true /\ d = date /\ 7 * 86400000 <= age
  end.
Proof.
  intros _ date age. unfold formatTimestamp, TimeClip. fold date.
  destruct (isTimeValue date) eqn:Hdate; [|reflexivity].
  cbv zeta. fold age.
  change (1000 * 60 * 60 * 24) with 86400000. change (1000 * 60 * 60) with 3600000.
  change (1000 * 60) with 60000.
  destruct (Z.ltb_spec (age / 60000) 1) as [H1|H1].
  { split; [reflexivity|]. Z.div_mod_to_equations. lia. }
  destruct (Z.ltb_spec (age / 60000) 60) as [H2|H2].
  { split; [reflexivity|]. Z.div_mod_to_equations. lia. }
  destruct (Z.ltb_spec (age / 3600000) 24) as [H3|H3].
  { split; [reflexivity|]. Z.div_mod_to_equations. lia. }
  destruct (Z.ltb_spec (age / 86400000) 7) as [H4|H4].
  { split; [reflexivity|]. Z.div_mod_to_equations. lia. }
  split; [reflexivity|]. split; [reflexivity|]. Z.div_mod_to_equations. lia.
Qed.

Lemma formatTimestamp_buckets_witness :
  let now := 1700000000000 in
  let timestamp := 1699990000 in
  isTimeValue now = true /\
  formatTimestamp now timestamp = hours_ago 2 /\
  (let date := timestamp * 1000 in
   let age := now - date in
   match formatTimestamp now timestamp with
   | Invalid_Date => isTimeValue date = false
   | just_now => isTimeValue date = true /\ age < 60000
   | minutes_ago n =>
       isTimeValue date = true /\ 1 <= n <= 59 /\ n * 60000 <= age < (n + 1) * 60000
   | hours_ago n =>
       isTimeValue date = true /\ 1 <= n <= 23 /\ n * 3600000 <= age < (n + 1) * 3600000
   | days_ago n =>
       isTimeValue date = true /\ 1 <= n <= 6 /\ n * 86400000 <= age < (n + 1) * 86400000
   | localeDate d => isTimeValue date = true /\ d = date /\ 7 * 86400000 <= age
   end).
Proof.
  intros now timestamp.
  assert (H : isTimeValue now = true) by reflexivity.
  split; [exact H|]. split; [reflexivity|].
  apply (formatTimestamp_buckets now timestamp H).
Defined.

(** X26: the pages keep one event per id: after any sequence of events
    delivered to the handler of [fetchReplies] (and to the timeline
    handler of the wall, which is the same function), the list holds no
    two events with one id, holds the first event received with each id,
    in order of arrival, and delivering the same events again, from
    another relay, changes nothing. [handlePostEvent] does the same with
    the events of kind 1 and drops the others. *)
Theorem feeds_keep_first_event_per_id (events : list Event) :
  let replies := fold_left ThreadViewer.onReply events [] in
  replies = firstById [] events /\
  NoDup (map ev_id replies) /\
  (forall id, In id (map ev_id replies) <-> In id (map ev_id events)) /\
  fold_left ThreadViewer.onReply events replies = replies /\
  fold_left WallFeed.onTimelinePost events [] = replies /\
  fold_left NostrApp.handlePostEvent events []
    = firstById [] (List.filter (fun e => ev_kind e =? 1) events).
Proof.
  intros replies.
  assert (E : replies = firstById [] events) by (unfold replies; now rewrite onReply_fold).
  destruct (firstById_spec events []) as [Hnd Hin]. rewrite <- E in Hnd, Hin.
  split; [exact E|]. split; [exact Hnd|]. split; [|split; [|split]].
  - intros id. rewrite Hin. cbn. tauto.
  - apply onReply_known. intros e He. apply Hin. split; [now apply in_map | intros []].
  - reflexivity.
  - now rewrite handlePostEvent_fold, onReply_fold.
Qed.

(** X27: the following list of the wall is merged without duplicates: a
    following event with at least one valid key makes the list the keys
    it held and the keys of the event, each once, the keys held first and
    in their order when they were distinct; an event without a valid key
    leaves the list as it is; handling the same event again changes
    nothing. A key counts as valid by its length of 64 alone. *)
Theorem following_is_merged_without_duplicates (following : list string)
    (tags : list (list string)) :
  let pubkeys := WallFeed.followedPubkeys tags in
  let merged := WallFeed.onFollowingEvent following (Some tags) in
  Forall (fun p => String.length p = 64%nat) pubkeys /\
  (pubkeys = [] -> merged = following) /\
  (pubkeys <> [] ->
     NoDup merged /\ (forall p, In p merged <-> In p following \/ In p pubkeys)) /\
  (NoDup following -> exists added, merged = following ++ added) /\
  WallFeed.onFollowingEvent merged (Some tags) = merged.
Proof.
  intros pubkeys merged. unfold merged, WallFeed.onFollowingEvent. cbv zeta. fold pubkeys.
  split; [apply followedPubkeys_length|].
  destruct pubkeys as [|p l] eqn:Hp.
  { cbn. split; [reflexivity|]. split; [congruence|]. split; [|reflexivity].
    intros _. exists []. now rewrite app_nil_r. }
  rewrite <- Hp. assert (Hpos : (0 <? length pubkeys)%nat = true) by (rewrite Hp; reflexivity).
  rewrite Hpos. destruct (newSet_spec (following ++ pubkeys)) as [Hnd Hin].
  split; [rewrite Hp; discriminate|]. split; [|split].
  - intros _. split; [exact Hnd|]. intros x. now rewrite Hin, in_app_iff.
  - intros Hf. rewrite newSet_app, (newSet_NoDup following Hf).
    destruct (addAll_spec pubkeys following Hf) as (_ & _ & H & _). exact H.
  - rewrite newSet_app.
    destruct (addAll_spec pubkeys (WallFeed.newSet (WallFeed.newSet (following ++ pubkeys))))
      as (_ & _ & _ & H); [apply newSet_spec|].
    rewrite (newSet_NoDup (WallFeed.newSet (following ++ pubkeys)) Hnd) in *.
    apply H. intros x Hx. apply Hin, in_app_iff. now right.
Qed.

(** X28: the profile requests of the wall cover the following list: the
    batches, in order, are the list cut in pieces; every batch holds from
    1 to 20 keys, and there are as many batches as 20 keys at a time
    need. *)
Theorem profileBatches_cover_following (following : list string) :
  let batches := WallFeed.profileBatches following in
  concat batches = following /\
  Forall (fun batch => (1 <= length batch <= 20)%nat) batches /\
  length batches = ((length following + 19) / 20)%nat.
Proof.
  intros batches. unfold batches, WallFeed.profileBatches.
  destruct (batchesFrom_spec following (length following) 0 ltac:(lia)) as (H1 & H2 & H3).
  cbv zeta in *. rewrite skipn_O in H1. rewrite Nat.sub_0_r in H3. auto.
Qed.

End ContentFacts.
